(** * Organelle: an Org-mode lexer and parser, embedded in Rocq

    A shallow embedding of [lexer] (the tokenizer), [ast] (the tree model) and
    [parser] (the tree builder) of github.com/justyntemme/organelle, followed by
    the properties of the specification stated against that embedding.

    Conventions of the embedding.
    - A Go [string] is a sequence of bytes: [str := list ascii].
    - A Go [rune] and the [int] limits of the lexer are [Z]; indices, line and
      column counters are [nat] (they are bounded by the input length, so the
      64-bit wrap-around of Go's [int] is never reached).
    - Loops take [fuel]; running out of it is the outcome [OutOfFuel], which the
      totality theorems show is never reached with fuel above the input length.
    - An index or slice expression of the source is a checked operation whose
      failure is the outcome [Panic] (Go's run-time panic).
    - Pointers ([*ast.Headline], [*ast.ListItem], [*ast.List]) are indices into
      explicit stores, so that appending to the children of an object that is
      also referenced from a stack is visible through every reference.
    - Functions of Go's standard library are written out on bytes, following
      their documented behaviour on ASCII text; bytes above 0x7F are never
      white space, letters or digits and are left unchanged by [ToUpper].
      The regular expressions of the parser are written out as the matchers
      they denote under Go's leftmost-first semantics.
    - [log/slog] calls only observe; they are left out. The text of a
      diagnostic ([fmt.Sprintf]) is kept symbolic in the type [Diagnostic]. *)

From Stdlib Require Import Ascii String.
From Stdlib Require Import List ZArith Bool Arith Lia DecimalString.
Import ListNotations.

Set Implicit Arguments.
Set Warnings "-register-all".

(** ** Outcomes of a Go computation *)

Inductive result (A : Type) : Type :=
| Ok (a : A)
| Panic
| OutOfFuel.

Arguments Ok {A} a.
Arguments Panic {A}.
Arguments OutOfFuel {A}.

Definition bind {A B : Type} (m : result A) (k : A -> result B) : result B :=
  match m with
  | Ok a => k a
  | Panic => Panic
  | OutOfFuel => OutOfFuel
  end.

Notation "x <- m ;; k" := (bind m (fun x => k))
  (at level 61, m at next level, right associativity).
Notation "' pat <- m ;; k" := (bind m (fun x => match x with pat => k end))
  (at level 61, pat pattern, m at next level, right associativity).

(** ** Byte strings and the [strings] and [utf8] functions the code calls *)

Module gostrings.

Definition str : Type := list ascii.

Definition lit (s : string) : str := list_ascii_of_string s.

Definition LF : ascii := ascii_of_nat 10.

(** The text made of the given lines, each one followed by a newline. *)
Definition unlines (ls : list string) : str :=
  concat (map (fun l => lit l ++ [LF]) ls).

Definition byte (c : ascii) : Z := Z.of_nat (nat_of_ascii c).

(** The rune of an ASCII character literal such as ['*']. *)
Definition rune (c : ascii) : Z := byte c.

Definition str_eqb (a b : str) : bool :=
  if list_eq_dec ascii_dec a b then true else false.

(** [s[i]] *)
Definition at_ (s : str) (i : nat) : result ascii :=
  match nth_error s i with
  | Some c => Ok c
  | None => Panic
  end.

(** [s[lo:hi]] *)
Definition slice (s : str) (lo hi : nat) : result str :=
  if (lo <=? hi) && (hi <=? length s) then Ok (firstn (hi - lo) (skipn lo s))
  else Panic.

(** [s[lo:]] *)
Definition sliceFrom (s : str) (lo : nat) : result str :=
  slice s lo (length s).

(** [s[:hi]] *)
Definition sliceTo (s : str) (hi : nat) : result str :=
  slice s 0 hi.

Fixpoint dropWhile (f : ascii -> bool) (s : str) : str :=
  match s with
  | [] => []
  | c :: r => if f c then dropWhile f r else s
  end.

Fixpoint takeWhile (f : ascii -> bool) (s : str) : str :=
  match s with
  | [] => []
  | c :: r => if f c then c :: takeWhile f r else []
  end.

Definition inRange (lo hi : ascii) (c : ascii) : bool :=
  (nat_of_ascii lo <=? nat_of_ascii c) && (nat_of_ascii c <=? nat_of_ascii hi).

Definition isDigit (c : ascii) : bool := inRange "0" "9" c.
Definition isUpper (c : ascii) : bool := inRange "A" "Z" c.
Definition isLower (c : ascii) : bool := inRange "a" "z" c.

(** White space of [strings.TrimSpace] and [strings.Fields] on ASCII:
    tab, newline, vertical tab, form feed, carriage return, space.

    [TrimSpace], [Fields] and [ToUpper] below are the functions of Go on
    ASCII text, where Go works byte by byte. On text with a byte at or
    above 128 Go decodes runes: it also trims and splits at the Unicode
    white space (U+0085, U+00A0, U+3000, ...) and maps the letters outside
    ASCII (U+017F to S, U+0131 to I), which these byte-wise definitions do
    not. The statements whose truth depends on the difference are made for
    ASCII text ([spec.isASCII], [spec.asciiEnds]). *)
Definition isSpace (c : ascii) : bool :=
  let n := nat_of_ascii c in
  ((9 <=? n) && (n <=? 13)) || (n =? 32).

Definition toUpper (c : ascii) : ascii :=
  if isLower c then ascii_of_nat (nat_of_ascii c - 32) else c.

(** [strings.ToUpper] on ASCII text. *)
Definition ToUpper (s : str) : str := map toUpper s.

Definition TrimLeftFunc (f : ascii -> bool) (s : str) : str := dropWhile f s.
Definition TrimRightFunc (f : ascii -> bool) (s : str) : str :=
  rev (dropWhile f (rev s)).

Definition TrimSpace (s : str) : str :=
  TrimRightFunc isSpace (TrimLeftFunc isSpace s).

(** [strings.Trim(s, cutset)] for a one-byte cutset. *)
Definition Trim (s : str) (cut : ascii) : str :=
  TrimRightFunc (Ascii.eqb cut) (TrimLeftFunc (Ascii.eqb cut) s).

Fixpoint HasPrefix (s prefix : str) : bool :=
  match prefix, s with
  | [], _ => true
  | p :: ps, c :: cs => Ascii.eqb p c && HasPrefix cs ps
  | _ :: _, [] => false
  end.

Definition HasSuffix (s suffix : str) : bool :=
  HasPrefix (rev s) (rev suffix).

Definition TrimPrefix (s prefix : str) : str :=
  if HasPrefix s prefix then skipn (length prefix) s else s.

(** [strings.Index(s, substr)], -1 when [substr] does not occur. *)
Fixpoint Index_from (s substr : str) (i : Z) : Z :=
  if HasPrefix s substr then i
  else match s with
       | [] => (-1)%Z
       | _ :: r => Index_from r substr (i + 1)%Z
       end.

Definition Index (s substr : str) : Z := Index_from s substr 0%Z.

(** [strings.Count(s, sep)] for a one-byte separator. *)
Definition Count (s : str) (sep : ascii) : nat :=
  length (filter (Ascii.eqb sep) s).

(** [strings.Contains(s, substr)] for a one-byte [substr]. *)
Definition Contains (s : str) (c : ascii) : bool :=
  existsb (Ascii.eqb c) s.

Definition ContainsAny (s chars : str) : bool :=
  existsb (fun c => existsb (Ascii.eqb c) chars) s.

(** [strings.Split(s, sep)] for a one-byte separator: always at least one
    piece. *)
Fixpoint Split (s : str) (sep : ascii) : list str :=
  match s with
  | [] => [[]]
  | c :: r =>
      if Ascii.eqb c sep then [] :: Split r sep
      else match Split r sep with
           | [] => [[c]]
           | p :: ps => (c :: p) :: ps
           end
  end.

(** [strings.SplitN(s, sep, 2)] for a one-byte separator: the text before the
    first separator and, when there is one, the text after it. *)
Fixpoint SplitN2 (s : str) (sep : ascii) : list str :=
  match s with
  | [] => [[]]
  | c :: r =>
      if Ascii.eqb c sep then [[]; r]
      else match SplitN2 r sep with
           | p :: ps => (c :: p) :: ps
           | [] => [[c]]
           end
  end.

(** [strings.Fields(s)] on ASCII text: the maximal runs of non-space
    bytes. *)
Fixpoint Fields_aux (s : str) (cur : str) : list str :=
  match s with
  | [] => match cur with [] => [] | _ => [rev cur] end
  | c :: r =>
      if isSpace c
      then match cur with
           | [] => Fields_aux r []
           | _ => rev cur :: Fields_aux r []
           end
      else Fields_aux r (c :: cur)
  end.

Definition Fields (s : str) : list str := Fields_aux s [].

Fixpoint Join (elems : list str) (sep : str) : str :=
  match elems with
  | [] => []
  | [e] => e
  | e :: r => e ++ sep ++ Join r sep
  end.

(** [utf8.DecodeRuneInString]: the rune at the head of [s] and its width in
    bytes; [(RuneError, 0)] on the empty string and [(RuneError, 1)] on an
    invalid or truncated encoding. *)
Definition RuneError : Z := 65533%Z.

Definition continuation (lo hi : Z) (c : ascii) : bool :=
  ((lo <=? byte c) && (byte c <=? hi))%Z.

Definition DecodeRuneInString (s : str) : Z * nat :=
  match s with
  | [] => (RuneError, 0)
  | c0 :: r =>
      let b0 := byte c0 in
      if (b0 <? 128)%Z then (b0, 1)
      else if (b0 <? 194)%Z then (RuneError, 1)
      else if (b0 <? 224)%Z then
        match r with
        | c1 :: _ =>
            if continuation 128 191 c1
            then (Z.lor (Z.shiftl (Z.land b0 31) 6) (Z.land (byte c1) 63), 2)
            else (RuneError, 1)
        | _ => (RuneError, 1)
        end
      else if (b0 <? 240)%Z then
        let lo := if (b0 =? 224)%Z then 160%Z else 128%Z in
        let hi := if (b0 =? 237)%Z then 159%Z else 191%Z in
        match r with
        | c1 :: c2 :: _ =>
            if continuation lo hi c1 && continuation 128 191 c2
            then (Z.lor (Z.lor (Z.shiftl (Z.land b0 15) 12)
                               (Z.shiftl (Z.land (byte c1) 63) 6))
                        (Z.land (byte c2) 63), 3)
            else (RuneError, 1)
        | _ => (RuneError, 1)
        end
      else if (b0 <? 245)%Z then
        let lo := if (b0 =? 240)%Z then 144%Z else 128%Z in
        let hi := if (b0 =? 244)%Z then 143%Z else 191%Z in
        match r with
        | c1 :: c2 :: c3 :: _ =>
            if continuation lo hi c1 && continuation 128 191 c2
               && continuation 128 191 c3
            then (Z.lor (Z.lor (Z.lor (Z.shiftl (Z.land b0 7) 18)
                                      (Z.shiftl (Z.land (byte c1) 63) 12))
                               (Z.shiftl (Z.land (byte c2) 63) 6))
                        (Z.land (byte c3) 63), 4)
            else (RuneError, 1)
        | _ => (RuneError, 1)
        end
      else (RuneError, 1)
  end.

(** [string(b)] for a byte [b]: the UTF-8 encoding of the code point [b]. *)
Definition stringOfByte (c : ascii) : str :=
  let n := nat_of_ascii c in
  if n <? 128 then [c]
  else [ascii_of_nat (192 + n / 64); ascii_of_nat (128 + n mod 64)].

End gostrings.

Import gostrings.

(** ** package token *)

Module token.

Inductive TokenType : Type :=
| ILLEGAL | EOF
| STARS | KEYWORD | TEXT | NEWLINE | TODO | DONE | PRIORITY
| BLOCK_BEGIN | BLOCK_END | DRAWER_BEGIN | DRAWER_END
| LIST_ITEM | TABLE_ROW | TABLE_SEP | TIMESTAMP | LINK | COMMENT.

Definition TokenType_eq_dec (a b : TokenType) : {a = b} + {a <> b}.
Proof. decide equality. Defined.

Definition eqb (a b : TokenType) : bool :=
  if TokenType_eq_dec a b then true else false.

Record Token : Type := mkToken {
  Typ : TokenType;
  Literal : str;
  Line : nat;
  Column : nat
}.

End token.

(** ** context.Context

    A context is observed only by polling [Done()]. It is modelled by the
    number of polls that still find it alive: [None] is a context that is never
    cancelled ([context.Background()]), [Some 0] one that is already done. *)

Module context.

Definition Context : Type := option nat.

Definition Background : Context := None.

(** One poll of [ctx.Done()]: whether the context is done, and the context as
    the next poll finds it. *)
Definition poll (c : Context) : bool * Context :=
  match c with
  | None => (false, None)
  | Some 0 => (true, Some 0)
  | Some (S k) => (false, Some k)
  end.

End context.

(** ** package lexer *)

Module lexer.

Import token.

Definition DefaultMaxInputSize : Z := 10 * 1024 * 1024.
Definition DefaultMaxLineLength : Z := 10000.

(** The values [Err()] can hold: the two package errors and [ctx.Err()]. *)
Inductive error : Type :=
| ErrInputTooLarge
| ErrLineTooLong
| ErrContext.

Record Lexer : Type := mkLexer {
  input : str;
  position : nat;
  readPosition : nat;
  ch : Z;
  prevCh : Z;
  line : nat;
  column : nat;
  ctx : context.Context;
  maxInputSize : Z;
  maxLineLength : Z;
  err : option error
}.

Definition set_err (l : Lexer) (e : option error) : Lexer :=
  mkLexer (input l) (position l) (readPosition l) (ch l) (prevCh l) (line l)
          (column l) (ctx l) (maxInputSize l) (maxLineLength l) e.

Definition set_ctx (l : Lexer) (c : context.Context) : Lexer :=
  mkLexer (input l) (position l) (readPosition l) (ch l) (prevCh l) (line l)
          (column l) c (maxInputSize l) (maxLineLength l) (err l).

Definition set_line (l : Lexer) (n : nat) : Lexer :=
  mkLexer (input l) (position l) (readPosition l) (ch l) (prevCh l) n
          (column l) (ctx l) (maxInputSize l) (maxLineLength l) (err l).

(** The functional options a caller can build; [WithLogger] has no effect on
    the tokens. *)
Inductive Option : Type :=
| WithLogger
| WithContext (c : context.Context)
| WithMaxInputSize (size : Z)
| WithMaxLineLength (length : Z).

Definition applyOption (l : Lexer) (opt : Option) : Lexer :=
  match opt with
  | WithLogger => l
  | WithContext c => set_ctx l c
  | WithMaxInputSize size =>
      mkLexer (input l) (position l) (readPosition l) (ch l) (prevCh l)
              (line l) (column l) (ctx l) size (maxLineLength l) (err l)
  | WithMaxLineLength n =>
      mkLexer (input l) (position l) (readPosition l) (ch l) (prevCh l)
              (line l) (column l) (ctx l) (maxInputSize l) n (err l)
  end.

Definition readChar (l : Lexer) : Lexer :=
  let prev := ch l in
  if length (input l) <=? readPosition l then
    mkLexer (input l) (readPosition l) (S (readPosition l)) 0%Z prev
            (line l) (S (column l)) (ctx l) (maxInputSize l) (maxLineLength l)
            (err l)
  else
    let '(r, w) := DecodeRuneInString (skipn (readPosition l) (input l)) in
    mkLexer (input l) (readPosition l) (readPosition l + w) r prev
            (line l) (if (prev =? rune LF)%Z then 1 else S (column l))
            (ctx l) (maxInputSize l) (maxLineLength l) (err l).

Definition New (input : str) (opts : list Option) : Lexer :=
  let l := mkLexer input 0 0 0%Z 0%Z 1 0 context.Background
                   DefaultMaxInputSize DefaultMaxLineLength None in
  let l := fold_left applyOption opts l in
  let l := if (maxInputSize l <? Z.of_nat (length input))%Z
           then set_err l (Some ErrInputTooLarge) else l in
  readChar l.

Definition Err (l : Lexer) : option error := err l.

Definition checkContext (l : Lexer) : bool * Lexer :=
  let '(done, c) := context.poll (ctx l) in
  if done then (true, set_err (set_ctx l c) (Some ErrContext))
  else (false, set_ctx l c).

Definition peekChar (l : Lexer) : Z :=
  if length (input l) <=? readPosition l then 0%Z
  else fst (DecodeRuneInString (skipn (readPosition l) (input l))).

(** [for cond(l.ch) { l.readChar() }], with the number of iterations. *)
Fixpoint readWhile (cond : Z -> bool) (fuel : nat) (l : Lexer) (n : nat)
  : result (nat * Lexer) :=
  match fuel with
  | 0 => OutOfFuel
  | S f => if cond (ch l) then readWhile cond f (readChar l) (S n)
           else Ok (n, l)
  end.

(** [l.ch != '\n' && l.ch != 0] *)
Definition notEOL (c : Z) : bool :=
  negb (c =? rune LF)%Z && negb (c =? 0)%Z.

Definition isEOL (c : Z) : bool := (c =? rune LF)%Z || (c =? 0)%Z.

Definition isDigitRune (c : Z) : bool :=
  (rune "0" <=? c)%Z && (c <=? rune "9")%Z.

Definition newToken (l : Lexer) (tokenType : TokenType) (lit : str) : Token :=
  mkToken tokenType lit (line l) (column l).

Definition readStars (fuel : nat) (l : Lexer) : result (str * Lexer) :=
  let position0 := position l in
  '(_, l) <- readWhile (fun c => (c =? rune "*")%Z) fuel l 0 ;;
  s <- slice (input l) position0 (position l) ;;
  Ok (s, l).

Fixpoint readToEndOfLine_loop (fuel : nat) (l : Lexer) (charCount : Z)
  : result Lexer :=
  match fuel with
  | 0 => OutOfFuel
  | S f =>
      if notEOL (ch l) then
        let charCount := (charCount + 1)%Z in
        if (maxLineLength l <? charCount)%Z
        then Ok (set_err l (Some ErrLineTooLong))
        else readToEndOfLine_loop f (readChar l) charCount
      else Ok l
  end.

Definition readToEndOfLine (fuel : nat) (l : Lexer) : result (str * Lexer) :=
  let position0 := position l in
  l <- readToEndOfLine_loop fuel l 0%Z ;;
  s <- slice (input l) position0 (position l) ;;
  Ok (s, l).

(** The common tail of the line readers: run to the end of the line and cut
    the literal [l.input[position:l.position]]. *)
Definition restOfLine (fuel : nat) (position0 : nat) (l : Lexer)
  : result (str * Lexer) :=
  '(_, l) <- readWhile notEOL fuel l 0 ;;
  literal <- slice (input l) position0 (position l) ;;
  Ok (literal, l).

Definition readOrgDirective (fuel : nat) (l : Lexer) : result (Token * Lexer) :=
  let position0 := position l in
  let line0 := line l in
  let col := column l in
  '(literal, l) <- restOfLine fuel position0 l ;;
  let upperLiteral := ToUpper literal in
  if HasPrefix upperLiteral (lit "#+BEGIN_")
  then Ok (mkToken BLOCK_BEGIN literal line0 col, l)
  else if HasPrefix upperLiteral (lit "#+END_")
  then Ok (mkToken BLOCK_END literal line0 col, l)
  else Ok (mkToken KEYWORD literal line0 col, l).

Definition readComment (fuel : nat) (l : Lexer) : result (Token * Lexer) :=
  let position0 := position l in
  let line0 := line l in
  let col := column l in
  '(literal, l) <- restOfLine fuel position0 l ;;
  Ok (mkToken COMMENT literal line0 col, l).

Definition readDrawerOrProperty (fuel : nat) (l : Lexer)
  : result (Token * Lexer) :=
  let position0 := position l in
  let line0 := line l in
  let col := column l in
  '(literal, l) <- restOfLine fuel position0 l ;;
  let trimmed := TrimSpace literal in
  if str_eqb (ToUpper trimmed) (lit ":END:")
  then Ok (mkToken DRAWER_END literal line0 col, l)
  else if HasPrefix trimmed (lit ":") && HasSuffix trimmed (lit ":")
          && (Count trimmed ":" =? 2)
  then Ok (mkToken DRAWER_BEGIN literal line0 col, l)
  else Ok (mkToken TEXT literal line0 col, l).

Definition readDashLine (fuel : nat) (l : Lexer) : result (Token * Lexer) :=
  let position0 := position l in
  let line0 := line l in
  let col := column l in
  '(dashCount, l) <- readWhile (fun c => (c =? rune "-")%Z) fuel l 0 ;;
  if (5 <=? dashCount) && isEOL (ch l) then
    literal <- slice (input l) position0 (position l) ;;
    Ok (mkToken TEXT literal line0 col, l)
  else if (dashCount =? 1) && (ch l =? rune " ")%Z then
    '(literal, l) <- restOfLine fuel position0 l ;;
    Ok (mkToken LIST_ITEM literal line0 col, l)
  else
    '(literal, l) <- restOfLine fuel position0 l ;;
    Ok (mkToken TEXT literal line0 col, l).

Definition readListItem (fuel : nat) (l : Lexer) : result (Token * Lexer) :=
  let position0 := position l in
  let line0 := line l in
  let col := column l in
  '(literal, l) <- restOfLine fuel position0 l ;;
  Ok (mkToken LIST_ITEM literal line0 col, l).

Definition isMarkerEnd (l : Lexer) : bool :=
  ((ch l =? rune ".")%Z || (ch l =? rune ")")%Z)
  && (peekChar l =? rune " ")%Z.

Definition tryReadOrderedListItem (fuel : nat) (l : Lexer)
  : result (Token * Lexer) :=
  let position0 := position l in
  let line0 := line l in
  let col := column l in
  '(_, l) <- readWhile isDigitRune fuel l 0 ;;
  if isMarkerEnd l then
    let l := readChar l in
    '(literal, l) <- restOfLine fuel position0 l ;;
    Ok (mkToken LIST_ITEM literal line0 col, l)
  else
    '(literal, l) <- restOfLine fuel position0 l ;;
    Ok (mkToken TEXT literal line0 col, l).

Definition tryReadIndentedListItem (fuel : nat) (l : Lexer)
  : result (Token * Lexer) :=
  let position0 := position l in
  let line0 := line l in
  let col := column l in
  '(_, l) <- readWhile (fun c => (c =? rune " ")%Z || (c =? 9)%Z) fuel l 0 ;;
  if ((ch l =? rune "-")%Z || (ch l =? rune "+")%Z)
     && (peekChar l =? rune " ")%Z then
    '(literal, l) <- restOfLine fuel position0 l ;;
    Ok (mkToken LIST_ITEM literal line0 col, l)
  else if isDigitRune (ch l) then
    '(_, l) <- readWhile isDigitRune fuel l 0 ;;
    if isMarkerEnd l then
      let l := readChar l in
      '(literal, l) <- restOfLine fuel position0 l ;;
      Ok (mkToken LIST_ITEM literal line0 col, l)
    else
      '(literal, l) <- restOfLine fuel position0 l ;;
      Ok (mkToken TEXT literal line0 col, l)
  else
    '(literal, l) <- restOfLine fuel position0 l ;;
    Ok (mkToken TEXT literal line0 col, l).

Definition alnum : str :=
  lit "abcdefghijklmnopqrstuvwxyzABCDEFGHIJKLMNOPQRSTUVWXYZ0123456789".

Definition readTableRow (fuel : nat) (l : Lexer) : result (Token * Lexer) :=
  let position0 := position l in
  let line0 := line l in
  let col := column l in
  '(literal, l) <- restOfLine fuel position0 l ;;
  let trimmed := TrimSpace literal in
  let isSeparator :=
    HasPrefix trimmed (lit "|") && HasSuffix trimmed (lit "|")
    && negb (ContainsAny (Trim trimmed "|") alnum) in
  if isSeparator && Contains trimmed "-"
  then Ok (mkToken TABLE_SEP literal line0 col, l)
  else Ok (mkToken TABLE_ROW literal line0 col, l).

Definition readTextLine (fuel : nat) (l : Lexer) : result (Token * Lexer) :=
  let position0 := position l in
  let line0 := line l in
  let col := column l in
  '(literal, l) <- restOfLine fuel position0 l ;;
  Ok (mkToken TEXT literal line0 col, l).

Definition NextToken (fuel : nat) (l : Lexer) : result (Token * Lexer) :=
  let tokLine := line l in
  let tokColumn := column l in
  match err l with
  | Some _ => Ok (mkToken EOF [] tokLine tokColumn, l)
  | None =>
      let '(cancelled, l) := checkContext l in
      if cancelled then Ok (mkToken EOF [] tokLine tokColumn, l)
      else
        let isLineStart := (position l =? 0) || (prevCh l =? rune LF)%Z in
        let c := ch l in
        if (c =? 0)%Z then Ok (mkToken EOF [] tokLine tokColumn, l)
        else if (c =? rune LF)%Z then
          let tok := newToken l NEWLINE [LF] in
          let l := set_line l (S (line l)) in
          Ok (tok, readChar l)
        else if (c =? rune "*")%Z then
          if isLineStart then
            '(stars, l) <- readStars fuel l ;;
            if (ch l =? rune " ")%Z
            then Ok (mkToken STARS stars tokLine tokColumn, l)
            else
              '(rest, l) <- readToEndOfLine fuel l ;;
              Ok (mkToken TEXT (stars ++ rest) tokLine tokColumn, l)
          else readTextLine fuel l
        else if (c =? rune "#")%Z then
          if isLineStart && (peekChar l =? rune "+")%Z
          then readOrgDirective fuel l
          else if isLineStart && ((peekChar l =? rune " ")%Z
                                  || (peekChar l =? rune LF)%Z
                                  || (peekChar l =? 0)%Z)
          then readComment fuel l
          else readTextLine fuel l
        else if (c =? rune ":")%Z then
          if isLineStart then readDrawerOrProperty fuel l
          else readTextLine fuel l
        else if (c =? rune "-")%Z then
          if isLineStart then readDashLine fuel l
          else readTextLine fuel l
        else if (c =? rune "+")%Z then
          if isLineStart && (peekChar l =? rune " ")%Z
          then readListItem fuel l
          else readTextLine fuel l
        else if (c =? rune "|")%Z then
          if isLineStart then readTableRow fuel l
          else readTextLine fuel l
        else if (c =? rune " ")%Z || (c =? 9)%Z then
          if isLineStart then
            '(tok, l') <- tryReadIndentedListItem fuel l ;;
            if token.eqb (Typ tok) ILLEGAL then readTextLine fuel l'
            else Ok (tok, l')
          else readTextLine fuel l
        else
          if isLineStart && isDigitRune c then
            '(tok, l') <- tryReadOrderedListItem fuel l ;;
            if token.eqb (Typ tok) ILLEGAL then readTextLine fuel l'
            else Ok (tok, l')
          else readTextLine fuel l
  end.


End lexer.

(** ** package ast *)

Module ast.

Import token.

Inductive InlineType : Type :=
| InlineText
| InlineBold
| InlineItalic
| InlineCode
| InlineVerbatim
| InlineStrikethrough
| InlineUnderline
| InlineLink.

Definition InlineType_eq_dec (a b : InlineType) : {a = b} + {a <> b}.
Proof. decide equality. Defined.

(** [InlineElement{Type, Content, URL, Children}] *)
Inductive InlineElement : Type :=
| mkInline (Typ : InlineType) (Content : str) (URL : str)
           (Children : list InlineElement).

Definition Typ (e : InlineElement) : InlineType :=
  match e with mkInline t _ _ _ => t end.
Definition Content (e : InlineElement) : str :=
  match e with mkInline _ c _ _ => c end.
Definition URL (e : InlineElement) : str :=
  match e with mkInline _ _ u _ => u end.
Definition Children (e : InlineElement) : list InlineElement :=
  match e with mkInline _ _ _ ch => ch end.

Fixpoint PlainText (e : InlineElement) : str :=
  match e with
  | mkInline t content _ children =>
      match t with
      | InlineText | InlineCode | InlineVerbatim => content
      | _ => concat (map PlainText children)
      end
  end.

Inductive CheckboxState : Type :=
| CheckboxNone
| CheckboxUnchecked
| CheckboxChecked
| CheckboxPartial.

(** [TableRow{Token, Cells, Separator}] *)
Record TableRow : Type := mkTableRow {
  rowToken : Token;
  Cells : list str;
  Separator : bool
}.

(** The node types behind the [Node] interface, as the tree a consumer walks
    (every pointer followed). [NilKeyword] is a nil [*ast.Keyword] held in a
    [Node] interface value: [parseNode] returns the [*ast.Keyword] of
    [parseKeyword] as a [Node], and such a value is not equal to [nil]. *)
Inductive Node : Type :=
| Headline (tok : Token) (level : nat) (keyword priority title : str)
           (tags : list str) (children : list Node)
| Paragraph (tok : Token) (content : str) (inline : list InlineElement)
| Keyword (tok : Token) (key value : str)
| NilKeyword
| Block (tok : Token) (typ language params content : str)
| Drawer (tok : Token) (name : str) (properties : list (str * str))
         (content : str)
| List (tok : Token) (ordered : bool) (items : list ListItem)
| Table (tok : Token) (rows : list TableRow)
| Timestamp (tok : Token) (active : bool)
            (date time repeat warning endDate endTime : str)
| Link (tok : Token) (url description : str)
| Comment (tok : Token) (content : str)
| HorizontalRule (tok : Token)
with ListItem : Type :=
| mkListItem (tok : Token) (indent : nat) (checkbox : CheckboxState)
             (content : str) (children : list Node).

(** [Document{Children}] *)
Record Document : Type := mkDocument {
  docChildren : list Node
}.

(** *** [TokenLiteral()] and [String()]

    Both dereference their receiver, so on the nil [*ast.Keyword] they
    panic. [fmt.Sprintf("%d", n)] is the decimal numeral of [n]. *)

Definition Itoa (n : nat) : str :=
  list_ascii_of_string (NilEmpty.string_of_uint (Nat.to_uint n)).

Definition nonEmpty (s : str) : bool :=
  match s with
  | [] => false
  | _ => true
  end.

Definition TokenLiteral (n : Node) : result str :=
  match n with
  | Headline tok _ _ _ _ _ _ => Ok (Literal tok)
  | Paragraph tok _ _ => Ok (Literal tok)
  | Keyword tok _ _ => Ok (Literal tok)
  | NilKeyword => Panic
  | Block tok _ _ _ _ => Ok (Literal tok)
  | Drawer tok _ _ _ => Ok (Literal tok)
  | List tok _ _ => Ok (Literal tok)
  | Table tok _ => Ok (Literal tok)
  | Timestamp tok _ _ _ _ _ _ _ => Ok (Literal tok)
  | Link tok _ _ => Ok (Literal tok)
  | Comment tok _ => Ok (Literal tok)
  | HorizontalRule tok => Ok (Literal tok)
  end.

(** [Document.TokenLiteral] *)
Definition DocumentTokenLiteral (d : Document) : result str :=
  match docChildren d with
  | c :: _ => TokenLiteral c
  | [] => Ok []
  end.

(** [TableRow.String] *)
Definition TableRowString (tr : TableRow) : str :=
  if Separator tr then lit "|" ++ repeat "-"%char 10 ++ lit "|" ++ [LF]
  else lit "| " ++ Join (Cells tr) (lit " | ") ++ lit " |" ++ [LF].

Definition CheckboxString (c : CheckboxState) : str :=
  match c with
  | CheckboxUnchecked => lit "[ ] "
  | CheckboxChecked => lit "[X] "
  | CheckboxPartial => lit "[-] "
  | CheckboxNone => []
  end.

(** [Timestamp.String] *)
Definition TimestampString (active : bool)
                           (date time repeat warning endDate endTime : str)
  : str :=
  let open := if active then lit "<" else lit "[" in
  let close := if active then lit ">" else lit "]" in
  open ++ date
  ++ (if nonEmpty time then lit " " ++ time else [])
  ++ (if nonEmpty repeat then lit " " ++ repeat else [])
  ++ (if nonEmpty warning then lit " " ++ warning else [])
  ++ close
  ++ (if nonEmpty endDate
      then lit "--" ++ open ++ endDate
           ++ (if nonEmpty endTime then lit " " ++ endTime else [])
           ++ close
      else []).

Section String.

(** The order in which [range] visits the entries of a [map[string]string],
    which Go leaves unspecified: any function of the entries. *)
Variable rangeOrder : list (str * str) -> list (str * str).

(** [String()] of each node type, through the [Node] interface. *)
Fixpoint String (n : Node) : result str :=
  match n with
  | Headline _ level keyword priority title tags children =>
      cs <- (fix all (l : list Node) : result str :=
               match l with
               | [] => Ok []
               | c :: r => s <- String c ;; t <- all r ;; Ok (s ++ t)
               end) children ;;
      Ok (repeat "*"%char level ++ lit " "
          ++ (if nonEmpty keyword then keyword ++ lit " " else [])
          ++ (if nonEmpty priority then lit "[#" ++ priority ++ lit "] "
              else [])
          ++ title
          ++ (if 0 <? length tags
              then lit " :" ++ Join tags (lit ":") ++ lit ":" else [])
          ++ [LF] ++ cs)
  | Paragraph _ content _ => Ok (content ++ [LF])
  | Keyword _ key value => Ok (lit "#+" ++ key ++ lit ": " ++ value ++ [LF])
  | NilKeyword => Panic
  | Block _ typ language params content =>
      Ok (lit "#+BEGIN_" ++ typ
          ++ (if nonEmpty language then lit " " ++ language else [])
          ++ (if nonEmpty params then lit " " ++ params else [])
          ++ [LF] ++ content
          ++ (if negb (HasSuffix content [LF]) && nonEmpty content
              then [LF] else [])
          ++ lit "#+END_" ++ typ ++ [LF])
  | Drawer _ name properties content =>
      Ok (lit ":" ++ name ++ lit ":" ++ [LF]
          ++ (if str_eqb name (lit "PROPERTIES")
              then concat (map (fun kv => lit ":" ++ fst kv ++ lit ": "
                                          ++ snd kv ++ [LF])
                               (rangeOrder properties))
              else content)
          ++ lit ":END:" ++ [LF])
  | List _ ordered items =>
      (fix all (i : nat) (l : list ListItem) : result str :=
         match l with
         | [] => Ok []
         | it :: r =>
             s <- (match it with
                   | mkListItem _ _ checkbox content children =>
                       cs <- (fix each (l : list Node) : result str :=
                                match l with
                                | [] => Ok []
                                | c :: r =>
                                    s <- String c ;; t <- each r ;;
                                    Ok (lit "  " ++ s ++ t)
                                end) children ;;
                       Ok (CheckboxString checkbox ++ content ++ [LF] ++ cs)
                   end) ;;
             t <- all (S i) r ;;
             Ok ((if ordered then Itoa (i + 1) ++ lit ". " else lit "- ")
                 ++ s ++ t)
         end) 0 items
  | Table _ rows => Ok (concat (map TableRowString rows))
  | Timestamp _ active date time repeat warning endDate endTime =>
      Ok (TimestampString active date time repeat warning endDate endTime)
  | Link _ url description =>
      Ok (if nonEmpty description
          then lit "[[" ++ url ++ lit "][" ++ description ++ lit "]]"
          else lit "[[" ++ url ++ lit "]]")
  | Comment _ content => Ok (lit "# " ++ content ++ [LF])
  | HorizontalRule _ => Ok (lit "-----" ++ [LF])
  end.

(** [Document.String] *)
Definition DocumentString (d : Document) : result str :=
  (fix all (l : list Node) : result str :=
     match l with
     | [] => Ok []
     | c :: r => s <- String c ;; t <- all r ;; Ok (s ++ t)
     end) (docChildren d).

End String.

(** The loops of [String()], named: the concatenation over the children of a
    headline or a document, over the children of a list item (each after two
    spaces), [ListItem.String], and the loop of [List.String] from index
    [i]. *)
Fixpoint StringAll (rangeOrder : list (str * str) -> list (str * str))
                   (l : list Node) : result str :=
  match l with
  | [] => Ok []
  | c :: r => s <- String rangeOrder c ;; t <- StringAll rangeOrder r ;;
              Ok (s ++ t)
  end.

Fixpoint StringEach (rangeOrder : list (str * str) -> list (str * str))
                    (l : list Node) : result str :=
  match l with
  | [] => Ok []
  | c :: r => s <- String rangeOrder c ;; t <- StringEach rangeOrder r ;;
              Ok (lit "  " ++ s ++ t)
  end.

Definition ListItemString (rangeOrder : list (str * str) -> list (str * str))
                          (it : ListItem) : result str :=
  match it with
  | mkListItem _ _ checkbox content children =>
      cs <- StringEach rangeOrder children ;;
      Ok (CheckboxString checkbox ++ content ++ [LF] ++ cs)
  end.

Fixpoint ListString (rangeOrder : list (str * str) -> list (str * str))
                    (ordered : bool) (i : nat) (l : list ListItem)
  : result str :=
  match l with
  | [] => Ok []
  | it :: r =>
      s <- ListItemString rangeOrder it ;;
      t <- ListString rangeOrder ordered (S i) r ;;
      Ok ((if ordered then Itoa (i + 1) ++ lit ". " else lit "- ") ++ s ++ t)
  end.

End ast.

(** ** package parser *)

Module parser.

Import token.

(** *** The regular expressions

    Each matcher returns what the code reads from the match: the text of the
    capture groups and, where the code slices by it, the length of the whole
    match. [\s] is the class of the regexp package: tab, newline, form feed,
    carriage return and space. *)

Definition isReSpace (c : ascii) : bool :=
  let n := nat_of_ascii c in
  (n =? 9) || (n =? 10) || (n =? 12) || (n =? 13) || (n =? 32).

Definition oneOf (chars : string) (c : ascii) : bool :=
  existsb (Ascii.eqb c) (lit chars).

(** [^\[#([A-Z])\]\s*]: the length of the match and group 1. *)
Definition priorityRegex (s : str) : option (nat * str) :=
  match s with
  | "["%char :: "#"%char :: c :: "]"%char :: r =>
      if isUpper c then Some (4 + length (takeWhile isReSpace r), [c])
      else None
  | _ => None
  end.

Definition isTagChar (c : ascii) : bool :=
  isLower c || isUpper c || isDigit c || oneOf "_@#%:" c.

(** [\s+:([a-zA-Z0-9_@#%:]+):\s*$] anchored at the head of [s]: group 1.
    The white space run is followed by a colon, the rest of the text without
    its trailing white space ends with a colon, and what lies between the two
    colons is a non-empty run of tag characters. *)
Definition tagsRegex_at (s : str) : option str :=
  match s with
  | c :: _ =>
      if isReSpace c then
        match dropWhile isReSpace s with
        | ":"%char :: body =>
            match rev (TrimRightFunc isReSpace body) with
            | ":"%char :: rtags =>
                let tags := rev rtags in
                if (0 <? length tags) && forallb isTagChar tags
                then Some tags else None
            | _ => None
            end
        | _ => None
        end
      else None
  | [] => None
  end.

(** [tagsRegex.FindStringSubmatch]: the leftmost match; the length of
    [matches[0]] (which runs to the end of the text) and [matches[1]]. *)
Fixpoint tagsRegex (s : str) : option (nat * str) :=
  match tagsRegex_at s with
  | Some tags => Some (length s, tags)
  | None => match s with
            | [] => None
            | _ :: r => tagsRegex r
            end
  end.

(** [^\s*\[([ X\-])\]\s*]: the length of the match and the byte of group 1. *)
Definition checkboxRegex (s : str) : option (nat * ascii) :=
  match dropWhile isReSpace s with
  | "["%char :: c :: "]"%char :: r =>
      if oneOf " X-" c
      then Some (length (takeWhile isReSpace s) + 3
                 + length (takeWhile isReSpace r), c)
      else None
  | _ => None
  end.

Definition notColon (c : ascii) : bool := negb (Ascii.eqb c ":").

(** [propertyRegex]: a colon, a non-empty run of non-colon bytes (group 1), a
    colon, white space, and the rest of the text (group 2), which must hold no
    newline since the dot does not match one. *)
Definition propertyRegex (s : str) : option (str * str) :=
  match s with
  | ":"%char :: r =>
      match takeWhile notColon r, dropWhile notColon r with
      | (_ :: _) as key, ":"%char :: rest =>
          let value := dropWhile isReSpace rest in
          if Contains value LF then None else Some (key, value)
      | _, _ => None
      end
  | _ => None
  end.

Definition notRBracket (c : ascii) : bool := negb (Ascii.eqb c "]").

(** [\[\[([^\]]+)\](?:\[([^\]]+)\])?\]] matched at offset 0, which is what
    [matches != nil && matches[0] == 0] asks of the leftmost match: group 1,
    group 2 when it took part, and the end offset [matches[1]]. *)
Definition linkRegex (s : str) : option (str * option str * nat) :=
  match s with
  | "["%char :: "["%char :: r =>
      match takeWhile notRBracket r, dropWhile notRBracket r with
      | (_ :: _) as url, "]"%char :: r1 =>
          match r1 with
          | "]"%char :: _ => Some (url, None, length url + 4)
          | "["%char :: r2 =>
              match takeWhile notRBracket r2, dropWhile notRBracket r2 with
              | (_ :: _) as desc, "]"%char :: "]"%char :: _ =>
                  Some (url, Some desc, length url + length desc + 6)
              | _, _ => None
              end
          | _ => None
          end
      | _, _ => None
      end
  | _ => None
  end.

(** *** Diagnostics

    [p.errors] holds formatted strings; the format arguments are kept. *)

Inductive Message : Type :=
| MsgCancelled                      (* "parsing cancelled: %v" *)
| MsgLexerError (e : lexer.error)   (* "lexer error: %v" *)
| MsgInvalidKeyword (literal : str) (* "invalid keyword format: ... got %q" *)
| MsgEmptyKey (literal : str).      (* "empty keyword key in %q" *)

Inductive Diagnostic : Type :=
| DiagErr (e : lexer.error)             (* err.Error() *)
| DiagLine (line : nat) (m : Message).  (* "line %d: %s" *)

(** *** The parser state *)

Record Parser : Type := mkParser {
  l : lexer.Lexer;
  curToken : Token;
  peekToken : Token;
  errors : list Diagnostic;
  ctx : context.Context
}.

Inductive Option : Type :=
| WithLogger
| WithContext (c : context.Context).

Definition applyOption (p : Parser) (opt : Option) : Parser :=
  match opt with
  | WithLogger => p
  | WithContext c => mkParser (l p) (curToken p) (peekToken p) (errors p) c
  end.

Definition nextToken (fuel : nat) (p : Parser) : result Parser :=
  '(tok, l') <- lexer.NextToken fuel (l p) ;;
  Ok (mkParser l' (peekToken p) tok (errors p) (ctx p)).

Definition addError (p : Parser) (m : Message) : Parser :=
  mkParser (l p) (curToken p) (peekToken p)
           (errors p ++ [DiagLine (Line (curToken p)) m]) (ctx p).

(** The zero [Token] both lookahead slots start from; its [Type] is the empty
    string, which is none of the token types, and both slots are overwritten
    before [New] returns. *)
Definition zeroToken : Token := mkToken ILLEGAL [] 0 0.

Definition New (fuel : nat) (l : lexer.Lexer) (opts : list Option)
  : result Parser :=
  let p := mkParser l zeroToken zeroToken [] context.Background in
  let p := fold_left applyOption opts p in
  let p := match lexer.Err l with
           | Some e => mkParser (parser.l p) (curToken p) (peekToken p)
                                (errors p ++ [DiagErr e]) (ctx p)
           | None => p
           end in
  p <- nextToken fuel p ;;
  nextToken fuel p.

Definition checkContext (p : Parser) : bool * Parser :=
  let '(done, c) := context.poll (ctx p) in
  let p := mkParser (l p) (curToken p) (peekToken p) (errors p) c in
  if done then (true, addError p MsgCancelled) else (false, p).

Definition Errors (p : Parser) : list Diagnostic := errors p.

Definition peekTokenIs (p : Parser) (t : TokenType) : bool :=
  token.eqb (Typ (peekToken p)) t.

Definition curTokenIs (p : Parser) (t : TokenType) : bool :=
  token.eqb (Typ (curToken p)) t.

(** [xs[i]] on a slice of strings. *)
Definition index (A : Type) (xs : list A) (i : nat) : result A :=
  match nth_error xs i with
  | Some x => Ok x
  | None => Panic
  end.

Fixpoint mapM (A B : Type) (f : A -> result B) (xs : list A)
  : result (list B) :=
  match xs with
  | [] => Ok []
  | x :: r => y <- f x ;; ys <- mapM f r ;; Ok (y :: ys)
  end.

(** [xs[i] = f(xs[i])] through a pointer [i] into a store. *)
Fixpoint update (A : Type) (xs : list A) (i : nat) (f : A -> A) : list A :=
  match xs, i with
  | [], _ => []
  | x :: r, 0 => f x :: r
  | x :: r, S j => x :: update r j f
  end.

(** *** Inline elements *)

Definition text (s : str) : ast.InlineElement :=
  ast.mkInline ast.InlineText s [] [].

(** The table [inlineMarkers]: type, closing marker, nestable. *)
Definition inlineMarkers (b : ascii)
  : option (ast.InlineType * ascii * bool) :=
  if Ascii.eqb b "*" then Some (ast.InlineBold, "*"%char, true)
  else if Ascii.eqb b "/" then Some (ast.InlineItalic, "/"%char, true)
  else if Ascii.eqb b "~" then Some (ast.InlineCode, "~"%char, false)
  else if Ascii.eqb b "=" then Some (ast.InlineVerbatim, "="%char, false)
  else if Ascii.eqb b "+" then Some (ast.InlineStrikethrough, "+"%char, true)
  else if Ascii.eqb b "_" then Some (ast.InlineUnderline, "_"%char, true)
  else None.

Fixpoint findClosingMarker_from (text : str) (closer : ascii) (i : Z) : Z :=
  match text with
  | [] => (-1)%Z
  | c :: r => if Ascii.eqb c closer then i
              else findClosingMarker_from r closer (i + 1)%Z
  end.

Definition findClosingMarker (text : str) (closer : ascii) : Z :=
  findClosingMarker_from text closer 0%Z.

Fixpoint findNextMarker_from (text : str) (i : Z) : Z :=
  match text with
  | [] => (-1)%Z
  | c :: r =>
      if oneOf "*/~=+_" c then i
      else if Ascii.eqb c "["
              && match r with c' :: _ => Ascii.eqb c' "[" | [] => false end
      then i
      else findNextMarker_from r (i + 1)%Z
  end.

Definition findNextMarker (text : str) : Z := findNextMarker_from text 0%Z.

Definition maxDepth : nat := 10.

(** The link test at the head of the loop body: the match of [linkRegex] when
    the text is longer than two bytes, starts with two opening brackets and
    the match starts at offset 0. *)
Definition tryLink (remaining : str)
  : result (option (str * option str * nat)) :=
  if 2 <? length remaining then
    r0 <- at_ remaining 0 ;;
    r1 <- at_ remaining 1 ;;
    if Ascii.eqb r0 "[" && Ascii.eqb r1 "[" then Ok (linkRegex remaining)
    else Ok None
  else Ok None.

(** The marker test: type, nestable and [end] when the first byte is a marker,
    the text is longer than two bytes and a closing marker is found with
    [end != -1 && end > 0]. *)
Definition tryMarker (remaining : str)
  : result (option (ast.InlineType * bool * Z)) :=
  r0 <- at_ remaining 0 ;;
  match inlineMarkers r0 with
  | Some (typ, closer, nestable) =>
      if 2 <? length remaining then
        rest <- sliceFrom remaining 1 ;;
        let end_ := findClosingMarker rest closer in
        if negb (end_ =? -1)%Z && (0 <? end_)%Z
        then Ok (Some (typ, nestable, end_))
        else Ok None
      else Ok None
  | None => Ok None
  end.

Fixpoint parseInlineElementsRecursive (fuel : nat) (text : str) (depth : nat)
  {struct fuel} : result (list ast.InlineElement) :=
  match fuel with
  | 0 => OutOfFuel
  | S f =>
      if maxDepth <? depth then Ok [parser.text text]
      else inlineLoop f text depth []
  end
with inlineLoop (fuel : nat) (remaining : str) (depth : nat)
                (elements : list ast.InlineElement)
  {struct fuel} : result (list ast.InlineElement) :=
  match fuel with
  | 0 => OutOfFuel
  | S f =>
      if length remaining =? 0 then Ok elements
      else
        link <- tryLink remaining ;;
        match link with
        | Some (url, desc, matchEnd) =>
            children <-
              match desc with
              | Some ((_ :: _) as d) =>
                  parseInlineElementsRecursive f d (depth + 1)
              | _ => Ok []
              end ;;
            let elem := ast.mkInline ast.InlineLink [] url children in
            rest <- sliceFrom remaining matchEnd ;;
            inlineLoop f rest depth (elements ++ [elem])
        | None =>
            marker <- tryMarker remaining ;;
            match marker with
            | Some (typ, nestable, end_) =>
                innerContent <- slice remaining 1 (Z.to_nat (end_ + 1)) ;;
                elem <-
                  (if nestable : bool then
                     children <-
                       parseInlineElementsRecursive f innerContent (depth + 1) ;;
                     Ok (ast.mkInline typ [] [] children)
                   else Ok (ast.mkInline typ innerContent [] [])) ;;
                rest <- sliceFrom remaining (Z.to_nat (end_ + 2)) ;;
                inlineLoop f rest depth (elements ++ [elem])
            | None =>
                let nextMarker := findNextMarker remaining in
                if (nextMarker =? -1)%Z then
                  Ok (elements ++ [parser.text remaining])
                else if (0 <? nextMarker)%Z then
                  before <- sliceTo remaining (Z.to_nat nextMarker) ;;
                  rest <- sliceFrom remaining (Z.to_nat nextMarker) ;;
                  inlineLoop f rest depth (elements ++ [parser.text before])
                else
                  r0 <- at_ remaining 0 ;;
                  rest <- sliceFrom remaining 1 ;;
                  inlineLoop f rest depth
                             (elements ++ [parser.text (stringOfByte r0)])
            end
        end
  end.

Definition parseInlineElements (fuel : nat) (text : str)
  : result (list ast.InlineElement) :=
  parseInlineElementsRecursive fuel text 0.

(** *** Headlines, keywords, blocks, drawers *)

(** A reference held in a [Children []Node] slice of the document under
    construction: a pointer to a headline of the store, or any other node,
    which nothing modifies once it is built. *)
Inductive NodeRef : Type :=
| HeadlinePtr (h : nat)
| NodeVal (n : ast.Node).

(** An [ast.Headline] object of the store. *)
Record HeadlineCell : Type := mkHeadline {
  hToken : Token;
  hLevel : nat;
  hKeyword : str;
  hPriority : str;
  hTitle : str;
  hTags : list str;
  hChildren : list NodeRef
}.

Definition parseHeadline (fuel : nat) (p : Parser)
  : result (HeadlineCell * Parser) :=
  let tok := curToken p in
  let level := length (Literal tok) in
  if peekTokenIs p TEXT then
    p <- nextToken fuel p ;;
    let text := TrimSpace (Literal (curToken p)) in
    '(tags, text) <-
      match tagsRegex text with
      | Some (matchLen, tagStr) =>
          t <- sliceTo text (length text - matchLen) ;;
          Ok (Split tagStr ":", TrimSpace t)
      | None => Ok ([], text)
      end ;;
    '(keyword, text) <-
      (if HasPrefix text (lit "TODO ") then
         t <- sliceFrom text 5 ;; Ok (lit "TODO", TrimSpace t)
       else if HasPrefix text (lit "DONE ") then
         t <- sliceFrom text 5 ;; Ok (lit "DONE", TrimSpace t)
       else if str_eqb text (lit "TODO") then Ok (lit "TODO", [])
       else if str_eqb text (lit "DONE") then Ok (lit "DONE", [])
       else Ok ([], text)) ;;
    '(priority, text) <-
      match priorityRegex text with
      | Some (matchLen, g) =>
          t <- sliceFrom text matchLen ;; Ok (g, TrimSpace t)
      | None => Ok ([], text)
      end ;;
    Ok (mkHeadline tok level keyword priority text tags [], p)
  else Ok (mkHeadline tok level [] [] [] [] [], p).

(** The result is the [*ast.Keyword] as [parseNode] hands it on: a keyword
    node, or the nil pointer [ast.NilKeyword] after a diagnostic. *)
Definition parseKeyword (p : Parser) : result (ast.Node * Parser) :=
  let literal := Literal (curToken p) in
  if negb (HasPrefix literal (lit "#+")) then
    Ok (ast.NilKeyword, addError p (MsgInvalidKeyword literal))
  else
    let parts := SplitN2 literal ":" in
    part0 <- index parts 0 ;;
    let key := TrimPrefix part0 (lit "#+") in
    if str_eqb key [] then
      Ok (ast.NilKeyword, addError p (MsgEmptyKey literal))
    else
      val <- (if 1 <? length parts
              then part1 <- index parts 1 ;; Ok (TrimSpace part1)
              else Ok []) ;;
      Ok (ast.Keyword (curToken p) key val, p).

Fixpoint parseBlock_loop (fuel n : nat) (p : Parser) (endMarker : str)
                         (contentLines : list str)
  : result (list str * Parser) :=
  match n with
  | 0 => OutOfFuel
  | S n' =>
      if curTokenIs p EOF then Ok (contentLines, p)
      else if curTokenIs p NEWLINE then
        p <- nextToken fuel p ;;
        parseBlock_loop fuel n' p endMarker contentLines
      else if curTokenIs p BLOCK_END
              && HasPrefix (ToUpper (Literal (curToken p))) endMarker
      then Ok (contentLines, p)
      else
        let contentLines := contentLines ++ [Literal (curToken p)] in
        p <- nextToken fuel p ;;
        parseBlock_loop fuel n' p endMarker contentLines
  end.

Definition parseBlock (fuel : nat) (p : Parser) : result (ast.Node * Parser) :=
  let tok := curToken p in
  let literal := Literal tok in
  let upperLiteral := ToUpper literal in
  let typeStart := (Index upperLiteral (lit "#+BEGIN_") + 8)%Z in
  rest <- (if (typeStart <? 0)%Z then Panic
           else sliceFrom literal (Z.to_nat typeStart)) ;;
  let parts := Fields rest in
  typ <- (if 0 <? length parts
          then part0 <- index parts 0 ;; Ok (ToUpper part0) else Ok []) ;;
  language <- (if 1 <? length parts then index parts 1 else Ok []) ;;
  let params := if 2 <? length parts then Join (skipn 2 parts) (lit " ")
                else [] in
  let endMarker := lit "#+END_" ++ typ in
  p <- nextToken fuel p ;;
  '(contentLines, p) <- parseBlock_loop fuel fuel p endMarker [] ;;
  Ok (ast.Block tok typ language params (Join contentLines [LF]), p).

(** [m[k] = v] on the [map[string]string] of a drawer, kept as an association
    list in order of first insertion. *)
Fixpoint mapSet (m : list (str * str)) (k v : str) : list (str * str) :=
  match m with
  | [] => [(k, v)]
  | (k', v') :: r => if str_eqb k' k then (k', v) :: r
                     else (k', v') :: mapSet r k v
  end.

Fixpoint parseDrawer_loop (fuel n : nat) (p : Parser) (name : str)
                          (properties : list (str * str))
                          (contentLines : list str)
  : result (list (str * str) * list str * Parser) :=
  match n with
  | 0 => OutOfFuel
  | S n' =>
      if curTokenIs p EOF then Ok (properties, contentLines, p)
      else if curTokenIs p NEWLINE then
        p <- nextToken fuel p ;;
        parseDrawer_loop fuel n' p name properties contentLines
      else if curTokenIs p DRAWER_END then Ok (properties, contentLines, p)
      else
        let line := Literal (curToken p) in
        let '(properties, contentLines) :=
          if str_eqb name (lit "PROPERTIES") then
            match propertyRegex (TrimSpace line) with
            | Some (k, v) => (mapSet properties k v, contentLines)
            | None => (properties, contentLines)
            end
          else (properties, contentLines ++ [line]) in
        p <- nextToken fuel p ;;
        parseDrawer_loop fuel n' p name properties contentLines
  end.

Definition parseDrawer (fuel : nat) (p : Parser)
  : result (ast.Node * Parser) :=
  let tok := curToken p in
  let trimmed := TrimSpace (Literal tok) in
  let name := Trim trimmed ":" in
  p <- nextToken fuel p ;;
  '(properties, contentLines, p) <- parseDrawer_loop fuel fuel p name [] [] ;;
  Ok (ast.Drawer tok name properties (Join contentLines [LF]), p).

(** *** Lists *)

(** A reference held in the [Children []Node] of a list item: a pointer to a
    list of the store, or any other node. *)
Inductive ChildRef : Type :=
| ListPtr (q : nat)
| ChildNode (n : ast.Node).

(** An [ast.ListItem] object. *)
Record ItemCell : Type := mkItemCell {
  iToken : Token;
  iIndent : nat;
  iCheckbox : ast.CheckboxState;
  iContent : str;
  iChildren : list ChildRef
}.

(** An [ast.List] object; its items are pointers. *)
Record ListCell : Type := mkListCell {
  lToken : Token;
  lOrdered : bool;
  lItems : list nat
}.

(** The objects a call of [parseList] allocates: the item behind pointer [i]
    is [items[i]], the nested list behind pointer [q] is [lists[q]]. *)
Record ListStore : Type := mkListStore {
  items : list ItemCell;
  lists : list ListCell
}.

Definition nilItem : ItemCell := mkItemCell zeroToken 0 ast.CheckboxNone [] [].
Definition nilList : ListCell := mkListCell zeroToken false [].

(** Following a pointer. Pointers are created only by allocation, so the
    default is never returned. *)
Definition item (st : ListStore) (i : nat) : ItemCell := nth i (items st) nilItem.
Definition list_ (st : ListStore) (q : nat) : ListCell := nth q (lists st) nilList.

Definition getIndentation (s : str) : nat :=
  (fix go (s : str) (indent : nat) : nat :=
     match s with
     | c :: r => if Ascii.eqb c " " then go r (indent + 1)
                 else if Ascii.eqb c (ascii_of_nat 9) then go r (indent + 2)
                 else indent
     | [] => indent
     end) s 0.

(** The loop over the ordered marker in [parseListItem]. [range] yields runes;
    a rune of more than one byte is neither a digit nor a marker end, as is
    its first byte, so the loop is written on bytes. [i] is the offset of
    [rest] in [content]. *)
Fixpoint stripOrderedMarker (rest : str) (i : nat) (content : str)
  : result str :=
  match rest with
  | [] => Ok content
  | c :: rest' =>
      if Ascii.eqb c "." || Ascii.eqb c ")" then
        if i + 1 <? length content then
          next <- at_ content (i + 1) ;;
          if Ascii.eqb next " " then sliceFrom content (i + 2)
          else Ok content
        else Ok content
      else if isDigit c then stripOrderedMarker rest' (i + 1) content
      else Ok content
  end.

Definition parseListItem (p : Parser) : result ItemCell :=
  let literal := Literal (curToken p) in
  let content := TrimSpace literal in
  content <-
    (if HasPrefix content (lit "- ") then sliceFrom content 2
     else if HasPrefix content (lit "+ ") then sliceFrom content 2
     else stripOrderedMarker content 0 content) ;;
  '(checkbox, content) <-
    match checkboxRegex content with
    | Some (matchLen, c) =>
        let state := if Ascii.eqb c " " then ast.CheckboxUnchecked
                     else if Ascii.eqb c "X" then ast.CheckboxChecked
                     else if Ascii.eqb c "-" then ast.CheckboxPartial
                     else ast.CheckboxNone in
        t <- sliceFrom content matchLen ;;
        Ok (state, TrimSpace t)
    | None => Ok (ast.CheckboxNone, content)
    end ;;
  Ok (mkItemCell (curToken p) (getIndentation literal) checkbox content []).

(** [for len(stack) > 0 && stack[len(stack)-1].Indent >= item.Indent]: the
    head of the list is the top of the stack (the last element of the slice). *)
Fixpoint popItems (st : ListStore) (stack : list nat) (indent : nat)
  : list nat :=
  match stack with
  | [] => []
  | top :: below =>
      if indent <=? iIndent (item st top) then popItems st below indent
      else stack
  end.

(** The [existing] list of the type assertion on the last child. *)
Definition lastChildList (c : ItemCell) : option nat :=
  match rev (iChildren c) with
  | ListPtr q :: _ => Some q
  | _ => None
  end.

Definition startsWithDigit (s : str) : bool :=
  match s with
  | c :: _ => isDigit c
  | [] => false
  end.

(** One iteration of the loop of [buildNestedList] for the pointer [it]. *)
Definition placeItem (acc : ListStore * list nat * list nat) (it : nat)
  : ListStore * list nat * list nat :=
  let '(st, stack, result) := acc in
  let cell := item st it in
  let stack := popItems st stack (iIndent cell) in
  match stack with
  | [] => (st, [it], result ++ [it])
  | parent :: _ =>
      let '(st, nestedList) :=
        match lastChildList (item st parent) with
        | Some existing => (st, existing)
        | None =>
            let q := length (lists st) in
            let ordered := (0 <? iIndent cell) && startsWithDigit (iContent cell) in
            let new := mkListCell (iToken cell) ordered [] in
            (mkListStore
               (update (items st) parent
                       (fun c => mkItemCell (iToken c) (iIndent c) (iCheckbox c)
                                            (iContent c)
                                            (iChildren c ++ [ListPtr q])))
               (lists st ++ [new]), q)
        end in
      (mkListStore (items st)
                   (update (lists st) nestedList
                           (fun c => mkListCell (lToken c) (lOrdered c)
                                                (lItems c ++ [it]))),
       it :: stack, result)
  end.

(** [buildNestedList(items, baseIndent)]: [allItems] are the objects behind
    the pointers [0 .. len(items)-1]; the result is the store after the loop
    and the top-level pointers. *)
Definition buildNestedList (allItems : list ItemCell) (baseIndent : nat)
  : ListStore * list nat :=
  let st := mkListStore allItems [] in
  if length allItems =? 0 then (st, [])
  else
    let '(st, _, result) :=
      fold_left placeItem (seq 0 (length allItems)) (st, [], []) in
    (st, result).

(** The tree below an item pointer. *)
Fixpoint resolveItem (fuel : nat) (st : ListStore) (i : nat)
  : result ast.ListItem :=
  match fuel with
  | 0 => OutOfFuel
  | S f =>
      let c := item st i in
      children <-
        mapM (fun r =>
                match r with
                | ListPtr q =>
                    let lc := list_ st q in
                    its <- mapM (resolveItem f st) (lItems lc) ;;
                    Ok (ast.List (lToken lc) (lOrdered lc) its)
                | ChildNode n => Ok n
                end) (iChildren c) ;;
      Ok (ast.mkListItem (iToken c) (iIndent c) (iCheckbox c) (iContent c)
                         children)
  end.

Fixpoint parseList_loop (fuel n : nat) (p : Parser) (allItems : list ItemCell)
  : result (list ItemCell * Parser) :=
  match n with
  | 0 => OutOfFuel
  | S n' =>
      if curTokenIs p LIST_ITEM then
        it <- parseListItem p ;;
        let allItems := allItems ++ [it] in
        p <- (if peekTokenIs p NEWLINE then nextToken fuel p else Ok p) ;;
        if negb (peekTokenIs p LIST_ITEM) then Ok (allItems, p)
        else
          p <- nextToken fuel p ;;
          parseList_loop fuel n' p allItems
      else Ok (allItems, p)
  end.

Definition parseList (fuel : nat) (p : Parser) : result (ast.Node * Parser) :=
  let tok := curToken p in
  let literal := Literal tok in
  let trimmed := TrimSpace literal in
  let ordered := startsWithDigit trimmed in
  let baseIndent := getIndentation literal in
  '(allItems, p) <- parseList_loop fuel fuel p [] ;;
  let '(st, top) := buildNestedList allItems baseIndent in
  its <- mapM (resolveItem (S (length allItems)) st) top ;;
  Ok (ast.List tok ordered its, p).

(** *** Tables, comments, paragraphs *)

Definition parseTableRow (p : Parser) : ast.TableRow :=
  let separator := curTokenIs p TABLE_SEP in
  if separator then ast.mkTableRow (curToken p) [] true
  else
    let literal := TrimSpace (Literal (curToken p)) in
    let literal := Trim literal "|" in
    let cells := Split literal "|" in
    ast.mkTableRow (curToken p) (map TrimSpace cells) false.

Fixpoint parseTable_loop (fuel n : nat) (p : Parser) (rows : list ast.TableRow)
  : result (list ast.TableRow * Parser) :=
  match n with
  | 0 => OutOfFuel
  | S n' =>
      if curTokenIs p TABLE_ROW || curTokenIs p TABLE_SEP then
        let rows := rows ++ [parseTableRow p] in
        p <- (if peekTokenIs p NEWLINE then nextToken fuel p else Ok p) ;;
        if negb (peekTokenIs p TABLE_ROW) && negb (peekTokenIs p TABLE_SEP)
        then Ok (rows, p)
        else
          p <- nextToken fuel p ;;
          parseTable_loop fuel n' p rows
      else Ok (rows, p)
  end.

Definition parseTable (fuel : nat) (p : Parser) : result (ast.Node * Parser) :=
  let tok := curToken p in
  '(rows, p) <- parseTable_loop fuel fuel p [] ;;
  Ok (ast.Table tok rows, p).

Definition parseComment (p : Parser) : result ast.Node :=
  let literal := Literal (curToken p) in
  content <-
    (if HasPrefix literal (lit "# ") then sliceFrom literal 2
     else if str_eqb literal (lit "#") then Ok []
     else Ok (TrimPrefix literal (lit "#"))) ;;
  Ok (ast.Comment (curToken p) content).

Definition parseParagraph (fuel : nat) (p : Parser) : result ast.Node :=
  let content := Literal (curToken p) in
  inline <- parseInlineElements fuel content ;;
  Ok (ast.Paragraph (curToken p) content inline).

(** *** The document *)

(** What [parseNode] returns: the nil interface, a new headline object, or
    another node. *)
Inductive Parsed : Type :=
| NoNode
| NewHeadline (hl : HeadlineCell)
| NewNode (n : ast.Node).

Definition parseNode (fuel : nat) (p : Parser) : result (Parsed * Parser) :=
  match Typ (curToken p) with
  | STARS => '(hl, p) <- parseHeadline fuel p ;; Ok (NewHeadline hl, p)
  | KEYWORD => '(n, p) <- parseKeyword p ;; Ok (NewNode n, p)
  | BLOCK_BEGIN => '(n, p) <- parseBlock fuel p ;; Ok (NewNode n, p)
  | DRAWER_BEGIN => '(n, p) <- parseDrawer fuel p ;; Ok (NewNode n, p)
  | LIST_ITEM => '(n, p) <- parseList fuel p ;; Ok (NewNode n, p)
  | TABLE_ROW | TABLE_SEP => '(n, p) <- parseTable fuel p ;; Ok (NewNode n, p)
  | COMMENT => n <- parseComment p ;; Ok (NewNode n, p)
  | TEXT => n <- parseParagraph fuel p ;; Ok (NewNode n, p)
  | NEWLINE => Ok (NoNode, p)
  | _ => Ok (NoNode, p)
  end.

(** The document under construction: the headline objects in order of
    allocation (the headline behind pointer [h] is [heads[h]]),
    [doc.Children], and the stack of open headlines, top first. *)
Record DocState : Type := mkDocState {
  heads : list HeadlineCell;
  rootChildren : list NodeRef;
  stack : list nat
}.

Definition nilHeadline : HeadlineCell := mkHeadline zeroToken 0 [] [] [] [] [].

Definition headline (st : DocState) (h : nat) : HeadlineCell :=
  nth h (heads st) nilHeadline.

(** [parent.Children = append(parent.Children, r)] *)
Definition appendChild (hs : list HeadlineCell) (parent : nat) (r : NodeRef)
  : list HeadlineCell :=
  update hs parent
         (fun c => mkHeadline (hToken c) (hLevel c) (hKeyword c) (hPriority c)
                              (hTitle c) (hTags c) (hChildren c ++ [r])).

(** The pop loop: stop at the first open headline whose level is below
    [level]. *)
Fixpoint popHeadlines (hs : list HeadlineCell) (stack : list nat) (level : nat)
  : list nat :=
  match stack with
  | [] => []
  | top :: below =>
      if hLevel (nth top hs nilHeadline) <? level then stack
      else popHeadlines hs below level
  end.

(** The body of [if node != nil { ... }] in [ParseDocument]. *)
Definition attach (st : DocState) (node : Parsed) : DocState :=
  match node with
  | NoNode => st
  | NewHeadline hl =>
      let stack := popHeadlines (heads st) (stack st) (hLevel hl) in
      let h := length (heads st) in
      let hs := heads st ++ [hl] in
      match stack with
      | [] => mkDocState hs (rootChildren st ++ [HeadlinePtr h]) (h :: stack)
      | parent :: _ =>
          mkDocState (appendChild hs parent (HeadlinePtr h)) (rootChildren st)
                     (h :: stack)
      end
  | NewNode n =>
      match stack st with
      | parent :: _ =>
          mkDocState (appendChild (heads st) parent (NodeVal n))
                     (rootChildren st) (stack st)
      | [] => mkDocState (heads st) (rootChildren st ++ [NodeVal n]) (stack st)
      end
  end.

Fixpoint ParseDocument_loop (fuel n : nat) (p : Parser) (st : DocState)
  : result (DocState * Parser) :=
  match n with
  | 0 => OutOfFuel
  | S n' =>
      if curTokenIs p EOF then Ok (st, p)
      else
        let '(cancelled, p) := checkContext p in
        if cancelled then Ok (st, p)
        else
          match lexer.Err (l p) with
          | Some e => Ok (st, addError p (MsgLexerError e))
          | None =>
              '(node, p) <- parseNode fuel p ;;
              let st := attach st node in
              p <- nextToken fuel p ;;
              ParseDocument_loop fuel n' p st
          end
  end.

(** The tree below a reference of the document. *)
Fixpoint resolve (fuel : nat) (hs : list HeadlineCell) (r : NodeRef)
  : result ast.Node :=
  match r with
  | NodeVal n => Ok n
  | HeadlinePtr h =>
      match fuel with
      | 0 => OutOfFuel
      | S f =>
          let c := nth h hs nilHeadline in
          children <- mapM (resolve f hs) (hChildren c) ;;
          Ok (ast.Headline (hToken c) (hLevel c) (hKeyword c) (hPriority c)
                           (hTitle c) (hTags c) children)
      end
  end.

(** The [*ast.Document] as a tree. *)
Definition document (st : DocState) : result ast.Document :=
  children <- mapM (resolve (length (heads st)) (heads st)) (rootChildren st) ;;
  Ok (ast.mkDocument children).

(** [ParseDocument]: the store it leaves and the parser with its diagnostics. *)
Definition ParseDocument_store (fuel : nat) (p : Parser)
  : result (DocState * Parser) :=
  ParseDocument_loop fuel fuel p (mkDocState [] [] []).

Definition ParseDocument (fuel : nat) (p : Parser)
  : result (ast.Document * Parser) :=
  '(st, p) <- ParseDocument_store fuel p ;;
  doc <- document st ;;
  Ok (doc, p).

(** [lexer.New], [parser.New], [ParseDocument] and [Errors] in one call. *)
Definition Parse (fuel : nat) (input : str) (lopts : list lexer.Option)
                 (popts : list Option)
  : result (ast.Document * list Diagnostic) :=
  p <- New fuel (lexer.New input lopts) popts ;;
  '(doc, p) <- ParseDocument fuel p ;;
  Ok (doc, Errors p).

End parser.

(** * Definitions used to state the properties *)

Module spec.

Import token.

(** The first [k] tokens of a lexer and the lexer after them. *)
Fixpoint lexTokens (k fuel : nat) (l : lexer.Lexer)
  : result (list Token * lexer.Lexer) :=
  match k with
  | 0 => Ok ([], l)
  | S k' =>
      '(tok, l) <- lexer.NextToken fuel l ;;
      '(rest, l) <- lexTokens k' fuel l ;;
      Ok (tok :: rest, l)
  end.

(** The tokens a parser reads from now on: [curToken] first, then each token
    [nextToken] moves into [curToken], up to and including the first
    end-of-input token (at most [k] tokens). *)
Fixpoint upcoming (k fuel : nat) (p : parser.Parser) : result (list Token) :=
  match k with
  | 0 => Ok []
  | S k' =>
      if parser.curTokenIs p EOF then Ok [parser.curToken p]
      else
        p' <- parser.nextToken fuel p ;;
        rest <- upcoming k' fuel p' ;;
        Ok (parser.curToken p :: rest)
  end.

(** A token list that runs up to an end-of-input token. *)
Definition complete (toks : list Token) : Prop :=
  exists pre t, toks = pre ++ [t] /\ Typ t = EOF.






(** The run of list items at the head of [toks]: LIST_ITEM tokens, each
    followed by the next one directly or after exactly one NEWLINE token. *)
Fixpoint listRun (toks : list Token) : list Token :=
  match toks with
  | [] => []
  | t :: rest =>
      if token.eqb (Typ t) LIST_ITEM then
        t :: match rest with
             | [] => []
             | u :: rest' =>
                 if token.eqb (Typ u) NEWLINE then
                   match rest' with
                   | v :: _ => if token.eqb (Typ v) LIST_ITEM
                               then listRun rest' else []
                   | [] => []
                   end
                 else if token.eqb (Typ u) LIST_ITEM then listRun rest
                 else []
             end
      else []
  end.

(** The nearest index before [i] whose level is strictly below [v]. *)
Fixpoint nearestBelow (levels : list nat) (i : nat) (v : nat) : option nat :=
  match i with
  | 0 => None
  | S j => if nth j levels 0 <? v then Some j else nearestBelow levels j v
  end.

(** The nearest index before [i] whose level is strictly below that of [i]:
    for headlines, the nearest preceding headline with a strictly smaller
    level; for list items, the nearest preceding item with a strictly smaller
    indentation. *)
Definition nearestSmaller (levels : list nat) (i : nat) : option nat :=
  nearestBelow levels i (nth i levels 0).

Definition option_nat_eqb (a b : option nat) : bool :=
  match a, b with
  | Some x, Some y => x =? y
  | None, None => true
  | _, _ => false
  end.

(** The indices below [n] whose nearest smaller index is [parent]. *)
Definition nestedUnder (levels : list nat) (parent : option nat) (n : nat)
  : list nat :=
  filter (fun i => option_nat_eqb (nearestSmaller levels i) parent) (seq 0 n).

(** The pop loop of both stacks, on the level of each stack entry. *)
Fixpoint pop (lv : nat -> nat) (stack : list nat) (v : nat) : list nat :=
  match stack with
  | [] => []
  | top :: below => if lv top <? v then stack else pop lv below v
  end.

(** A stack in which each entry is followed by its nearest smaller index. *)
Fixpoint linked (levels : list nat) (stack : list nat) : Prop :=
  match stack with
  | [] => True
  | a :: rest => nearestSmaller levels a = hd_error rest /\ linked levels rest
  end.

(** The stack after [n] entries were pushed: its top is the last of them. *)
Definition chain (levels : list nat) (n : nat) (stack : list nat) : Prop :=
  match stack with
  | [] => n = 0
  | a :: _ => S a = n
  end /\ linked levels stack.

(** Two item objects that differ at most in their children. *)
Definition sameItem (a b : parser.ItemCell) : Prop :=
  parser.iToken a = parser.iToken b /\ parser.iIndent a = parser.iIndent b /\
  parser.iCheckbox a = parser.iCheckbox b /\
  parser.iContent a = parser.iContent b.

(** The state of the loop of [buildNestedList] after the items [0 .. k-1] of
    [orig]: every item has no child, or one nested list that holds the items
    nested under it so far, in order; no list is shared by two items. *)
Record listInv (orig : list parser.ItemCell) (k : nat) (st : parser.ListStore)
               (stack result : list nat) : Prop := mkListInv {
  inv_len : length (parser.items st) = length orig;
  inv_same : forall i, sameItem (parser.item st i) (nth i orig parser.nilItem);
  inv_chain : chain (map parser.iIndent orig) k stack;
  inv_top : result = nestedUnder (map parser.iIndent orig) None k;
  inv_children :
    forall j,
      match parser.iChildren (parser.item st j) with
      | [] => nestedUnder (map parser.iIndent orig) (Some j) k = []
      | [parser.ListPtr q] =>
          q < length (parser.lists st) /\
          parser.lItems (parser.list_ st q)
          = nestedUnder (map parser.iIndent orig) (Some j) k
      | _ => False
      end;
  inv_inj :
    forall j j' q,
      parser.iChildren (parser.item st j) = [parser.ListPtr q] ->
      parser.iChildren (parser.item st j') = [parser.ListPtr q] ->
      j = j'
}.

(** The headline pointers among the references of a [Children] slice. *)
Fixpoint headPtrs (rs : list parser.NodeRef) : list nat :=
  match rs with
  | [] => []
  | parser.HeadlinePtr h :: r => h :: headPtrs r
  | parser.NodeVal _ :: r => headPtrs r
  end.

Definition headLevels (st : parser.DocState) : list nat :=
  map parser.hLevel (parser.heads st).

(** The state of the loop of [ParseDocument]: the stack holds the last
    headline and, below each entry, the nearest preceding headline with a
    smaller level; the headlines among the children of a headline are those
    nested under it, in order; those of the document are the ones nested
    under no headline. *)
Record docInv (st : parser.DocState) : Prop := mkDocInv {
  dinv_chain : chain (headLevels st) (length (parser.heads st)) (parser.stack st);
  dinv_children :
    forall j,
      headPtrs (parser.hChildren (parser.headline st j))
      = nestedUnder (headLevels st) (Some j) (length (parser.heads st));
  dinv_root :
    headPtrs (parser.rootChildren st)
    = nestedUnder (headLevels st) None (length (parser.heads st))
}.

(** The marker byte of a formatting type. *)
Definition markerOf (t : ast.InlineType) : str :=
  match t with
  | ast.InlineBold => lit "*"
  | ast.InlineItalic => lit "/"
  | ast.InlineCode => lit "~"
  | ast.InlineVerbatim => lit "="
  | ast.InlineStrikethrough => lit "+"
  | ast.InlineUnderline => lit "_"
  | _ => []
  end.

(** The markup of an inline element: its content between its markers, a link
    in double brackets with its description, if any, in a second pair. *)
Fixpoint markup (e : ast.InlineElement) : str :=
  match e with
  | ast.mkInline t content url children =>
      match t with
      | ast.InlineText => content
      | ast.InlineCode | ast.InlineVerbatim =>
          markerOf t ++ content ++ markerOf t
      | ast.InlineLink =>
          lit "[[" ++ url ++ lit "]"
          ++ match children with
             | [] => []
             | _ => lit "[" ++ concat (map markup children) ++ lit "]"
             end
          ++ lit "]"
      | _ => markerOf t ++ concat (map markup children) ++ markerOf t
      end
  end.

Definition markupAll (es : list ast.InlineElement) : str :=
  concat (map markup es).

(** The concatenation of [PlainText] over a sequence of elements. *)
Definition plainAll (es : list ast.InlineElement) : str :=
  concat (map ast.PlainText es).

(** No link without a description, at any depth. *)
Fixpoint noBareLink (e : ast.InlineElement) : bool :=
  match e with
  | ast.mkInline t _ _ children =>
      match t, children with
      | ast.InlineLink, [] => false
      | _, _ => forallb noBareLink children
      end
  end.

(** A lexer whose cursor is consistent with its input: [ch] is the rune at
    [position] and [readPosition] is the offset after it, or [ch] is 0 with
    [readPosition] one past [position] at the end of the input. *)
Definition lexer_wf (l : lexer.Lexer) : Prop :=
  lexer.position l <= length (lexer.input l) /\
  match skipn (lexer.position l) (lexer.input l) with
  | [] => lexer.ch l = 0%Z /\ lexer.readPosition l = S (lexer.position l)
  | s => lexer.ch l = fst (DecodeRuneInString s) /\
         lexer.readPosition l = lexer.position l + snd (DecodeRuneInString s)
  end.

(** The bytes of the input not yet read. *)
Definition remaining (l : lexer.Lexer) : nat :=
  length (lexer.input l) - lexer.position l.


(** What the parser relies on in a token read from an input of [n] bytes:
    its literal is no longer than the input, and a BLOCK_BEGIN literal starts
    with ["#+BEGIN_"] in upper case. *)
Definition tok_ok (n : nat) (tok : Token) : Prop :=
  length (Literal tok) <= n /\
  (Typ tok = BLOCK_BEGIN ->
   HasPrefix (ToUpper (Literal tok)) (lit "#+BEGIN_") = true).

(** One call of [NextToken] from [l] to [l']: the cursor stays consistent,
    never moves back, and moves forward unless the token is end of input. *)
Definition lex_step (l : lexer.Lexer) (tok : Token) (l' : lexer.Lexer) : Prop :=
  lexer_wf l' /\ lexer.input l' = lexer.input l /\
  lexer.position l <= lexer.position l' /\
  (Typ tok <> EOF -> lexer.position l < lexer.position l') /\
  tok_ok (length (lexer.input l)) tok.

(** A parser over a consistent lexer whose two lookahead tokens are tokens
    of its input. *)
Definition parser_wf (p : parser.Parser) : Prop :=
  lexer_wf (parser.l p) /\
  tok_ok (length (lexer.input (parser.l p))) (parser.curToken p) /\
  tok_ok (length (lexer.input (parser.l p))) (parser.peekToken p).

Definition tokWeight (t : Token) : nat :=
  if token.eqb (Typ t) EOF then 0 else 1.

(** What is left to parse: the lookahead tokens that are not end of input and
    the bytes not yet read. Every [nextToken] with a current token other than
    end of input makes it smaller. *)
Definition pmeasure (p : parser.Parser) : nat :=
  tokWeight (parser.curToken p) + tokWeight (parser.peekToken p)
  + remaining (parser.l p).

(** A loop of the parser took it from [p] to [p']: the same input, nothing
    given back. *)
Definition parser_le (p p' : parser.Parser) : Prop :=
  parser_wf p' /\
  lexer.input (parser.l p') = lexer.input (parser.l p) /\
  pmeasure p' <= pmeasure p.

(** A sub-parser took the parser from [p] to [p'] and left a current token
    for the [nextToken] of [ParseDocument] to consume, unless it consumed
    one itself. *)
Definition parser_step (p p' : parser.Parser) : Prop :=
  parser_le p p' /\
  (pmeasure p' < pmeasure p \/ Typ (parser.curToken p') <> EOF).

(** The computation [m] returns a value, and the value satisfies [P]. *)
Definition returns (A : Type) (m : result A) (P : A -> Prop) : Prop :=
  exists a, m = Ok a /\ P a.



(** The lexer went from [l] to [l'] over the same input, reading the bytes
    [s]. *)
Definition consumed (l l' : lexer.Lexer) (s : str) : Prop :=
  lexer.input l' = lexer.input l /\
  lexer.position l' = lexer.position l + length s /\
  skipn (lexer.position l) (lexer.input l)
  = s ++ skipn (lexer.position l') (lexer.input l).

(** The token types [NextToken] builds. *)
Definition producible (t : TokenType) : bool :=
  match t with
  | ILLEGAL | TODO | DONE | PRIORITY | TIMESTAMP | LINK => false
  | _ => true
  end.

(** A byte that ends a line for the lexer: a newline or a NUL. *)
Definition isEOLByte (c : ascii) : bool :=
  (byte c =? rune LF)%Z || (byte c =? 0)%Z.

(** What every line reader of the lexer returns: a token that is not a
    NEWLINE or an end of input, whose literal is the bytes read, none of
    them a line end, stamped with the line and column the reader started
    at; the line counter is not moved. *)
Definition lineToken (l : lexer.Lexer) (tok : Token) (l' : lexer.Lexer)
  : Prop :=
  consumed l l' (Literal tok) /\
  lexer_wf l' /\
  Forall (fun b => isEOLByte b = false) (Literal tok) /\
  Line tok = lexer.line l /\ Column tok = lexer.column l /\
  lexer.line l' = lexer.line l /\
  producible (Typ tok) = true /\ Typ tok <> NEWLINE /\ Typ tok <> EOF.

(** One call of [NextToken] from [l] to [l'] returning [tok]: the literal is
    the bytes the call read, the token carries the line and column the call
    started at, an end-of-input token is empty, a NEWLINE token is one
    newline and moves the line counter, and no other token holds a line
    end. *)
Definition tokenStep (l : lexer.Lexer) (tok : Token) (l' : lexer.Lexer)
  : Prop :=
  lexer_wf l' /\ consumed l l' (Literal tok) /\
  producible (Typ tok) = true /\
  Line tok = lexer.line l /\ Column tok = lexer.column l /\
  match Typ tok with
  | EOF => Literal tok = [] /\ lexer.line l' = lexer.line l /\
           (lexer.err l' <> None \/ lexer.ch l = 0%Z)
  | NEWLINE => Literal tok = [LF] /\ lexer.line l' = S (lexer.line l)
  | _ => Forall (fun b => isEOLByte b = false) (Literal tok) /\
         lexer.line l' = lexer.line l
  end.

(** The calls of [NextToken] that return the tokens [toks] one after the
    other, from [l] to [l']. *)
Fixpoint tokenRun (fuel : nat) (l : lexer.Lexer) (toks : list Token)
                  (l' : lexer.Lexer) : Prop :=
  match toks with
  | [] => l' = l
  | t :: r =>
      exists l1,
        lexer.NextToken fuel l = Ok (t, l1) /\
        tokenStep l t l1 /\ lex_step l t l1 /\ tokenRun fuel l1 r l'
  end.

(** What a token of each type holds. *)
Definition tokenShape (t : Token) : Prop :=
  producible (Typ t) = true /\
  match Typ t with
  | EOF => Literal t = []
  | NEWLINE => Literal t = [LF]
  | _ => Literal t <> [] /\
         Forall (fun b => b <> LF /\ b <> ascii_of_nat 0) (Literal t)
  end.

(** A lexer that reads no further: its error is set, or it is at a NUL
    rune, which is also what it holds at the end of the input. *)
Definition stuck (l : lexer.Lexer) : Prop :=
  lexer.err l <> None \/ lexer.ch l = 0%Z.

(** The line counter is one more than the number of newlines before the
    cursor. *)
Definition lineInv (l : lexer.Lexer) : Prop :=
  lexer.line l = 1 + Count (firstn (lexer.position l) (lexer.input l)) LF.

Definition isNil (A : Type) (l : list A) : bool :=
  match l with
  | [] => true
  | _ => false
  end.

(** How the inline parser fills an element, at any depth: a text element
    holds a non-empty content and nothing else; a code or verbatim element
    holds the non-empty raw content, free of its own marker, and nothing
    else; a formatting element holds only children, at least one; a link
    holds a non-empty URL and only children. *)
Fixpoint inlineShape (e : ast.InlineElement) : bool :=
  match e with
  | ast.mkInline t content url children =>
      match t with
      | ast.InlineText =>
          negb (isNil content) && isNil url && isNil children
      | ast.InlineCode | ast.InlineVerbatim =>
          negb (isNil content)
          && match markerOf t with
             | [m] => negb (Contains content m)
             | _ => true
             end
          && isNil url && isNil children
      | ast.InlineLink =>
          isNil content && negb (isNil url) && forallb inlineShape children
      | _ =>
          isNil content && isNil url && negb (isNil children)
          && forallb inlineShape children
      end
  end.

(** [true] on a node that is or contains the nil keyword. *)
Fixpoint hasNilKeyword (n : ast.Node) : bool :=
  match n with
  | ast.Headline _ _ _ _ _ _ children => existsb hasNilKeyword children
  | ast.List _ _ items =>
      existsb (fun it => match it with
                         | ast.mkListItem _ _ _ _ children =>
                             existsb hasNilKeyword children
                         end) items
  | ast.NilKeyword => true
  | _ => false
  end.


(** Text of ASCII bytes only. The byte-wise [ToUpper] is [strings.ToUpper]
    on such text; on other text Go also maps the letters outside ASCII. *)
Definition isASCII (s : str) : bool :=
  forallb (fun b => (byte b <? 128)%Z) s.

(** The first and the last byte of the text, if any, are ASCII. When the
    byte-wise [TrimSpace s] is such a text it is what [strings.TrimSpace]
    returns for [s]; otherwise Go goes on to trim the Unicode white space
    found at that end. *)
Definition asciiEnds (s : str) : bool :=
  match s with
  | [] => true
  | c :: _ => (byte c <? 128)%Z && (byte (last s c) <? 128)%Z
  end.


(** A byte that starts a line of plain text for the lexer: not a line end
    and none of the bytes [NextToken] dispatches on at a line start (star,
    sharp, colon, dash, plus, bar, blank, tab and the digits). A byte at or
    above 128 starts a rune that is none of these. *)
Definition plainStart (c : ascii) : bool :=
  negb (isEOLByte c || existsb (Ascii.eqb c) (lit "*#:-+| ")
        || Ascii.eqb c (ascii_of_nat 9) || isDigit c).


(** The parser [parser.New] returns over [input] with the default options
    of the lexer and of the parser. *)
Definition parserOn (fuel : nat) (input : str) : parser.Parser :=
  match parser.New fuel (lexer.New input []) [] with
  | Ok p => p
  | _ => parser.mkParser (lexer.New input []) parser.zeroToken
                         parser.zeroToken [] context.Background
  end.


(** ** The visible text of a paragraph

    Section 4.3 of the specification, read on the raw text: a well-formed
    link span [[[url]]] or [[[url][description]]] at the head of the text
    shows its description; a formatting marker that has a nearest closing
    partner with a non-empty span between them shows the enclosed text,
    taken literally for code and verbatim; every other byte shows as
    itself. *)

(** The text before the nearest occurrence of [c] and the text after it. *)
Fixpoint cutAt (c : ascii) (s : str) : option (str * str) :=
  match s with
  | [] => None
  | x :: r =>
      if Ascii.eqb x c then Some ([], r)
      else match cutAt c r with
           | Some (a, b) => Some (x :: a, b)
           | None => None
           end
  end.

(** The six formatting markers; the spans of code and verbatim are literal. *)
Definition isFormatMarker (c : ascii) : bool :=
  existsb (Ascii.eqb c) (lit "*/~=+_").

Definition isLiteralMarker (c : ascii) : bool :=
  existsb (Ascii.eqb c) (lit "~=").

(** The link span at the head of the text: its URL, its description (empty
    when the link has none) and the text after the span. *)
Definition linkSpan (s : str) : option (str * str * str) :=
  match s with
  | "["%char :: "["%char :: r =>
      match cutAt "]" r with
      | Some ((_ :: _) as url, "]"%char :: rest) => Some (url, [], rest)
      | Some ((_ :: _) as url, "["%char :: r2) =>
          match cutAt "]" r2 with
          | Some ((_ :: _) as desc, "]"%char :: rest) => Some (url, desc, rest)
          | _ => None
          end
      | _ => None
      end
  | _ => None
  end.

(** The formatted span at the head of the text: its marker, the non-empty
    text it encloses and the text after the closing marker. *)
Definition spanAt (s : str) : option (ascii * str * str) :=
  match s with
  | c :: r =>
      if isFormatMarker c then
        match cutAt c r with
        | Some ((_ :: _) as inner, rest) => Some (c, inner, rest)
        | _ => None
        end
      else None
  | [] => None
  end.

(** The visible text of [s]; [bare url] is what a link without a
    description shows. [fuel] bounds the recursion, the length of [s] is
    enough. *)
Fixpoint visibleText (bare : str -> str) (fuel : nat) (s : str) : str :=
  match fuel with
  | 0 => s
  | S f =>
      match linkSpan s with
      | Some (url, desc, rest) =>
          match desc with
          | [] => bare url
          | _ => visibleText bare f desc
          end ++ visibleText bare f rest
      | None =>
          match spanAt s with
          | Some (c, inner, rest) =>
              (if isLiteralMarker c then inner else visibleText bare f inner)
              ++ visibleText bare f rest
          | None =>
              match s with
              | [] => []
              | c :: r => c :: visibleText bare f r
              end
          end
      end
  end.

(** The visible text, a link without a description showing its URL. *)
Definition visibleOf (s : str) : str :=
  visibleText (fun url => url) (length s) s.

(** The visible text but for the links without a description, which show
    nothing. *)
Definition visibleButBareLinks (s : str) : str :=
  visibleText (fun _ => []) (length s) s.

(** Every link without a description, at any depth, shows nothing under
    [bare]. *)
Fixpoint bareOk (bare : str -> str) (e : ast.InlineElement) : bool :=
  match e with
  | ast.mkInline t _ url children =>
      match t, children with
      | ast.InlineLink, [] => str_eqb (bare url) []
      | _, _ => forallb (bareOk bare) children
      end
  end.

(** How many of the bytes that can open a nested construct (the four
    nestable markers, and the right bracket every link holds) occur in the
    text: a bound on the depth of the elements of the text. *)
Definition openers (s : str) : nat :=
  length (filter (fun c => existsb (Ascii.eqb c) s) (lit "*/+_]")).

End spec.

(** * Properties *)

Unset Implicit Arguments.

Import token.

Local Open Scope string_scope.
Local Open Scope list_scope.
Local Open Scope nat_scope.

(** ** Basic facts about the lexer state *)

Lemma readChar_err : forall l, lexer.err (lexer.readChar l) = lexer.err l.
Proof.
  intros l. unfold lexer.readChar.
  destruct (length (lexer.input l) <=? lexer.readPosition l); [reflexivity|].
  destruct (DecodeRuneInString _); reflexivity.
Qed.

Lemma readChar_maxInputSize :
  forall l, lexer.maxInputSize (lexer.readChar l) = lexer.maxInputSize l.
Proof.
  intros l. unfold lexer.readChar.
  destruct (length (lexer.input l) <=? lexer.readPosition l); [reflexivity|].
  destruct (DecodeRuneInString _); reflexivity.
Qed.

Lemma readChar_maxLineLength :
  forall l, lexer.maxLineLength (lexer.readChar l) = lexer.maxLineLength l.
Proof.
  intros l. unfold lexer.readChar.
  destruct (length (lexer.input l) <=? lexer.readPosition l); [reflexivity|].
  destruct (DecodeRuneInString _); reflexivity.
Qed.

Lemma readChar_input :
  forall l, lexer.input (lexer.readChar l) = lexer.input l.
Proof.
  intros l. unfold lexer.readChar.
  destruct (length (lexer.input l) <=? lexer.readPosition l); [reflexivity|].
  destruct (DecodeRuneInString _); reflexivity.
Qed.

Lemma readChar_ctx :
  forall l, lexer.ctx (lexer.readChar l) = lexer.ctx l.
Proof.
  intros l. unfold lexer.readChar.
  destruct (length (lexer.input l) <=? lexer.readPosition l); [reflexivity|].
  destruct (DecodeRuneInString _); reflexivity.
Qed.

Lemma readChar_line :
  forall l, lexer.line (lexer.readChar l) = lexer.line l.
Proof.
  intros l. unfold lexer.readChar.
  destruct (length (lexer.input l) <=? lexer.readPosition l); [reflexivity|].
  destruct (DecodeRuneInString _); reflexivity.
Qed.

Lemma readChar_position :
  forall l, lexer.position (lexer.readChar l) = lexer.readPosition l.
Proof.
  intros l. unfold lexer.readChar.
  destruct (length (lexer.input l) <=? lexer.readPosition l); [reflexivity|].
  destruct (DecodeRuneInString _); reflexivity.
Qed.

(** Once [err] is set, [NextToken] returns an end-of-input token and leaves
    the lexer as it is, whatever the fuel. *)
Lemma NextToken_after_error :
  forall fuel l e,
    lexer.err l = Some e ->
    lexer.NextToken fuel l
    = Ok (mkToken EOF [] (lexer.line l) (lexer.column l), l).
Proof.
  intros fuel l e He. unfold lexer.NextToken. rewrite He. reflexivity.
Qed.

Lemma parser_options_keep :
  forall popts p,
    parser.l (fold_left parser.applyOption popts p) = parser.l p /\
    parser.curToken (fold_left parser.applyOption popts p) = parser.curToken p /\
    parser.peekToken (fold_left parser.applyOption popts p) = parser.peekToken p /\
    parser.errors (fold_left parser.applyOption popts p) = parser.errors p.
Proof.
  induction popts as [|o popts IH]; intros p; simpl; [tauto|].
  destruct (IH (parser.applyOption p o)) as (H1 & H2 & H3 & H4).
  rewrite H1, H2, H3, H4. destruct o; simpl; tauto.
Qed.

Lemma parser_nextToken_after_error :
  forall fuel p e,
    lexer.err (parser.l p) = Some e ->
    parser.nextToken fuel p
    = Ok (parser.mkParser (parser.l p) (parser.peekToken p)
            (mkToken EOF [] (lexer.line (parser.l p))
                     (lexer.column (parser.l p)))
            (parser.errors p) (parser.ctx p)).
Proof.
  intros fuel p e He. unfold parser.nextToken.
  rewrite (NextToken_after_error fuel (parser.l p) e He). reflexivity.
Qed.

(** ** C5: the input size limit *)

(** C5. When the input is longer than the configured maximum input size, the
    lexer records [ErrInputTooLarge] at construction, every call of
    [NextToken] returns an end-of-input token and leaves the lexer unchanged
    (so every later call does the same), and the parser returns an empty
    document with the error as its only diagnostic. *)
Theorem C5_input_too_large :
  forall (input : str) (lopts : list lexer.Option),
    (lexer.maxInputSize (lexer.New input lopts) < Z.of_nat (length input))%Z ->
    let l := lexer.New input lopts in
    lexer.Err l = Some lexer.ErrInputTooLarge /\
    (forall fuel,
        lexer.NextToken fuel l
        = Ok (mkToken EOF [] (lexer.line l) (lexer.column l), l)) /\
    (forall fuel popts,
        0 < fuel ->
        parser.Parse fuel input lopts popts
        = Ok (ast.mkDocument [], [parser.DiagErr lexer.ErrInputTooLarge])).
Proof.
  intros input lopts Hlarge l.
  assert (Herr : lexer.err l = Some lexer.ErrInputTooLarge).
  { subst l. unfold lexer.New in *.
    rewrite readChar_maxInputSize in Hlarge. rewrite readChar_err.
    set (l1 := fold_left lexer.applyOption lopts _) in *.
    destruct (lexer.maxInputSize l1 <? Z.of_nat (length input))%Z eqn:E.
    - reflexivity.
    - simpl in Hlarge. apply Z.ltb_ge in E. lia. }
  split; [exact Herr|]. split.
  - intros fuel. apply NextToken_after_error with (e := lexer.ErrInputTooLarge).
    exact Herr.
  - intros fuel popts Hfuel. unfold parser.Parse, parser.New.
    fold l. unfold lexer.Err. rewrite Herr.
    set (p0 := parser.mkParser l parser.zeroToken parser.zeroToken []
                               context.Background).
    destruct (parser_options_keep popts p0) as (Hl & Hc & Hp & He).
    set (p1 := fold_left parser.applyOption popts p0) in *.
    rewrite parser_nextToken_after_error
      with (e := lexer.ErrInputTooLarge) by (simpl; rewrite Hl; exact Herr).
    simpl bind.
    rewrite parser_nextToken_after_error
      with (e := lexer.ErrInputTooLarge) by (simpl; rewrite Hl; exact Herr).
    simpl bind.
    unfold parser.ParseDocument, parser.ParseDocument_store.
    destruct fuel as [|fuel]; [lia|]. simpl.
    rewrite He. reflexivity.
Qed.

Lemma C5_input_too_large_witness :
  lexer.Err (lexer.New (lit "* a") [lexer.WithMaxInputSize 2])
  = Some lexer.ErrInputTooLarge.
Proof.
  apply (C5_input_too_large (lit "* a") [lexer.WithMaxInputSize 2]).
  vm_compute. reflexivity.
Defined.

(** ** C7: the line length limit *)

Lemma readWhile_err :
  forall cond fuel l n n' l',
    lexer.readWhile cond fuel l n = Ok (n', l') ->
    lexer.err l' = lexer.err l.
Proof.
  intros cond fuel. induction fuel as [|fuel IH]; intros l n n' l' H.
  - discriminate.
  - simpl in H. destruct (cond (lexer.ch l)).
    + apply IH in H. rewrite H. apply readChar_err.
    + inversion H. reflexivity.
Qed.

Lemma readWhile_ctx :
  forall cond fuel l n n' l',
    lexer.readWhile cond fuel l n = Ok (n', l') ->
    lexer.ctx l' = lexer.ctx l.
Proof.
  intros cond fuel. induction fuel as [|f IH]; intros l n n' l' H.
  - discriminate.
  - simpl in H. destruct (cond (lexer.ch l)).
    + apply IH in H. rewrite H. apply readChar_ctx.
    + injection H as _ <-. reflexivity.
Qed.

Lemma bind_Ok :
  forall (A B : Type) (m : result A) (k : A -> result B) (b : B),
    bind m k = Ok b -> exists a, m = Ok a /\ k a = Ok b.
Proof.
  intros A B m k b H. destruct m as [a| |]; simpl in H; try discriminate.
  exists a. split; [reflexivity|exact H].
Qed.

Lemma slice_Ok :
  forall s lo hi r,
    slice s lo hi = Ok r ->
    lo <= hi /\ hi <= length s /\ r = firstn (hi - lo) (skipn lo s).
Proof.
  intros s lo hi r H. unfold slice in H.
  destruct (lo <=? hi) eqn:E1; simpl in H; [|discriminate].
  destruct (hi <=? length s) eqn:E2; simpl in H; [|discriminate].
  apply Nat.leb_le in E1. apply Nat.leb_le in E2. inversion H. auto.
Qed.

Lemma restOfLine_err :
  forall fuel pos l lit l',
    lexer.restOfLine fuel pos l = Ok (lit, l') ->
    lexer.err l' = lexer.err l.
Proof.
  intros fuel pos l lit0 l' H. unfold lexer.restOfLine in H.
  apply bind_Ok in H. destruct H as ([n l1] & H1 & H2).
  apply bind_Ok in H2. destruct H2 as (s & _ & H3). inversion H3; subst.
  eapply readWhile_err; eauto.
Qed.

(** C7 (the code does not do this). A plain-text line is read by
    [readTextLine], which never looks at the maximum line length: it leaves
    [err] as it was, for every lexer state. With a maximum of 3, the input
    ["aaaa\nb"] yields the whole four-byte line as a TEXT token, no error, and
    the following tokens; only a line that starts with stars not followed by a
    space (read by [readToEndOfLine]) is cut and sets [ErrLineTooLong]. *)
Theorem C7_text_line_not_limited :
  (forall fuel l tok l',
      lexer.readTextLine fuel l = Ok (tok, l') -> lexer.err l' = lexer.err l) /\
  (exists l',
      spec.lexTokens 4 10
        (lexer.New (lit "aaaa" ++ [LF] ++ lit "b") [lexer.WithMaxLineLength 3])
      = Ok ([mkToken TEXT (lit "aaaa") 1 1; mkToken NEWLINE [LF] 1 5;
             mkToken TEXT (lit "b") 2 1; mkToken EOF [] 2 2], l')
      /\ lexer.Err l' = None) /\
  (exists l',
      spec.lexTokens 3 10
        (lexer.New (lit "*aaaa" ++ [LF] ++ lit "b") [lexer.WithMaxLineLength 3])
      = Ok ([mkToken TEXT (lit "*aaa") 1 1; mkToken EOF [] 1 5;
             mkToken EOF [] 1 5], l')
      /\ lexer.Err l' = Some lexer.ErrLineTooLong).
Proof.
  split; [|split].
  - intros fuel l tok l' H. unfold lexer.readTextLine in H.
    apply bind_Ok in H. destruct H as ([lit0 l1] & H1 & H2).
    inversion H2; subst. eapply restOfLine_err; eauto.
  - eexists. vm_compute. split; reflexivity.
  - eexists. vm_compute. split; reflexivity.
Qed.

(** ** C9: the Ordered flag *)

(** C9 (the code does not do this for nested lists). The top-level list takes
    [Ordered] from the first byte of its first item's trimmed literal, that
    is, from its marker. A nested list takes it from the first byte of the
    item's content, from which the marker has already been removed: for
    ["- a\n  1. b\n"] the nested list is not ordered although the marker of
    its first item is ["1."], and for ["- a\n  - 2 b\n"] it is ordered
    although the marker is a dash. *)
Theorem C9_nested_ordered_from_content :
  (exists t1 t2 t3 t4,
      parser.Parse 20 (unlines ["- a"; "  1. b"]) [] []
      = Ok (ast.mkDocument
              [ast.List t1 false
                 [ast.mkListItem t2 0 ast.CheckboxNone (lit "a")
                    [ast.List t3 false
                       [ast.mkListItem t4 2 ast.CheckboxNone (lit "b") []]]]],
            [])
      /\ Literal t4 = lit "  1. b"
      /\ parser.startsWithDigit (TrimSpace (Literal t4)) = true) /\
  (exists t1 t2 t3 t4,
      parser.Parse 20 (unlines ["- a"; "  - 2 b"]) [] []
      = Ok (ast.mkDocument
              [ast.List t1 false
                 [ast.mkListItem t2 0 ast.CheckboxNone (lit "a")
                    [ast.List t3 true
                       [ast.mkListItem t4 2 ast.CheckboxNone (lit "2 b") []]]]],
            [])
      /\ Literal t4 = lit "  - 2 b") /\
  (exists t1 t2 t3,
      parser.Parse 20 (unlines ["1. a"; "2. b"]) [] []
      = Ok (ast.mkDocument
              [ast.List t1 true
                 [ast.mkListItem t2 0 ast.CheckboxNone (lit "a") [];
                  ast.mkListItem t3 0 ast.CheckboxNone (lit "b") []]],
            [])).
Proof.
  split; [|split].
  - do 4 eexists. vm_compute. repeat split; reflexivity.
  - do 4 eexists. vm_compute. repeat split; reflexivity.
  - do 3 eexists. vm_compute. reflexivity.
Qed.

(** Split the conjunctions of a goal without unfolding definitions. *)
Ltac splits := repeat match goal with |- _ /\ _ => split end.

(** ** The token stream a parser reads *)

Lemma token_eqb_true : forall a b, token.eqb a b = true <-> a = b.
Proof.
  intros a b. unfold token.eqb.
  destruct (token.TokenType_eq_dec a b); split; congruence.
Qed.

Lemma token_eqb_false : forall a b, token.eqb a b = false <-> a <> b.
Proof.
  intros a b. unfold token.eqb.
  destruct (token.TokenType_eq_dec a b); split; congruence.
Qed.

(** Evaluate the comparisons of two token type constants. *)
Ltac tok_eval :=
  repeat match goal with
         | |- context [token.eqb ?a ?b] =>
             is_constructor a; is_constructor b;
             let r := eval vm_compute in (token.eqb a b) in
             change (token.eqb a b) with r
         end.

Lemma nextToken_cur :
  forall fuel p p1,
    parser.nextToken fuel p = Ok p1 ->
    parser.curToken p1 = parser.peekToken p /\
    parser.errors p1 = parser.errors p.
Proof.
  intros fuel p p1 H. unfold parser.nextToken in H.
  apply bind_Ok in H. destruct H as ([tok l'] & _ & H).
  inversion H; subst. simpl. auto.
Qed.

Lemma upcoming_step :
  forall k fuel p toks,
    spec.upcoming (S k) fuel p = Ok toks ->
    parser.curTokenIs p EOF = false ->
    exists p1 rest,
      parser.nextToken fuel p = Ok p1 /\
      spec.upcoming k fuel p1 = Ok rest /\
      toks = parser.curToken p :: rest.
Proof.
  intros k fuel p toks H Hc. simpl in H. rewrite Hc in H.
  apply bind_Ok in H. destruct H as (p1 & H1 & H).
  apply bind_Ok in H. destruct H as (rest & H2 & H).
  inversion H; subst. eauto.
Qed.

Lemma upcoming_eof :
  forall k fuel p toks,
    spec.upcoming (S k) fuel p = Ok toks ->
    parser.curTokenIs p EOF = true ->
    toks = [parser.curToken p].
Proof.
  intros k fuel p toks H Hc. simpl in H. rewrite Hc in H. congruence.
Qed.

Lemma complete_nonempty : forall toks, spec.complete toks -> toks <> [].
Proof.
  intros toks (pre & t & H & _) E. subst. destruct pre; discriminate.
Qed.

Lemma complete_cons :
  forall t rest,
    spec.complete (t :: rest) -> token.eqb (Typ t) EOF = false ->
    spec.complete rest.
Proof.
  intros t rest (pre & t' & H & Ht) Hne.
  destruct pre as [|x pre]; simpl in H; inversion H; subst.
  - apply token_eqb_false in Hne. contradiction.
  - exists pre, t'. auto.
Qed.

Lemma upcoming_complete_pos :
  forall k fuel p toks,
    spec.upcoming k fuel p = Ok toks -> spec.complete toks ->
    exists k', k = S k'.
Proof.
  intros k fuel p toks H Hc. destruct k as [|k'].
  - simpl in H. inversion H; subst. apply complete_nonempty in Hc. congruence.
  - eauto.
Qed.

(** ** C3: the content of a block *)





Lemma sliceFrom_Ok :
  forall s lo r, sliceFrom s lo = Ok r -> lo <= length s /\ r = skipn lo s.
Proof.
  intros s lo r H. unfold sliceFrom in H. apply slice_Ok in H.
  destruct H as (H1 & _ & ->). split; [exact H1|].
  apply firstn_all2. rewrite length_skipn. lia.
Qed.


Lemma Index_prefix :
  forall s sub, HasPrefix s sub = true -> Index s sub = 0%Z.
Proof.
  intros s sub H. unfold Index. destruct s; cbn [Index_from]; rewrite H; reflexivity.
Qed.




(** ** C6: the run of items of a list *)

Lemma upcoming_head :
  forall k fuel p toks,
    spec.upcoming k fuel p = Ok toks -> spec.complete toks ->
    exists rest, toks = parser.curToken p :: rest.
Proof.
  intros k fuel p toks Hu Hc.
  destruct (upcoming_complete_pos _ _ _ _ Hu Hc) as (k' & ->).
  destruct (parser.curTokenIs p EOF) eqn:E.
  - rewrite (upcoming_eof _ _ _ _ Hu E). eauto.
  - destruct (upcoming_step _ _ _ _ Hu E) as (p1 & rest & _ & _ & ->). eauto.
Qed.

Lemma parseListItem_token :
  forall p it, parser.parseListItem p = Ok it ->
               parser.iToken it = parser.curToken p.
Proof.
  intros p it H. unfold parser.parseListItem in H.
  apply bind_Ok in H. destruct H as (content & _ & H).
  apply bind_Ok in H. destruct H as ([checkbox content'] & _ & H).
  injection H as <-. reflexivity.
Qed.

Lemma parseList_loop_eq :
  forall fuel n p allItems,
    parser.parseList_loop fuel (S n) p allItems
    = if parser.curTokenIs p LIST_ITEM then
        it <- parser.parseListItem p ;;
        p <- (if parser.peekTokenIs p NEWLINE then parser.nextToken fuel p
              else Ok p) ;;
        if negb (parser.peekTokenIs p LIST_ITEM) then Ok (allItems ++ [it], p)
        else
          p <- parser.nextToken fuel p ;;
          parser.parseList_loop fuel n p (allItems ++ [it])
      else Ok (allItems, p).
Proof. reflexivity. Qed.

Lemma parseList_loop_run :
  forall fuel n p acc allItems p',
    parser.parseList_loop fuel n p acc = Ok (allItems, p') ->
    forall k toks,
      spec.upcoming k fuel p = Ok toks -> spec.complete toks ->
      map parser.iToken allItems = map parser.iToken acc ++ spec.listRun toks.
Proof.
  intros fuel n. induction n as [|n IH]; intros p acc allItems p' H k toks Hu Hc.
  - discriminate.
  - rewrite parseList_loop_eq in H.
    destruct (parser.curTokenIs p LIST_ITEM) eqn:Eitem.
    2:{ injection H as <- <-.
        destruct (upcoming_head _ _ _ _ Hu Hc) as (rest & ->).
        unfold parser.curTokenIs in Eitem. simpl. rewrite Eitem.
        rewrite app_nil_r. reflexivity. }
    apply bind_Ok in H. destruct H as (it & Hit & H).
    apply parseListItem_token in Hit.
    destruct (upcoming_complete_pos _ _ _ _ Hu Hc) as (k' & ->).
    assert (Hne : parser.curTokenIs p EOF = false).
    { unfold parser.curTokenIs in *. apply token_eqb_true in Eitem.
      rewrite Eitem. reflexivity. }
    destruct (upcoming_step _ _ _ _ Hu Hne) as (p1 & rest & Hn & Hr & ->).
    assert (Hc1 : spec.complete rest) by (eapply complete_cons; eauto).
    destruct (nextToken_cur _ _ _ Hn) as (Hcur1 & _).
    unfold parser.curTokenIs in Eitem.
    unfold parser.peekTokenIs in H.
    destruct (token.eqb (Typ (parser.peekToken p)) NEWLINE) eqn:Enl.
    + rewrite Hn in H. simpl bind in H.
      destruct (upcoming_complete_pos _ _ _ _ Hr Hc1) as (k'' & ->).
      assert (Hne1 : parser.curTokenIs p1 EOF = false).
      { unfold parser.curTokenIs. rewrite Hcur1.
        apply token_eqb_true in Enl. rewrite Enl. reflexivity. }
      destruct (upcoming_step _ _ _ _ Hr Hne1) as (p2 & rest2 & Hn2 & Hr2 & ->).
      assert (Hc2 : spec.complete rest2).
      { eapply complete_cons; [exact Hc1|exact Hne1]. }
      destruct (nextToken_cur _ _ _ Hn2) as (Hcur2 & _).
      destruct (upcoming_head _ _ _ _ Hr2 Hc2) as (rest3 & Hrest2).
      cbn [spec.listRun]. rewrite Eitem, Hcur1, Enl.
      rewrite Hrest2 at 1. rewrite Hcur2.
      destruct (token.eqb (Typ (parser.peekToken p1)) LIST_ITEM) eqn:Ei1;
        simpl negb in H; cbv iota in H.
      * rewrite Hn2 in H. simpl bind in H.
        specialize (IH _ _ _ _ H _ _ Hr2 Hc2).
        rewrite IH, map_app. cbn [map]. rewrite Hit, <- app_assoc. reflexivity.
      * injection H as <- <-. rewrite map_app. cbn [map]. rewrite Hit.
        reflexivity.
    + destruct (upcoming_head _ _ _ _ Hr Hc1) as (rest1 & Hrest).
      cbn [spec.listRun]. rewrite Eitem. rewrite Hrest at 1.
      rewrite Hcur1, Enl. simpl bind in H.
      destruct (token.eqb (Typ (parser.peekToken p)) LIST_ITEM) eqn:Ei1;
        simpl negb in H; cbv iota in H.
      * rewrite Hn in H. simpl bind in H.
        specialize (IH _ _ _ _ H _ _ Hr Hc1).
        rewrite IH, map_app. cbn [map]. rewrite Hit, <- app_assoc. reflexivity.
      * injection H as <- <-. rewrite map_app. cbn [map]. rewrite Hit.
        reflexivity.
Qed.

(** C6 (as amended). A list collects the run of LIST_ITEM tokens in which each
    item is followed by the next one directly or after exactly one NEWLINE
    token, the one that ends the item's own line; any other token ends the
    list, and so does the second NEWLINE of a blank line. ["- a\n- b\n"] is
    one List of two items; ["- a\n\n- b\n"] is two Lists of one item each. *)
Theorem C6_list_run :
  (forall fuel p allItems p' k toks,
      parser.parseList_loop fuel fuel p [] = Ok (allItems, p') ->
      spec.upcoming k fuel p = Ok toks -> spec.complete toks ->
      map parser.iToken allItems = spec.listRun toks) /\
  (exists t1 t2 t3,
      parser.Parse 40 (unlines ["- a"; "- b"]) [] []
      = Ok (ast.mkDocument
              [ast.List t1 false
                 [ast.mkListItem t2 0 ast.CheckboxNone (lit "a") [];
                  ast.mkListItem t3 0 ast.CheckboxNone (lit "b") []]], [])) /\
  (exists t1 t2 t3 t4,
      parser.Parse 40 (unlines ["- a"; ""; "- b"]) [] []
      = Ok (ast.mkDocument
              [ast.List t1 false
                 [ast.mkListItem t2 0 ast.CheckboxNone (lit "a") []];
               ast.List t3 false
                 [ast.mkListItem t4 0 ast.CheckboxNone (lit "b") []]], [])).
Proof.
  split; [|split].
  - intros fuel p allItems p' k toks H Hu Hc.
    apply (parseList_loop_run _ _ _ _ _ _ H _ _ Hu Hc).
  - do 3 eexists. vm_compute. reflexivity.
  - do 4 eexists. vm_compute. reflexivity.
Qed.

Lemma C6_list_run_witness :
  exists allItems p' toks,
    parser.parseList_loop 40 40
      (spec.parserOn 40 (unlines ["- a"; "- b"])) [] = Ok (allItems, p') /\
    spec.upcoming 10 40 (spec.parserOn 40 (unlines ["- a"; "- b"])) = Ok toks /\
    map Typ toks = [LIST_ITEM; NEWLINE; LIST_ITEM; NEWLINE; EOF] /\
    map parser.iContent allItems = [lit "a"; lit "b"] /\
    map parser.iToken allItems = spec.listRun toks.
Proof.
  set (p := spec.parserOn 40 (unlines ["- a"; "- b"])).
  destruct (parser.parseList_loop 40 40 p []) as [[allItems p']| |] eqn:E1;
    [|vm_compute in E1; discriminate|vm_compute in E1; discriminate].
  destruct (spec.upcoming 10 40 p) as [toks| |] eqn:E2;
    [|vm_compute in E2; discriminate|vm_compute in E2; discriminate].
  exists allItems, p', toks.
  assert (Hc : spec.complete toks).
  { vm_compute in E2. injection E2 as <-.
    eexists [_; _; _; _], _. split; reflexivity. }
  pose proof (proj1 C6_list_run 40 p allItems p' 10 toks E1 E2 Hc) as H.
  vm_compute in E1, E2. injection E1 as <- _. injection E2 as <-.
  do 4 (split; [reflexivity|]). exact H.
Defined.

(** C6, the claim as stated, fails: two items separated by one blank line do
    not parse as a single List. *)
Lemma C6_counterexample :
  ~ (exists tok ordered its errs,
        parser.Parse 40 (unlines ["- a"; ""; "- b"]) [] []
        = Ok (ast.mkDocument [ast.List tok ordered its], errs)).
Proof.
  intros (tok & ordered & its & errs & H).
  vm_compute in H. discriminate H.
Qed.

(** ** Nearest smaller index and the stack that tracks it *)

Lemma nearestBelow_some :
  forall levels i v j,
    spec.nearestBelow levels i v = Some j ->
    j < i /\ nth j levels 0 < v /\
    forall k, j < k -> k < i -> v <= nth k levels 0.
Proof.
  intros levels i v. induction i as [|i IH]; intros j H; simpl in H.
  - discriminate.
  - destruct (nth i levels 0 <? v) eqn:E.
    + injection H as <-. apply Nat.ltb_lt in E.
      split; [lia|]. split; [exact E|]. intros k Hk1 Hk2. lia.
    + apply Nat.ltb_ge in E. destruct (IH _ H) as (H1 & H2 & H3).
      split; [lia|]. split; [exact H2|]. intros k Hk1 Hk2.
      destruct (Nat.eq_dec k i) as [->|Hne]; [exact E|]. apply H3; lia.
Qed.

Lemma nearestBelow_none :
  forall levels i v,
    spec.nearestBelow levels i v = None ->
    forall k, k < i -> v <= nth k levels 0.
Proof.
  intros levels i v. induction i as [|i IH]; intros H k Hk; simpl in H.
  - lia.
  - destruct (nth i levels 0 <? v) eqn:E; [discriminate|].
    apply Nat.ltb_ge in E.
    destruct (Nat.eq_dec k i) as [->|Hne]; [exact E|]. apply IH; [exact H|lia].
Qed.

Lemma nearestBelow_skip :
  forall levels i j v,
    j <= i ->
    (forall k, j <= k -> k < i -> v <= nth k levels 0) ->
    spec.nearestBelow levels i v = spec.nearestBelow levels j v.
Proof.
  intros levels i j v Hle. induction Hle as [|i Hle IH]; intros H.
  - reflexivity.
  - simpl. assert (E : (nth i levels 0 <? v) = false).
    { apply Nat.ltb_ge. apply H; lia. }
    rewrite E. apply IH. intros k Hk1 Hk2. apply H; lia.
Qed.

Lemma nearestBelow_app :
  forall levels more i v,
    i <= length levels ->
    spec.nearestBelow (levels ++ more) i v = spec.nearestBelow levels i v.
Proof.
  intros levels more i v. induction i as [|i IH]; intros H; simpl.
  - reflexivity.
  - rewrite app_nth1 by lia. rewrite IH by lia. reflexivity.
Qed.

Lemma nearestSmaller_app :
  forall levels more i,
    i < length levels ->
    spec.nearestSmaller (levels ++ more) i = spec.nearestSmaller levels i.
Proof.
  intros levels more i H. unfold spec.nearestSmaller.
  rewrite app_nth1 by lia. apply nearestBelow_app. lia.
Qed.

Lemma nearestSmaller_lt :
  forall levels i j, spec.nearestSmaller levels i = Some j -> j < i.
Proof.
  intros levels i j H. apply nearestBelow_some in H. tauto.
Qed.

(** Popping a linked stack whose top is the entry before [m] leaves the
    nearest index before [m] with a level below [v] on top. *)
Lemma pop_spec :
  forall levels lv,
    (forall i, lv i = nth i levels 0) ->
    forall stack m v,
      spec.linked levels stack ->
      match stack with
      | a :: _ => a < m /\ forall k, a < k -> k < m -> v <= nth k levels 0
      | [] => forall k, k < m -> v <= nth k levels 0
      end ->
      spec.linked levels (spec.pop lv stack v) /\
      hd_error (spec.pop lv stack v) = spec.nearestBelow levels m v.
Proof.
  intros levels lv Hlv stack. induction stack as [|a rest IH]; intros m v Hl Hc.
  - simpl. split; [exact I|].
    rewrite (nearestBelow_skip levels m 0 v); [reflexivity|lia|].
    intros k _ Hk. apply Hc. exact Hk.
  - destruct Hc as (Ham & Hc). destruct Hl as (Hns & Hl).
    simpl. rewrite Hlv. destruct (nth a levels 0 <? v) eqn:E.
    + split; [split; assumption|].
      rewrite (nearestBelow_skip levels m (S a) v); [|lia|].
      * simpl. rewrite E. reflexivity.
      * intros k Hk1 Hk2. apply Hc; lia.
    + apply Nat.ltb_ge in E. apply IH; [exact Hl|].
      unfold spec.nearestSmaller in Hns.
      destruct rest as [|b rest']; simpl in Hns.
      * intros k Hk.
        destruct (Nat.lt_trichotomy k a) as [Hlt|[->|Hgt]].
        -- pose proof (nearestBelow_none _ _ _ Hns _ Hlt). lia.
        -- exact E.
        -- apply Hc; lia.
      * apply nearestBelow_some in Hns. destruct Hns as (Hba & _ & Hb).
        split; [lia|]. intros k Hk1 Hk2.
        destruct (Nat.lt_trichotomy k a) as [Hlt|[->|Hgt]].
        -- pose proof (Hb k Hk1 Hlt). lia.
        -- exact E.
        -- apply Hc; lia.
Qed.

(** Pushing the next entry [n] on the popped stack keeps the chain. *)
Lemma chain_push :
  forall levels lv,
    (forall i, lv i = nth i levels 0) ->
    forall stack n,
      spec.chain levels n stack ->
      let stack' := spec.pop lv stack (nth n levels 0) in
      hd_error stack' = spec.nearestSmaller levels n /\
      spec.chain levels (S n) (n :: stack').
Proof.
  intros levels lv Hlv stack n (Htop & Hl) stack'.
  destruct (pop_spec levels lv Hlv stack n (nth n levels 0) Hl) as (Hl' & Hhd).
  { destruct stack as [|a rest].
    - intros k Hk. lia.
    - split; [lia|]. intros k Hk1 Hk2. lia. }
  split; [exact Hhd|]. split; [reflexivity|].
  split; [|exact Hl']. symmetry. exact Hhd.
Qed.

Lemma nestedUnder_S :
  forall levels parent n,
    spec.nestedUnder levels parent (S n)
    = spec.nestedUnder levels parent n
      ++ (if spec.option_nat_eqb (spec.nearestSmaller levels n) parent
          then [n] else []).
Proof.
  intros levels parent n. unfold spec.nestedUnder.
  rewrite seq_S, filter_app. reflexivity.
Qed.

Lemma option_nat_eqb_eq :
  forall a b, spec.option_nat_eqb a b = true <-> a = b.
Proof.
  intros [x|] [y|]; simpl; split; intros H; try congruence;
    try discriminate.
  - apply Nat.eqb_eq in H. congruence.
  - injection H as ->. apply Nat.eqb_refl.
Qed.

Lemma nestedUnder_In :
  forall levels parent n i,
    In i (spec.nestedUnder levels parent n)
    <-> i < n /\ spec.nearestSmaller levels i = parent.
Proof.
  intros levels parent n i. unfold spec.nestedUnder.
  rewrite filter_In, in_seq, option_nat_eqb_eq. split; intros (H1 & H2).
  - split; [lia|exact H2].
  - split; [lia|exact H2].
Qed.

(** ** Stores *)

Lemma update_length :
  forall (A : Type) (xs : list A) i f, length (parser.update xs i f) = length xs.
Proof.
  intros A xs. induction xs as [|x r IH]; intros i f; simpl.
  - reflexivity.
  - destruct i; simpl; [reflexivity|]. rewrite IH. reflexivity.
Qed.

Lemma nth_update_eq :
  forall (A : Type) (xs : list A) i f d,
    i < length xs -> nth i (parser.update xs i f) d = f (nth i xs d).
Proof.
  intros A xs. induction xs as [|x r IH]; intros i f d H; simpl in *.
  - lia.
  - destruct i; simpl; [reflexivity|]. apply IH. lia.
Qed.

Lemma nth_update_neq :
  forall (A : Type) (xs : list A) i j f d,
    i <> j -> nth j (parser.update xs i f) d = nth j xs d.
Proof.
  intros A xs. induction xs as [|x r IH]; intros i j f d H; simpl.
  - reflexivity.
  - destruct i, j; simpl; try reflexivity; try congruence.
    apply IH. congruence.
Qed.

Lemma popItems_pop :
  forall st stack v,
    parser.popItems st stack v
    = spec.pop (fun i => parser.iIndent (parser.item st i)) stack v.
Proof.
  intros st stack v. induction stack as [|a rest IH]; simpl.
  - reflexivity.
  - rewrite Nat.ltb_antisym.
    destruct (v <=? parser.iIndent (parser.item st a)); simpl; congruence.
Qed.

Lemma lastChildList_single :
  forall c q,
    parser.iChildren c = [parser.ListPtr q] -> parser.lastChildList c = Some q.
Proof. intros c q H. unfold parser.lastChildList. rewrite H. reflexivity. Qed.

Lemma lastChildList_nil :
  forall c, parser.iChildren c = [] -> parser.lastChildList c = None.
Proof. intros c H. unfold parser.lastChildList. rewrite H. reflexivity. Qed.

Lemma map_iIndent_nth :
  forall orig i,
    nth i (map parser.iIndent orig) 0
    = parser.iIndent (nth i orig parser.nilItem).
Proof.
  intros orig i.
  change 0 with (parser.iIndent parser.nilItem). apply map_nth.
Qed.

Lemma nestedUnder_S_same :
  forall levels parent n,
    spec.nearestSmaller levels n = parent ->
    spec.nestedUnder levels parent (S n)
    = spec.nestedUnder levels parent n ++ [n].
Proof.
  intros levels parent n H. rewrite nestedUnder_S.
  apply option_nat_eqb_eq in H. rewrite H. reflexivity.
Qed.

Lemma nestedUnder_S_other :
  forall levels parent n,
    spec.nearestSmaller levels n <> parent ->
    spec.nestedUnder levels parent (S n) = spec.nestedUnder levels parent n.
Proof.
  intros levels parent n H. rewrite nestedUnder_S.
  destruct (spec.option_nat_eqb (spec.nearestSmaller levels n) parent) eqn:E.
  - apply option_nat_eqb_eq in E. contradiction.
  - apply app_nil_r.
Qed.

(** ** C4: nesting of list items *)

Lemma placeItem_inv :
  forall orig k st stack result st' stack' result',
    spec.listInv orig k st stack result ->
    k < length orig ->
    parser.placeItem (st, stack, result) k = (st', stack', result') ->
    spec.listInv orig (S k) st' stack' result'.
Proof.
  intros orig k st stack result st' stack' result'
         [Hlen Hsame Hchain Htop Hch Hinj] Hk Hplace.
  set (levels := map parser.iIndent orig) in *.
  assert (Hlv : forall i, parser.iIndent (parser.item st i) = nth i levels 0).
  { intros i. destruct (Hsame i) as (_ & H & _). rewrite H.
    unfold levels. symmetry. apply map_iIndent_nth. }
  unfold parser.placeItem in Hplace. rewrite popItems_pop, Hlv in Hplace.
  destruct (chain_push levels _ Hlv stack k Hchain) as (Hhd & Hchain').
  destruct (spec.pop (fun i => parser.iIndent (parser.item st i)) stack
                     (nth k levels 0)) as [|parent below] eqn:Epop.
  - (* no open item with a smaller indentation: top level *)
    injection Hplace as <- <- <-. simpl in Hhd. symmetry in Hhd.
    constructor; try assumption.
    + fold levels. rewrite (nestedUnder_S_same levels None k Hhd), Htop.
      reflexivity.
    + intros j. fold levels.
      rewrite (nestedUnder_S_other levels (Some j) k) by congruence.
      apply Hch.
  - (* nested under [parent] *)
    simpl in Hhd. symmetry in Hhd.
    assert (Hpk : parent < k) by (eapply nearestSmaller_lt; eauto).
    assert (Hplen : parent < length (parser.items st)) by lia.
    pose proof (Hch parent) as Hparent. fold levels in Hparent.
    destruct (parser.iChildren (parser.item st parent))
      as [|[q|nd] [|c cs]] eqn:Ec; try contradiction.
    + (* the parent has no nested list yet *)
      rewrite (lastChildList_nil _ Ec) in Hplace.
      injection Hplace as <- <- <-.
      set (q := length (parser.lists st)).
      assert (Hitem_p :
                parser.iChildren
                  (nth parent
                       (parser.update (parser.items st) parent
                          (fun c => parser.mkItemCell (parser.iToken c)
                                      (parser.iIndent c) (parser.iCheckbox c)
                                      (parser.iContent c)
                                      (parser.iChildren c ++ [parser.ListPtr q])))
                       parser.nilItem)
                = [parser.ListPtr q]).
      { rewrite nth_update_eq by exact Hplen. simpl.
        unfold parser.item in Ec. rewrite Ec. reflexivity. }
      constructor; simpl.
      * rewrite update_length. exact Hlen.
      * intros i. unfold parser.item. simpl.
        destruct (Nat.eq_dec parent i) as [<-|Hne].
        -- rewrite nth_update_eq by exact Hplen.
           destruct (Hsame parent) as (H1 & H2 & H3 & H4).
           unfold parser.item in *. repeat split; simpl; assumption.
        -- rewrite nth_update_neq by exact Hne. apply Hsame.
      * exact Hchain'.
      * fold levels. rewrite (nestedUnder_S_other levels None k) by congruence.
        exact Htop.
      * intros j. fold levels. unfold parser.item, parser.list_. simpl.
        destruct (Nat.eq_dec parent j) as [<-|Hne].
        -- rewrite Hitem_p. rewrite update_length, length_app. simpl.
           split; [unfold q; lia|].
           rewrite nth_update_eq by (rewrite length_app; simpl; unfold q; lia).
           simpl. unfold q. rewrite nth_middle. simpl.
           rewrite (nestedUnder_S_same levels (Some parent) k Hhd), Hparent.
           reflexivity.
        -- rewrite nth_update_neq by exact Hne.
           assert (Hother : spec.nearestSmaller levels k <> Some j)
             by congruence.
           rewrite (nestedUnder_S_other levels (Some j) k Hother).
           pose proof (Hch j) as Hj. fold levels in Hj.
           unfold parser.item in Hj.
           destruct (parser.iChildren (nth j (parser.items st) parser.nilItem))
             as [|[q'|nd] [|c cs]]; try contradiction; [exact Hj|].
           destruct Hj as (Hq' & Hj).
           rewrite update_length, length_app. simpl. split; [lia|].
           rewrite nth_update_neq by (unfold q; lia).
           rewrite app_nth1 by exact Hq'. exact Hj.
      * intros j j' q0 Hj Hj'. unfold parser.item in Hj, Hj'. simpl in Hj, Hj'.
        destruct (Nat.eq_dec parent j) as [<-|Hne];
          destruct (Nat.eq_dec parent j') as [<-|Hne']; try reflexivity.
        -- rewrite Hitem_p in Hj. injection Hj as <-.
           rewrite nth_update_neq in Hj' by exact Hne'.
           pose proof (Hch j') as Hc'. unfold parser.item in Hc'.
           rewrite Hj' in Hc'. unfold q in Hc'. lia.
        -- rewrite Hitem_p in Hj'. injection Hj' as <-.
           rewrite nth_update_neq in Hj by exact Hne.
           pose proof (Hch j) as Hc'. unfold parser.item in Hc'.
           rewrite Hj in Hc'. unfold q in Hc'. lia.
        -- rewrite nth_update_neq in Hj by exact Hne.
           rewrite nth_update_neq in Hj' by exact Hne'.
           eapply Hinj; eauto.
    + (* the parent's last child is a nested list: reuse it *)
      destruct Hparent as (Hq & Hitems).
      rewrite (lastChildList_single _ _ Ec) in Hplace.
      injection Hplace as <- <- <-.
      constructor; simpl.
      * exact Hlen.
      * exact Hsame.
      * exact Hchain'.
      * fold levels. rewrite (nestedUnder_S_other levels None k) by congruence.
        exact Htop.
      * intros j. fold levels. unfold parser.item, parser.list_. simpl.
        pose proof (Hch j) as Hj. fold levels in Hj.
        unfold parser.item, parser.list_ in Hj.
        destruct (Nat.eq_dec parent j) as [<-|Hne].
        -- unfold parser.item in Ec. rewrite Ec. rewrite update_length.
           split; [exact Hq|]. rewrite nth_update_eq by exact Hq. simpl.
           unfold parser.list_ in Hitems. rewrite Hitems.
           rewrite (nestedUnder_S_same levels (Some parent) k Hhd).
           reflexivity.
        -- assert (Hother : spec.nearestSmaller levels k <> Some j)
             by congruence.
           rewrite (nestedUnder_S_other levels (Some j) k Hother).
           destruct (parser.iChildren (nth j (parser.items st) parser.nilItem))
             as [|[q'|nd] [|c cs]] eqn:Ej; try contradiction; [exact Hj|].
           destruct Hj as (Hq' & Hj). rewrite update_length.
           split; [exact Hq'|].
           assert (q <> q').
           { intros ->. apply Hne. eapply Hinj; eauto. }
           rewrite nth_update_neq by assumption. exact Hj.
      * exact Hinj.
Qed.

Lemma placeItem_fold_inv :
  forall orig,
    Forall (fun c => parser.iChildren c = []) orig ->
    forall k,
      k <= length orig ->
      forall st stack result,
        fold_left parser.placeItem (seq 0 k) (parser.mkListStore orig [], [], [])
        = (st, stack, result) ->
        spec.listInv orig k st stack result.
Proof.
  intros orig Hnil k. induction k as [|k IH]; intros Hk st stack result H.
  - simpl in H. injection H as <- <- <-. constructor; simpl.
    + reflexivity.
    + intros i. unfold parser.item. simpl. repeat split.
    + split; [reflexivity|exact I].
    + reflexivity.
    + intros j. unfold parser.item. simpl.
      destruct (nth_in_or_default j orig parser.nilItem) as [Hin | ->].
      * rewrite Forall_forall in Hnil. rewrite (Hnil _ Hin). reflexivity.
      * reflexivity.
    + intros j j' q Hj _. unfold parser.item in Hj. simpl in Hj.
      destruct (nth_in_or_default j orig parser.nilItem) as [Hin|E].
      * rewrite Forall_forall in Hnil. rewrite (Hnil _ Hin) in Hj.
        discriminate.
      * rewrite E in Hj. discriminate.
  - rewrite seq_S, fold_left_app in H. simpl in H.
    destruct (fold_left parser.placeItem (seq 0 k)
                        (parser.mkListStore orig [], [], []))
      as [[st0 stack0] result0] eqn:E.
    eapply placeItem_inv; [apply IH; [lia|reflexivity]|lia|exact H].
Qed.

Lemma parseListItem_children :
  forall p it, parser.parseListItem p = Ok it -> parser.iChildren it = [].
Proof.
  intros p it H. unfold parser.parseListItem in H.
  apply bind_Ok in H. destruct H as (content & _ & H).
  apply bind_Ok in H. destruct H as ([checkbox content'] & _ & H).
  injection H as <-. reflexivity.
Qed.

Lemma parseList_loop_children :
  forall fuel n p acc allItems p',
    Forall (fun c => parser.iChildren c = []) acc ->
    parser.parseList_loop fuel n p acc = Ok (allItems, p') ->
    Forall (fun c => parser.iChildren c = []) allItems.
Proof.
  intros fuel n. induction n as [|n IH]; intros p acc allItems p' Hacc H.
  - discriminate.
  - rewrite parseList_loop_eq in H.
    destruct (parser.curTokenIs p LIST_ITEM).
    2:{ injection H as <- <-. exact Hacc. }
    apply bind_Ok in H. destruct H as (it & Hit & H).
    apply parseListItem_children in Hit.
    assert (Hacc' : Forall (fun c => parser.iChildren c = []) (acc ++ [it])).
    { apply Forall_app. split; [exact Hacc|]. constructor; [exact Hit|constructor]. }
    apply bind_Ok in H. destruct H as (p1 & _ & H).
    destruct (negb (parser.peekTokenIs p1 LIST_ITEM)).
    + injection H as <- <-. exact Hacc'.
    + apply bind_Ok in H. destruct H as (p2 & _ & H).
      eapply IH; eauto.
Qed.

(** C4. [buildNestedList] nests every item under the nearest preceding item
    with a strictly smaller indentation: the top-level items are exactly the
    items that have no such item, in input order; an item has no child when
    no item is nested under it, and otherwise exactly one child, a nested
    list that holds exactly the items whose nearest preceding item with a
    strictly smaller indentation it is, in input order. The items
    [parseList] collects have no children to begin with, and the example of
    the specification holds. *)
Theorem C4_list_nesting :
  (forall allItems baseIndent st top,
      Forall (fun c => parser.iChildren c = []) allItems ->
      parser.buildNestedList allItems baseIndent = (st, top) ->
      let levels := map parser.iIndent allItems in
      let n := length allItems in
      top = spec.nestedUnder levels None n /\
      (forall i, spec.sameItem (parser.item st i)
                               (nth i allItems parser.nilItem)) /\
      (forall j,
          match parser.iChildren (parser.item st j) with
          | [] => spec.nestedUnder levels (Some j) n = []
          | [parser.ListPtr q] =>
              parser.lItems (parser.list_ st q)
              = spec.nestedUnder levels (Some j) n
          | _ => False
          end) /\
      (forall parent i,
          In i (spec.nestedUnder levels parent n)
          <-> i < n /\ spec.nearestSmaller levels i = parent)) /\
  (forall fuel p allItems p',
      parser.parseList_loop fuel fuel p [] = Ok (allItems, p') ->
      Forall (fun c => parser.iChildren c = []) allItems) /\
  (exists t1 t2 t3 t4 t5 t6,
      parser.Parse 40 (unlines ["- a"; "  - b"; "  - c"; "- d"]) [] []
      = Ok (ast.mkDocument
              [ast.List t1 false
                 [ast.mkListItem t2 0 ast.CheckboxNone (lit "a")
                    [ast.List t3 false
                       [ast.mkListItem t4 2 ast.CheckboxNone (lit "b") [];
                        ast.mkListItem t5 2 ast.CheckboxNone (lit "c") []]];
                  ast.mkListItem t6 0 ast.CheckboxNone (lit "d") []]],
            [])).
Proof.
  split; [|split].
  - intros allItems baseIndent st top Hnil H levels n.
    assert (Hinv : exists stack, spec.listInv allItems n st stack top).
    { unfold parser.buildNestedList in H.
      destruct (length allItems =? 0) eqn:E0.
      - injection H as <- <-. apply Nat.eqb_eq in E0.
        exists []. unfold n. rewrite E0.
        apply (placeItem_fold_inv allItems Hnil 0); [lia|reflexivity].
      - destruct (fold_left parser.placeItem (seq 0 (length allItems))
                            (parser.mkListStore allItems [], [], []))
          as [[st0 stack0] result0] eqn:E.
        injection H as <- <-. exists stack0.
        apply (placeItem_fold_inv allItems Hnil n); [unfold n; lia|exact E]. }
    destruct Hinv as (stack & [Hlen Hsame Hchain Htop Hch Hinj]).
    split; [exact Htop|]. split; [exact Hsame|]. split.
    + intros j. pose proof (Hch j) as Hj. fold levels in Hj.
      destruct (parser.iChildren (parser.item st j)) as [|[q|nd] [|c cs]];
        try contradiction; [exact Hj|]. apply Hj.
    + intros parent i. apply nestedUnder_In.
  - intros fuel p allItems p' H.
    eapply parseList_loop_children; [|exact H]. constructor.
  - do 6 eexists. vm_compute. reflexivity.
Qed.

Lemma C4_list_nesting_witness :
  snd (parser.buildNestedList
         [parser.mkItemCell parser.zeroToken 0 ast.CheckboxNone (lit "a") [];
          parser.mkItemCell parser.zeroToken 2 ast.CheckboxNone (lit "b") [];
          parser.mkItemCell parser.zeroToken 0 ast.CheckboxNone (lit "d") []] 0)
  = spec.nestedUnder [0; 2; 0] None 3.
Proof.
  set (its := [parser.mkItemCell parser.zeroToken 0 ast.CheckboxNone (lit "a") [];
               parser.mkItemCell parser.zeroToken 2 ast.CheckboxNone (lit "b") [];
               parser.mkItemCell parser.zeroToken 0 ast.CheckboxNone (lit "d") []]).
  assert (HF : Forall (fun c => parser.iChildren c = []) its)
    by (repeat constructor).
  exact (proj1 (proj1 C4_list_nesting its 0
                      (fst (parser.buildNestedList its 0))
                      (snd (parser.buildNestedList its 0))
                      HF (surjective_pairing _))).
Defined.

(** ** C1: nesting of headlines *)

Lemma popHeadlines_pop :
  forall hs stack v,
    parser.popHeadlines hs stack v
    = spec.pop (fun i => parser.hLevel (nth i hs parser.nilHeadline)) stack v.
Proof.
  intros hs stack v. induction stack as [|a rest IH]; simpl.
  - reflexivity.
  - rewrite IH. reflexivity.
Qed.

Lemma pop_ext :
  forall lv lv' stack v,
    (forall a, In a stack -> lv a = lv' a) ->
    spec.pop lv stack v = spec.pop lv' stack v.
Proof.
  intros lv lv' stack v. induction stack as [|a rest IH]; intros H; simpl.
  - reflexivity.
  - rewrite (H a) by (left; reflexivity).
    rewrite IH by (intros b Hb; apply H; right; exact Hb). reflexivity.
Qed.

Lemma linked_bound :
  forall levels stack a,
    spec.linked levels (a :: stack) -> forall b, In b stack -> b < a.
Proof.
  intros levels stack. induction stack as [|c rest IH]; intros a Hl b Hb.
  - destruct Hb.
  - destruct Hl as (Ha & Hl). simpl in Ha. apply nearestSmaller_lt in Ha.
    destruct Hb as [->|Hb]; [exact Ha|].
    specialize (IH c Hl b Hb). lia.
Qed.

Lemma chain_bound :
  forall levels n stack,
    spec.chain levels n stack -> forall b, In b stack -> b < n.
Proof.
  intros levels n stack (Htop & Hl) b Hb. destruct stack as [|a rest].
  - destruct Hb.
  - destruct Hb as [->|Hb]; [lia|].
    pose proof (linked_bound levels rest a Hl b Hb). lia.
Qed.

Lemma linked_app :
  forall levels more stack,
    (forall b, In b stack -> b < length levels) ->
    spec.linked levels stack -> spec.linked (levels ++ more) stack.
Proof.
  intros levels more stack. induction stack as [|a rest IH]; intros Hb Hl.
  - exact I.
  - destruct Hl as (Ha & Hl). split.
    + rewrite nearestSmaller_app by (apply Hb; left; reflexivity). exact Ha.
    + apply IH; [|exact Hl]. intros b Hin. apply Hb. right. exact Hin.
Qed.

Lemma nestedUnder_app :
  forall levels more parent n,
    n <= length levels ->
    spec.nestedUnder (levels ++ more) parent n
    = spec.nestedUnder levels parent n.
Proof.
  intros levels more parent n H. unfold spec.nestedUnder.
  apply filter_ext_in. intros i Hi. apply in_seq in Hi.
  rewrite nearestSmaller_app by lia. reflexivity.
Qed.

Lemma headPtrs_app :
  forall a b, spec.headPtrs (a ++ b) = spec.headPtrs a ++ spec.headPtrs b.
Proof.
  intros a b. induction a as [|[h|x] r IH]; simpl; [reflexivity| |exact IH].
  rewrite IH. reflexivity.
Qed.

Lemma appendChild_levels :
  forall hs parent r,
    map parser.hLevel (parser.appendChild hs parent r) = map parser.hLevel hs.
Proof.
  intros hs. induction hs as [|c cs IH]; intros parent r.
  - reflexivity.
  - destruct parent as [|parent]; simpl; [reflexivity|].
    unfold parser.appendChild in IH. rewrite IH. reflexivity.
Qed.

Lemma appendChild_length :
  forall hs parent r, length (parser.appendChild hs parent r) = length hs.
Proof. intros. unfold parser.appendChild. apply update_length. Qed.

Lemma appendChild_same :
  forall hs parent r,
    parent < length hs ->
    parser.hChildren (nth parent (parser.appendChild hs parent r)
                          parser.nilHeadline)
    = parser.hChildren (nth parent hs parser.nilHeadline) ++ [r].
Proof.
  intros hs parent r H. unfold parser.appendChild.
  rewrite nth_update_eq by exact H. reflexivity.
Qed.

Lemma appendChild_other :
  forall hs parent r j,
    parent <> j ->
    nth j (parser.appendChild hs parent r) parser.nilHeadline
    = nth j hs parser.nilHeadline.
Proof.
  intros hs parent r j H. unfold parser.appendChild.
  apply nth_update_neq. exact H.
Qed.

Lemma map_hLevel_nth :
  forall hs i,
    nth i (map parser.hLevel hs) 0
    = parser.hLevel (nth i hs parser.nilHeadline).
Proof.
  intros hs i. change 0 with (parser.hLevel parser.nilHeadline). apply map_nth.
Qed.

Lemma attach_inv :
  forall st node,
    spec.docInv st ->
    (forall hl, node = parser.NewHeadline hl -> parser.hChildren hl = []) ->
    spec.docInv (parser.attach st node).
Proof.
  intros [hs root stack] node [Hchain Hch Hroot] Hnode.
  unfold spec.headLevels, parser.headline in *. simpl in *.
  set (levels := map parser.hLevel hs) in *.
  set (n := length hs) in *.
  destruct node as [|hl|x]; simpl.
  - constructor; assumption.
  - (* a new headline *)
    specialize (Hnode hl eq_refl).
    set (v := parser.hLevel hl).
    set (levels' := levels ++ [v]).
    assert (Hbound : forall b, In b stack -> b < n)
      by (eapply chain_bound; eauto).
    assert (Hnth : nth n levels' 0 = v).
    { unfold levels', n, levels. rewrite <- (length_map parser.hLevel hs).
      apply nth_middle. }
    assert (Hpop : parser.popHeadlines hs stack v
                   = spec.pop (fun i => nth i levels' 0) stack (nth n levels' 0)).
    { rewrite popHeadlines_pop, Hnth. apply pop_ext. intros a Ha.
      rewrite <- map_hLevel_nth. fold levels. unfold levels'.
      rewrite app_nth1; [reflexivity|].
      unfold levels. rewrite length_map. apply Hbound. exact Ha. }
    assert (Hchain0 : spec.chain levels' n stack).
    { destruct Hchain as (Htop & Hl). split; [exact Htop|].
      apply linked_app; [|exact Hl]. unfold levels. rewrite length_map.
      exact Hbound. }
    destruct (chain_push levels' (fun i => nth i levels' 0)
                         (fun i => eq_refl) stack n Hchain0) as (Hhd & Hchain').
    rewrite <- Hpop in Hhd, Hchain'.
    assert (Hlen : n <= length levels)
      by (unfold levels, n; rewrite length_map; lia).
    assert (Hold : forall parent,
               spec.nestedUnder levels' parent n
               = spec.nestedUnder levels parent n).
    { intros parent. apply nestedUnder_app. exact Hlen. }
    destruct (parser.popHeadlines hs stack v) as [|parent below] eqn:Epop.
    + (* no open headline with a smaller level: a child of the document *)
      simpl in Hhd. symmetry in Hhd.
      constructor; unfold spec.headLevels, parser.headline; simpl;
        rewrite ?map_app, ?length_app; simpl;
        fold levels; fold v; fold levels'; fold n;
        replace (n + 1) with (S n) by lia.
      * exact Hchain'.
      * intros j.
        rewrite (nestedUnder_S_other levels' (Some j) n) by congruence.
        rewrite Hold, <- Hch.
        destruct (Nat.lt_ge_cases j n) as [Hlt|Hge].
        -- rewrite app_nth1 by exact Hlt. reflexivity.
        -- rewrite (nth_overflow hs) by exact Hge.
           destruct (Nat.eq_dec j n) as [->|Hne].
           ++ unfold n. rewrite nth_middle. rewrite Hnode. reflexivity.
           ++ rewrite nth_overflow;
                [reflexivity|rewrite length_app; simpl; fold n; lia].
      * rewrite headPtrs_app, Hroot. simpl.
        rewrite (nestedUnder_S_same levels' None n Hhd), Hold. reflexivity.
    + (* nested under the headline on top of the stack *)
      simpl in Hhd. symmetry in Hhd.
      assert (Hpn : parent < n) by (eapply nearestSmaller_lt; eauto).
      constructor; unfold spec.headLevels, parser.headline; simpl;
        rewrite ?appendChild_levels, ?appendChild_length,
                ?map_app, ?length_app; simpl;
        fold levels; fold v; fold levels'; fold n;
        replace (n + 1) with (S n) by lia.
      * exact Hchain'.
      * intros j. destruct (Nat.eq_dec parent j) as [<-|Hne].
        -- rewrite appendChild_same by (rewrite length_app; fold n; lia).
           rewrite app_nth1 by exact Hpn.
           rewrite headPtrs_app, Hch. simpl.
           rewrite (nestedUnder_S_same levels' (Some parent) n Hhd), Hold.
           reflexivity.
        -- rewrite appendChild_other by exact Hne.
           assert (Hother : spec.nearestSmaller levels' n <> Some j)
             by congruence.
           rewrite (nestedUnder_S_other levels' (Some j) n Hother).
           rewrite Hold, <- Hch.
           destruct (Nat.lt_ge_cases j n) as [Hlt|Hge].
           ++ rewrite app_nth1 by exact Hlt. reflexivity.
           ++ rewrite (nth_overflow hs) by exact Hge.
              destruct (Nat.eq_dec j n) as [->|Hne'].
              ** unfold n. rewrite nth_middle. rewrite Hnode. reflexivity.
              ** rewrite nth_overflow;
                   [reflexivity|rewrite length_app; simpl; fold n; lia].
      * rewrite (nestedUnder_S_other levels' None n) by congruence.
        rewrite Hold. exact Hroot.
  - (* any other node: a child of the top of the stack, else of the document *)
    destruct stack as [|parent below].
    + constructor; unfold spec.headLevels, parser.headline; simpl;
        fold levels; fold n.
      * exact Hchain.
      * exact Hch.
      * rewrite headPtrs_app. simpl. rewrite app_nil_r. exact Hroot.
    + assert (Hpn : parent < n).
      { eapply chain_bound; [exact Hchain|left; reflexivity]. }
      constructor; unfold spec.headLevels, parser.headline; simpl;
        rewrite ?appendChild_levels, ?appendChild_length;
        fold levels; fold n.
      * exact Hchain.
      * intros j. destruct (Nat.eq_dec parent j) as [<-|Hne].
        -- rewrite appendChild_same by exact Hpn.
           rewrite headPtrs_app. simpl. rewrite app_nil_r. apply Hch.
        -- rewrite appendChild_other by exact Hne. apply Hch.
      * exact Hroot.
Qed.

Lemma parseHeadline_children :
  forall fuel p hl p',
    parser.parseHeadline fuel p = Ok (hl, p') -> parser.hChildren hl = [].
Proof.
  intros fuel p hl p' H. unfold parser.parseHeadline in H.
  destruct (parser.peekTokenIs p TEXT).
  - apply bind_Ok in H. destruct H as (p1 & _ & H).
    apply bind_Ok in H. destruct H as ([tags text1] & _ & H).
    apply bind_Ok in H. destruct H as ([keyword text2] & _ & H).
    apply bind_Ok in H. destruct H as ([priority text3] & _ & H).
    injection H as <- <-. reflexivity.
  - injection H as <- <-. reflexivity.
Qed.

Lemma parseNode_headline :
  forall fuel p hl p',
    parser.parseNode fuel p = Ok (parser.NewHeadline hl, p') ->
    parser.hChildren hl = [].
Proof.
  intros fuel p hl p' H. unfold parser.parseNode in H.
  destruct (Typ (parser.curToken p));
    try (injection H as H1 H2; discriminate H1);
    try (apply bind_Ok in H; destruct H as ([x p1] & Hx & H);
         injection H as H1 H2; try discriminate H1).
  - subst x. eapply parseHeadline_children; eauto.
  - apply bind_Ok in H. destruct H as (x & Hx & H). injection H as H1 H2.
    discriminate H1.
  - apply bind_Ok in H. destruct H as (x & Hx & H). injection H as H1 H2.
    discriminate H1.
Qed.

Lemma ParseDocument_loop_inv :
  forall fuel n p st st' p',
    spec.docInv st ->
    parser.ParseDocument_loop fuel n p st = Ok (st', p') ->
    spec.docInv st'.
Proof.
  intros fuel n. induction n as [|n IH]; intros p st st' p' Hinv H.
  - discriminate.
  - simpl in H. destruct (parser.curTokenIs p EOF).
    + injection H as <- <-. exact Hinv.
    + destruct (parser.checkContext p) as [cancelled p1].
      destruct cancelled.
      * injection H as <- <-. exact Hinv.
      * destruct (lexer.Err (parser.l p1)).
        -- injection H as <- <-. exact Hinv.
        -- apply bind_Ok in H. destruct H as ([node p2] & Hnode & H).
           apply bind_Ok in H. destruct H as (p3 & _ & H).
           eapply IH; [|exact H]. apply attach_inv; [exact Hinv|].
           intros hl ->. eapply parseNode_headline; eauto.
Qed.





(** ** C8: inline elements as a decomposition of the text *)

Lemma dropWhile_head :
  forall f s,
    dropWhile f s = [] \/
    exists y r, dropWhile f s = y :: r /\ f y = false.
Proof.
  intros f s. induction s as [|c r IH]; simpl; [left; reflexivity|].
  destruct (f c) eqn:E; [exact IH|]. right. exists c, r. auto.
Qed.

Lemma str_eqb_eq : forall a b, str_eqb a b = true <-> a = b.
Proof.
  intros a b. unfold str_eqb.
  destruct (list_eq_dec ascii_dec a b); split; auto; discriminate.
Qed.

Lemma takeWhile_dropWhile :
  forall f s, takeWhile f s ++ dropWhile f s = s.
Proof.
  intros f s. induction s as [|c r IH]; simpl.
  - reflexivity.
  - destruct (f c); simpl; [rewrite IH|]; reflexivity.
Qed.

Lemma ascii_eqb_eq : forall a b, Ascii.eqb a b = true -> a = b.
Proof. intros a b H. apply Ascii.eqb_eq. exact H. Qed.

Lemma skipn_app_exact :
  forall (A : Type) (a b : list A) n, n = length a -> skipn n (a ++ b) = b.
Proof.
  intros A a b n ->. rewrite skipn_app, Nat.sub_diag, skipn_all. reflexivity.
Qed.

Lemma firstn_app_exact :
  forall (A : Type) (a b : list A) n, n = length a -> firstn n (a ++ b) = a.
Proof.
  intros A a b n ->. rewrite firstn_app, Nat.sub_diag, firstn_all. simpl.
  apply app_nil_r.
Qed.

(** What a match of the link pattern at offset 0 says about the text. *)
Lemma linkRegex_spec :
  forall s url desc m,
    parser.linkRegex s = Some (url, desc, m) ->
    url <> [] /\
    match desc with
    | None => s = lit "[[" ++ url ++ lit "]]" ++ skipn m s
              /\ m = length url + 4
    | Some d => d <> []
                /\ s = lit "[[" ++ url ++ lit "][" ++ d ++ lit "]]" ++ skipn m s
                /\ m = length url + length d + 6
    end.
Proof.
  intros s url desc m H. unfold parser.linkRegex in H.
  destruct s as [|c0 s]; [discriminate|].
  destruct (Ascii.eqb c0 "[") eqn:E0.
  2:{ destruct c0 as [[] [] [] [] [] [] [] []]; try discriminate. }
  apply ascii_eqb_eq in E0. subst c0.
  destruct s as [|c1 r]; [discriminate|].
  destruct (Ascii.eqb c1 "[") eqn:E1.
  2:{ destruct c1 as [[] [] [] [] [] [] [] []]; try discriminate. }
  apply ascii_eqb_eq in E1. subst c1.
  pose proof (takeWhile_dropWhile parser.notRBracket r) as Hr.
  destruct (takeWhile parser.notRBracket r) as [|u url'] eqn:Eurl;
    [discriminate|].
  destruct (dropWhile parser.notRBracket r) as [|c2 r1] eqn:Er1;
    [discriminate|].
  destruct (Ascii.eqb c2 "]") eqn:E2.
  2:{ destruct c2 as [[] [] [] [] [] [] [] []]; try discriminate. }
  apply ascii_eqb_eq in E2. subst c2.
  destruct r1 as [|c3 r2]; [discriminate|].
  destruct (Ascii.eqb c3 "]") eqn:E3.
  - apply ascii_eqb_eq in E3. subst c3. injection H as <- <- <-.
    split; [discriminate|]. split; [|reflexivity].
    assert (Hs : "["%char :: "["%char :: r
                 = (lit "[[" ++ (u :: url') ++ lit "]]") ++ r2).
    { rewrite <- Hr. simpl. rewrite <- app_assoc. reflexivity. }
    rewrite Hs.
    rewrite skipn_app_exact by (rewrite !length_app; simpl; lia).
    rewrite <- !app_assoc. reflexivity.
  - destruct (Ascii.eqb c3 "[") eqn:E4.
    2:{ destruct c3 as [[] [] [] [] [] [] [] []]; try discriminate. }
    apply ascii_eqb_eq in E4. subst c3.
    pose proof (takeWhile_dropWhile parser.notRBracket r2) as Hr2.
    destruct (takeWhile parser.notRBracket r2) as [|d0 d'] eqn:Ed;
      [discriminate|].
    destruct (dropWhile parser.notRBracket r2) as [|c4 r3] eqn:Er3;
      [discriminate|].
    destruct (Ascii.eqb c4 "]") eqn:E5.
    2:{ destruct c4 as [[] [] [] [] [] [] [] []]; try discriminate. }
    apply ascii_eqb_eq in E5. subst c4.
    destruct r3 as [|c5 r4]; [discriminate|].
    destruct (Ascii.eqb c5 "]") eqn:E6.
    2:{ destruct c5 as [[] [] [] [] [] [] [] []]; try discriminate. }
    apply ascii_eqb_eq in E6. subst c5. injection H as <- <- <-.
    split; [discriminate|]. split; [discriminate|]. split; [|reflexivity].
    assert (Hs : "["%char :: "["%char :: r
                 = (lit "[[" ++ (u :: url') ++ lit "][" ++ (d0 :: d')
                    ++ lit "]]") ++ r4).
    { rewrite <- Hr, <- Hr2. simpl. rewrite <- !app_assoc. simpl.
      rewrite <- !app_assoc. reflexivity. }
    rewrite Hs.
    rewrite skipn_app_exact by (rewrite !length_app; simpl; lia).
    rewrite <- !app_assoc. reflexivity.
Qed.

Lemma findClosingMarker_from_spec :
  forall text closer i e,
    parser.findClosingMarker_from text closer i = e ->
    e <> (-1)%Z -> (0 <= i)%Z ->
    exists inner rest,
      text = inner ++ closer :: rest /\ e = (i + Z.of_nat (length inner))%Z.
Proof.
  intros text closer. induction text as [|c r IH]; intros i e H Hne Hi.
  - simpl in H. congruence.
  - simpl in H. destruct (Ascii.eqb c closer) eqn:E.
    + apply ascii_eqb_eq in E. subst c. exists [], r. simpl. split; [reflexivity|].
      lia.
    + destruct (IH _ _ H Hne ltac:(lia)) as (inner & rest & -> & ->).
      exists (c :: inner), rest. split; [reflexivity|]. simpl length. lia.
Qed.

Lemma findNextMarker_from_ge :
  forall text i e,
    parser.findNextMarker_from text i = e -> e = (-1)%Z \/ (i <= e)%Z.
Proof.
  intros text. induction text as [|c r IH]; intros i e H; simpl in H.
  - left. congruence.
  - destruct (parser.oneOf "*/~=+_" c); [right; lia|].
    destruct (Ascii.eqb c "[" && _); [right; lia|].
    destruct (IH _ _ H) as [?|?]; [left; assumption|right; lia].
Qed.

Lemma findNextMarker_bound :
  forall text i e,
    parser.findNextMarker_from text i = e -> e <> (-1)%Z ->
    (e < i + Z.of_nat (length text))%Z.
Proof.
  intros text. induction text as [|c r IH]; intros i e H Hne; simpl in H.
  - congruence.
  - simpl length.
    destruct (parser.oneOf "*/~=+_" c); [lia|].
    destruct (Ascii.eqb c "[" && _); [lia|].
    specialize (IH _ _ H Hne). lia.
Qed.

(** A byte at which [findNextMarker] stops is ASCII, so [string(b)] is that
    byte. *)
Lemma findNextMarker_zero :
  forall c r,
    parser.findNextMarker (c :: r) = 0%Z -> stringOfByte c = [c].
Proof.
  intros c r H. unfold parser.findNextMarker in H. simpl in H.
  destruct (parser.oneOf "*/~=+_" c) eqn:E1.
  - unfold parser.oneOf in E1. simpl in E1.
    repeat (apply orb_prop in E1; destruct E1 as [E1|E1];
            [apply ascii_eqb_eq in E1; subst c; reflexivity|]).
    discriminate.
  - destruct (Ascii.eqb c "[") eqn:E2.
    + apply ascii_eqb_eq in E2. subst c. reflexivity.
    + simpl in H. apply findNextMarker_from_ge in H. lia.
Qed.

Lemma inlineMarkers_spec :
  forall c typ closer nestable,
    parser.inlineMarkers c = Some (typ, closer, nestable) ->
    closer = c /\ spec.markerOf typ = [c] /\
    (if nestable
     then typ = ast.InlineBold \/ typ = ast.InlineItalic
          \/ typ = ast.InlineStrikethrough \/ typ = ast.InlineUnderline
     else typ = ast.InlineCode \/ typ = ast.InlineVerbatim).
Proof.
  intros c typ closer nestable H. unfold parser.inlineMarkers in H.
  repeat match type of H with
         | (if Ascii.eqb c ?x then _ else _) = _ =>
             let E := fresh "E" in
             destruct (Ascii.eqb c x) eqn:E;
             [apply ascii_eqb_eq in E; subst c; injection H as <- <- <-;
              simpl; tauto|]
         end.
  discriminate.
Qed.

Lemma tryMarker_spec :
  forall remaining typ nestable e,
    parser.tryMarker remaining = Ok (Some (typ, nestable, e)) ->
    exists c inner rest,
      remaining = c :: inner ++ c :: rest /\
      parser.inlineMarkers c = Some (typ, c, nestable) /\
      inner <> [] /\ e = Z.of_nat (length inner).
Proof.
  intros remaining typ nestable e H. unfold parser.tryMarker in H.
  apply bind_Ok in H. destruct H as (r0 & Hr0 & H).
  destruct remaining as [|c rem1]; [discriminate|].
  unfold at_ in Hr0. simpl in Hr0. injection Hr0 as <-.
  destruct (parser.inlineMarkers c) as [[[typ0 closer] nestable0]|] eqn:Em;
    [|discriminate].
  destruct (2 <? length (c :: rem1)); [|discriminate].
  apply bind_Ok in H. destruct H as (rest & Hrest & H).
  apply sliceFrom_Ok in Hrest. destruct Hrest as (_ & ->). simpl in H.
  destruct (parser.findClosingMarker rem1 closer =? -1)%Z eqn:E1;
    [discriminate|].
  destruct (0 <? parser.findClosingMarker rem1 closer)%Z eqn:E2;
    [|discriminate].
  simpl in H. injection H as <- <- <-.
  apply Z.eqb_neq in E1. apply Z.ltb_lt in E2.
  destruct (inlineMarkers_spec _ _ _ _ Em) as (-> & _).
  destruct (findClosingMarker_from_spec rem1 c 0 _ eq_refl E1 ltac:(lia))
    as (inner & rest & Hrem & He).
  exists c, inner, rest. split; [rewrite Hrem; reflexivity|].
  split; [exact Em|]. unfold parser.findClosingMarker in *.
  rewrite He in E2 |- *. split; [|lia].
  destruct inner; [simpl in E2; lia|discriminate].
Qed.

Lemma tryLink_spec :
  forall remaining r,
    parser.tryLink remaining = Ok r ->
    r = None \/ r = parser.linkRegex remaining.
Proof.
  intros remaining r H. unfold parser.tryLink in H.
  destruct (2 <? length remaining).
  - apply bind_Ok in H. destruct H as (r0 & _ & H).
    apply bind_Ok in H. destruct H as (r1 & _ & H).
    destruct (Ascii.eqb r0 "[" && Ascii.eqb r1 "["); injection H as <-; auto.
  - injection H as <-. auto.
Qed.

Lemma markupAll_app :
  forall a b, spec.markupAll (a ++ b) = spec.markupAll a ++ spec.markupAll b.
Proof.
  intros a b. unfold spec.markupAll. rewrite map_app, concat_app. reflexivity.
Qed.

Lemma markupAll_one : forall e, spec.markupAll [e] = spec.markup e.
Proof. intros e. unfold spec.markupAll. simpl. apply app_nil_r. Qed.

Lemma parseInlineElementsRecursive_eq :
  forall f text depth,
    parser.parseInlineElementsRecursive (S f) text depth
    = if parser.maxDepth <? depth then Ok [parser.text text]
      else parser.inlineLoop f text depth [].
Proof. reflexivity. Qed.

Lemma inlineLoop_eq :
  forall f remaining depth elements,
    parser.inlineLoop (S f) remaining depth elements
    = if length remaining =? 0 then Ok elements
      else
        link <- parser.tryLink remaining ;;
        match link with
        | Some (url, desc, matchEnd) =>
            children <-
              match desc with
              | Some ((_ :: _) as d) =>
                  parser.parseInlineElementsRecursive f d (depth + 1)
              | _ => Ok []
              end ;;
            let elem := ast.mkInline ast.InlineLink [] url children in
            rest <- sliceFrom remaining matchEnd ;;
            parser.inlineLoop f rest depth (elements ++ [elem])
        | None =>
            marker <- parser.tryMarker remaining ;;
            match marker with
            | Some (typ, nestable, end_) =>
                innerContent <- slice remaining 1 (Z.to_nat (end_ + 1)) ;;
                elem <-
                  (if nestable : bool then
                     children <-
                       parser.parseInlineElementsRecursive f innerContent
                                                           (depth + 1) ;;
                     Ok (ast.mkInline typ [] [] children)
                   else Ok (ast.mkInline typ innerContent [] [])) ;;
                rest <- sliceFrom remaining (Z.to_nat (end_ + 2)) ;;
                parser.inlineLoop f rest depth (elements ++ [elem])
            | None =>
                let nextMarker := parser.findNextMarker remaining in
                if (nextMarker =? -1)%Z then
                  Ok (elements ++ [parser.text remaining])
                else if (0 <? nextMarker)%Z then
                  before <- sliceTo remaining (Z.to_nat nextMarker) ;;
                  rest <- sliceFrom remaining (Z.to_nat nextMarker) ;;
                  parser.inlineLoop f rest depth
                                    (elements ++ [parser.text before])
                else
                  r0 <- at_ remaining 0 ;;
                  rest <- sliceFrom remaining 1 ;;
                  parser.inlineLoop f rest depth
                    (elements ++ [parser.text (stringOfByte r0)])
            end
        end.
Proof. reflexivity. Qed.

(** Normalise nested concatenations of byte strings. *)
Ltac app_norm :=
  repeat (progress (cbn [app lit list_ascii_of_string];
                    rewrite <- ?app_assoc)).

Lemma markupAll_nil_inv :
  forall es, spec.markupAll es <> [] -> es <> [].
Proof. intros es H ->. apply H. reflexivity. Qed.

(** Writing the elements back with their markers gives the text parsed. *)
Lemma inline_markup :
  forall fuel,
    (forall text depth r,
        parser.parseInlineElementsRecursive fuel text depth = Ok r ->
        spec.markupAll r = text) /\
    (forall remaining depth elements r,
        parser.inlineLoop fuel remaining depth elements = Ok r ->
        spec.markupAll r = spec.markupAll elements ++ remaining).
Proof.
  induction fuel as [|f [IHrec IHloop]].
  - split; intros; discriminate.
  - split.
    + intros text depth r H. rewrite parseInlineElementsRecursive_eq in H.
      destruct (parser.maxDepth <? depth).
      * injection H as <-. apply markupAll_one.
      * apply IHloop in H. exact H.
    + intros remaining depth elements r H. rewrite inlineLoop_eq in H.
      destruct (length remaining =? 0) eqn:E0.
      { injection H as <-. apply Nat.eqb_eq in E0.
        apply length_zero_iff_nil in E0. subst. symmetry. apply app_nil_r. }
      apply bind_Ok in H. destruct H as (link & Hlink & H).
      apply tryLink_spec in Hlink.
      destruct link as [[[url desc] matchEnd]|].
      * (* a link *)
        destruct Hlink as [Hl|Hl]; [discriminate|]. symmetry in Hl.
        apply linkRegex_spec in Hl. destruct Hl as (Hurl & Hl).
        apply bind_Ok in H. destruct H as (children & Hch & H).
        apply bind_Ok in H. destruct H as (rest & Hrest & H).
        apply sliceFrom_Ok in Hrest. destruct Hrest as (_ & ->).
        apply IHloop in H. rewrite H, markupAll_app, markupAll_one.
        rewrite <- app_assoc. f_equal.
        destruct desc as [d|].
        -- destruct Hl as (Hd & Hs & _).
           destruct d as [|d0 d']; [congruence|].
           apply IHrec in Hch.
           assert (Hne : children <> []).
           { apply markupAll_nil_inv. rewrite Hch. discriminate. }
           rewrite Hs at 2. simpl spec.markup.
           destruct children as [|c0 cs]; [congruence|].
           fold (spec.markupAll (c0 :: cs)). rewrite Hch.
           app_norm. reflexivity.
        -- destruct Hl as (Hs & _). injection Hch as <-.
           rewrite Hs at 2. simpl spec.markup.
           app_norm. reflexivity.
      * (* no link *)
        clear Hlink.
        apply bind_Ok in H. destruct H as (marker & Hm & H).
        destruct marker as [[[typ nestable] end_]|].
        -- (* a formatting element *)
           apply tryMarker_spec in Hm.
           destruct Hm as (c & inner & rest0 & -> & Hmk & Hinner & ->).
           apply inlineMarkers_spec in Hmk. destruct Hmk as (_ & Hmarker & Hty).
           apply bind_Ok in H. destruct H as (innerContent & Hic & H).
           apply slice_Ok in Hic. destruct Hic as (_ & _ & ->).
           replace (Z.to_nat (Z.of_nat (length inner) + 1) - 1)
             with (length inner) in H by lia.
           cbn [skipn] in H.
           rewrite (firstn_app_exact _ inner (c :: rest0) (length inner) eq_refl)
             in H.
           apply bind_Ok in H. destruct H as (elem & Helem & H).
           apply bind_Ok in H. destruct H as (rest & Hrest & H).
           apply sliceFrom_Ok in Hrest. destruct Hrest as (_ & ->).
           replace (Z.to_nat (Z.of_nat (length inner) + 2))
             with (S (length inner + 1)) in H by lia.
           cbn [skipn] in H.
           replace (inner ++ c :: rest0) with ((inner ++ [c]) ++ rest0) in H
             by (rewrite <- app_assoc; reflexivity).
           rewrite (skipn_app_exact _ (inner ++ [c]) rest0) in H
             by (rewrite length_app; reflexivity).
           apply IHloop in H. rewrite H, markupAll_app, markupAll_one.
           rewrite <- app_assoc. f_equal.
           assert (Hmarkup : spec.markup elem = c :: inner ++ [c]).
           { destruct nestable.
             - apply bind_Ok in Helem. destruct Helem as (children & Hch & He).
               injection He as <-. apply IHrec in Hch.
               destruct Hty as [-> | [-> | [-> | ->]]]; simpl in Hmarker |- *;
                 injection Hmarker as <-;
                 fold (spec.markupAll children); rewrite Hch; reflexivity.
             - injection Helem as <-.
               destruct Hty as [-> | ->]; simpl in Hmarker |- *;
                 injection Hmarker as <-; reflexivity. }
           rewrite Hmarkup. simpl. rewrite <- app_assoc. reflexivity.
        -- (* plain text *)
           clear Hm. cbv zeta in H.
           destruct (parser.findNextMarker remaining =? -1)%Z eqn:E1.
           { injection H as <-. rewrite markupAll_app, markupAll_one.
             reflexivity. }
           apply Z.eqb_neq in E1.
           destruct (0 <? parser.findNextMarker remaining)%Z eqn:E2.
           ++ apply bind_Ok in H. destruct H as (before & Hb & H).
              apply bind_Ok in H. destruct H as (rest & Hrest & H).
              unfold sliceTo in Hb. apply slice_Ok in Hb.
              destruct Hb as (_ & _ & ->).
              apply sliceFrom_Ok in Hrest. destruct Hrest as (_ & ->).
              apply IHloop in H. rewrite H, markupAll_app, markupAll_one.
              rewrite <- app_assoc. f_equal. simpl spec.markup.
              rewrite Nat.sub_0_r. cbn [skipn]. apply firstn_skipn.
           ++ apply Z.ltb_ge in E2.
              apply bind_Ok in H. destruct H as (r0 & Hr0 & H).
              apply bind_Ok in H. destruct H as (rest & Hrest & H).
              apply sliceFrom_Ok in Hrest. destruct Hrest as (_ & ->).
              destruct remaining as [|c rem1]; [discriminate|].
              unfold at_ in Hr0. simpl in Hr0. injection Hr0 as <-.
              assert (Hz : parser.findNextMarker (c :: rem1) = 0%Z).
              { pose proof (findNextMarker_from_ge (c :: rem1) 0 _ eq_refl).
                unfold parser.findNextMarker in *. lia. }
              apply IHloop in H. rewrite H, markupAll_app, markupAll_one.
              rewrite <- app_assoc. f_equal. simpl spec.markup.
              rewrite (findNextMarker_zero _ _ Hz). reflexivity.
Qed.

Lemma InlineElement_ind_nested :
  forall P : ast.InlineElement -> Prop,
    (forall t c u ch, Forall P ch -> P (ast.mkInline t c u ch)) ->
    forall e, P e.
Proof.
  intros P H.
  refine (fix IH (e : ast.InlineElement) : P e :=
            match e with
            | ast.mkInline t c u ch =>
                H t c u ch
                  ((fix go (l : list ast.InlineElement) : Forall P l :=
                      match l with
                      | [] => Forall_nil P
                      | x :: r => Forall_cons x (IH x) (go r)
                      end) ch)
            end).
Qed.

(** ** C8: the visible text of a paragraph *)

Lemma cutAt_spec :
  forall c s a b,
    spec.cutAt c s = Some (a, b) -> s = a ++ c :: b /\ ~ In c a.
Proof.
  intros c s. induction s as [|x r IH]; intros a b H; simpl in H.
  - discriminate.
  - destruct (Ascii.eqb x c) eqn:E.
    + injection H as <- <-. apply ascii_eqb_eq in E. subst x.
      split; [reflexivity|]. intros [].
    + destruct (spec.cutAt c r) as [[a' b']|]; [|discriminate].
      injection H as <- <-. destruct (IH _ _ eq_refl) as (-> & Hn).
      split; [reflexivity|]. intros [Hc|Hc]; [|exact (Hn Hc)].
      subst x. rewrite Ascii.eqb_refl in E. discriminate.
Qed.

Lemma cutAt_intro :
  forall c a b, ~ In c a -> spec.cutAt c (a ++ c :: b) = Some (a, b).
Proof.
  intros c a b. induction a as [|x a IH]; intros H; simpl.
  - rewrite Ascii.eqb_refl. reflexivity.
  - destruct (Ascii.eqb x c) eqn:E.
    + apply ascii_eqb_eq in E. subst x. exfalso. apply H. left. reflexivity.
    + rewrite IH; [reflexivity|]. intros Hc. apply H. right. exact Hc.
Qed.

(** [findClosingMarker] finds the place where [cutAt] cuts. *)
Lemma findClosingMarker_cutAt :
  forall c s i,
    match spec.cutAt c s with
    | Some (a, _) =>
        parser.findClosingMarker_from s c i = (i + Z.of_nat (length a))%Z
    | None => parser.findClosingMarker_from s c i = (-1)%Z
    end.
Proof.
  intros c s. induction s as [|x r IH]; intros i; simpl.
  - reflexivity.
  - destruct (Ascii.eqb x c); [simpl; lia|].
    specialize (IH (i + 1)%Z).
    destruct (spec.cutAt c r) as [[a b]|]; [|exact IH].
    rewrite IH. simpl length. lia.
Qed.

Lemma cutAt_bracket :
  forall r,
    spec.cutAt "]" r
    = match dropWhile parser.notRBracket r with
      | [] => None
      | _ :: r1 => Some (takeWhile parser.notRBracket r, r1)
      end.
Proof.
  induction r as [|x r IH]; simpl; [reflexivity|].
  unfold parser.notRBracket at 1 3.
  destruct (Ascii.eqb x "]"); simpl; [reflexivity|].
  rewrite IH. destruct (dropWhile parser.notRBracket r); reflexivity.
Qed.

Lemma notRBracket_false :
  forall c, parser.notRBracket c = false -> c = "]"%char.
Proof.
  intros c H. unfold parser.notRBracket in H. apply negb_false_iff in H.
  apply ascii_eqb_eq. exact H.
Qed.

(** The link span of the specification is the match of [linkRegex] at the
    head of the text. *)
Lemma linkSpan_linkRegex :
  forall s,
    spec.linkSpan s
    = match parser.linkRegex s with
      | Some (url, None, m) => Some (url, [], skipn m s)
      | Some (url, Some d, m) => Some (url, d, skipn m s)
      | None => None
      end.
Proof.
  intros s. unfold spec.linkSpan, parser.linkRegex.
  destruct s as [|c0 s]; [reflexivity|].
  destruct (ascii_dec c0 "[") as [-> |N0].
  2:{ destruct c0 as [[] [] [] [] [] [] [] []]; try reflexivity.
      congruence. }
  destruct s as [|c1 r]; [reflexivity|].
  destruct (ascii_dec c1 "[") as [-> |N1].
  2:{ destruct c1 as [[] [] [] [] [] [] [] []]; try reflexivity.
      congruence. }
  rewrite cutAt_bracket.
  pose proof (takeWhile_dropWhile parser.notRBracket r) as Hr.
  destruct (dropWhile_head parser.notRBracket r) as [Ed | (c2 & r1 & Ed & Hc2)];
    rewrite Ed in *.
  { destruct (takeWhile parser.notRBracket r); reflexivity. }
  apply notRBracket_false in Hc2. subst c2.
  destruct (takeWhile parser.notRBracket r) as [|u url] eqn:Et.
  { destruct r1 as [|c3 r2]; [reflexivity|].
    destruct c3 as [[] [] [] [] [] [] [] []]; reflexivity. }
  destruct r1 as [|c3 r2]; [reflexivity|].
  destruct (ascii_dec c3 "]") as [-> |N3].
  { f_equal. f_equal. rewrite <- Hr.
    replace (length (u :: url) + 4) with (2 + (length (u :: url) + 2)) by lia.
    cbn [Nat.add skipn].
    replace ((u :: url) ++ "]"%char :: "]"%char :: r2)
      with (((u :: url) ++ ["]"%char; "]"%char]) ++ r2)
      by (rewrite <- app_assoc; reflexivity).
    symmetry. apply skipn_app_exact. rewrite length_app. reflexivity. }
  destruct (ascii_dec c3 "[") as [-> |N4].
  2:{ destruct c3 as [[] [] [] [] [] [] [] []]; try reflexivity; congruence. }
  rewrite cutAt_bracket.
  pose proof (takeWhile_dropWhile parser.notRBracket r2) as Hr2.
  destruct (dropWhile_head parser.notRBracket r2)
    as [Ed2 | (c4 & r3 & Ed2 & Hc4)]; rewrite Ed2 in *.
  { destruct (takeWhile parser.notRBracket r2); reflexivity. }
  apply notRBracket_false in Hc4. subst c4.
  destruct (takeWhile parser.notRBracket r2) as [|d0 d] eqn:Et2.
  { destruct r3 as [|c5 r4]; [reflexivity|].
    destruct c5 as [[] [] [] [] [] [] [] []]; reflexivity. }
  destruct r3 as [|c5 r4]; [reflexivity|].
  destruct (ascii_dec c5 "]") as [-> |N5].
  2:{ destruct c5 as [[] [] [] [] [] [] [] []]; try reflexivity; congruence. }
  f_equal. f_equal. rewrite <- Hr, <- Hr2.
  replace (length (u :: url) + length (d0 :: d) + 6)
    with (2 + (length (u :: url) + length (d0 :: d) + 4)) by lia.
  cbn [Nat.add skipn].
  replace ((u :: url) ++ "]"%char :: "["%char :: (d0 :: d)
           ++ "]"%char :: "]"%char :: r4)
    with (((u :: url) ++ "]"%char :: "["%char :: (d0 :: d)
           ++ ["]"%char; "]"%char]) ++ r4)
    by (rewrite <- !app_assoc; cbn [app]; rewrite <- !app_assoc;
        reflexivity).
  symmetry. apply skipn_app_exact.
  rewrite !length_app. cbn [length]. rewrite length_app. cbn [length]. lia.
Qed.

Lemma tryLink_eq :
  forall remaining,
    parser.tryLink remaining = Ok (parser.linkRegex remaining).
Proof.
  intros remaining. unfold parser.tryLink.
  destruct remaining as [|c0 [|c1 [|c2 r]]]; try reflexivity.
  - destruct c0 as [[] [] [] [] [] [] [] []]; reflexivity.
  - cbn [length Nat.ltb Nat.leb]. unfold parser.linkRegex.
    destruct c0 as [[] [] [] [] [] [] [] []]; try reflexivity.
    all: destruct c1 as [[] [] [] [] [] [] [] []]; reflexivity.
  - cbn [length Nat.ltb Nat.leb at_ nth_error bind].
    destruct (ascii_dec c0 "[") as [-> |N0].
    2:{ destruct c0 as [[] [] [] [] [] [] [] []]; try reflexivity.
        congruence. }
    destruct (ascii_dec c1 "[") as [-> |N1]; [reflexivity|].
    destruct c1 as [[] [] [] [] [] [] [] []]; reflexivity.
Qed.

Lemma inlineMarkers_format :
  forall c,
    match parser.inlineMarkers c with
    | Some (_, closer, nestable) =>
        closer = c /\ spec.isFormatMarker c = true /\
        spec.isLiteralMarker c = negb nestable
    | None => spec.isFormatMarker c = false
    end.
Proof.
  intros c. unfold parser.inlineMarkers.
  repeat match goal with
         | |- context [if Ascii.eqb c ?x then _ else _] =>
             let E := fresh "E" in
             destruct (Ascii.eqb c x) eqn:E;
             [apply ascii_eqb_eq in E; subst c; repeat split; reflexivity|]
         end.
  unfold spec.isFormatMarker. cbn [existsb lit list_ascii_of_string].
  repeat match goal with
         | H : Ascii.eqb c _ = false |- _ => rewrite H; clear H
         end.
  reflexivity.
Qed.

(** The marker test of the parser finds the formatted span of the
    specification. *)
Lemma tryMarker_spanAt :
  forall remaining,
    remaining <> [] ->
    exists r,
      parser.tryMarker remaining = Ok r /\
      match r, spec.spanAt remaining with
      | Some (typ, nestable, e), Some (c, inner, rest) =>
          remaining = c :: inner ++ c :: rest /\
          parser.inlineMarkers c = Some (typ, c, nestable) /\
          inner <> [] /\ e = Z.of_nat (length inner) /\ ~ In c inner
      | None, None => True
      | _, _ => False
      end.
Proof.
  intros remaining Hne. destruct remaining as [|c rem1]; [congruence|].
  unfold parser.tryMarker, spec.spanAt. cbn [at_ nth_error bind].
  pose proof (inlineMarkers_format c) as Hm.
  destruct (parser.inlineMarkers c) as [[[typ closer] nestable]|] eqn:Em.
  2:{ rewrite Hm. exists None. split; [reflexivity|exact I]. }
  destruct Hm as (-> & Hf & _). rewrite Hf.
  pose proof (findClosingMarker_cutAt c rem1 0) as Hfind.
  destruct (2 <? length (c :: rem1)) eqn:E2.
  - unfold sliceFrom, slice.
    replace ((1 <=? length (c :: rem1))
             && (length (c :: rem1) <=? length (c :: rem1))) with true.
    2:{ symmetry. apply andb_true_iff. split; apply Nat.leb_le; simpl; lia. }
    change (length (c :: rem1) - 1) with (length rem1 - 0).
    rewrite Nat.sub_0_r. cbn [skipn]. rewrite firstn_all. cbn [bind].
    unfold parser.findClosingMarker.
    destruct (spec.cutAt c rem1) as [[inner rest]|] eqn:Ec.
    + rewrite Hfind. destruct (cutAt_spec _ _ _ _ Ec) as (-> & Hn).
      destruct inner as [|x inner].
      * exists None. split; [reflexivity|exact I].
      * eexists. split.
        { replace (negb (0 + Z.of_nat (length (x :: inner)) =? -1)%Z
                   && (0 <? 0 + Z.of_nat (length (x :: inner)))%Z) with true.
          - reflexivity.
          - symmetry. apply andb_true_iff. split.
            + apply negb_true_iff. apply Z.eqb_neq. lia.
            + apply Z.ltb_lt. simpl length. lia. }
        cbv beta iota. splits; try reflexivity; try assumption.
        discriminate.
    + rewrite Hfind. exists None. split; [reflexivity|exact I].
  - exists None. split; [reflexivity|].
    destruct (spec.cutAt c rem1) as [[inner rest]|] eqn:Ec; [|exact I].
    destruct inner as [|x inner]; [exact I|].
    destruct (cutAt_spec _ _ _ _ Ec) as (-> & _).
    apply Nat.ltb_ge in E2. simpl in E2. rewrite length_app in E2.
    simpl in E2. lia.
Qed.

(** *** The visible text *)

Lemma linkSpan_length :
  forall s url desc rest,
    spec.linkSpan s = Some (url, desc, rest) ->
    url <> [] /\ length desc < length s /\ length rest < length s /\
    (forall c, In c desc -> In c s) /\ (forall c, In c rest -> In c s) /\
    ~ In "]"%char desc /\ In "]"%char s.
Proof.
  intros s url desc rest H. rewrite linkSpan_linkRegex in H.
  destruct (parser.linkRegex s) as [[[url0 d0] m]|] eqn:E; [|discriminate].
  destruct (linkRegex_spec _ _ _ _ E) as (Hurl & Hs).
  assert (Hnb : forall d m', parser.linkRegex s = Some (url0, Some d, m') ->
                             ~ In "]"%char d).
  { clear. intros d m' H. unfold parser.linkRegex in H.
    destruct s as [|c0 s]; [discriminate|].
    destruct c0 as [[] [] [] [] [] [] [] []]; try discriminate.
    destruct s as [|c1 r]; [discriminate|].
    destruct c1 as [[] [] [] [] [] [] [] []]; try discriminate.
    destruct (takeWhile parser.notRBracket r); [discriminate|].
    destruct (dropWhile parser.notRBracket r) as [|c2 r1]; [discriminate|].
    destruct c2 as [[] [] [] [] [] [] [] []]; try discriminate.
    destruct r1 as [|c3 r2]; [discriminate|].
    destruct c3 as [[] [] [] [] [] [] [] []]; try discriminate.
    destruct (takeWhile parser.notRBracket r2) as [|d0 d'] eqn:Et;
      [discriminate|].
    destruct (dropWhile parser.notRBracket r2) as [|c4 r3]; [discriminate|].
    destruct c4 as [[] [] [] [] [] [] [] []]; try discriminate.
    destruct r3 as [|c5 r4]; [discriminate|].
    destruct c5 as [[] [] [] [] [] [] [] []]; try discriminate.
    injection H as _ <- _. rewrite <- Et. clear.
    induction r2 as [|x r2 IH]; simpl; [tauto|].
    destruct (parser.notRBracket x) eqn:Ex; [|tauto].
    intros [Hx|Hx]; [|exact (IH Hx)]. subst x. discriminate Ex. }
  destruct d0 as [d|].
  - injection H as <- <- <-. destruct Hs as (Hd & Hs & Hm).
    pose proof (f_equal (@length ascii) Hs) as HL.
    rewrite !length_app in HL. simpl in HL. rewrite ?length_app in HL.
    simpl in HL.
    splits.
    + exact Hurl.
    + lia.
    + lia.
    + intros c Hc. rewrite Hs. apply in_or_app. right.
      apply in_or_app. right. apply in_or_app. right.
      apply in_or_app. left. exact Hc.
    + intros c Hc. rewrite Hs. apply in_or_app. right.
      apply in_or_app. right. apply in_or_app. right.
      apply in_or_app. right. apply in_or_app. right. exact Hc.
    + exact (Hnb d m E).
    + rewrite Hs. apply in_or_app. right. apply in_or_app. right.
      left. reflexivity.
  - injection H as <- <- <-. destruct Hs as (Hs & Hm).
    pose proof (f_equal (@length ascii) Hs) as HL.
    rewrite !length_app in HL. simpl in HL.
    splits.
    + exact Hurl.
    + simpl. lia.
    + lia.
    + intros c [].
    + intros c Hc. rewrite Hs. apply in_or_app. right.
      apply in_or_app. right. apply in_or_app. right. exact Hc.
    + intros [].
    + rewrite Hs. apply in_or_app. right. apply in_or_app. right.
      left. reflexivity.
Qed.

Lemma spanAt_spec :
  forall s c inner rest,
    spec.spanAt s = Some (c, inner, rest) ->
    s = c :: inner ++ c :: rest /\ inner <> [] /\ ~ In c inner /\
    spec.isFormatMarker c = true.
Proof.
  intros s c inner rest H. unfold spec.spanAt in H.
  destruct s as [|c0 r]; [discriminate|].
  destruct (spec.isFormatMarker c0) eqn:Ef; [|discriminate].
  destruct (spec.cutAt c0 r) as [[a b]|] eqn:Ec; [|discriminate].
  destruct a as [|x a]; [discriminate|]. injection H as <- <- <-.
  destruct (cutAt_spec _ _ _ _ Ec) as (-> & Hn).
  splits; try assumption; try reflexivity. discriminate.
Qed.

(** Enough fuel is enough. *)
Lemma visibleText_fuel :
  forall bare f s f',
    length s <= f -> length s <= f' ->
    spec.visibleText bare f s = spec.visibleText bare f' s.
Proof.
  intros bare f. induction f as [|f IH]; intros s f' H H'.
  - destruct s; [|simpl in H; lia]. destruct f'; reflexivity.
  - destruct f' as [|f'].
    { destruct s; [reflexivity|simpl in H'; lia]. }
    cbn [spec.visibleText].
    destruct (spec.linkSpan s) as [[[url desc] rest]|] eqn:El.
    + destruct (linkSpan_length _ _ _ _ El) as (_ & Hd & Hr & _).
      rewrite (IH rest f') by lia.
      destruct desc; [reflexivity|]. rewrite (IH _ f') by lia. reflexivity.
    + destruct (spec.spanAt s) as [[[c inner] rest]|] eqn:Es.
      * destruct (spanAt_spec _ _ _ _ Es) as (-> & _).
        simpl in H, H'. rewrite length_app in H, H'. simpl in H, H'.
        rewrite (IH rest f') by lia.
        destruct (spec.isLiteralMarker c); [reflexivity|].
        rewrite (IH inner f') by lia. reflexivity.
      * destruct s as [|c r]; [reflexivity|]. simpl in H, H'.
        rewrite (IH r f') by lia. reflexivity.
Qed.

Lemma linkSpan_none :
  forall c r,
    Ascii.eqb c "["
    && match r with c' :: _ => Ascii.eqb c' "[" | [] => false end = false ->
    spec.linkSpan (c :: r) = None.
Proof.
  intros c r H. unfold spec.linkSpan.
  destruct (ascii_dec c "[") as [-> |N].
  - destruct r as [|c' r']; [reflexivity|]. simpl in H.
    destruct c' as [[] [] [] [] [] [] [] []]; try reflexivity.
    discriminate H.
  - destruct c as [[] [] [] [] [] [] [] []]; try reflexivity. congruence.
Qed.

(** Up to the next marker the text shows as it is. *)
Lemma visibleText_plain_run :
  forall bare s i e n,
    (0 <= i)%Z ->
    parser.findNextMarker_from s i = e ->
    (e = (-1)%Z /\ spec.visibleText bare n s = s) \/
    (e <> (-1)%Z /\
     spec.visibleText bare n s
     = firstn (Z.to_nat (e - i)) s
       ++ spec.visibleText bare (n - Z.to_nat (e - i))
                           (skipn (Z.to_nat (e - i)) s)).
Proof.
  intros bare s. induction s as [|c r IH]; intros i e n Hi H; simpl in H.
  - left. split; [congruence|]. destruct n; reflexivity.
  - destruct (parser.oneOf "*/~=+_" c) eqn:E1.
    { right. subst e. split; [lia|]. rewrite Z.sub_diag. simpl.
      rewrite Nat.sub_0_r. reflexivity. }
    destruct (Ascii.eqb c "["
              && match r with c' :: _ => Ascii.eqb c' "[" | [] => false end)
      eqn:E2.
    { right. subst e. split; [lia|]. rewrite Z.sub_diag. simpl.
      rewrite Nat.sub_0_r. reflexivity. }
    pose proof (findNextMarker_from_ge r (i + 1) e H) as Hge.
    destruct n as [|f].
    { destruct (Z.eq_dec e (-1)) as [He|He]; [left|right]; split;
        try assumption; try reflexivity.
      cbn [Nat.sub spec.visibleText]. symmetry. apply firstn_skipn. }
    assert (Hstep : spec.visibleText bare (S f) (c :: r)
                    = c :: spec.visibleText bare f r).
    { cbn [spec.visibleText]. rewrite (linkSpan_none c r E2).
      unfold spec.spanAt.
      change (spec.isFormatMarker c) with (parser.oneOf "*/~=+_" c).
      rewrite E1. reflexivity. }
    rewrite Hstep.
    destruct (IH (i + 1)%Z e f ltac:(lia) H) as [(He & Hv) | (He & Hv)].
    + left. split; [exact He|]. rewrite Hv. reflexivity.
    + right. split; [exact He|].
      destruct Hge as [Hge|Hge]; [contradiction|].
      replace (Z.to_nat (e - i)) with (S (Z.to_nat (e - (i + 1)))) by lia.
      cbn [firstn skipn Nat.sub app]. rewrite Hv. reflexivity.
Qed.

(** *** The depth of the elements *)

Lemma openers_le :
  forall a b,
    (forall c, In c a -> In c b) -> spec.openers a <= spec.openers b.
Proof.
  intros a b H. unfold spec.openers.
  assert (Hm : forall c, existsb (Ascii.eqb c) a = true ->
                         existsb (Ascii.eqb c) b = true).
  { intros c Hc. apply existsb_exists in Hc. destruct Hc as (x & Hx & E).
    apply existsb_exists. exists x. split; [apply H; exact Hx|exact E]. }
  induction (lit "*/+_]") as [|m ms IH]; simpl; [lia|].
  destruct (existsb (Ascii.eqb m) a) eqn:Ea.
  - rewrite (Hm _ Ea). simpl. lia.
  - destruct (existsb (Ascii.eqb m) b); simpl; lia.
Qed.

Lemma openers_lt :
  forall a b m,
    (forall c, In c a -> In c b) ->
    In m (lit "*/+_]") -> In m b -> ~ In m a ->
    spec.openers a < spec.openers b.
Proof.
  intros a b m H Hm Hb Ha. unfold spec.openers.
  assert (Hmono : forall c, existsb (Ascii.eqb c) a = true ->
                            existsb (Ascii.eqb c) b = true).
  { intros c Hc. apply existsb_exists in Hc. destruct Hc as (x & Hx & E).
    apply existsb_exists. exists x. split; [apply H; exact Hx|exact E]. }
  assert (Hle : forall ms,
             length (filter (fun c => existsb (Ascii.eqb c) a) ms)
             <= length (filter (fun c => existsb (Ascii.eqb c) b) ms)).
  { induction ms as [|x ms IH]; simpl; [lia|].
    destruct (existsb (Ascii.eqb x) a) eqn:Ea.
    - rewrite (Hmono _ Ea). simpl. lia.
    - destruct (existsb (Ascii.eqb x) b); simpl; lia. }
  assert (Hma : existsb (Ascii.eqb m) a = false).
  { destruct (existsb (Ascii.eqb m) a) eqn:E; [|reflexivity].
    apply existsb_exists in E. destruct E as (x & Hx & E).
    apply ascii_eqb_eq in E. subst x. contradiction. }
  assert (Hmb : existsb (Ascii.eqb m) b = true).
  { apply existsb_exists. exists m. split; [exact Hb|].
    apply Ascii.eqb_refl. }
  induction (lit "*/+_]") as [|x ms IH]; [destruct Hm|].
  simpl. destruct Hm as [-> | Hm].
  - rewrite Hma, Hmb. simpl. specialize (Hle ms). lia.
  - specialize (IH Hm).
    destruct (existsb (Ascii.eqb x) a) eqn:Ea.
    + rewrite (Hmono _ Ea). simpl. lia.
    + destruct (existsb (Ascii.eqb x) b); simpl; lia.
Qed.

Lemma openers_bound : forall s, spec.openers s <= 5.
Proof.
  intros s. unfold spec.openers.
  etransitivity; [apply filter_length_le|]. reflexivity.
Qed.

(** *** Links without a description *)

Lemma bareOk_nothing :
  forall e, spec.bareOk (fun _ => []) e = true.
Proof.
  apply (InlineElement_ind_nested
           (fun e => spec.bareOk (fun _ => []) e = true)).
  intros t c u ch HF.
  assert (Hall : forallb (spec.bareOk (fun _ => [])) ch = true).
  { apply forallb_forall. rewrite Forall_forall in HF. exact HF. }
  destruct t; simpl; try exact Hall. destruct ch; [reflexivity|exact Hall].
Qed.

Lemma bareOk_noBareLink :
  forall e, spec.noBareLink e = true -> spec.bareOk (fun url => url) e = true.
Proof.
  apply (InlineElement_ind_nested
           (fun e => spec.noBareLink e = true ->
                     spec.bareOk (fun url => url) e = true)).
  intros t c u ch HF H.
  assert (Hall : forallb spec.noBareLink ch = true ->
                 forallb (spec.bareOk (fun url => url)) ch = true).
  { intros Hn. apply forallb_forall. intros x Hx.
    rewrite Forall_forall in HF. apply HF; [exact Hx|].
    rewrite forallb_forall in Hn. apply Hn. exact Hx. }
  destruct t; simpl in *; try (apply Hall; exact H).
  destruct ch; [discriminate|]. apply Hall. exact H.
Qed.

Lemma plainAll_app :
  forall a b, spec.plainAll (a ++ b) = spec.plainAll a ++ spec.plainAll b.
Proof.
  intros a b. unfold spec.plainAll. rewrite map_app, concat_app. reflexivity.
Qed.

Lemma inlineMarkers_nestable :
  forall c typ,
    parser.inlineMarkers c = Some (typ, c, true) ->
    In c (lit "*/+_]") /\
    forall ch, ast.PlainText (ast.mkInline typ [] [] ch)
               = spec.plainAll ch /\
               forall bare, spec.bareOk bare (ast.mkInline typ [] [] ch)
                            = forallb (spec.bareOk bare) ch.
Proof.
  intros c typ H. unfold parser.inlineMarkers in H.
  repeat match type of H with
         | (if Ascii.eqb c ?x then _ else _) = _ =>
             let E := fresh "E" in
             destruct (Ascii.eqb c x) eqn:E;
             [apply ascii_eqb_eq in E; subst c; injection H as <-;
              split; [simpl; tauto|intros ch; repeat split; reflexivity]
             |]
         | (if Ascii.eqb c ?x then _ else _) = _ =>
             let E := fresh "E" in
             destruct (Ascii.eqb c x) eqn:E; [discriminate H|]
         end.
  discriminate.
Qed.

Lemma inlineMarkers_literal :
  forall c typ,
    parser.inlineMarkers c = Some (typ, c, false) ->
    forall inner bare,
      ast.PlainText (ast.mkInline typ inner [] []) = inner /\
      spec.bareOk bare (ast.mkInline typ inner [] []) = true.
Proof.
  intros c typ H. unfold parser.inlineMarkers in H.
  repeat match type of H with
         | (if Ascii.eqb c ?x then _ else _) = _ =>
             let E := fresh "E" in
             destruct (Ascii.eqb c x) eqn:E;
             [apply ascii_eqb_eq in E; subst c; injection H as <-;
              intros inner bare; split; reflexivity
             |]
         | (if Ascii.eqb c ?x then _ else _) = _ =>
             let E := fresh "E" in
             destruct (Ascii.eqb c x) eqn:E; [discriminate H|]
         end.
  discriminate.
Qed.

(** [PlainText] over the elements of a text is its visible text, a link
    without a description showing nothing. *)
Lemma inline_visible :
  forall bare fuel,
    (forall text depth r,
        parser.parseInlineElementsRecursive fuel text depth = Ok r ->
        depth + spec.openers text <= parser.maxDepth ->
        forallb (spec.bareOk bare) r = true ->
        spec.plainAll r = spec.visibleText bare (length text) text) /\
    (forall remaining depth elements r,
        parser.inlineLoop fuel remaining depth elements = Ok r ->
        depth + spec.openers remaining <= parser.maxDepth ->
        exists more,
          r = elements ++ more /\
          (forallb (spec.bareOk bare) more = true ->
           spec.plainAll more
           = spec.visibleText bare (length remaining) remaining)).
Proof.
  intros bare. induction fuel as [|f [IHrec IHloop]].
  - split; intros; discriminate.
  - split.
    + intros text depth r H Hd Hb.
      rewrite parseInlineElementsRecursive_eq in H.
      replace (parser.maxDepth <? depth) with false in H
        by (symmetry; apply Nat.ltb_ge; lia).
      destruct (IHloop _ _ _ _ H Hd) as (more & Hr & Hv).
      simpl in Hr. subst more. exact (Hv Hb).
    + intros remaining depth elements r H Hd. rewrite inlineLoop_eq in H.
      destruct (length remaining =? 0) eqn:E0.
      { injection H as <-. apply Nat.eqb_eq in E0.
        apply length_zero_iff_nil in E0. subst remaining.
        exists []. split; [symmetry; apply app_nil_r|]. reflexivity. }
      apply Nat.eqb_neq in E0.
      destruct remaining as [|c0 r0]; [simpl in E0; lia|]. clear E0.
      set (remaining := c0 :: r0) in *.
      rewrite tryLink_eq in H. cbn [bind] in H.
      pose proof (linkSpan_linkRegex remaining) as El.
      assert (Hstep : forall A (x : A) (l : list A), [x] ++ l = x :: l)
        by reflexivity.
      destruct (parser.linkRegex remaining) as [[[url desc] m]|] eqn:Er.
      * (* a link *)
        apply bind_Ok in H. destruct H as (children & Hch & H).
        apply bind_Ok in H. destruct H as (rest & Hrest & H).
        apply sliceFrom_Ok in Hrest. destruct Hrest as (_ & ->).
        set (rest := skipn m remaining) in *.
        set (d := match desc with Some d => d | None => [] end).
        assert (El' : spec.linkSpan remaining = Some (url, d, rest)).
        { rewrite El. unfold d. destruct desc; reflexivity. }
        destruct (linkSpan_length _ _ _ _ El')
          as (Hurl & Hld & Hlr & Hind & Hinr & Hnb & Hb).
        destruct (IHloop _ _ _ _ H) as (more & Hr & Hv).
        { pose proof (openers_le rest remaining Hinr). lia. }
        exists (ast.mkInline ast.InlineLink [] url children :: more).
        split; [rewrite Hr, <- app_assoc; reflexivity|].
        intros Hok. cbn [forallb] in Hok. apply andb_prop in Hok.
        destruct Hok as (Hoke & Hokm).
        change (spec.plainAll (ast.mkInline ast.InlineLink [] url children
                               :: more))
          with (spec.plainAll children ++ spec.plainAll more).
        rewrite (Hv Hokm).
        change (length remaining) with (S (length r0)).
        cbn [spec.visibleText]. rewrite El'.
        rewrite (visibleText_fuel bare (length r0) rest (length rest))
          by (unfold remaining in Hlr; simpl in Hlr; lia).
        f_equal.
        destruct desc as [d'|].
        -- pose proof (linkRegex_spec _ _ _ _ Er) as (_ & Hd' & _).
           destruct d' as [|d0 d1]; [congruence|]. unfold d in *.
           rewrite (visibleText_fuel bare (length r0) (d0 :: d1)
                      (length (d0 :: d1)))
             by (unfold remaining in Hld; simpl in Hld |- *; lia).
           apply (IHrec _ _ _ Hch).
           ++ pose proof (openers_lt (d0 :: d1) remaining "]"%char Hind
                            ltac:(simpl; tauto) Hb Hnb). lia.
           ++ destruct children as [|x xs]; [reflexivity|exact Hoke].
        -- injection Hch as <-. unfold d. cbn [spec.bareOk] in Hoke.
           apply str_eqb_eq in Hoke. rewrite Hoke. reflexivity.
      * (* no link *)
        destruct (tryMarker_spanAt remaining ltac:(discriminate))
          as (rm & Hm & Hrel).
        rewrite Hm in H. cbn [bind] in H.
        destruct rm as [[[typ nestable] end_]|].
        -- (* a formatted span *)
           destruct (spec.spanAt remaining) as [[[c inner] rest0]|] eqn:Es;
             [|contradiction].
           destruct Hrel as (Hrem & Hmk & Hinner & -> & Hnin).
           apply bind_Ok in H. destruct H as (innerContent & Hic & H).
           apply slice_Ok in Hic. destruct Hic as (_ & _ & ->).
           rewrite Hrem in H.
           replace (Z.to_nat (Z.of_nat (length inner) + 1) - 1)
             with (length inner) in H by lia.
           cbn [skipn] in H.
           rewrite (firstn_app_exact _ inner (c :: rest0) (length inner) eq_refl)
             in H.
           apply bind_Ok in H. destruct H as (elem & Helem & H).
           apply bind_Ok in H. destruct H as (rest & Hrest & H).
           apply sliceFrom_Ok in Hrest. destruct Hrest as (_ & ->).
           replace (Z.to_nat (Z.of_nat (length inner) + 2))
             with (S (length inner + 1)) in H by lia.
           cbn [skipn] in H.
           replace (inner ++ c :: rest0) with ((inner ++ [c]) ++ rest0) in H
             by (rewrite <- app_assoc; reflexivity).
           rewrite (skipn_app_exact _ (inner ++ [c]) rest0) in H
             by (rewrite length_app; reflexivity).
           assert (Hlen : length remaining
                          = S (length inner + S (length rest0))).
           { rewrite Hrem. simpl. rewrite length_app. reflexivity. }
           assert (Hinr : forall x, In x rest0 -> In x remaining).
           { intros x Hx. rewrite Hrem. right. apply in_or_app. right.
             right. exact Hx. }
           assert (Hini : forall x, In x inner -> In x remaining).
           { intros x Hx. rewrite Hrem. right. apply in_or_app. left.
             exact Hx. }
           destruct (IHloop _ _ _ _ H) as (more & Hr & Hv).
           { pose proof (openers_le rest0 remaining Hinr). lia. }
           exists (elem :: more).
           split; [rewrite Hr, <- app_assoc; reflexivity|].
           intros Hok. cbn [forallb] in Hok. apply andb_prop in Hok.
           destruct Hok as (Hoke & Hokm).
           change (spec.plainAll (elem :: more))
             with (ast.PlainText elem ++ spec.plainAll more).
           rewrite (Hv Hokm). rewrite Hlen.
           cbn [spec.visibleText]. rewrite El, Es.
           rewrite (visibleText_fuel bare (length inner + S (length rest0))
                      rest0 (length rest0)) by lia.
           f_equal.
           pose proof (inlineMarkers_format c) as Hfmt. rewrite Hmk in Hfmt.
           destruct Hfmt as (_ & _ & Hlit). rewrite Hlit.
           destruct nestable; cbn [negb].
           ++ apply bind_Ok in Helem. destruct Helem as (children & Hch & He).
              injection He as <-.
              destruct (inlineMarkers_nestable _ _ Hmk) as (Hc5 & Hnest).
              destruct (Hnest children) as (Hpt & Hbo).
              rewrite Hpt.
              rewrite (visibleText_fuel bare (length inner + S (length rest0))
                         inner (length inner)) by lia.
              apply (IHrec _ _ _ Hch).
              ** assert (Hc : In c remaining) by (rewrite Hrem; left; reflexivity).
                 pose proof (openers_lt inner remaining c Hini Hc5 Hc Hnin).
                 lia.
              ** rewrite <- Hbo. exact Hoke.
           ++ injection Helem as <-.
              apply (inlineMarkers_literal _ _ Hmk inner bare).
        -- (* plain text *)
           destruct (spec.spanAt remaining) as [[[c inner] rest0]|] eqn:Es;
             [contradiction|].
           cbv zeta in H. unfold parser.findNextMarker in H.
           destruct (visibleText_plain_run bare remaining 0
                       (parser.findNextMarker_from remaining 0)
                       (length remaining) ltac:(lia) eq_refl)
             as [(He & Hvis) | (He & Hvis)].
           ++ rewrite He in H. change (-1 =? -1)%Z with true in H.
              cbv iota in H. injection H as <-.
              exists [parser.text remaining]. split; [reflexivity|].
              intros _. rewrite Hvis. unfold spec.plainAll. simpl.
              unfold remaining. f_equal. apply app_nil_r.
           ++ apply Z.eqb_neq in He. rewrite He in H. apply Z.eqb_neq in He.
              rewrite Z.sub_0_r in Hvis.
              destruct (0 <? parser.findNextMarker_from remaining 0)%Z eqn:E2.
              ** apply bind_Ok in H. destruct H as (before & Hb & H).
                 apply bind_Ok in H. destruct H as (rest & Hrest & H).
                 unfold sliceTo in Hb. apply slice_Ok in Hb.
                 destruct Hb as (_ & _ & ->).
                 apply sliceFrom_Ok in Hrest. destruct Hrest as (_ & ->).
                 rewrite Nat.sub_0_r in H. cbn [skipn] in H.
                 set (k := Z.to_nat (parser.findNextMarker_from remaining 0))
                   in *.
                 destruct (IHloop _ _ _ _ H) as (more & Hr & Hv).
                 { pose proof (openers_le (skipn k remaining) remaining) as Ho.
                   specialize (Ho ltac:(intros x Hx;
                     rewrite <- (firstn_skipn k remaining);
                     apply in_or_app; right; exact Hx)). lia. }
                 exists (parser.text (firstn k remaining) :: more).
                 split; [rewrite Hr, <- app_assoc; reflexivity|].
                 intros Hok. cbn [forallb] in Hok. apply andb_prop in Hok.
                 destruct Hok as (_ & Hokm).
                 change (spec.plainAll (parser.text (firstn k remaining)
                                        :: more))
                   with (firstn k remaining ++ spec.plainAll more).
                 rewrite (Hv Hokm), Hvis. f_equal.
                 rewrite length_skipn. reflexivity.
              ** apply Z.ltb_ge in E2.
                 pose proof (findNextMarker_from_ge remaining 0 _ eq_refl)
                   as Hge.
                 assert (Hz : parser.findNextMarker remaining = 0%Z).
                 { unfold parser.findNextMarker. lia. }
                 apply bind_Ok in H. destruct H as (b0 & Hb0 & H).
                 apply bind_Ok in H. destruct H as (rest & Hrest & H).
                 apply sliceFrom_Ok in Hrest. destruct Hrest as (_ & ->).
                 unfold at_ in Hb0. simpl in Hb0. injection Hb0 as <-.
                 rewrite (findNextMarker_zero _ _ Hz) in H.
                 cbn [skipn remaining] in H.
                 destruct (IHloop _ _ _ _ H) as (more & Hr & Hv).
                 { pose proof (openers_le r0 remaining
                                 ltac:(intros x Hx; right; exact Hx)). lia. }
                 exists (parser.text [c0] :: more).
                 split; [rewrite Hr, <- app_assoc; reflexivity|].
                 intros Hok. cbn [forallb] in Hok. apply andb_prop in Hok.
                 destruct Hok as (_ & Hokm).
                 change (spec.plainAll (parser.text [c0] :: more))
                   with (c0 :: spec.plainAll more).
                 rewrite (Hv Hokm).
                 change (length remaining) with (S (length r0)).
                 cbn [spec.visibleText]. rewrite El, Es. reflexivity.
Qed.

(** C8 (as amended). The inline elements of a paragraph are a complete
    decomposition of its raw text: writing every element back with its
    markers gives the raw text, byte for byte. Concatenating [PlainText]
    over the elements gives the visible text of the raw text, markers
    stripped, but for the links without a description, which contribute
    nothing; it is the visible text whenever no link lacks a description. *)
Theorem C8_inline_decomposition :
  (forall fuel p tok content inline,
      parser.parseParagraph fuel p = Ok (ast.Paragraph tok content inline) ->
      content = Literal (parser.curToken p) /\
      spec.markupAll inline = content /\
      spec.plainAll inline = spec.visibleButBareLinks content /\
      (forallb spec.noBareLink inline = true ->
       spec.plainAll inline = spec.visibleOf content)) /\
  (exists tok inline,
      parser.Parse 60 (lit "This has *bold with /italic inside/* and ~code~.")
                   [] []
      = Ok (ast.mkDocument
              [ast.Paragraph tok
                 (lit "This has *bold with /italic inside/* and ~code~.")
                 inline], [])
      /\ spec.plainAll inline = lit "This has bold with italic inside and code."
      /\ spec.visibleOf (lit "This has *bold with /italic inside/* and ~code~.")
         = lit "This has bold with italic inside and code.") /\
  (exists tok inline,
      parser.Parse 60 (lit "see [[http://x.org][the *site*]]") [] []
      = Ok (ast.mkDocument
              [ast.Paragraph tok (lit "see [[http://x.org][the *site*]]") inline],
            [])
      /\ spec.plainAll inline = lit "see the site"
      /\ spec.visibleOf (lit "see [[http://x.org][the *site*]]")
         = lit "see the site") /\
  spec.visibleOf (lit "2 * 3 = 6, a_b and [x]") = lit "2 * 3 = 6, a_b and [x]".
Proof.
  split; [|split; [|split]].
  - intros fuel p tok content inline H. unfold parser.parseParagraph in H.
    apply bind_Ok in H. destruct H as (inl & Hinl & H).
    injection H as <- <- <-.
    unfold parser.parseInlineElements in Hinl.
    assert (Hd : 0 + spec.openers (Literal (parser.curToken p))
                 <= parser.maxDepth).
    { pose proof (openers_bound (Literal (parser.curToken p))).
      unfold parser.maxDepth. lia. }
    split; [reflexivity|]. split; [|split].
    + apply (proj1 (inline_markup fuel)) in Hinl. exact Hinl.
    + apply (proj1 (inline_visible (fun _ => []) fuel) _ _ _ Hinl Hd).
      apply forallb_forall. intros e _. apply bareOk_nothing.
    + intros Hb.
      apply (proj1 (inline_visible (fun url => url) fuel) _ _ _ Hinl Hd).
      apply forallb_forall. intros e He. apply bareOk_noBareLink.
      rewrite forallb_forall in Hb. apply Hb. exact He.
  - do 2 eexists. split; [|split]; vm_compute; reflexivity.
  - do 2 eexists. split; [|split]; vm_compute; reflexivity.
  - vm_compute. reflexivity.
Qed.

Lemma C8_inline_decomposition_witness :
  exists tok inline,
    parser.parseParagraph 80
      (spec.parserOn 80 (lit "see [[http://x.org][the *site*]] and ~code~"))
    = Ok (ast.Paragraph tok
            (lit "see [[http://x.org][the *site*]] and ~code~") inline) /\
    spec.markupAll inline
    = lit "see [[http://x.org][the *site*]] and ~code~" /\
    spec.plainAll inline
    = spec.visibleOf (lit "see [[http://x.org][the *site*]] and ~code~") /\
    spec.plainAll inline = lit "see the site and code".
Proof.
  set (p := spec.parserOn 80
              (lit "see [[http://x.org][the *site*]] and ~code~")).
  destruct (parser.parseParagraph 80 p) as [n| |] eqn:E;
    [|vm_compute in E; discriminate|vm_compute in E; discriminate].
  destruct n as [| tok content inline | | | | | | | | | | ];
    try (vm_compute in E; discriminate).
  destruct (proj1 C8_inline_decomposition 80 p tok content inline E)
    as (_ & Hm & _ & Hv).
  assert (Hb : forallb spec.noBareLink inline = true).
  { vm_compute in E. injection E as _ _ <-. reflexivity. }
  specialize (Hv Hb).
  exists tok, inline.
  assert (Hc : content = lit "see [[http://x.org][the *site*]] and ~code~").
  { vm_compute in E. injection E as _ <- _. reflexivity. }
  rewrite Hc in *. split; [reflexivity|]. split; [exact Hm|].
  split; [exact Hv|]. rewrite Hv. vm_compute. reflexivity.
Defined.

(** C8, the claim as stated, fails: for the paragraph ["[[u]]"], a link
    without a description, the concatenated [PlainText] is empty, while the
    visible text of the paragraph is the URL. *)
Lemma C8_counterexample :
  exists tok inline,
    parser.Parse 40 (lit "[[u]]") [] []
    = Ok (ast.mkDocument [ast.Paragraph tok (lit "[[u]]") inline], [])
    /\ inline = [ast.mkInline ast.InlineLink [] (lit "u") []]
    /\ spec.plainAll inline = []
    /\ spec.visibleOf (lit "[[u]]") = lit "u"
    /\ spec.plainAll inline <> spec.visibleOf (lit "[[u]]").
Proof.
  do 2 eexists. split; [vm_compute; reflexivity|].
  split; [reflexivity|]. split; [reflexivity|]. split; [reflexivity|].
  vm_compute. discriminate.
Qed.

(** ** The cursor of the lexer *)

Lemma Decode_width :
  forall c s,
    1 <= snd (DecodeRuneInString (c :: s)) /\
    snd (DecodeRuneInString (c :: s)) <= length (c :: s).
Proof.
  intros c s. unfold DecodeRuneInString.
  repeat match goal with
         | |- context [if ?b then _ else _] => destruct b
         | |- context [match ?r with [] => _ | _ :: _ => _ end] =>
             destruct r
         end; simpl; lia.
Qed.

Lemma Decode_ascii :
  forall c s, (byte c < 128)%Z -> DecodeRuneInString (c :: s) = (byte c, 1).
Proof.
  intros c s H. unfold DecodeRuneInString.
  apply Z.ltb_lt in H. rewrite H. reflexivity.
Qed.

Lemma skipn_nil_length :
  forall (A : Type) (xs : list A) n,
    n <= length xs -> skipn n xs = [] -> n = length xs.
Proof.
  intros A xs n Hle H.
  assert (Hl : length (skipn n xs) = 0) by (rewrite H; reflexivity).
  rewrite length_skipn in Hl. lia.
Qed.

Lemma readChar_wf :
  forall l,
    spec.lexer_wf l -> lexer.ch l <> 0%Z ->
    spec.lexer_wf (lexer.readChar l) /\
    lexer.position l < lexer.position (lexer.readChar l).
Proof.
  intros l (Hpos & Hsync) Hch.
  destruct (skipn (lexer.position l) (lexer.input l)) as [|c s] eqn:Es.
  - destruct Hsync as (H0 & _). contradiction.
  - destruct Hsync as (_ & Hrp).
    pose proof (Decode_width c s) as (Hw1 & Hw2).
    assert (Hlen : length (c :: s) = length (lexer.input l) - lexer.position l).
    { rewrite <- Es. apply length_skipn. }
    rewrite Hlen in Hw2.
    unfold spec.lexer_wf, lexer.readChar.
    destruct (length (lexer.input l) <=? lexer.readPosition l) eqn:E.
    + apply Nat.leb_le in E. simpl.
      assert (Heq : lexer.readPosition l = length (lexer.input l)) by lia.
      rewrite Heq, skipn_all. split; [split; [lia|auto]|lia].
    + apply Nat.leb_gt in E.
      destruct (DecodeRuneInString (skipn (lexer.readPosition l) (lexer.input l)))
        as [r w] eqn:Ed.
      cbn [lexer.position lexer.input lexer.ch lexer.readPosition].
      split; [|lia]. split; [lia|].
      destruct (skipn (lexer.readPosition l) (lexer.input l)) as [|c' s'] eqn:Es'.
      * apply skipn_nil_length in Es'; lia.
      * rewrite Ed. simpl. auto.
Qed.

Lemma readChar_initial :
  forall l, lexer.readPosition l = 0 -> spec.lexer_wf (lexer.readChar l).
Proof.
  intros l H0. unfold spec.lexer_wf, lexer.readChar. rewrite H0.
  destruct (length (lexer.input l) <=? 0) eqn:E.
  - apply Nat.leb_le in E.
    cbn [lexer.position lexer.input lexer.ch lexer.readPosition].
    split; [lia|]. destruct (lexer.input l); [simpl; auto|simpl in E; lia].
  - cbn [skipn].
    destruct (DecodeRuneInString (lexer.input l)) as [r w] eqn:Ed.
    cbn [lexer.position lexer.input lexer.ch lexer.readPosition skipn].
    split; [lia|]. destruct (lexer.input l) as [|c s] eqn:Ei.
    + discriminate.
    + rewrite Ed. auto.
Qed.

Lemma lexer_options_keep :
  forall opts l,
    lexer.input (fold_left lexer.applyOption opts l) = lexer.input l /\
    lexer.position (fold_left lexer.applyOption opts l) = lexer.position l /\
    lexer.readPosition (fold_left lexer.applyOption opts l)
    = lexer.readPosition l /\
    lexer.err (fold_left lexer.applyOption opts l) = lexer.err l.
Proof.
  induction opts as [|o opts IH]; intros l; simpl; [auto|].
  destruct (IH (lexer.applyOption l o)) as (A & B & C & D).
  rewrite A, B, C, D. destruct o; simpl; auto.
Qed.

Lemma New_wf : forall input opts, spec.lexer_wf (lexer.New input opts).
Proof.
  intros input opts. unfold lexer.New.
  set (l0 := lexer.mkLexer input 0 0 0 0 1 0 context.Background
                           lexer.DefaultMaxInputSize
                           lexer.DefaultMaxLineLength None).
  destruct (lexer_options_keep opts l0) as (_ & _ & Hrp & _).
  apply readChar_initial.
  destruct (lexer.maxInputSize (fold_left lexer.applyOption opts l0)
            <? Z.of_nat (length input))%Z; simpl; exact Hrp.
Qed.

Lemma New_input : forall input opts, lexer.input (lexer.New input opts) = input.
Proof.
  intros input opts. unfold lexer.New. rewrite readChar_input.
  set (l0 := lexer.mkLexer input 0 0 0 0 1 0 context.Background
                           lexer.DefaultMaxInputSize
                           lexer.DefaultMaxLineLength None).
  destruct (lexer_options_keep opts l0) as (Hin & _).
  destruct (lexer.maxInputSize (fold_left lexer.applyOption opts l0)
            <? Z.of_nat (length input))%Z; simpl; exact Hin.
Qed.

(** ** Totality of the lexer *)

Lemma readWhile_total :
  forall cond,
    (forall c, cond c = true -> c <> 0%Z) ->
    forall fuel l n,
      spec.lexer_wf l -> spec.remaining l < fuel ->
      exists n' l',
        lexer.readWhile cond fuel l n = Ok (n', l') /\
        spec.lexer_wf l' /\ lexer.input l' = lexer.input l /\
        lexer.position l <= lexer.position l' /\
        (cond (lexer.ch l) = true -> lexer.position l < lexer.position l') /\
        cond (lexer.ch l') = false.
Proof.
  intros cond Hcond fuel. induction fuel as [|fuel IH]; intros l n Hwf Hfuel.
  - lia.
  - simpl. destruct (cond (lexer.ch l)) eqn:Ec.
    + destruct (readChar_wf l Hwf (Hcond _ Ec)) as (Hwf' & Hlt).
      destruct (IH (lexer.readChar l) (S n) Hwf') as (n' & l' & H & A & B & C & D & E).
      { unfold spec.remaining in *. rewrite readChar_input.
        destruct Hwf' as (Hle & _). rewrite readChar_input in Hle. lia. }
      exists n', l'. rewrite readChar_input in B.
      splits; try assumption; try lia.
    + exists n, l. splits; auto. intros; discriminate.
Qed.

Lemma notEOL_nonzero : forall c, lexer.notEOL c = true -> c <> 0%Z.
Proof.
  intros c H ->. vm_compute in H. discriminate.
Qed.

Lemma slice_total :
  forall s lo hi,
    lo <= hi -> hi <= length s ->
    slice s lo hi = Ok (firstn (hi - lo) (skipn lo s)).
Proof.
  intros s lo hi H1 H2. unfold slice.
  apply Nat.leb_le in H1. apply Nat.leb_le in H2. rewrite H1, H2. reflexivity.
Qed.

Lemma slice_length :
  forall s lo hi r, slice s lo hi = Ok r -> length r = hi - lo.
Proof.
  intros s lo hi r H. apply slice_Ok in H. destruct H as (H1 & H2 & ->).
  rewrite length_firstn, length_skipn. lia.
Qed.

Lemma restOfLine_total :
  forall fuel pos0 l,
    spec.lexer_wf l -> spec.remaining l < fuel -> pos0 <= lexer.position l ->
    exists literal l',
      lexer.restOfLine fuel pos0 l = Ok (literal, l') /\
      spec.lexer_wf l' /\ lexer.input l' = lexer.input l /\
      lexer.position l <= lexer.position l' /\
      (lexer.notEOL (lexer.ch l) = true ->
       lexer.position l < lexer.position l') /\
      length literal = lexer.position l' - pos0.
Proof.
  intros fuel pos0 l Hwf Hfuel Hpos. unfold lexer.restOfLine.
  destruct (readWhile_total lexer.notEOL notEOL_nonzero fuel l 0 Hwf Hfuel)
    as (n' & l' & H & A & B & C & D & E).
  rewrite H. simpl bind.
  assert (Hle : lexer.position l' <= length (lexer.input l')) by apply A.
  rewrite slice_total by lia. simpl bind.
  exists (firstn (lexer.position l' - pos0) (skipn pos0 (lexer.input l'))), l'.
  splits; try assumption; try reflexivity.
  rewrite length_firstn, length_skipn. lia.
Qed.

Lemma wf_set_err :
  forall l e, spec.lexer_wf l -> spec.lexer_wf (lexer.set_err l e).
Proof. intros l e H. exact H. Qed.

Lemma wf_set_ctx :
  forall l c, spec.lexer_wf l -> spec.lexer_wf (lexer.set_ctx l c).
Proof. intros l c H. exact H. Qed.

Lemma readToEndOfLine_loop_total :
  forall fuel l charCount,
    spec.lexer_wf l -> spec.remaining l < fuel ->
    exists l',
      lexer.readToEndOfLine_loop fuel l charCount = Ok l' /\
      spec.lexer_wf l' /\ lexer.input l' = lexer.input l /\
      lexer.position l <= lexer.position l'.
Proof.
  intros fuel. induction fuel as [|fuel IH]; intros l charCount Hwf Hfuel.
  - lia.
  - simpl. destruct (lexer.notEOL (lexer.ch l)) eqn:Ec.
    + destruct (lexer.maxLineLength l <? charCount + 1)%Z.
      * exists (lexer.set_err l (Some lexer.ErrLineTooLong)).
        splits; auto.
      * destruct (readChar_wf l Hwf (notEOL_nonzero _ Ec)) as (Hwf' & Hlt).
        destruct (IH (lexer.readChar l) (charCount + 1)%Z Hwf')
          as (l' & H & A & B & C).
        { unfold spec.remaining in *. rewrite readChar_input.
          destruct Hwf' as (Hle & _). rewrite readChar_input in Hle. lia. }
        exists l'. rewrite readChar_input in B.
        splits; try assumption; lia.
    + exists l. splits; auto.
Qed.

Lemma lex_step_intro :
  forall l tok l',
    spec.lexer_wf l' -> lexer.input l' = lexer.input l ->
    lexer.position l < lexer.position l' ->
    length (Literal tok) <= lexer.position l' - lexer.position l ->
    (Typ tok = BLOCK_BEGIN ->
     HasPrefix (ToUpper (Literal tok)) (lit "#+BEGIN_") = true) ->
    spec.lex_step l tok l'.
Proof.
  intros l tok l' Hwf Hin Hlt Hlen Hbb. unfold spec.lex_step, spec.tok_ok.
  splits; try assumption; try lia.
  destruct Hwf as (Hle & _). rewrite Hin in Hle. lia.
Qed.

(** The readers that take the rest of the line as one token. *)
Lemma line_reader_total :
  forall fuel l (tail : str -> TokenType),
    spec.lexer_wf l -> spec.remaining l < fuel ->
    lexer.notEOL (lexer.ch l) = true ->
    (forall literal, tail literal = BLOCK_BEGIN ->
                     HasPrefix (ToUpper literal) (lit "#+BEGIN_") = true) ->
    exists tok l',
      ('(literal, l1) <- lexer.restOfLine fuel (lexer.position l) l ;;
       Ok (mkToken (tail literal) literal (lexer.line l) (lexer.column l), l1))
      = Ok (tok, l') /\
      spec.lex_step l tok l'.
Proof.
  intros fuel l tail Hwf Hfuel Hch Htail.
  destruct (restOfLine_total fuel (lexer.position l) l Hwf Hfuel (le_n _))
    as (literal & l' & H & A & B & C & D & E).
  rewrite H. simpl bind. eexists. eexists. split; [reflexivity|].
  apply lex_step_intro; simpl; auto. lia.
Qed.

Lemma readOrgDirective_total :
  forall fuel l,
    spec.lexer_wf l -> spec.remaining l < fuel ->
    lexer.notEOL (lexer.ch l) = true ->
    exists tok l',
      lexer.readOrgDirective fuel l = Ok (tok, l') /\ spec.lex_step l tok l'.
Proof.
  intros fuel l Hwf Hfuel Hch.
  destruct (line_reader_total fuel l
              (fun literal =>
                 if HasPrefix (ToUpper literal) (lit "#+BEGIN_") then BLOCK_BEGIN
                 else if HasPrefix (ToUpper literal) (lit "#+END_")
                      then BLOCK_END else KEYWORD)
              Hwf Hfuel Hch) as (tok & l' & H & Hs).
  { intros literal. destruct (HasPrefix (ToUpper literal) (lit "#+BEGIN_"));
      [reflexivity|].
    destruct (HasPrefix (ToUpper literal) (lit "#+END_")); discriminate. }
  exists tok, l'. split; [|exact Hs]. rewrite <- H.
  unfold lexer.readOrgDirective.
  destruct (lexer.restOfLine fuel (lexer.position l) l) as [[literal l1]| |];
    unfold bind; [|reflexivity|reflexivity].
  destruct (HasPrefix (ToUpper literal) (lit "#+BEGIN_")); [reflexivity|].
  destruct (HasPrefix (ToUpper literal) (lit "#+END_")); reflexivity.
Qed.

Lemma readComment_total :
  forall fuel l,
    spec.lexer_wf l -> spec.remaining l < fuel ->
    lexer.notEOL (lexer.ch l) = true ->
    exists tok l',
      lexer.readComment fuel l = Ok (tok, l') /\ spec.lex_step l tok l'.
Proof.
  intros fuel l Hwf Hfuel Hch.
  apply (line_reader_total fuel l (fun _ => COMMENT) Hwf Hfuel Hch).
  intros; discriminate.
Qed.

Lemma readListItem_total :
  forall fuel l,
    spec.lexer_wf l -> spec.remaining l < fuel ->
    lexer.notEOL (lexer.ch l) = true ->
    exists tok l',
      lexer.readListItem fuel l = Ok (tok, l') /\ spec.lex_step l tok l'.
Proof.
  intros fuel l Hwf Hfuel Hch.
  apply (line_reader_total fuel l (fun _ => LIST_ITEM) Hwf Hfuel Hch).
  intros; discriminate.
Qed.

Lemma readTextLine_total :
  forall fuel l,
    spec.lexer_wf l -> spec.remaining l < fuel ->
    lexer.notEOL (lexer.ch l) = true ->
    exists tok l',
      lexer.readTextLine fuel l = Ok (tok, l') /\ spec.lex_step l tok l'.
Proof.
  intros fuel l Hwf Hfuel Hch.
  apply (line_reader_total fuel l (fun _ => TEXT) Hwf Hfuel Hch).
  intros; discriminate.
Qed.

Lemma readDrawerOrProperty_total :
  forall fuel l,
    spec.lexer_wf l -> spec.remaining l < fuel ->
    lexer.notEOL (lexer.ch l) = true ->
    exists tok l',
      lexer.readDrawerOrProperty fuel l = Ok (tok, l') /\
      spec.lex_step l tok l'.
Proof.
  intros fuel l Hwf Hfuel Hch.
  destruct (line_reader_total fuel l
              (fun literal =>
                 if str_eqb (ToUpper (TrimSpace literal)) (lit ":END:")
                 then DRAWER_END
                 else if HasPrefix (TrimSpace literal) (lit ":")
                         && HasSuffix (TrimSpace literal) (lit ":")
                         && (Count (TrimSpace literal) ":" =? 2)
                      then DRAWER_BEGIN else TEXT)
              Hwf Hfuel Hch) as (tok & l' & H & Hs).
  { intros literal.
    destruct (str_eqb (ToUpper (TrimSpace literal)) (lit ":END:"));
      [discriminate|].
    destruct (HasPrefix (TrimSpace literal) (lit ":")
              && HasSuffix (TrimSpace literal) (lit ":")
              && (Count (TrimSpace literal) ":" =? 2)); discriminate. }
  exists tok, l'. split; [|exact Hs]. rewrite <- H.
  unfold lexer.readDrawerOrProperty.
  destruct (lexer.restOfLine fuel (lexer.position l) l) as [[literal l1]| |];
    unfold bind; [|reflexivity|reflexivity].
  destruct (str_eqb (ToUpper (TrimSpace literal)) (lit ":END:"));
    [reflexivity|].
  destruct (HasPrefix (TrimSpace literal) (lit ":")
            && HasSuffix (TrimSpace literal) (lit ":")
            && (Count (TrimSpace literal) ":" =? 2)); reflexivity.
Qed.

Lemma readTableRow_total :
  forall fuel l,
    spec.lexer_wf l -> spec.remaining l < fuel ->
    lexer.notEOL (lexer.ch l) = true ->
    exists tok l',
      lexer.readTableRow fuel l = Ok (tok, l') /\ spec.lex_step l tok l'.
Proof.
  intros fuel l Hwf Hfuel Hch.
  destruct (line_reader_total fuel l
              (fun literal =>
                 if HasPrefix (TrimSpace literal) (lit "|")
                    && HasSuffix (TrimSpace literal) (lit "|")
                    && negb (ContainsAny (Trim (TrimSpace literal) "|")
                                         lexer.alnum)
                    && Contains (TrimSpace literal) "-"
                 then TABLE_SEP else TABLE_ROW)
              Hwf Hfuel Hch) as (tok & l' & H & Hs).
  { intros literal.
    destruct (HasPrefix (TrimSpace literal) (lit "|")
              && HasSuffix (TrimSpace literal) (lit "|")
              && negb (ContainsAny (Trim (TrimSpace literal) "|") lexer.alnum)
              && Contains (TrimSpace literal) "-"); discriminate. }
  exists tok, l'. split; [|exact Hs]. rewrite <- H.
  unfold lexer.readTableRow.
  destruct (lexer.restOfLine fuel (lexer.position l) l) as [[literal l1]| |];
    unfold bind; [|reflexivity|reflexivity].
  destruct (HasPrefix (TrimSpace literal) (lit "|")
            && HasSuffix (TrimSpace literal) (lit "|")
            && negb (ContainsAny (Trim (TrimSpace literal) "|") lexer.alnum)
            && Contains (TrimSpace literal) "-"); reflexivity.
Qed.

(** The tail shared by the readers that first skip a run of bytes: the rest
    of the line from a lexer [l1] that [l] has reached. *)
Lemma rest_after_total :
  forall fuel l l1 T,
    spec.lexer_wf l1 -> lexer.input l1 = lexer.input l ->
    lexer.position l < lexer.position l1 ->
    spec.remaining l < fuel -> T <> BLOCK_BEGIN ->
    exists tok l',
      ('(literal, l2) <- lexer.restOfLine fuel (lexer.position l) l1 ;;
       Ok (mkToken T literal (lexer.line l) (lexer.column l), l2))
      = Ok (tok, l') /\
      spec.lex_step l tok l' /\ lexer.position l < lexer.position l'.
Proof.
  intros fuel l l1 T Hwf Hin Hlt Hfuel HT.
  destruct (restOfLine_total fuel (lexer.position l) l1 Hwf)
    as (literal & l' & H & A & B & C & D & E).
  { unfold spec.remaining in *. rewrite Hin. lia. }
  { lia. }
  rewrite H. unfold bind. eexists. eexists. split; [reflexivity|].
  split; [|lia].
  apply lex_step_intro; simpl; auto; try congruence; lia.
Qed.

Lemma eqb_rune_nonzero :
  forall (c : ascii) (x : Z),
    byte c <> 0%Z -> (x =? rune c)%Z = true -> x <> 0%Z.
Proof.
  intros c x Hc H. apply Z.eqb_eq in H. unfold rune in H. congruence.
Qed.

Lemma isDigitRune_nonzero : forall c, lexer.isDigitRune c = true -> c <> 0%Z.
Proof.
  intros c H ->. vm_compute in H. discriminate.
Qed.

Lemma isMarkerEnd_nonzero :
  forall l, lexer.isMarkerEnd l = true -> lexer.ch l <> 0%Z.
Proof.
  intros l H Hc. unfold lexer.isMarkerEnd in H. rewrite Hc in H.
  vm_compute in H. discriminate.
Qed.

Lemma readDashLine_total :
  forall fuel l,
    spec.lexer_wf l -> spec.remaining l < fuel ->
    (lexer.ch l =? rune "-")%Z = true ->
    exists tok l',
      lexer.readDashLine fuel l = Ok (tok, l') /\ spec.lex_step l tok l' /\
      lexer.position l < lexer.position l'.
Proof.
  intros fuel l Hwf Hfuel Hch. unfold lexer.readDashLine.
  destruct (readWhile_total (fun c => (c =? rune "-")%Z)
              (fun c => eqb_rune_nonzero "-" c ltac:(discriminate))
              fuel l 0 Hwf Hfuel)
    as (n1 & l1 & H & A & B & C & D & E).
  specialize (D Hch). rewrite H. cbn [bind].
  destruct ((5 <=? n1) && lexer.isEOL (lexer.ch l1)).
  - assert (Hle : lexer.position l1 <= length (lexer.input l1)) by apply A.
    rewrite slice_total by lia. unfold bind.
    eexists. eexists. split; [reflexivity|]. split; [|exact D].
    apply lex_step_intro; simpl; auto; try discriminate.
    rewrite length_firstn, length_skipn. lia.
  - destruct ((n1 =? 1) && (lexer.ch l1 =? rune " ")%Z);
      apply rest_after_total; auto; discriminate.
Qed.

Lemma tryReadOrderedListItem_total :
  forall fuel l,
    spec.lexer_wf l -> spec.remaining l < fuel ->
    lexer.isDigitRune (lexer.ch l) = true ->
    exists tok l',
      lexer.tryReadOrderedListItem fuel l = Ok (tok, l') /\
      spec.lex_step l tok l' /\ lexer.position l < lexer.position l'.
Proof.
  intros fuel l Hwf Hfuel Hch. unfold lexer.tryReadOrderedListItem.
  destruct (readWhile_total lexer.isDigitRune isDigitRune_nonzero
              fuel l 0 Hwf Hfuel)
    as (n1 & l1 & H & A & B & C & D & E).
  specialize (D Hch). rewrite H. cbn [bind].
  destruct (lexer.isMarkerEnd l1) eqn:Em.
  - destruct (readChar_wf l1 A (isMarkerEnd_nonzero _ Em)) as (A' & Hlt).
    apply rest_after_total; auto; try discriminate; try lia.
    rewrite readChar_input. exact B.
  - apply rest_after_total; auto; discriminate.
Qed.

Lemma isBlank_nonzero :
  forall c, ((c =? rune " ")%Z || (c =? 9)%Z) = true -> c <> 0%Z.
Proof.
  intros c H ->. vm_compute in H. discriminate.
Qed.

Lemma tryReadIndentedListItem_total :
  forall fuel l,
    spec.lexer_wf l -> spec.remaining l < fuel ->
    ((lexer.ch l =? rune " ")%Z || (lexer.ch l =? 9)%Z) = true ->
    exists tok l',
      lexer.tryReadIndentedListItem fuel l = Ok (tok, l') /\
      spec.lex_step l tok l' /\ lexer.position l < lexer.position l'.
Proof.
  intros fuel l Hwf Hfuel Hch. unfold lexer.tryReadIndentedListItem.
  destruct (readWhile_total (fun c => (c =? rune " ")%Z || (c =? 9)%Z)
              isBlank_nonzero fuel l 0 Hwf Hfuel)
    as (n1 & l1 & H & A & B & C & D & E).
  specialize (D Hch). rewrite H. cbn [bind].
  destruct (((lexer.ch l1 =? rune "-")%Z || (lexer.ch l1 =? rune "+")%Z)
            && (lexer.peekChar l1 =? rune " ")%Z).
  - apply rest_after_total; auto; discriminate.
  - destruct (lexer.isDigitRune (lexer.ch l1)) eqn:Ed.
    + destruct (readWhile_total lexer.isDigitRune isDigitRune_nonzero
                  fuel l1 0 A)
        as (n2 & l2 & H2 & A2 & B2 & C2 & D2 & E2).
      { unfold spec.remaining in *. rewrite B. lia. }
      rewrite H2. cbn [bind].
      destruct (lexer.isMarkerEnd l2) eqn:Em.
      * destruct (readChar_wf l2 A2 (isMarkerEnd_nonzero _ Em)) as (A' & Hlt).
        apply rest_after_total; auto; try discriminate; try lia.
        rewrite readChar_input. congruence.
      * apply rest_after_total; auto; try discriminate; try lia. congruence.
    + apply rest_after_total; auto; discriminate.
Qed.

Lemma lex_step_eof :
  forall l l' ln col,
    spec.lexer_wf l' -> lexer.input l' = lexer.input l ->
    lexer.position l' = lexer.position l ->
    spec.lex_step l (mkToken EOF [] ln col) l'.
Proof.
  intros l l' ln col Hwf Hin Hpos. unfold spec.lex_step, spec.tok_ok.
  splits; simpl; auto; try lia; try congruence; try discriminate.
Qed.

Lemma lex_step_transfer :
  forall l l1 tok l',
    lexer.input l1 = lexer.input l -> lexer.position l1 = lexer.position l ->
    spec.lex_step l1 tok l' -> spec.lex_step l tok l'.
Proof.
  intros l l1 tok l' Hin Hpos (A & B & C & D & E).
  unfold spec.lex_step. rewrite <- Hin, <- Hpos. splits; auto.
Qed.

Lemma checkContext_same :
  forall l b l1,
    lexer.checkContext l = (b, l1) ->
    lexer.input l1 = lexer.input l /\ lexer.position l1 = lexer.position l /\
    lexer.readPosition l1 = lexer.readPosition l /\ lexer.ch l1 = lexer.ch l.
Proof.
  intros l b l1 H. unfold lexer.checkContext in H.
  destruct (context.poll (lexer.ctx l)) as [done c].
  destruct done; injection H as <- <-; simpl; auto.
Qed.

Lemma wf_same_cursor :
  forall l l1,
    lexer.input l1 = lexer.input l -> lexer.position l1 = lexer.position l ->
    lexer.readPosition l1 = lexer.readPosition l -> lexer.ch l1 = lexer.ch l ->
    spec.lexer_wf l -> spec.lexer_wf l1.
Proof.
  intros l l1 A B C D H. unfold spec.lexer_wf in *. rewrite A, B, C, D. exact H.
Qed.

Lemma readTextLine_fallback :
  forall fuel l0 l,
    spec.lexer_wf l -> lexer.input l = lexer.input l0 ->
    lexer.position l0 < lexer.position l -> spec.remaining l0 < fuel ->
    exists tok l',
      lexer.readTextLine fuel l = Ok (tok, l') /\
      spec.lexer_wf l' /\ lexer.input l' = lexer.input l0 /\
      lexer.position l0 < lexer.position l' /\
      spec.tok_ok (length (lexer.input l0)) tok.
Proof.
  intros fuel l0 l Hwf Hin Hlt Hfuel. unfold lexer.readTextLine.
  destruct (restOfLine_total fuel (lexer.position l) l Hwf)
    as (literal & l' & H & A & B & C & D & E).
  { unfold spec.remaining in *. rewrite Hin. lia. }
  { lia. }
  rewrite H. unfold bind. eexists. eexists. split; [reflexivity|].
  splits; try assumption; try congruence; try lia.
  unfold spec.tok_ok. simpl. split; [|discriminate].
  destruct A as (Hle & _). rewrite B, Hin in Hle. lia.
Qed.

Lemma notEOL_of_tests :
  forall c, (c =? 0)%Z = false -> (c =? rune LF)%Z = false ->
            lexer.notEOL c = true.
Proof.
  intros c H0 H1. unfold lexer.notEOL. rewrite H0, H1. reflexivity.
Qed.

(** [NextToken] returns a token for every consistent lexer, given fuel above
    the number of bytes not yet read. *)
Lemma NextToken_total :
  forall fuel l,
    spec.lexer_wf l -> spec.remaining l < fuel ->
    exists tok l',
      lexer.NextToken fuel l = Ok (tok, l') /\ spec.lex_step l tok l'.
Proof.
  intros fuel l0 Hwf0 Hfuel0. unfold lexer.NextToken.
  destruct (lexer.err l0).
  { eexists. eexists. split; [reflexivity|]. apply lex_step_eof; auto. }
  destruct (lexer.checkContext l0) as [cancelled l] eqn:Ectx.
  destruct (checkContext_same _ _ _ Ectx) as (Hin & Hpos & Hrp & Hch0).
  assert (Hwf : spec.lexer_wf l) by (eapply wf_same_cursor; eauto).
  assert (Hfuel : spec.remaining l < fuel).
  { unfold spec.remaining in *. rewrite Hin, Hpos. exact Hfuel0. }
  destruct cancelled.
  { eexists. eexists. split; [reflexivity|]. apply lex_step_eof; auto. }
  cbv zeta.
  destruct (lexer.ch l =? 0)%Z eqn:E0.
  { eexists. eexists. split; [reflexivity|]. apply lex_step_eof; auto. }
  assert (Hnz : lexer.ch l <> 0%Z) by (apply Z.eqb_neq; exact E0).
  assert (Htransfer :
            forall r : result (Token * lexer.Lexer),
              (exists tok l', r = Ok (tok, l') /\ spec.lex_step l tok l') ->
              exists tok l', r = Ok (tok, l') /\ spec.lex_step l0 tok l').
  { intros r (tok & l' & Hr & Hs). exists tok, l'. split; [exact Hr|].
    eapply lex_step_transfer; eauto. }
  destruct (lexer.ch l =? rune LF)%Z eqn:Enl.
  { (* a newline *)
    eexists. eexists. split; [reflexivity|].
    set (l1 := lexer.set_line l (S (lexer.line l))).
    assert (Hwf1 : spec.lexer_wf l1) by exact Hwf.
    destruct (readChar_wf l1 Hwf1 Hnz) as (A & Hlt).
    change (lexer.position l1) with (lexer.position l) in Hlt.
    unfold spec.lex_step, spec.tok_ok. rewrite readChar_input.
    change (lexer.input l1) with (lexer.input l).
    splits; simpl; auto; try lia; try discriminate.
    destruct A as (Hle & _). rewrite readChar_input in Hle.
    change (lexer.input l1) with (lexer.input l) in Hle.
    rewrite Hin in Hle. lia. }
  pose proof (notEOL_of_tests _ E0 Enl) as Hne.
  assert (Htext : exists tok l',
             lexer.readTextLine fuel l = Ok (tok, l') /\ spec.lex_step l0 tok l').
  { apply Htransfer. apply readTextLine_total; assumption. }
  destruct (lexer.ch l =? rune "*")%Z eqn:Estar.
  { destruct ((lexer.position l =? 0) || (lexer.prevCh l =? rune LF)%Z);
      [|exact Htext].
    (* a run of stars at the start of a line *)
    apply Htransfer. unfold lexer.readStars.
    destruct (readWhile_total (fun c => (c =? rune "*")%Z)
                (fun c => eqb_rune_nonzero "*" c ltac:(discriminate))
                fuel l 0 Hwf Hfuel)
      as (n1 & l1 & H & A & B & C & D & E).
    specialize (D Estar). rewrite H. cbn [bind].
    assert (Hle1 : lexer.position l1 <= length (lexer.input l1)) by apply A.
    rewrite slice_total by lia. cbn [bind].
    destruct (lexer.ch l1 =? rune " ")%Z.
    - eexists. eexists. split; [reflexivity|].
      apply lex_step_intro; simpl; auto; try discriminate.
      rewrite length_firstn, length_skipn. lia.
    - unfold lexer.readToEndOfLine.
      destruct (readToEndOfLine_loop_total fuel l1 0 A)
        as (l2 & H2 & A2 & B2 & C2).
      { unfold spec.remaining in *. rewrite B. lia. }
      rewrite H2. cbn [bind].
      assert (Hle2 : lexer.position l2 <= length (lexer.input l2)) by apply A2.
      rewrite slice_total by lia. cbn [bind].
      eexists. eexists. split; [reflexivity|].
      apply lex_step_intro; simpl; auto; try discriminate; try congruence;
        try lia.
      rewrite length_app, !length_firstn, !length_skipn. lia. }
  destruct (lexer.ch l =? rune "#")%Z.
  { destruct (((lexer.position l =? 0) || (lexer.prevCh l =? rune LF)%Z)
              && (lexer.peekChar l =? rune "+")%Z).
    - apply Htransfer. apply readOrgDirective_total; assumption.
    - destruct (((lexer.position l =? 0) || (lexer.prevCh l =? rune LF)%Z)
                && ((lexer.peekChar l =? rune " ")%Z
                    || (lexer.peekChar l =? rune LF)%Z
                    || (lexer.peekChar l =? 0)%Z)).
      + apply Htransfer. apply readComment_total; assumption.
      + exact Htext. }
  destruct (lexer.ch l =? rune ":")%Z.
  { destruct ((lexer.position l =? 0) || (lexer.prevCh l =? rune LF)%Z);
      [|exact Htext].
    apply Htransfer. apply readDrawerOrProperty_total; assumption. }
  destruct (lexer.ch l =? rune "-")%Z eqn:Edash.
  { destruct ((lexer.position l =? 0) || (lexer.prevCh l =? rune LF)%Z);
      [|exact Htext].
    apply Htransfer.
    destruct (readDashLine_total fuel l Hwf Hfuel Edash) as (tok & l' & H & Hs & _).
    eauto. }
  destruct (lexer.ch l =? rune "+")%Z.
  { destruct (((lexer.position l =? 0) || (lexer.prevCh l =? rune LF)%Z)
              && (lexer.peekChar l =? rune " ")%Z); [|exact Htext].
    apply Htransfer. apply readListItem_total; assumption. }
  destruct (lexer.ch l =? rune "|")%Z.
  { destruct ((lexer.position l =? 0) || (lexer.prevCh l =? rune LF)%Z);
      [|exact Htext].
    apply Htransfer. apply readTableRow_total; assumption. }
  destruct ((lexer.ch l =? rune " ")%Z || (lexer.ch l =? 9)%Z) eqn:Eblank.
  { destruct ((lexer.position l =? 0) || (lexer.prevCh l =? rune LF)%Z);
      [|exact Htext].
    destruct (tryReadIndentedListItem_total fuel l Hwf Hfuel Eblank)
      as (tok & l' & H & Hs & Hprog).
    rewrite H. cbn [bind].
    destruct (token.eqb (Typ tok) ILLEGAL).
    - destruct Hs as (A & B & C & D & E).
      destruct (readTextLine_fallback fuel l l' A B Hprog Hfuel)
        as (tok2 & l2 & H2 & R).
      apply Htransfer. exists tok2, l2. split; [exact H2|].
      destruct R as (R1 & R2 & R3 & R4).
      unfold spec.lex_step. splits; auto; try lia.
    - apply Htransfer. exists tok, l'. auto. }
  destruct (((lexer.position l =? 0) || (lexer.prevCh l =? rune LF)%Z)
            && lexer.isDigitRune (lexer.ch l)) eqn:Edig; [|exact Htext].
  apply andb_prop in Edig. destruct Edig as (_ & Edig).
  destruct (tryReadOrderedListItem_total fuel l Hwf Hfuel Edig)
    as (tok & l' & H & Hs & Hprog).
  rewrite H. cbn [bind].
  destruct (token.eqb (Typ tok) ILLEGAL).
  - destruct Hs as (A & B & C & D & E).
    destruct (readTextLine_fallback fuel l l' A B Hprog Hfuel)
      as (tok2 & l2 & H2 & R).
    apply Htransfer. exists tok2, l2. split; [exact H2|].
    destruct R as (R1 & R2 & R3 & R4).
    unfold spec.lex_step. splits; auto; try lia.
  - apply Htransfer. exists tok, l'. auto.
Qed.

(** ** Totality of the inline sub-parser *)

Lemma at_total :
  forall s i, i < length s -> exists c, at_ s i = Ok c.
Proof.
  intros s i H. unfold at_. destruct (nth_error s i) eqn:E; [eauto|].
  apply nth_error_None in E. lia.
Qed.

Lemma sliceFrom_total :
  forall s lo, lo <= length s -> sliceFrom s lo = Ok (skipn lo s).
Proof.
  intros s lo H. unfold sliceFrom. rewrite slice_total by lia.
  rewrite firstn_all2 by (rewrite length_skipn; lia). reflexivity.
Qed.

Lemma tryLink_total :
  forall remaining, exists r, parser.tryLink remaining = Ok r.
Proof.
  intros remaining. unfold parser.tryLink.
  destruct (2 <? length remaining) eqn:E; [|eauto].
  apply Nat.ltb_lt in E.
  destruct (at_total remaining 0 ltac:(lia)) as (r0 & ->).
  destruct (at_total remaining 1 ltac:(lia)) as (r1 & ->).
  cbn [bind]. destruct (Ascii.eqb r0 "[" && Ascii.eqb r1 "["); eauto.
Qed.

Lemma tryMarker_total :
  forall remaining,
    remaining <> [] -> exists r, parser.tryMarker remaining = Ok r.
Proof.
  intros remaining Hne. unfold parser.tryMarker.
  destruct remaining as [|c r]; [congruence|].
  unfold at_. cbn [nth_error bind].
  destruct (parser.inlineMarkers c) as [[[typ closer] nestable]|]; [|eauto].
  destruct (2 <? length (c :: r)); [|eauto].
  rewrite sliceFrom_total by (simpl; lia). cbn [bind].
  destruct (negb (parser.findClosingMarker (skipn 1 (c :: r)) closer =? -1)%Z
            && (0 <? parser.findClosingMarker (skipn 1 (c :: r)) closer)%Z);
    eauto.
Qed.

Lemma inline_total :
  forall fuel,
    (forall text depth,
        length text + 2 <= fuel ->
        exists r, parser.parseInlineElementsRecursive fuel text depth = Ok r) /\
    (forall remaining depth elements,
        length remaining + 1 <= fuel ->
        exists r, parser.inlineLoop fuel remaining depth elements = Ok r).
Proof.
  induction fuel as [|f [IHrec IHloop]].
  - split; intros; lia.
  - split.
    + intros text depth Hf. rewrite parseInlineElementsRecursive_eq.
      destruct (parser.maxDepth <? depth); [eauto|].
      apply IHloop. lia.
    + intros remaining depth elements Hf. rewrite inlineLoop_eq.
      destruct (length remaining =? 0) eqn:E0; [eauto|].
      apply Nat.eqb_neq in E0.
      assert (Hne : remaining <> []) by (intros ->; apply E0; reflexivity).
      destruct (tryLink_total remaining) as (link & Hlink).
      rewrite Hlink. cbn [bind].
      destruct link as [[[url desc] matchEnd]|].
      * (* a link *)
        apply tryLink_spec in Hlink. destruct Hlink as [Hl|Hl]; [discriminate|].
        symmetry in Hl. apply linkRegex_spec in Hl. destruct Hl as (_ & Hl).
        assert (Hlen : matchEnd <= length remaining /\ 0 < matchEnd /\
                       match desc with
                       | Some d => length d + 2 <= length remaining
                       | None => True
                       end).
        { destruct desc as [d|].
          - destruct Hl as (_ & Hs & ->).
            apply (f_equal (@length ascii)) in Hs.
            rewrite !length_app, length_skipn in Hs. simpl in Hs. lia.
          - destruct Hl as (Hs & ->).
            apply (f_equal (@length ascii)) in Hs.
            rewrite !length_app, length_skipn in Hs. simpl in Hs. lia. }
        destruct Hlen as (Hm1 & Hm2 & Hd).
        assert (Hch : exists children,
                   match desc with
                   | Some ((_ :: _) as d) =>
                       parser.parseInlineElementsRecursive f d (depth + 1)
                   | _ => Ok []
                   end = Ok children).
        { destruct desc as [[|d0 d']|]; [eauto| |eauto].
          apply IHrec. lia. }
        destruct Hch as (children & ->). cbn [bind].
        rewrite sliceFrom_total by exact Hm1. cbn [bind].
        apply IHloop. rewrite length_skipn. lia.
      * (* no link *)
        destruct (tryMarker_total remaining Hne) as (marker & Hm).
        rewrite Hm. cbn [bind].
        destruct marker as [[[typ nestable] end_]|].
        -- apply tryMarker_spec in Hm.
           destruct Hm as (c & inner & rest0 & -> & _ & Hinner & ->).
           assert (Hl : length (c :: inner ++ c :: rest0)
                        = length inner + 2 + length rest0).
           { simpl. rewrite length_app. simpl. lia. }
           rewrite slice_total by lia. cbn [bind].
           assert (He : exists elem,
                      (if nestable
                       then
                         children <-
                           parser.parseInlineElementsRecursive f
                             (firstn (Z.to_nat (Z.of_nat (length inner) + 1) - 1)
                                     (skipn 1 (c :: inner ++ c :: rest0)))
                             (depth + 1) ;;
                         Ok (ast.mkInline typ [] [] children)
                       else
                         Ok (ast.mkInline typ
                               (firstn (Z.to_nat (Z.of_nat (length inner) + 1) - 1)
                                       (skipn 1 (c :: inner ++ c :: rest0)))
                               [] [])) = Ok elem).
           { destruct nestable; [|eauto].
             destruct (IHrec (firstn (Z.to_nat (Z.of_nat (length inner) + 1) - 1)
                                     (skipn 1 (c :: inner ++ c :: rest0)))
                             (depth + 1)) as (children & ->).
             - rewrite length_firstn. lia.
             - cbn [bind]. eauto. }
           destruct He as (elem & ->). cbn [bind].
           rewrite sliceFrom_total by lia. cbn [bind].
           apply IHloop. rewrite length_skipn. lia.
        -- cbv zeta.
           destruct (parser.findNextMarker remaining =? -1)%Z eqn:E1; [eauto|].
           apply Z.eqb_neq in E1.
           pose proof (findNextMarker_bound remaining 0 _ eq_refl E1) as Hb.
           pose proof (findNextMarker_from_ge remaining 0 _ eq_refl) as Hg.
           fold (parser.findNextMarker remaining) in Hb, Hg.
           destruct (0 <? parser.findNextMarker remaining)%Z eqn:E2.
           ++ apply Z.ltb_lt in E2.
              unfold sliceTo. rewrite slice_total by lia. cbn [bind].
              rewrite sliceFrom_total by lia. cbn [bind].
              apply IHloop. rewrite length_skipn. lia.
           ++ destruct remaining as [|c r]; [congruence|].
              unfold at_. cbn [nth_error bind].
              rewrite sliceFrom_total by (simpl; lia). cbn [bind].
              apply IHloop. simpl in *. lia.
Qed.

(** ** Totality of the parser *)

Lemma tokWeight_neq :
  forall t, Typ t <> EOF -> spec.tokWeight t = 1.
Proof.
  intros t H. unfold spec.tokWeight.
  destruct (token.eqb (Typ t) EOF) eqn:E; [|reflexivity].
  apply token_eqb_true in E. contradiction.
Qed.

Lemma tokWeight_le : forall t, spec.tokWeight t <= 1.
Proof. intros t. unfold spec.tokWeight. destruct (token.eqb _ _); lia. Qed.

Lemma nextToken_total :
  forall fuel p,
    spec.parser_wf p -> length (lexer.input (parser.l p)) < fuel ->
    exists p',
      parser.nextToken fuel p = Ok p' /\
      spec.parser_wf p' /\
      lexer.input (parser.l p') = lexer.input (parser.l p) /\
      spec.pmeasure p' + spec.tokWeight (parser.curToken p) <= spec.pmeasure p /\
      parser.curToken p' = parser.peekToken p.
Proof.
  intros fuel p (Hwf & Hc & Hp) Hf.
  destruct (NextToken_total fuel (parser.l p) Hwf) as (tok & l' & HN & Hs).
  { unfold spec.remaining. lia. }
  destruct Hs as (Hwf' & Hin & Hle & Hlt & Htok).
  exists (parser.mkParser l' (parser.peekToken p) tok (parser.errors p)
                          (parser.ctx p)).
  unfold parser.nextToken. rewrite HN. cbn [bind].
  splits; try reflexivity.
  - unfold spec.parser_wf. cbn [parser.l parser.curToken parser.peekToken].
    rewrite Hin. splits; assumption.
  - exact Hin.
  - unfold spec.pmeasure, spec.remaining.
    cbn [parser.l parser.curToken parser.peekToken]. rewrite Hin.
    destruct Hwf' as (Hpos & _). rewrite Hin in Hpos.
    assert (spec.tokWeight tok + (length (lexer.input (parser.l p))
                                  - lexer.position l')
            <= length (lexer.input (parser.l p))
               - lexer.position (parser.l p)).
    { unfold spec.tokWeight. destruct (token.eqb (Typ tok) EOF) eqn:E.
      - lia.
      - apply token_eqb_false in E. specialize (Hlt E). lia. }
    lia.
Qed.

Lemma pmeasure_bound :
  forall p, spec.parser_wf p ->
    spec.pmeasure p <= length (lexer.input (parser.l p)) + 2.
Proof.
  intros p _. unfold spec.pmeasure, spec.remaining.
  pose proof (tokWeight_le (parser.curToken p)).
  pose proof (tokWeight_le (parser.peekToken p)). lia.
Qed.

Lemma HasPrefix_length :
  forall s p, HasPrefix s p = true -> length p <= length s.
Proof.
  induction s as [|c s IH]; intros [|d p] H; simpl in *; try lia;
    try discriminate.
  apply andb_true_iff in H. destruct H as (_ & H).
  apply IH in H. lia.
Qed.

Lemma ToUpper_length : forall s, length (ToUpper s) = length s.
Proof. intros s. unfold ToUpper. apply length_map. Qed.

Lemma index_total :
  forall (A : Type) (xs : list A) i,
    i < length xs -> exists x, parser.index xs i = Ok x.
Proof.
  intros A xs i H. unfold parser.index.
  destruct (nth_error xs i) eqn:E; [eauto|].
  apply nth_error_None in E. lia.
Qed.

Lemma mapM_total :
  forall (A B : Type) (f : A -> result B) xs,
    (forall x, In x xs -> exists y, f x = Ok y) ->
    exists ys, parser.mapM f xs = Ok ys.
Proof.
  intros A B f xs. induction xs as [|x r IH]; intros H; simpl.
  - eauto.
  - destruct (H x (or_introl eq_refl)) as (y & ->).
    destruct IH as (ys & ->); [intros; apply H; right; assumption|].
    cbn [bind]. eauto.
Qed.

Lemma returns_Ok :
  forall (A : Type) (a : A) (P : A -> Prop), P a -> spec.returns (Ok a) P.
Proof. intros A a P H. exists a. split; [reflexivity|exact H]. Qed.

Lemma returns_bind :
  forall (A B : Type) (m : result A) (k : A -> result B)
         (Q : A -> Prop) (P : B -> Prop),
    spec.returns m Q ->
    (forall a, Q a -> spec.returns (k a) P) ->
    spec.returns (bind m k) P.
Proof.
  intros A B m k Q P (a & -> & Ha) Hk. cbn [bind]. apply Hk. exact Ha.
Qed.

Lemma returns_weaken :
  forall (A : Type) (m : result A) (P Q : A -> Prop),
    spec.returns m P -> (forall a, P a -> Q a) -> spec.returns m Q.
Proof.
  intros A m P Q (a & -> & Ha) H. exists a. split; [reflexivity|auto].
Qed.

Lemma returns_total :
  forall (A : Type) (m : result A),
    (exists a, m = Ok a) -> spec.returns m (fun _ => True).
Proof. intros A m (a & ->). exists a. split; [reflexivity|exact I]. Qed.

Lemma parser_le_refl :
  forall p, spec.parser_wf p -> spec.parser_le p p.
Proof. intros p H. unfold spec.parser_le. splits; [exact H|reflexivity|lia]. Qed.

Lemma parser_le_trans :
  forall p q r,
    spec.parser_le p q -> spec.parser_le q r -> spec.parser_le p r.
Proof.
  intros p q r (_ & Hi1 & Hm1) (Hw & Hi2 & Hm2).
  unfold spec.parser_le. splits; [exact Hw|congruence|lia].
Qed.

Lemma curTokenIs_false :
  forall p t, parser.curTokenIs p t = false -> Typ (parser.curToken p) <> t.
Proof. intros p t H. apply token_eqb_false. exact H. Qed.

Lemma curTokenIs_true :
  forall p t, parser.curTokenIs p t = true -> Typ (parser.curToken p) = t.
Proof. intros p t H. apply token_eqb_true. exact H. Qed.

(** [nextToken] as a step of the parser. *)
Lemma nextToken_returns :
  forall fuel p,
    spec.parser_wf p -> length (lexer.input (parser.l p)) < fuel ->
    spec.returns (parser.nextToken fuel p)
      (fun p' =>
         spec.parser_le p p' /\
         spec.pmeasure p' + spec.tokWeight (parser.curToken p)
         <= spec.pmeasure p /\
         parser.curToken p' = parser.peekToken p).
Proof.
  intros fuel p Hwf Hf.
  destruct (nextToken_total fuel p Hwf Hf) as (p' & E & Hw & Hi & Hm & Hc).
  exists p'. unfold spec.parser_le. splits; try assumption. lia.
Qed.

(** [nextToken] from a current token that is not end of input. *)
Lemma nextToken_advance :
  forall fuel p,
    spec.parser_wf p -> length (lexer.input (parser.l p)) < fuel ->
    Typ (parser.curToken p) <> EOF ->
    spec.returns (parser.nextToken fuel p)
      (fun p' =>
         spec.parser_le p p' /\ spec.pmeasure p' < spec.pmeasure p /\
         parser.curToken p' = parser.peekToken p).
Proof.
  intros fuel p Hwf Hf Hne.
  apply (returns_weaken _ _ _ _ (nextToken_returns fuel p Hwf Hf)).
  intros p' (Hle & Hm & Hc). rewrite (tokWeight_neq _ Hne) in Hm.
  splits; [exact Hle|lia|exact Hc].
Qed.

Lemma parseBlock_loop_total :
  forall fuel n p endMarker contentLines,
    spec.parser_wf p -> length (lexer.input (parser.l p)) < fuel ->
    spec.pmeasure p < n ->
    spec.returns (parser.parseBlock_loop fuel n p endMarker contentLines)
                 (fun r => spec.parser_le p (snd r)).
Proof.
  intros fuel n. induction n as [|n IH]; intros p em acc Hwf Hf Hn; [lia|].
  cbn [parser.parseBlock_loop].
  destruct (parser.curTokenIs p EOF) eqn:E.
  { apply returns_Ok. apply parser_le_refl. exact Hwf. }
  apply curTokenIs_false in E.
  assert (Hnext : forall acc',
             spec.returns
               (p0 <- parser.nextToken fuel p ;;
                parser.parseBlock_loop fuel n p0 em acc')
               (fun r => spec.parser_le p (snd r))).
  { intros acc'. eapply returns_bind.
    - apply (nextToken_advance fuel p Hwf Hf E).
    - cbv beta. intros p1 (Hle & Hm & _).
      eapply returns_weaken.
      + apply IH; [apply Hle| |lia].
        destruct Hle as (_ & -> & _). exact Hf.
      + cbv beta. intros r Hr. exact (parser_le_trans _ _ _ Hle Hr). }
  destruct (parser.curTokenIs p NEWLINE); [apply Hnext|].
  destruct (parser.curTokenIs p BLOCK_END
            && HasPrefix (ToUpper (Literal (parser.curToken p))) em).
  { apply returns_Ok. apply parser_le_refl. exact Hwf. }
  apply Hnext.
Qed.

Lemma parseDrawer_loop_total :
  forall fuel n p name properties contentLines,
    spec.parser_wf p -> length (lexer.input (parser.l p)) < fuel ->
    spec.pmeasure p < n ->
    spec.returns
      (parser.parseDrawer_loop fuel n p name properties contentLines)
      (fun r => spec.parser_le p (snd r)).
Proof.
  intros fuel n. induction n as [|n IH]; intros p name props acc Hwf Hf Hn;
    [lia|].
  cbn [parser.parseDrawer_loop].
  destruct (parser.curTokenIs p EOF) eqn:E.
  { apply returns_Ok. apply parser_le_refl. exact Hwf. }
  apply curTokenIs_false in E.
  assert (Hnext : forall props' acc',
             spec.returns
               (p0 <- parser.nextToken fuel p ;;
                parser.parseDrawer_loop fuel n p0 name props' acc')
               (fun r => spec.parser_le p (snd r))).
  { intros props' acc'. eapply returns_bind.
    - apply (nextToken_advance fuel p Hwf Hf E).
    - cbv beta. intros p1 (Hle & Hm & _).
      eapply returns_weaken.
      + apply IH; [apply Hle| |lia].
        destruct Hle as (_ & -> & _). exact Hf.
      + cbv beta. intros r Hr. exact (parser_le_trans _ _ _ Hle Hr). }
  destruct (parser.curTokenIs p NEWLINE); [apply Hnext|].
  destruct (parser.curTokenIs p DRAWER_END).
  { apply returns_Ok. apply parser_le_refl. exact Hwf. }
  destruct (str_eqb name (lit "PROPERTIES")).
  - destruct (parser.propertyRegex
                (TrimSpace (Literal (parser.curToken p)))) as [[k v]|];
      apply Hnext.
  - apply Hnext.
Qed.

(** The optional [nextToken] over a NEWLINE of the list and table loops. *)
Lemma skipNewline_returns :
  forall fuel p,
    spec.parser_wf p -> length (lexer.input (parser.l p)) < fuel ->
    Typ (parser.curToken p) <> EOF ->
    spec.returns
      (if parser.peekTokenIs p NEWLINE then parser.nextToken fuel p else Ok p)
      (fun p' => spec.parser_le p p' /\
                 (spec.pmeasure p' < spec.pmeasure p
                  \/ Typ (parser.curToken p') <> EOF)).
Proof.
  intros fuel p Hwf Hf Hne.
  destruct (parser.peekTokenIs p NEWLINE).
  - apply (returns_weaken _ _ _ _ (nextToken_advance fuel p Hwf Hf Hne)).
    intros p' (Hle & Hm & _). split; [exact Hle|left; exact Hm].
  - apply returns_Ok. split; [apply parser_le_refl; exact Hwf|right; exact Hne].
Qed.

Lemma peekTokenIs_true :
  forall p t, parser.peekTokenIs p t = true -> Typ (parser.peekToken p) = t.
Proof. intros p t H. apply token_eqb_true. exact H. Qed.

Lemma pmeasure_peek :
  forall p, Typ (parser.peekToken p) <> EOF -> 0 < spec.pmeasure p.
Proof.
  intros p H. unfold spec.pmeasure. rewrite (tokWeight_neq _ H). lia.
Qed.

Lemma takeWhile_length :
  forall f s, length (takeWhile f s) <= length s.
Proof.
  intros f s. rewrite <- (takeWhile_dropWhile f s) at 2.
  rewrite length_app. lia.
Qed.

Lemma priorityRegex_length :
  forall s m g, parser.priorityRegex s = Some (m, g) -> m <= length s.
Proof.
  intros s m g H. unfold parser.priorityRegex in H.
  repeat match type of H with
         | match ?x with _ => _ end = _ => destruct x; try discriminate
         | (if ?x then _ else _) = _ => destruct x; try discriminate
         end.
  injection H as <- _.
  match goal with |- context [takeWhile ?f ?r] =>
    pose proof (takeWhile_length f r) end.
  simpl. lia.
Qed.

Lemma checkboxRegex_length :
  forall s m c, parser.checkboxRegex s = Some (m, c) -> m <= length s.
Proof.
  intros s m c H. unfold parser.checkboxRegex in H.
  pose proof (takeWhile_dropWhile parser.isReSpace s) as Hs.
  apply (f_equal (@length ascii)) in Hs. rewrite length_app in Hs.
  remember (dropWhile parser.isReSpace s) as d eqn:Ed. clear Ed.
  repeat match type of H with
         | match ?x with _ => _ end = _ => destruct x; try discriminate
         | (if ?x then _ else _) = _ => destruct x; try discriminate
         end.
  injection H as <- _.
  match goal with |- context [_ + 3 + length (takeWhile ?f ?r)] =>
    pose proof (takeWhile_length f r) end.
  simpl in Hs. lia.
Qed.

Lemma stripOrderedMarker_total :
  forall rest i content,
    exists r, parser.stripOrderedMarker rest i content = Ok r.
Proof.
  induction rest as [|c rest IH]; intros i content; simpl.
  - eauto.
  - destruct (Ascii.eqb c "." || Ascii.eqb c ")").
    + destruct (i + 1 <? length content) eqn:E; [|eauto].
      apply Nat.ltb_lt in E.
      destruct (at_total content (i + 1) E) as (next & ->). cbn [bind].
      destruct (Ascii.eqb next " "); [|eauto].
      rewrite sliceFrom_total by lia. eauto.
    + destruct (isDigit c); [apply IH|eauto].
Qed.

Lemma parseListItem_total :
  forall p, exists it, parser.parseListItem p = Ok it.
Proof.
  intros p. unfold parser.parseListItem.
  set (content := TrimSpace (Literal (parser.curToken p))).
  assert (H : exists c,
             (if HasPrefix content (lit "- ") then sliceFrom content 2
              else if HasPrefix content (lit "+ ") then sliceFrom content 2
              else parser.stripOrderedMarker content 0 content) = Ok c).
  { destruct (HasPrefix content (lit "- ")) eqn:E1.
    - apply HasPrefix_length in E1. simpl in E1.
      rewrite sliceFrom_total by lia. eauto.
    - destruct (HasPrefix content (lit "+ ")) eqn:E2.
      + apply HasPrefix_length in E2. simpl in E2.
        rewrite sliceFrom_total by lia. eauto.
      + apply stripOrderedMarker_total. }
  destruct H as (c & ->). cbn [bind].
  destruct (parser.checkboxRegex c) as [[m b]|] eqn:E.
  - apply checkboxRegex_length in E.
    rewrite sliceFrom_total by lia. cbn [bind]. eauto.
  - cbn [bind]. eauto.
Qed.

Lemma parseList_loop_total :
  forall fuel n p allItems,
    spec.parser_wf p -> length (lexer.input (parser.l p)) < fuel ->
    spec.pmeasure p < n -> Typ (parser.curToken p) <> EOF ->
    spec.returns (parser.parseList_loop fuel n p allItems)
                 (fun r => spec.parser_step p (snd r)).
Proof.
  intros fuel n. induction n as [|n IH]; intros p acc Hwf Hf Hn Hne; [lia|].
  cbn [parser.parseList_loop].
  destruct (parser.curTokenIs p LIST_ITEM).
  2:{ apply returns_Ok. split; [apply parser_le_refl; exact Hwf|right; exact Hne]. }
  destruct (parseListItem_total p) as (it & ->). cbn [bind].
  eapply returns_bind; [apply (skipNewline_returns fuel p Hwf Hf Hne)|].
  cbv beta. intros p1 (Hle & Hpr).
  assert (Hf1 : length (lexer.input (parser.l p1)) < fuel).
  { destruct Hle as (_ & -> & _). exact Hf. }
  destruct (negb (parser.peekTokenIs p1 LIST_ITEM)) eqn:Ep.
  { apply returns_Ok. split; assumption. }
  apply negb_false_iff, peekTokenIs_true in Ep.
  eapply returns_bind;
    [apply (nextToken_returns fuel p1 (proj1 Hle) Hf1)|].
  cbv beta. intros p2 (Hle2 & Hm2 & Hc2).
  assert (Hlt : spec.pmeasure p2 < spec.pmeasure p).
  { destruct Hle as (_ & _ & Hm1). destruct Hpr as [Hpr|Hpr]; [lia|].
    rewrite (tokWeight_neq _ Hpr) in Hm2. lia. }
  eapply returns_weaken.
  - apply IH; [apply Hle2| |lia|].
    + destruct Hle2 as (_ & -> & _). exact Hf1.
    + rewrite Hc2, Ep. discriminate.
  - cbv beta. intros r (Hr & _). split.
    + exact (parser_le_trans _ _ _ Hle (parser_le_trans _ _ _ Hle2 Hr)).
    + left. destruct Hr as (_ & _ & Hr). lia.
Qed.

Lemma parseTable_loop_total :
  forall fuel n p rows,
    spec.parser_wf p -> length (lexer.input (parser.l p)) < fuel ->
    spec.pmeasure p < n -> Typ (parser.curToken p) <> EOF ->
    spec.returns (parser.parseTable_loop fuel n p rows)
                 (fun r => spec.parser_step p (snd r)).
Proof.
  intros fuel n. induction n as [|n IH]; intros p acc Hwf Hf Hn Hne; [lia|].
  cbn [parser.parseTable_loop].
  destruct (parser.curTokenIs p TABLE_ROW || parser.curTokenIs p TABLE_SEP).
  2:{ apply returns_Ok. split; [apply parser_le_refl; exact Hwf|right; exact Hne]. }
  eapply returns_bind; [apply (skipNewline_returns fuel p Hwf Hf Hne)|].
  cbv beta. intros p1 (Hle & Hpr).
  assert (Hf1 : length (lexer.input (parser.l p1)) < fuel).
  { destruct Hle as (_ & -> & _). exact Hf. }
  destruct (negb (parser.peekTokenIs p1 TABLE_ROW)
            && negb (parser.peekTokenIs p1 TABLE_SEP)) eqn:Ep.
  { apply returns_Ok. split; assumption. }
  eapply returns_bind;
    [apply (nextToken_returns fuel p1 (proj1 Hle) Hf1)|].
  cbv beta. intros p2 (Hle2 & Hm2 & Hc2).
  assert (Hlt : spec.pmeasure p2 < spec.pmeasure p).
  { destruct Hle as (_ & _ & Hm1). destruct Hpr as [Hpr|Hpr]; [lia|].
    rewrite (tokWeight_neq _ Hpr) in Hm2. lia. }
  eapply returns_weaken.
  - apply IH; [apply Hle2| |lia|].
    + destruct Hle2 as (_ & -> & _). exact Hf1.
    + rewrite Hc2. apply andb_false_iff in Ep.
      destruct Ep as [Ep|Ep]; apply negb_false_iff, peekTokenIs_true in Ep;
        rewrite Ep; discriminate.
  - cbv beta. intros r (Hr & _). split.
    + exact (parser_le_trans _ _ _ Hle (parser_le_trans _ _ _ Hle2 Hr)).
    + left. destruct Hr as (_ & _ & Hr). lia.
Qed.

Lemma returns_eq :
  forall (A : Type) (m : result A) (P : A -> Prop),
    spec.returns m P -> spec.returns m (fun a => P a /\ m = Ok a).
Proof.
  intros A m P (a & E & Ha). exists a. split; [exact E|]. split; assumption.
Qed.

Lemma buildNestedList_inv :
  forall allItems baseIndent st top,
    Forall (fun c => parser.iChildren c = []) allItems ->
    parser.buildNestedList allItems baseIndent = (st, top) ->
    exists stack, spec.listInv allItems (length allItems) st stack top.
Proof.
  intros allItems baseIndent st top Hnil H.
  unfold parser.buildNestedList in H.
  destruct (length allItems =? 0) eqn:E0.
  - injection H as <- <-. apply Nat.eqb_eq in E0.
    exists []. rewrite E0.
    apply (placeItem_fold_inv allItems Hnil 0); [lia|reflexivity].
  - destruct (fold_left parser.placeItem (seq 0 (length allItems))
                        (parser.mkListStore allItems [], [], []))
      as [[st0 stack0] result0] eqn:E.
    injection H as <- <-. exists stack0.
    apply (placeItem_fold_inv allItems Hnil (length allItems)); [lia|exact E].
Qed.

(** In the store [buildNestedList] leaves, the items of a nested list come
    after the item that holds it, so following the pointers ends. *)
Lemma resolveItem_total :
  forall orig st stack top,
    spec.listInv orig (length orig) st stack top ->
    forall fuel i,
      length orig <= fuel + i -> 1 <= fuel ->
      exists t, parser.resolveItem fuel st i = Ok t.
Proof.
  intros orig st stack top Hinv fuel.
  induction fuel as [|f IH]; intros i Hf H1; [lia|].
  cbn [parser.resolveItem].
  pose proof (spec.inv_children Hinv i) as Hch.
  destruct (parser.iChildren (parser.item st i)) as [|[q|nd] [|c cs]];
    try contradiction.
  - cbn [parser.mapM bind]. eauto.
  - destruct Hch as (_ & Hitems).
    cbn [parser.mapM].
    destruct (mapM_total _ _ (parser.resolveItem f st)
                         (parser.lItems (parser.list_ st q))) as (its & ->).
    { intros x Hx. rewrite Hitems in Hx. apply nestedUnder_In in Hx.
      destruct Hx as (Hxn & Hns). apply nearestSmaller_lt in Hns.
      apply IH; lia. }
    cbn [bind]. eauto.
Qed.

Lemma parseList_total :
  forall fuel p,
    spec.parser_wf p -> length (lexer.input (parser.l p)) + 2 < fuel ->
    Typ (parser.curToken p) <> EOF ->
    spec.returns (parser.parseList fuel p)
                 (fun r => spec.parser_step p (snd r)).
Proof.
  intros fuel p Hwf Hf Hne. unfold parser.parseList.
  pose proof (pmeasure_bound p Hwf) as Hb.
  eapply returns_bind.
  - apply returns_eq.
    apply (parseList_loop_total fuel fuel p []); [exact Hwf|lia|lia|exact Hne].
  - cbv beta. intros [allItems p1] (Hstep & E). cbn [snd] in Hstep.
    apply parseList_loop_children in E; [|constructor].
    destruct (parser.buildNestedList allItems
                (parser.getIndentation (Literal (parser.curToken p))))
      as [st top] eqn:Eb.
    destruct (buildNestedList_inv _ _ _ _ E Eb) as (stack & Hinv).
    destruct (mapM_total _ _ (parser.resolveItem (S (length allItems)) st) top)
      as (its & ->).
    { intros x _. apply (resolveItem_total _ _ _ _ Hinv); lia. }
    cbn [bind]. apply returns_Ok. exact Hstep.
Qed.

Lemma parseTable_total :
  forall fuel p,
    spec.parser_wf p -> length (lexer.input (parser.l p)) + 2 < fuel ->
    Typ (parser.curToken p) <> EOF ->
    spec.returns (parser.parseTable fuel p)
                 (fun r => spec.parser_step p (snd r)).
Proof.
  intros fuel p Hwf Hf Hne. unfold parser.parseTable.
  pose proof (pmeasure_bound p Hwf) as Hb.
  eapply returns_bind.
  - apply (parseTable_loop_total fuel fuel p []); [exact Hwf|lia|lia|exact Hne].
  - cbv beta. intros [rows p1] Hstep. apply returns_Ok. exact Hstep.
Qed.

Lemma parseDrawer_total :
  forall fuel p,
    spec.parser_wf p -> length (lexer.input (parser.l p)) + 2 < fuel ->
    Typ (parser.curToken p) <> EOF ->
    spec.returns (parser.parseDrawer fuel p)
                 (fun r => spec.parser_step p (snd r)).
Proof.
  intros fuel p Hwf Hf Hne. unfold parser.parseDrawer.
  eapply returns_bind.
  - apply (nextToken_advance fuel p Hwf); [lia|exact Hne].
  - cbv beta. intros p1 (Hle & Hm & _).
    pose proof (pmeasure_bound p1 (proj1 Hle)) as Hb.
    assert (Hi : lexer.input (parser.l p1) = lexer.input (parser.l p))
      by apply Hle.
    eapply returns_bind.
    + apply (parseDrawer_loop_total fuel fuel p1); [apply Hle| |];
        rewrite ?Hi in *; lia.
    + cbv beta. intros [[props lines] p2] Hle2. cbn [snd] in Hle2.
      apply returns_Ok. cbn [snd]. split.
      * exact (parser_le_trans _ _ _ Hle Hle2).
      * left. destruct Hle2 as (_ & _ & Hm2). lia.
Qed.

Lemma SplitN2_length : forall s sep, 0 < length (SplitN2 s sep).
Proof.
  induction s as [|c r IH]; intros sep; simpl; [lia|].
  destruct (Ascii.eqb c sep); simpl; [lia|].
  destruct (SplitN2 r sep); simpl; lia.
Qed.

Lemma parseKeyword_total :
  forall p,
    spec.parser_wf p -> Typ (parser.curToken p) <> EOF ->
    spec.returns (parser.parseKeyword p)
                 (fun r => spec.parser_step p (snd r)).
Proof.
  intros p Hwf Hne. unfold parser.parseKeyword.
  assert (Hsame : forall m, spec.parser_step p (parser.addError p m)).
  { intros m. split; [|right; exact Hne].
    unfold spec.parser_le. splits; [exact Hwf|reflexivity|].
    unfold spec.pmeasure. simpl. lia. }
  assert (Hrefl : spec.parser_step p p).
  { split; [apply parser_le_refl; exact Hwf|right; exact Hne]. }
  destruct (negb (HasPrefix (Literal (parser.curToken p)) (lit "#+"))).
  { apply returns_Ok. apply Hsame. }
  cbv zeta.
  destruct (index_total _ (SplitN2 (Literal (parser.curToken p)) ":") 0
                        (SplitN2_length _ _)) as (part0 & ->).
  cbn [bind].
  destruct (str_eqb (TrimPrefix part0 (lit "#+")) []).
  { apply returns_Ok. apply Hsame. }
  destruct (1 <? length (SplitN2 (Literal (parser.curToken p)) ":")) eqn:E.
  - apply Nat.ltb_lt in E.
    destruct (index_total _ _ 1 E) as (part1 & ->). cbn [bind].
    apply returns_Ok. exact Hrefl.
  - cbn [bind]. apply returns_Ok. exact Hrefl.
Qed.

Lemma parseComment_total :
  forall p, exists n, parser.parseComment p = Ok n.
Proof.
  intros p. unfold parser.parseComment.
  destruct (HasPrefix (Literal (parser.curToken p)) (lit "# ")) eqn:E.
  - apply HasPrefix_length in E. simpl in E.
    rewrite sliceFrom_total by lia. cbn [bind]. eauto.
  - destruct (str_eqb (Literal (parser.curToken p)) (lit "#"));
      cbn [bind]; eauto.
Qed.

Lemma parseParagraph_total :
  forall fuel p,
    spec.parser_wf p -> length (lexer.input (parser.l p)) + 2 < fuel ->
    exists n, parser.parseParagraph fuel p = Ok n.
Proof.
  intros fuel p (_ & (Hlen & _) & _) Hf. unfold parser.parseParagraph.
  unfold parser.parseInlineElements.
  destruct (proj1 (inline_total fuel) (Literal (parser.curToken p)) 0)
    as (inline & ->); [lia|].
  cbn [bind]. eauto.
Qed.

Lemma parseBlock_total :
  forall fuel p,
    spec.parser_wf p -> length (lexer.input (parser.l p)) + 2 < fuel ->
    Typ (parser.curToken p) = BLOCK_BEGIN ->
    spec.returns (parser.parseBlock fuel p)
                 (fun r => spec.parser_step p (snd r)).
Proof.
  intros fuel p Hwf Hf Htyp. unfold parser.parseBlock. cbv zeta.
  assert (Hne : Typ (parser.curToken p) <> EOF)
    by (rewrite Htyp; discriminate).
  pose proof Hwf as (Hl & (Hlen & Hpre) & Hpk).
  specialize (Hpre Htyp).
  rewrite (Index_prefix _ _ Hpre).
  change ((0 + 8 <? 0)%Z) with false. cbv iota.
  change (Z.to_nat (0 + 8)) with 8.
  apply HasPrefix_length in Hpre. rewrite ToUpper_length in Hpre.
  simpl in Hpre.
  rewrite sliceFrom_total by lia. cbn [bind].
  set (parts := Fields (skipn 8 (Literal (parser.curToken p)))).
  assert (Htypok : exists typ,
             (if 0 <? length parts
              then part0 <- parser.index parts 0 ;; Ok (ToUpper part0)
              else Ok []) = Ok typ).
  { destruct (0 <? length parts) eqn:E; [|eauto].
    apply Nat.ltb_lt in E.
    destruct (index_total _ parts 0 E) as (part0 & ->). cbn [bind]. eauto. }
  destruct Htypok as (typ & ->). cbn [bind].
  assert (Hlang : exists language,
             (if 1 <? length parts then parser.index parts 1 else Ok [])
             = Ok language).
  { destruct (1 <? length parts) eqn:E; [|eauto].
    apply Nat.ltb_lt in E. apply index_total. exact E. }
  destruct Hlang as (language & ->). cbn [bind].
  eapply returns_bind.
  - apply (nextToken_advance fuel p Hwf); [lia|exact Hne].
  - cbv beta. intros p1 (Hle & Hm & _).
    pose proof (pmeasure_bound p1 (proj1 Hle)) as Hb.
    assert (Hi : lexer.input (parser.l p1) = lexer.input (parser.l p))
      by apply Hle.
    eapply returns_bind.
    + apply (parseBlock_loop_total fuel fuel p1); [apply Hle| |];
        rewrite ?Hi in *; lia.
    + cbv beta. intros [lines p2] Hle2. cbn [snd] in Hle2.
      apply returns_Ok. cbn [snd]. split.
      * exact (parser_le_trans _ _ _ Hle Hle2).
      * left. destruct Hle2 as (_ & _ & Hm2). lia.
Qed.

Lemma parseHeadline_total :
  forall fuel p,
    spec.parser_wf p -> length (lexer.input (parser.l p)) + 2 < fuel ->
    Typ (parser.curToken p) <> EOF ->
    spec.returns (parser.parseHeadline fuel p)
                 (fun r => spec.parser_step p (snd r)).
Proof.
  intros fuel p Hwf Hf Hne. unfold parser.parseHeadline. cbv zeta.
  destruct (parser.peekTokenIs p TEXT).
  2:{ apply returns_Ok. split; [apply parser_le_refl; exact Hwf|right; exact Hne]. }
  eapply returns_bind.
  - apply (nextToken_advance fuel p Hwf); [lia|exact Hne].
  - cbv beta. intros p1 (Hle & Hm & _).
    set (text0 := TrimSpace (Literal (parser.curToken p1))).
    assert (Htags : exists r,
               match parser.tagsRegex text0 with
               | Some (matchLen, tagStr) =>
                   t <- sliceTo text0 (length text0 - matchLen) ;;
                   Ok (Split tagStr ":", TrimSpace t)
               | None => Ok ([], text0)
               end = Ok r).
    { destruct (parser.tagsRegex text0) as [[matchLen tagStr]|]; [|eauto].
      unfold sliceTo. rewrite slice_total by lia. cbn [bind]. eauto. }
    destruct Htags as ([tags text1] & ->). cbn [bind].
    assert (Hkw : exists r,
               (if HasPrefix text1 (lit "TODO ") then
                  t <- sliceFrom text1 5 ;; Ok (lit "TODO", TrimSpace t)
                else if HasPrefix text1 (lit "DONE ") then
                  t <- sliceFrom text1 5 ;; Ok (lit "DONE", TrimSpace t)
                else if str_eqb text1 (lit "TODO") then Ok (lit "TODO", [])
                else if str_eqb text1 (lit "DONE") then Ok (lit "DONE", [])
                else Ok ([], text1)) = Ok r).
    { destruct (HasPrefix text1 (lit "TODO ")) eqn:E1.
      - apply HasPrefix_length in E1. simpl in E1.
        rewrite sliceFrom_total by lia. cbn [bind]. eauto.
      - destruct (HasPrefix text1 (lit "DONE ")) eqn:E2.
        + apply HasPrefix_length in E2. simpl in E2.
          rewrite sliceFrom_total by lia. cbn [bind]. eauto.
        + destruct (str_eqb text1 (lit "TODO")); [eauto|].
          destruct (str_eqb text1 (lit "DONE")); eauto. }
    destruct Hkw as ([keyword text2] & ->). cbn [bind].
    assert (Hpri : exists r,
               match parser.priorityRegex text2 with
               | Some (matchLen, g) =>
                   t <- sliceFrom text2 matchLen ;; Ok (g, TrimSpace t)
               | None => Ok ([], text2)
               end = Ok r).
    { destruct (parser.priorityRegex text2) as [[matchLen g]|] eqn:E; [|eauto].
      apply priorityRegex_length in E.
      rewrite sliceFrom_total by lia. cbn [bind]. eauto. }
    destruct Hpri as ([priority text3] & ->). cbn [bind].
    apply returns_Ok. cbn [snd]. split; [exact Hle|left; exact Hm].
Qed.

Lemma parseNode_total :
  forall fuel p,
    spec.parser_wf p -> length (lexer.input (parser.l p)) + 2 < fuel ->
    Typ (parser.curToken p) <> EOF ->
    spec.returns (parser.parseNode fuel p)
                 (fun r => spec.parser_step p (snd r)).
Proof.
  intros fuel p Hwf Hf Hne. unfold parser.parseNode.
  assert (Hrefl : spec.parser_step p p).
  { split; [apply parser_le_refl; exact Hwf|right; exact Hne]. }
  assert (Hwrap : forall (A : Type) (m : result (A * parser.Parser))
                         (f : A -> parser.Parsed),
             spec.returns m (fun r => spec.parser_step p (snd r)) ->
             spec.returns ('(x, p0) <- m ;; Ok (f x, p0))
                          (fun r => spec.parser_step p (snd r))).
  { intros A m f Hm. eapply returns_bind; [exact Hm|].
    cbv beta. intros [x p0] Hs. apply returns_Ok. exact Hs. }
  destruct (Typ (parser.curToken p)) eqn:E;
    try (apply returns_Ok; exact Hrefl);
    try (apply (Hwrap _ _ parser.NewNode));
    try (apply (Hwrap _ _ parser.NewHeadline));
    try (apply parseHeadline_total; [exact Hwf|exact Hf|congruence]);
    try (apply parseKeyword_total; [exact Hwf|congruence]);
    try (apply parseBlock_total; assumption);
    try (apply parseDrawer_total; [exact Hwf|exact Hf|congruence]);
    try (apply parseList_total; [exact Hwf|exact Hf|congruence]);
    try (apply parseTable_total; [exact Hwf|exact Hf|congruence]).
  - destruct (parseParagraph_total fuel p Hwf Hf) as (n & ->). cbn [bind].
    apply returns_Ok. exact Hrefl.
  - destruct (parseComment_total p) as (n & ->). cbn [bind].
    apply returns_Ok. exact Hrefl.
Qed.

Lemma ParseDocument_loop_total :
  forall fuel n p st,
    spec.parser_wf p -> length (lexer.input (parser.l p)) + 2 < fuel ->
    spec.pmeasure p < n ->
    exists st' p', parser.ParseDocument_loop fuel n p st = Ok (st', p').
Proof.
  intros fuel n. induction n as [|n IH]; intros p st Hwf Hf Hn; [lia|].
  cbn [parser.ParseDocument_loop].
  destruct (parser.curTokenIs p EOF) eqn:E; [eauto|].
  apply curTokenIs_false in E.
  unfold parser.checkContext.
  destruct (context.poll (parser.ctx p)) as [done c].
  destruct done; [eauto|].
  set (p0 := parser.mkParser (parser.l p) (parser.curToken p)
                             (parser.peekToken p) (parser.errors p) c).
  assert (Hwf0 : spec.parser_wf p0) by exact Hwf.
  assert (Hm0 : spec.pmeasure p0 = spec.pmeasure p) by reflexivity.
  destruct (lexer.Err (parser.l p0)); [eauto|].
  destruct (parseNode_total fuel p0 Hwf0 Hf E) as ([node p1] & -> & Hstep).
  cbn [bind]. cbn [snd] in Hstep. destruct Hstep as (Hle & Hpr).
  assert (Hi : lexer.input (parser.l p1) = lexer.input (parser.l p))
    by apply Hle.
  destruct (nextToken_returns fuel p1 (proj1 Hle)) as (p2 & -> & Hle2 & Hm2 & _).
  { rewrite Hi. lia. }
  cbn [bind]. apply IH.
  - apply Hle2.
  - destruct Hle2 as (_ & -> & _). rewrite Hi. exact Hf.
  - destruct Hle as (_ & _ & Hm1). destruct Hpr as [Hpr|Hpr]; [lia|].
    rewrite (tokWeight_neq _ Hpr) in Hm2. lia.
Qed.

Lemma headPtrs_In :
  forall rs h, In (parser.HeadlinePtr h) rs -> In h (spec.headPtrs rs).
Proof.
  induction rs as [|r rs IH]; intros h H; [contradiction|].
  destruct H as [-> | H].
  - left. reflexivity.
  - destruct r; simpl; [right|]; apply IH; exact H.
Qed.

(** In the store [ParseDocument] leaves, the headlines among the children of
    a headline come after it, so following the pointers ends. *)
Lemma resolve_total :
  forall st,
    spec.docInv st ->
    forall fuel r,
      (forall h, r = parser.HeadlinePtr h ->
                 h < length (parser.heads st) /\
                 length (parser.heads st) <= fuel + h) ->
      exists t, parser.resolve fuel (parser.heads st) r = Ok t.
Proof.
  intros st Hinv fuel. induction fuel as [|f IH]; intros r Hr.
  - destruct r as [h|n]; [|simpl; eauto].
    specialize (Hr h eq_refl). lia.
  - destruct r as [h|n]; [|simpl; eauto].
    specialize (Hr h eq_refl). cbn [parser.resolve].
    destruct (mapM_total _ _ (parser.resolve f (parser.heads st))
                (parser.hChildren (nth h (parser.heads st) parser.nilHeadline)))
      as (children & ->).
    { intros x Hx. apply IH. intros h' ->.
      apply headPtrs_In in Hx.
      pose proof (spec.dinv_children Hinv h) as Hch.
      unfold parser.headline in Hch. rewrite Hch in Hx.
      apply nestedUnder_In in Hx. destruct Hx as (Hn & Hns).
      apply nearestSmaller_lt in Hns. lia. }
    cbn [bind]. eauto.
Qed.

Lemma document_total :
  forall st, spec.docInv st -> exists doc, parser.document st = Ok doc.
Proof.
  intros st Hinv. unfold parser.document.
  destruct (mapM_total _ _
              (parser.resolve (length (parser.heads st)) (parser.heads st))
              (parser.rootChildren st)) as (children & ->).
  { intros x Hx. apply (resolve_total st Hinv). intros h ->.
    apply headPtrs_In in Hx. rewrite (spec.dinv_root Hinv) in Hx.
    apply nestedUnder_In in Hx. lia. }
  cbn [bind]. eauto.
Qed.

Lemma docInv_empty : spec.docInv (parser.mkDocState [] [] []).
Proof.
  constructor; simpl.
  - split; [reflexivity|exact I].
  - intros j. unfold parser.headline. simpl. destruct j; reflexivity.
  - reflexivity.
Qed.

Lemma ParseDocument_total :
  forall fuel p,
    spec.parser_wf p -> length (lexer.input (parser.l p)) + 2 < fuel ->
    exists doc p', parser.ParseDocument fuel p = Ok (doc, p').
Proof.
  intros fuel p Hwf Hf. unfold parser.ParseDocument, parser.ParseDocument_store.
  pose proof (pmeasure_bound p Hwf) as Hb.
  destruct (ParseDocument_loop_total fuel fuel p (parser.mkDocState [] [] [])
                                     Hwf Hf) as (st & p' & E); [lia|].
  rewrite E. cbn [bind].
  pose proof (ParseDocument_loop_inv _ _ _ _ _ _ docInv_empty E) as Hinv.
  destruct (document_total st Hinv) as (doc & ->). cbn [bind]. eauto.
Qed.

Lemma parser_New_total :
  forall fuel l opts,
    spec.lexer_wf l -> length (lexer.input l) < fuel ->
    exists p, parser.New fuel l opts = Ok p /\ spec.parser_wf p /\
              lexer.input (parser.l p) = lexer.input l.
Proof.
  intros fuel l opts Hwf Hf. unfold parser.New.
  set (p0 := fold_left parser.applyOption opts
               (parser.mkParser l parser.zeroToken parser.zeroToken []
                                context.Background)).
  destruct (parser_options_keep opts
              (parser.mkParser l parser.zeroToken parser.zeroToken []
                               context.Background)) as (Hl & Hc & Hp & _).
  fold p0 in Hl, Hc, Hp. simpl in Hl, Hc, Hp.
  set (p1 := match lexer.Err l with
             | Some e => parser.mkParser (parser.l p0) (parser.curToken p0)
                           (parser.peekToken p0)
                           (parser.errors p0 ++ [parser.DiagErr e])
                           (parser.ctx p0)
             | None => p0
             end).
  assert (H1 : parser.l p1 = l /\ parser.curToken p1 = parser.zeroToken /\
               parser.peekToken p1 = parser.zeroToken).
  { unfold p1. destruct (lexer.Err l); simpl; auto. }
  destruct H1 as (Hl1 & Hc1 & Hp1).
  assert (Hzero : forall n, spec.tok_ok n parser.zeroToken).
  { intros n. split; [simpl; lia|discriminate]. }
  assert (Hwf1 : spec.parser_wf p1).
  { unfold spec.parser_wf. rewrite Hl1, Hc1, Hp1. splits; auto. }
  destruct (nextToken_returns fuel p1 Hwf1) as (p2 & -> & Hle2 & _).
  { rewrite Hl1. exact Hf. }
  cbn [bind].
  destruct (nextToken_returns fuel p2 (proj1 Hle2)) as (p3 & -> & Hle3 & _).
  { destruct Hle2 as (_ & -> & _). rewrite Hl1. exact Hf. }
  exists p3. splits; [reflexivity|apply Hle3|].
  destruct Hle3 as (_ & -> & _). destruct Hle2 as (_ & -> & _).
  rewrite Hl1. reflexivity.
Qed.

Lemma Parse_total :
  forall fuel input lopts popts,
    length input + 2 < fuel ->
    exists doc errs, parser.Parse fuel input lopts popts = Ok (doc, errs).
Proof.
  intros fuel input lopts popts Hf. unfold parser.Parse.
  destruct (parser_New_total fuel (lexer.New input lopts) popts
                             (New_wf input lopts))
    as (p & -> & Hwf & Hi).
  { rewrite New_input. lia. }
  cbn [bind]. rewrite New_input in Hi.
  destruct (ParseDocument_total fuel p Hwf) as (doc & p' & ->).
  { rewrite Hi. exact Hf. }
  cbn [bind]. eauto.
Qed.

(** ** C2: the parser is total *)

(** C2. For every input and every choice of options, [Parse] (the lexer,
    [parser.New] and [ParseDocument]) returns a document and its diagnostics:
    no slice or index is out of range and every loop ends, once the fuel
    exceeds the length of the input by three. The inline sub-parser returns
    on every text at every depth; its depth cap is ten, and called beyond
    the cap it returns the whole text as one Text element. A text line of
    any number of unmatched stars therefore parses, each star of ["a***"]
    becoming a Text element of its own. *)
Theorem C2_parse_total :
  (forall fuel input lopts popts,
      length input + 2 < fuel ->
      exists doc errs, parser.Parse fuel input lopts popts = Ok (doc, errs)) /\
  (forall fuel text depth,
      length text + 2 <= fuel ->
      exists elements,
        parser.parseInlineElementsRecursive fuel text depth = Ok elements) /\
  parser.maxDepth = 10 /\
  (forall fuel text depth,
      parser.maxDepth < depth ->
      parser.parseInlineElementsRecursive (S fuel) text depth
      = Ok [parser.text text]) /\
  (forall n,
      exists doc errs,
        parser.Parse (n + 4) ("a"%char :: repeat "*"%char n) [] []
        = Ok (doc, errs)) /\
  (exists tok,
      parser.Parse 10 (lit "a***") [] []
      = Ok (ast.mkDocument
              [ast.Paragraph tok (lit "a***")
                 [parser.text (lit "a"); parser.text (lit "*");
                  parser.text (lit "*"); parser.text (lit "*")]], [])).
Proof.
  splits.
  - exact Parse_total.
  - intros fuel text depth H. apply (proj1 (inline_total fuel)). exact H.
  - reflexivity.
  - intros fuel text depth H. rewrite parseInlineElementsRecursive_eq.
    apply Nat.ltb_lt in H. rewrite H. reflexivity.
  - intros n. apply Parse_total. simpl. rewrite repeat_length. lia.
  - eexists. vm_compute. reflexivity.
Qed.

Lemma C2_parse_total_witness :
  exists doc errs,
    parser.Parse 20 (lit "* TODO [#A] *x") [] [] = Ok (doc, errs).
Proof.
  apply (proj1 C2_parse_total 20 (lit "* TODO [#A] *x") [] []).
  simpl. lia.
Defined.

(** ** C10: no horizontal rule *)














(** The rune under the cursor, from the bytes that are left. *)
Lemma wf_ch :
  forall l c s,
    spec.lexer_wf l ->
    skipn (lexer.position l) (lexer.input l) = c :: s -> (byte c < 128)%Z ->
    lexer.ch l = byte c /\ lexer.readPosition l = lexer.position l + 1.
Proof.
  intros l c s (_ & Hsync) Hs Hc. rewrite Hs in Hsync. cbv beta iota zeta in Hsync.
  rewrite (Decode_ascii c s Hc) in Hsync. exact Hsync.
Qed.





(** A TEXT token is parsed as a Paragraph whose content is its literal. *)
Lemma parseNode_text :
  forall fuel p r p',
    Typ (parser.curToken p) = TEXT ->
    parser.parseNode fuel p = Ok (r, p') ->
    p' = p /\
    exists inline,
      r = parser.NewNode (ast.Paragraph (parser.curToken p)
                                        (Literal (parser.curToken p)) inline).
Proof.
  intros fuel p r p' Ht H. unfold parser.parseNode in H. rewrite Ht in H.
  apply bind_Ok in H. destruct H as (nd & Hnd & H). injection H as <- <-.
  unfold parser.parseParagraph in Hnd.
  apply bind_Ok in Hnd. destruct Hnd as (inline & _ & Hnd).
  injection Hnd as <-. split; [reflexivity|]. exists inline. reflexivity.
Qed.

(** * Further properties *)

(** ** Decoding *)

Lemma lor_lower :
  forall a b k,
    (0 <= k)%Z -> (0 <= b)%Z -> (2 ^ k <= a)%Z -> (2 ^ k <= Z.lor a b)%Z.
Proof.
  intros a b k Hk Hb Ha.
  assert (Hpos : (0 < 2 ^ k)%Z) by (apply Z.pow_pos_nonneg; lia).
  assert (Ha0 : (0 < a)%Z) by lia.
  assert (Hl : (0 <= Z.lor a b)%Z) by (apply Z.lor_nonneg; lia).
  assert (Hne : Z.lor a b <> 0%Z).
  { intros E. apply Z.lor_eq_0_iff in E. lia. }
  apply Z.log2_le_pow2; [lia|].
  rewrite Z.log2_lor by lia.
  apply Z.log2_le_pow2 in Ha; lia.
Qed.

Lemma byte_range : forall c, (0 <= byte c < 256)%Z.
Proof.
  intros c. unfold byte. pose proof (nat_ascii_bounded c). lia.
Qed.

Lemma land_mask :
  forall x k, (0 <= k)%Z -> Z.land x (2 ^ k - 1) = (x mod 2 ^ k)%Z.
Proof.
  intros x k Hk. rewrite <- Z.land_ones by exact Hk.
  rewrite Z.ones_equiv, Z.sub_1_r. reflexivity.
Qed.

(** A rune below 128 is decoded from one byte, the byte itself: no longer
    encoding yields one. *)
Lemma Decode_small :
  forall c s,
    (fst (DecodeRuneInString (c :: s)) < 128)%Z ->
    DecodeRuneInString (c :: s) = (byte c, 1) /\ (byte c < 128)%Z.
Proof.
  intros c s H. unfold DecodeRuneInString in *.
  pose proof (byte_range c) as Hc.
  destruct (byte c <? 128)%Z eqn:E0.
  { apply Z.ltb_lt in E0. auto. }
  exfalso. apply Z.ltb_ge in E0.
  destruct (byte c <? 194)%Z eqn:E194; [vm_compute in H; discriminate|].
  apply Z.ltb_ge in E194.
  destruct (byte c <? 224)%Z eqn:E1.
  { destruct s as [|c1 r]; [vm_compute in H; discriminate|].
    destruct (continuation 128 191 c1); [|vm_compute in H; discriminate].
    cbn [fst] in H. apply Z.ltb_lt in E1.
    pose proof (byte_range c1) as Hc1.
    assert (Hb : (2 ^ 7 <= Z.lor (Z.shiftl (Z.land (byte c) 31) 6)
                                 (Z.land (byte c1) 63))%Z).
    { apply lor_lower; [lia| |].
      - apply Z.land_nonneg. lia.
      - rewrite Z.shiftl_mul_pow2 by lia.
        change 31%Z with (2 ^ 5 - 1)%Z. rewrite land_mask by lia.
        change (2 ^ 5)%Z with 32%Z. change (2 ^ 6)%Z with 64%Z.
        change (2 ^ 7)%Z with 128%Z.
        Z.to_euclidean_division_equations. lia. }
    change (2 ^ 7)%Z with 128%Z in Hb. lia. }
  destruct (byte c <? 240)%Z eqn:E2.
  { cbv zeta in H.
    destruct s as [|c1 [|c2 r]]; try (vm_compute in H; discriminate).
    destruct (continuation (if (byte c =? 224)%Z then 160%Z else 128%Z)
                           (if (byte c =? 237)%Z then 159%Z else 191%Z) c1
              && continuation 128 191 c2) eqn:Ec;
      [|vm_compute in H; discriminate].
    cbn [fst] in H. apply andb_true_iff in Ec. destruct Ec as (Ec1 & _).
    unfold continuation in Ec1. apply andb_true_iff in Ec1.
    destruct Ec1 as (Ec1 & Ehi). apply Z.leb_le in Ec1. apply Z.leb_le in Ehi.
    assert (Hhi : (byte c1 <= 191)%Z)
      by (destruct (byte c =? 237)%Z; lia).
    clear Ehi.
    apply Z.ltb_ge in E1. apply Z.ltb_lt in E2.
    pose proof (byte_range c1) as Hc1. pose proof (byte_range c2) as Hc2.
    assert (Hb : (2 ^ 7 <= Z.lor (Z.lor (Z.shiftl (Z.land (byte c) 15) 12)
                                        (Z.shiftl (Z.land (byte c1) 63) 6))
                                 (Z.land (byte c2) 63))%Z).
    { apply lor_lower; [lia|apply Z.land_nonneg; lia|].
      rewrite !Z.shiftl_mul_pow2 by lia.
      change 15%Z with (2 ^ 4 - 1)%Z. change 63%Z with (2 ^ 6 - 1)%Z.
      rewrite !land_mask by lia.
      change (2 ^ 4)%Z with 16%Z. change (2 ^ 6)%Z with 64%Z.
      change (2 ^ 12)%Z with 4096%Z.
      destruct (byte c =? 224)%Z eqn:E224.
      - rewrite Z.lor_comm. apply lor_lower; [lia| |].
        + Z.to_euclidean_division_equations. lia.
        + change (2 ^ 7)%Z with 128%Z.
          Z.to_euclidean_division_equations. lia.
      - apply Z.eqb_neq in E224. apply lor_lower; [lia| |].
        + Z.to_euclidean_division_equations. lia.
        + change (2 ^ 7)%Z with 128%Z.
          Z.to_euclidean_division_equations. lia. }
    change (2 ^ 7)%Z with 128%Z in Hb. lia. }
  destruct (byte c <? 245)%Z eqn:E3; [|vm_compute in H; discriminate].
  cbv zeta in H.
  destruct s as [|c1 [|c2 [|c3 r]]]; try (vm_compute in H; discriminate).
  destruct (continuation (if (byte c =? 240)%Z then 144%Z else 128%Z)
                         (if (byte c =? 244)%Z then 143%Z else 191%Z) c1
            && continuation 128 191 c2 && continuation 128 191 c3) eqn:Ec;
    [|vm_compute in H; discriminate].
  cbn [fst] in H. apply andb_true_iff in Ec. destruct Ec as (Ec & _).
  apply andb_true_iff in Ec. destruct Ec as (Ec1 & _).
  unfold continuation in Ec1. apply andb_true_iff in Ec1.
  destruct Ec1 as (Ec1 & Ehi). apply Z.leb_le in Ec1. apply Z.leb_le in Ehi.
  assert (Hhi : (byte c1 <= 191)%Z)
    by (destruct (byte c =? 244)%Z; lia).
  clear Ehi.
  apply Z.ltb_ge in E2. apply Z.ltb_lt in E3.
  pose proof (byte_range c1) as Hc1. pose proof (byte_range c2) as Hc2.
  pose proof (byte_range c3) as Hc3.
  assert (Hb : (2 ^ 7 <= Z.lor (Z.lor (Z.lor (Z.shiftl (Z.land (byte c) 7) 18)
                                             (Z.shiftl (Z.land (byte c1) 63) 12))
                                      (Z.shiftl (Z.land (byte c2) 63) 6))
                               (Z.land (byte c3) 63))%Z).
  { apply lor_lower; [lia|apply Z.land_nonneg; lia|].
    apply lor_lower; [lia| |].
    { rewrite Z.shiftl_mul_pow2 by lia. change 63%Z with (2 ^ 6 - 1)%Z.
      rewrite land_mask by lia. change (2 ^ 6)%Z with 64%Z.
      Z.to_euclidean_division_equations. lia. }
    rewrite !Z.shiftl_mul_pow2 by lia.
    change 7%Z with (2 ^ 3 - 1)%Z at 2. change 63%Z with (2 ^ 6 - 1)%Z.
    rewrite !land_mask by lia.
    change (2 ^ 3)%Z with 8%Z. change (2 ^ 6)%Z with 64%Z.
    change (2 ^ 12)%Z with 4096%Z. change (2 ^ 18)%Z with 262144%Z.
    destruct (byte c =? 240)%Z eqn:E240.
    - rewrite Z.lor_comm. apply lor_lower; [lia| |].
      + Z.to_euclidean_division_equations. lia.
      + change (2 ^ 7)%Z with 128%Z.
        Z.to_euclidean_division_equations. lia.
    - apply Z.eqb_neq in E240. apply lor_lower; [lia| |].
      + Z.to_euclidean_division_equations. lia.
      + change (2 ^ 7)%Z with 128%Z.
        Z.to_euclidean_division_equations. lia. }
  change (2 ^ 7)%Z with 128%Z in Hb. lia.
Qed.

(** Every byte of an encoded rune is 128 or more, unless the rune is a single
    byte below 128. *)
Lemma Decode_bytes :
  forall c s b,
    In b (firstn (snd (DecodeRuneInString (c :: s))) (c :: s)) ->
    (128 <= byte b)%Z \/
    (DecodeRuneInString (c :: s) = (byte c, 1) /\ b = c /\ (byte c < 128)%Z).
Proof.
  intros c s b H. unfold DecodeRuneInString in *.
  destruct (byte c <? 128)%Z eqn:E0.
  { apply Z.ltb_lt in E0. destruct H as [<- | []]. right. auto. }
  apply Z.ltb_ge in E0. left.
  assert (Hone : In b [c] -> (128 <= byte b)%Z).
  { intros [<- | []]. exact E0. }
  assert (Hcont : forall lo hi x,
             (128 <= lo)%Z -> continuation lo hi x = true ->
             (128 <= byte x)%Z).
  { intros lo hi x Hlo Hx. unfold continuation in Hx.
    apply andb_true_iff in Hx. destruct Hx as (Hx & _).
    apply Z.leb_le in Hx. lia. }
  destruct (byte c <? 194)%Z; [exact (Hone H)|].
  destruct (byte c <? 224)%Z.
  { destruct s as [|c1 r]; [exact (Hone H)|].
    destruct (continuation 128 191 c1) eqn:E1; [|exact (Hone H)].
    destruct H as [<- | [<- | []]]; [exact E0|].
    apply (Hcont 128%Z 191%Z); [lia|exact E1]. }
  destruct (byte c <? 240)%Z.
  { cbv zeta in H.
    destruct s as [|c1 [|c2 r]]; try exact (Hone H).
    destruct (continuation (if (byte c =? 224)%Z then 160%Z else 128%Z)
                           (if (byte c =? 237)%Z then 159%Z else 191%Z) c1
              && continuation 128 191 c2) eqn:Ec; [|exact (Hone H)].
    apply andb_true_iff in Ec. destruct Ec as (Ec1 & Ec2).
    destruct H as [<- | [<- | [<- | []]]]; [exact E0| |].
    - eapply Hcont; [|exact Ec1]. destruct (byte c =? 224)%Z; lia.
    - apply (Hcont 128%Z 191%Z); [lia|exact Ec2]. }
  destruct (byte c <? 245)%Z; [|exact (Hone H)].
  cbv zeta in H.
  destruct s as [|c1 [|c2 [|c3 r]]]; try exact (Hone H).
  destruct (continuation (if (byte c =? 240)%Z then 144%Z else 128%Z)
                         (if (byte c =? 244)%Z then 143%Z else 191%Z) c1
            && continuation 128 191 c2 && continuation 128 191 c3) eqn:Ec;
    [|exact (Hone H)].
  apply andb_true_iff in Ec. destruct Ec as (Ec & Ec3).
  apply andb_true_iff in Ec. destruct Ec as (Ec1 & Ec2).
  destruct H as [<- | [<- | [<- | [<- | []]]]]; [exact E0| | |].
  - eapply Hcont; [|exact Ec1]. destruct (byte c =? 240)%Z; lia.
  - apply (Hcont 128%Z 191%Z); [lia|exact Ec2].
  - apply (Hcont 128%Z 191%Z); [lia|exact Ec3].
Qed.

(** ** What the lexer reads *)

Lemma consumed_refl : forall l, spec.consumed l l [].
Proof.
  intros l. unfold spec.consumed. simpl. splits; auto.
Qed.

Lemma consumed_trans :
  forall l l1 l2 s1 s2,
    spec.consumed l l1 s1 -> spec.consumed l1 l2 s2 ->
    spec.consumed l l2 (s1 ++ s2).
Proof.
  intros l l1 l2 s1 s2 (Hi1 & Hp1 & Hs1) (Hi2 & Hp2 & Hs2).
  unfold spec.consumed. rewrite Hi1 in *. splits.
  - exact Hi2.
  - rewrite Hp2, Hp1, length_app. lia.
  - rewrite Hs1, Hs2, app_assoc. reflexivity.
Qed.

Lemma consumed_slice :
  forall l l' s,
    spec.consumed l l' s -> lexer.position l' <= length (lexer.input l) ->
    slice (lexer.input l) (lexer.position l) (lexer.position l') = Ok s.
Proof.
  intros l l' s (_ & Hp & Hs) Hle. rewrite slice_total by lia.
  rewrite Hs, Hp. replace (lexer.position l + length s - lexer.position l)
    with (length s) by lia.
  rewrite (firstn_app_exact _ s _ (length s) eq_refl). reflexivity.
Qed.

Lemma consumed_same :
  forall l l1 l' s,
    lexer.input l1 = lexer.input l -> lexer.position l1 = lexer.position l ->
    spec.consumed l1 l' s -> spec.consumed l l' s.
Proof.
  intros l l1 l' s Hi Hp H. unfold spec.consumed in *.
  rewrite Hi, Hp in H. exact H.
Qed.

(** [readChar] moves over the bytes of the rune under the cursor. *)
Lemma readChar_consumed :
  forall l,
    spec.lexer_wf l -> lexer.ch l <> 0%Z ->
    exists c s,
      skipn (lexer.position l) (lexer.input l) = c :: s /\
      lexer.ch l = fst (DecodeRuneInString (c :: s)) /\
      spec.consumed l (lexer.readChar l)
        (firstn (snd (DecodeRuneInString (c :: s))) (c :: s)).
Proof.
  intros l (Hpos & Hsync) Hch.
  destruct (skipn (lexer.position l) (lexer.input l)) as [|c s] eqn:Es.
  { destruct Hsync as (H0 & _). contradiction. }
  destruct Hsync as (Hc & Hrp). exists c, s. splits; [reflexivity|exact Hc|].
  pose proof (Decode_width c s) as (Hw1 & Hw2).
  unfold spec.consumed.
  rewrite readChar_input, readChar_position, Hrp. splits.
  - reflexivity.
  - rewrite length_firstn. lia.
  - rewrite Es, Nat.add_comm, <- skipn_skipn, Es.
    symmetry. apply firstn_skipn.
Qed.

Lemma readWhile_consumed :
  forall (cond : Z -> bool) (Q : ascii -> Prop),
    (forall c, cond c = true -> c <> 0%Z) ->
    (forall c s b,
        cond (fst (DecodeRuneInString (c :: s))) = true ->
        In b (firstn (snd (DecodeRuneInString (c :: s))) (c :: s)) -> Q b) ->
    forall fuel l n n' l',
      spec.lexer_wf l ->
      lexer.readWhile cond fuel l n = Ok (n', l') ->
      exists s,
        spec.consumed l l' s /\ spec.lexer_wf l' /\
        cond (lexer.ch l') = false /\ Forall Q s /\
        lexer.line l' = lexer.line l /\ lexer.err l' = lexer.err l /\
        ((forall c, cond c = true -> (c < 128)%Z) -> n' = n + length s).
Proof.
  intros cond Q Hnz HQ fuel.
  induction fuel as [|f IH]; intros l n n' l' Hwf H; [discriminate|].
  cbn [lexer.readWhile] in H.
  destruct (cond (lexer.ch l)) eqn:Ec.
  - destruct (readChar_consumed l Hwf (Hnz _ Ec)) as (c & s & Es & Hch & Hcon).
    destruct (readChar_wf l Hwf (Hnz _ Ec)) as (Hwf1 & _).
    destruct (IH _ _ _ _ Hwf1 H) as (s2 & Hcon2 & Hwf2 & Hc2 & HQ2 & Hl & He & Hn).
    exists (firstn (snd (DecodeRuneInString (c :: s))) (c :: s) ++ s2).
    splits.
    + exact (consumed_trans _ _ _ _ _ Hcon Hcon2).
    + exact Hwf2.
    + exact Hc2.
    + apply Forall_app. split; [|exact HQ2].
      apply Forall_forall. intros b Hb. rewrite Hch in Ec.
      exact (HQ c s b Ec Hb).
    + rewrite Hl. apply readChar_line.
    + rewrite He. apply readChar_err.
    + intros Hascii. rewrite (Hn Hascii), length_app.
      rewrite Hch in Ec. pose proof (Hascii _ Ec) as Hlt.
      destruct (Decode_small c s Hlt) as (Hd & _). rewrite Hd. simpl. lia.
  - injection H as <- <-. exists []. splits; auto.
    apply consumed_refl.
Qed.

(** The bytes an ASCII loop condition accepts. *)
Lemma ascii_cond_bytes :
  forall (cond : Z -> bool),
    (forall c, cond c = true -> (c < 128)%Z) ->
    forall c s b,
      cond (fst (DecodeRuneInString (c :: s))) = true ->
      In b (firstn (snd (DecodeRuneInString (c :: s))) (c :: s)) ->
      cond (byte b) = true.
Proof.
  intros cond Hascii c s b Hc Hb.
  destruct (Decode_small c s (Hascii _ Hc)) as (Hd & _).
  rewrite Hd in Hc, Hb. simpl in Hc, Hb.
  destruct Hb as [<- | []]. exact Hc.
Qed.

Lemma notEOL_bytes :
  forall c s b,
    lexer.notEOL (fst (DecodeRuneInString (c :: s))) = true ->
    In b (firstn (snd (DecodeRuneInString (c :: s))) (c :: s)) ->
    spec.isEOLByte b = false.
Proof.
  intros c s b Hc Hb. unfold spec.isEOLByte.
  destruct (Decode_bytes c s b Hb) as [Hhi | (Hd & -> & _)].
  - apply orb_false_iff. split; apply Z.eqb_neq; vm_compute (rune LF); lia.
  - rewrite Hd in Hc. cbn [fst] in Hc. unfold lexer.notEOL in Hc.
    apply andb_true_iff in Hc. destruct Hc as (H1 & H2).
    apply negb_true_iff in H1, H2. rewrite H1, H2. reflexivity.
Qed.

Lemma notEOL_isEOL :
  forall c, lexer.notEOL c = false -> lexer.isEOL c = true.
Proof.
  intros c H. unfold lexer.notEOL in H. unfold lexer.isEOL.
  destruct (c =? rune LF)%Z; [reflexivity|].
  destruct (c =? 0)%Z; [reflexivity|discriminate].
Qed.

(** The tail of every line reader: from [l], reached from [l0] over [s0],
    to the end of the line. *)
Lemma restOfLine_consumed :
  forall fuel l0 l s0 literal l',
    spec.lexer_wf l -> spec.consumed l0 l s0 ->
    Forall (fun b => spec.isEOLByte b = false) s0 ->
    lexer.restOfLine fuel (lexer.position l0) l = Ok (literal, l') ->
    spec.consumed l0 l' literal /\ spec.lexer_wf l' /\
    lexer.isEOL (lexer.ch l') = true /\
    Forall (fun b => spec.isEOLByte b = false) literal /\
    lexer.line l' = lexer.line l /\ lexer.err l' = lexer.err l.
Proof.
  intros fuel l0 l s0 literal l' Hwf Hcon0 Hs0 H. unfold lexer.restOfLine in H.
  apply bind_Ok in H. destruct H as ([n1 l1] & Hrw & H).
  apply bind_Ok in H. destruct H as (lit0 & Hsl & H).
  injection H as <- <-.
  destruct (readWhile_consumed lexer.notEOL
              (fun b => spec.isEOLByte b = false)
              notEOL_nonzero notEOL_bytes _ _ _ _ _ Hwf Hrw)
    as (s & Hcon & Hwf1 & Hc & HQ & Hl & He & _).
  pose proof (consumed_trans _ _ _ _ _ Hcon0 Hcon) as Hall.
  assert (Hlit : lit0 = s0 ++ s).
  { destruct Hcon as (Hi & _). destruct Hcon0 as (Hi0 & _).
    rewrite Hi, Hi0 in Hsl.
    rewrite (consumed_slice _ _ _ Hall) in Hsl.
    - injection Hsl as <-. reflexivity.
    - destruct Hwf1 as (Hle & _). destruct Hall as (Hia & _).
      rewrite Hia in Hle. exact Hle. }
  subst lit0. splits; auto.
  - apply notEOL_isEOL. exact Hc.
  - apply Forall_app. split; assumption.
Qed.

Lemma restOfLine_lineToken :
  forall fuel l0 l s0 literal l' typ,
    spec.lexer_wf l -> spec.consumed l0 l s0 ->
    Forall (fun b => spec.isEOLByte b = false) s0 ->
    lexer.line l = lexer.line l0 ->
    lexer.restOfLine fuel (lexer.position l0) l = Ok (literal, l') ->
    spec.producible typ = true -> typ <> NEWLINE -> typ <> EOF ->
    spec.lineToken l0 (mkToken typ literal (lexer.line l0) (lexer.column l0)) l'
    /\ lexer.isEOL (lexer.ch l') = true /\ lexer.err l' = lexer.err l.
Proof.
  intros fuel l0 l s0 literal l' typ Hwf Hcon Hs0 Hline H Hp Hn He.
  destruct (restOfLine_consumed _ _ _ _ _ _ Hwf Hcon Hs0 H)
    as (Hc & Hwf' & Heol & HQ & Hl & Herr).
  unfold spec.lineToken. cbn [Literal Typ Line Column].
  splits; auto. congruence.
Qed.

Ltac line_reader H Hwf :=
  apply bind_Ok in H; destruct H as ([literal l1] & Hrest & H);
  cbv beta iota zeta in H;
  repeat match type of H with
         | (if ?b then _ else _) = Ok _ => destruct b
         end;
  injection H as <- <-;
  (apply (restOfLine_lineToken _ _ _ [] _ _ _ Hwf (consumed_refl _)
            (Forall_nil _) eq_refl Hrest);
   [reflexivity|discriminate|discriminate]).

Lemma readOrgDirective_lineToken :
  forall fuel l tok l',
    spec.lexer_wf l -> lexer.readOrgDirective fuel l = Ok (tok, l') ->
    spec.lineToken l tok l' /\ lexer.isEOL (lexer.ch l') = true
    /\ lexer.err l' = lexer.err l.
Proof.
  intros fuel l tok l' Hwf H. unfold lexer.readOrgDirective in H.
  line_reader H Hwf.
Qed.

Lemma readComment_lineToken :
  forall fuel l tok l',
    spec.lexer_wf l -> lexer.readComment fuel l = Ok (tok, l') ->
    spec.lineToken l tok l' /\ lexer.isEOL (lexer.ch l') = true
    /\ lexer.err l' = lexer.err l.
Proof.
  intros fuel l tok l' Hwf H. unfold lexer.readComment in H.
  line_reader H Hwf.
Qed.

Lemma readDrawerOrProperty_lineToken :
  forall fuel l tok l',
    spec.lexer_wf l -> lexer.readDrawerOrProperty fuel l = Ok (tok, l') ->
    spec.lineToken l tok l' /\ lexer.isEOL (lexer.ch l') = true
    /\ lexer.err l' = lexer.err l.
Proof.
  intros fuel l tok l' Hwf H. unfold lexer.readDrawerOrProperty in H.
  line_reader H Hwf.
Qed.

Lemma readListItem_lineToken :
  forall fuel l tok l',
    spec.lexer_wf l -> lexer.readListItem fuel l = Ok (tok, l') ->
    spec.lineToken l tok l' /\ lexer.isEOL (lexer.ch l') = true
    /\ lexer.err l' = lexer.err l.
Proof.
  intros fuel l tok l' Hwf H. unfold lexer.readListItem in H.
  line_reader H Hwf.
Qed.

Lemma readTableRow_lineToken :
  forall fuel l tok l',
    spec.lexer_wf l -> lexer.readTableRow fuel l = Ok (tok, l') ->
    spec.lineToken l tok l' /\ lexer.isEOL (lexer.ch l') = true
    /\ lexer.err l' = lexer.err l.
Proof.
  intros fuel l tok l' Hwf H. unfold lexer.readTableRow in H.
  line_reader H Hwf.
Qed.

Lemma readTextLine_lineToken :
  forall fuel l tok l',
    spec.lexer_wf l -> lexer.readTextLine fuel l = Ok (tok, l') ->
    spec.lineToken l tok l' /\ lexer.isEOL (lexer.ch l') = true
    /\ lexer.err l' = lexer.err l.
Proof.
  intros fuel l tok l' Hwf H. unfold lexer.readTextLine in H.
  line_reader H Hwf.
Qed.

(** A loop of the lexer over single bytes that end no line. *)
Lemma readWhile_ascii :
  forall (cond : Z -> bool),
    (forall c, cond c = true -> (0 < c < 128)%Z /\ c <> rune LF) ->
    forall fuel l n n' l',
      spec.lexer_wf l ->
      lexer.readWhile cond fuel l n = Ok (n', l') ->
      exists s,
        spec.consumed l l' s /\ spec.lexer_wf l' /\
        cond (lexer.ch l') = false /\
        Forall (fun b => cond (byte b) = true) s /\
        Forall (fun b => spec.isEOLByte b = false) s /\
        lexer.line l' = lexer.line l /\ lexer.err l' = lexer.err l /\
        n' = n + length s.
Proof.
  intros cond Hc fuel l n n' l' Hwf H.
  assert (Hnz : forall c, cond c = true -> c <> 0%Z).
  { intros c E. destruct (Hc c E). lia. }
  assert (Hlt : forall c, cond c = true -> (c < 128)%Z).
  { intros c E. destruct (Hc c E). lia. }
  destruct (readWhile_consumed cond (fun b => cond (byte b) = true) Hnz
              (ascii_cond_bytes cond Hlt) _ _ _ _ _ Hwf H)
    as (s & Hcon & Hwf' & Hf & HQ & Hl & He & Hn).
  exists s. splits; auto.
  eapply Forall_impl; [|exact HQ]. cbv beta. intros b Hb.
  destruct (Hc _ Hb) as (Hr & Hlf). unfold spec.isEOLByte.
  apply orb_false_iff. split; apply Z.eqb_neq; [exact Hlf|lia].
Qed.

Lemma eqb_rune_plain :
  forall (a : ascii),
    (0 < byte a < 128)%Z -> byte a <> rune LF ->
    forall c, (c =? rune a)%Z = true -> (0 < c < 128)%Z /\ c <> rune LF.
Proof.
  intros a Ha Hlf c H. apply Z.eqb_eq in H. subst c. unfold rune. auto.
Qed.

Lemma isDigitRune_plain :
  forall c, lexer.isDigitRune c = true -> (0 < c < 128)%Z /\ c <> rune LF.
Proof.
  intros c H. unfold lexer.isDigitRune in H. apply andb_true_iff in H.
  destruct H as (H1 & H2). apply Z.leb_le in H1, H2.
  vm_compute (rune "0") in H1. vm_compute (rune "9") in H2.
  vm_compute (rune LF). lia.
Qed.

Lemma isBlank_plain :
  forall c, ((c =? rune " ")%Z || (c =? 9)%Z) = true ->
            (0 < c < 128)%Z /\ c <> rune LF.
Proof.
  intros c H. apply orb_true_iff in H.
  destruct H as [H|H]; apply Z.eqb_eq in H; subst c; vm_compute; splits;
    congruence.
Qed.

(** [readChar] over a byte below 128. *)
Lemma readChar_ascii :
  forall l,
    spec.lexer_wf l -> lexer.ch l <> 0%Z -> (lexer.ch l < 128)%Z ->
    exists c,
      byte c = lexer.ch l /\ spec.consumed l (lexer.readChar l) [c] /\
      spec.lexer_wf (lexer.readChar l).
Proof.
  intros l Hwf Hnz Hlt.
  destruct (readChar_consumed l Hwf Hnz) as (c & s & _ & Hch & Hcon).
  rewrite Hch in Hlt. destruct (Decode_small c s Hlt) as (Hd & _).
  rewrite Hd in Hch, Hcon. simpl in Hch, Hcon.
  exists c. splits; [symmetry; exact Hch|exact Hcon|].
  apply readChar_wf; assumption.
Qed.

Lemma readToEndOfLine_loop_consumed :
  forall fuel l charCount l',
    spec.lexer_wf l ->
    lexer.readToEndOfLine_loop fuel l charCount = Ok l' ->
    exists s,
      spec.consumed l l' s /\ spec.lexer_wf l' /\
      Forall (fun b => spec.isEOLByte b = false) s /\
      lexer.line l' = lexer.line l.
Proof.
  induction fuel as [|f IH]; intros l cc l' Hwf H; [discriminate|].
  cbn [lexer.readToEndOfLine_loop] in H.
  destruct (lexer.notEOL (lexer.ch l)) eqn:Ec.
  2:{ injection H as <-. exists []. splits; auto. apply consumed_refl. }
  cbv zeta in H. destruct (lexer.maxLineLength l <? cc + 1)%Z.
  { injection H as <-. exists []. splits; auto. exact (consumed_refl l). }
  destruct (readChar_consumed l Hwf (notEOL_nonzero _ Ec))
    as (c & s & _ & Hch & Hcon).
  destruct (readChar_wf l Hwf (notEOL_nonzero _ Ec)) as (Hwf1 & _).
  destruct (IH _ _ _ Hwf1 H) as (s2 & Hcon2 & Hwf2 & HQ & Hl).
  exists (firstn (snd (DecodeRuneInString (c :: s))) (c :: s) ++ s2). splits.
  - exact (consumed_trans _ _ _ _ _ Hcon Hcon2).
  - exact Hwf2.
  - apply Forall_app. split; [|exact HQ]. apply Forall_forall. intros b Hb.
    rewrite Hch in Ec. exact (notEOL_bytes c s b Ec Hb).
  - rewrite Hl. apply readChar_line.
Qed.

Lemma slice_of_consumed :
  forall l l' s x,
    spec.consumed l l' s -> spec.lexer_wf l' ->
    slice (lexer.input l') (lexer.position l) (lexer.position l') = Ok x ->
    x = s.
Proof.
  intros l l' s x Hcon Hwf H. pose proof Hcon as (Hi & _).
  rewrite Hi in H. rewrite (consumed_slice _ _ _ Hcon) in H.
  - injection H as <-. reflexivity.
  - destruct Hwf as (Hle & _). rewrite Hi in Hle. exact Hle.
Qed.

Lemma lineToken_intro :
  forall l l' s typ,
    spec.consumed l l' s -> spec.lexer_wf l' ->
    Forall (fun b => spec.isEOLByte b = false) s ->
    lexer.line l' = lexer.line l ->
    spec.producible typ = true -> typ <> NEWLINE -> typ <> EOF ->
    spec.lineToken l (mkToken typ s (lexer.line l) (lexer.column l)) l'.
Proof.
  intros. unfold spec.lineToken. cbn [Literal Typ Line Column]. splits; auto.
Qed.

Lemma readDashLine_lineToken :
  forall fuel l tok l',
    spec.lexer_wf l -> lexer.readDashLine fuel l = Ok (tok, l') ->
    spec.lineToken l tok l' /\ lexer.isEOL (lexer.ch l') = true
    /\ lexer.err l' = lexer.err l.
Proof.
  intros fuel l tok l' Hwf H. unfold lexer.readDashLine in H.
  apply bind_Ok in H. destruct H as ([dashCount l1] & Hrw & H).
  destruct (readWhile_ascii _
              (eqb_rune_plain "-" ltac:(vm_compute; split; reflexivity)
                              ltac:(vm_compute; discriminate))
              _ _ _ _ _ Hwf Hrw)
    as (s1 & Hcon & Hwf1 & _ & _ & HQ & Hl & He & _).
  cbv beta iota zeta in H.
  destruct ((5 <=? dashCount) && lexer.isEOL (lexer.ch l1)) eqn:E5.
  - apply bind_Ok in H. destruct H as (literal & Hsl & H).
    injection H as <- <-. apply andb_true_iff in E5.
    rewrite (slice_of_consumed _ _ _ _ Hcon Hwf1 Hsl).
    splits; [|apply E5|exact He].
    apply lineToken_intro; auto; discriminate.
  - destruct ((dashCount =? 1) && (lexer.ch l1 =? rune " ")%Z);
      apply bind_Ok in H; destruct H as ([literal l2] & Hrest & H);
      injection H as <- <-;
      match goal with
      | |- spec.lineToken _ (mkToken ?typ _ _ _) _ /\ _ =>
          destruct (restOfLine_lineToken _ _ _ _ _ _ typ Hwf1 Hcon HQ Hl Hrest
                      eq_refl ltac:(discriminate) ltac:(discriminate))
            as (A & B & C)
      end; splits; auto; congruence.
Qed.

Lemma isMarkerEnd_plain :
  forall l, lexer.isMarkerEnd l = true ->
            lexer.ch l <> 0%Z /\ (lexer.ch l < 128)%Z /\
            lexer.ch l <> rune LF.
Proof.
  intros l H. unfold lexer.isMarkerEnd in H. apply andb_true_iff in H.
  destruct H as (H & _). apply orb_true_iff in H.
  destruct H as [H|H]; apply Z.eqb_eq in H; rewrite H; vm_compute; splits;
    congruence.
Qed.

(** The common end of the two ordered-marker readers: from [l1], reached
    from [l] over [s1], after the digits. *)
Lemma orderedTail_lineToken :
  forall fuel l l1 s1 tok l',
    spec.lexer_wf l1 -> spec.consumed l l1 s1 ->
    Forall (fun b => spec.isEOLByte b = false) s1 ->
    lexer.line l1 = lexer.line l ->
    (if lexer.isMarkerEnd l1 then
       let l2 := lexer.readChar l1 in
       '(literal, l3) <- lexer.restOfLine fuel (lexer.position l) l2 ;;
       Ok (mkToken LIST_ITEM literal (lexer.line l) (lexer.column l), l3)
     else
       '(literal, l3) <- lexer.restOfLine fuel (lexer.position l) l1 ;;
       Ok (mkToken TEXT literal (lexer.line l) (lexer.column l), l3))
    = Ok (tok, l') ->
    spec.lineToken l tok l' /\ lexer.isEOL (lexer.ch l') = true
    /\ lexer.err l' = lexer.err l1.
Proof.
  intros fuel l l1 s1 tok l' Hwf1 Hcon HQ Hl H.
  destruct (lexer.isMarkerEnd l1) eqn:Em.
  - destruct (isMarkerEnd_plain l1 Em) as (Hnz & Hlt & Hlf).
    destruct (readChar_ascii l1 Hwf1 Hnz Hlt) as (c & Hc & Hcon2 & Hwf2).
    cbv zeta in H.
    apply bind_Ok in H. destruct H as ([literal l3] & Hrest & H).
    injection H as <- <-.
    destruct (restOfLine_lineToken _ _ _ _ _ _ LIST_ITEM Hwf2
                (consumed_trans _ _ _ _ _ Hcon Hcon2)
                ltac:(apply Forall_app; split; [exact HQ|];
                      constructor; [|constructor];
                      unfold spec.isEOLByte; rewrite Hc;
                      apply orb_false_iff; split; apply Z.eqb_neq; assumption)
                ltac:(rewrite readChar_line; exact Hl) Hrest
                eq_refl ltac:(discriminate) ltac:(discriminate))
      as (A & B & C).
    splits; auto. rewrite C. apply readChar_err.
  - apply bind_Ok in H. destruct H as ([literal l3] & Hrest & H).
    injection H as <- <-.
    exact (restOfLine_lineToken _ _ _ _ _ _ TEXT Hwf1 Hcon HQ Hl Hrest
             eq_refl ltac:(discriminate) ltac:(discriminate)).
Qed.

Lemma tryReadOrderedListItem_lineToken :
  forall fuel l tok l',
    spec.lexer_wf l -> lexer.tryReadOrderedListItem fuel l = Ok (tok, l') ->
    spec.lineToken l tok l' /\ lexer.isEOL (lexer.ch l') = true
    /\ lexer.err l' = lexer.err l.
Proof.
  intros fuel l tok l' Hwf H. unfold lexer.tryReadOrderedListItem in H.
  apply bind_Ok in H. destruct H as ([n1 l1] & Hrw & H).
  destruct (readWhile_ascii _ isDigitRune_plain _ _ _ _ _ Hwf Hrw)
    as (s1 & Hcon & Hwf1 & _ & _ & HQ & Hl & He & _).
  destruct (orderedTail_lineToken fuel l l1 s1 tok l' Hwf1 Hcon HQ Hl H)
    as (A & B & C).
  splits; auto. congruence.
Qed.

Lemma tryReadIndentedListItem_lineToken :
  forall fuel l tok l',
    spec.lexer_wf l -> lexer.tryReadIndentedListItem fuel l = Ok (tok, l') ->
    spec.lineToken l tok l' /\ lexer.isEOL (lexer.ch l') = true
    /\ lexer.err l' = lexer.err l.
Proof.
  intros fuel l tok l' Hwf H. unfold lexer.tryReadIndentedListItem in H.
  apply bind_Ok in H. destruct H as ([n1 l1] & Hrw & H).
  destruct (readWhile_ascii _ isBlank_plain _ _ _ _ _ Hwf Hrw)
    as (s1 & Hcon & Hwf1 & _ & _ & HQ & Hl & He & _).
  cbv beta iota zeta in H.
  destruct (((lexer.ch l1 =? rune "-")%Z || (lexer.ch l1 =? rune "+")%Z)
            && (lexer.peekChar l1 =? rune " ")%Z).
  { apply bind_Ok in H. destruct H as ([literal l2] & Hrest & H).
    injection H as <- <-.
    destruct (restOfLine_lineToken _ _ _ _ _ _ LIST_ITEM Hwf1 Hcon HQ Hl Hrest
                eq_refl ltac:(discriminate) ltac:(discriminate))
      as (A & B & C).
    splits; auto. congruence. }
  destruct (lexer.isDigitRune (lexer.ch l1)).
  - apply bind_Ok in H. destruct H as ([n2 l2] & Hrw2 & H).
    destruct (readWhile_ascii _ isDigitRune_plain _ _ _ _ _ Hwf1 Hrw2)
      as (s2 & Hcon2 & Hwf2 & _ & _ & HQ2 & Hl2 & He2 & _).
    destruct (orderedTail_lineToken fuel l l2 (s1 ++ s2) tok l' Hwf2
                (consumed_trans _ _ _ _ _ Hcon Hcon2)
                ltac:(apply Forall_app; split; assumption)
                ltac:(congruence) H)
      as (A & B & C).
    splits; auto. congruence.
  - apply bind_Ok in H. destruct H as ([literal l2] & Hrest & H).
    injection H as <- <-.
    destruct (restOfLine_lineToken _ _ _ _ _ _ TEXT Hwf1 Hcon HQ Hl Hrest
                eq_refl ltac:(discriminate) ltac:(discriminate))
      as (A & B & C).
    splits; auto. congruence.
Qed.

(** The branch of [NextToken] on a star at the start of a line. *)
Lemma stars_lineToken :
  forall fuel l tok l',
    spec.lexer_wf l ->
    ('(stars, l1) <- lexer.readStars fuel l ;;
     if (lexer.ch l1 =? rune " ")%Z
     then Ok (mkToken STARS stars (lexer.line l) (lexer.column l), l1)
     else
       '(rest, l2) <- lexer.readToEndOfLine fuel l1 ;;
       Ok (mkToken TEXT (stars ++ rest) (lexer.line l) (lexer.column l), l2))
    = Ok (tok, l') ->
    spec.lineToken l tok l' /\
    (Typ tok = STARS ->
     Forall (fun b => b = "*"%char) (Literal tok) /\
     lexer.ch l' = rune " " /\ lexer.err l' = lexer.err l).
Proof.
  intros fuel l tok l' Hwf H.
  apply bind_Ok in H. destruct H as ([stars l1] & Hst & H).
  unfold lexer.readStars in Hst.
  apply bind_Ok in Hst. destruct Hst as ([n1 l1'] & Hrw & Hst).
  apply bind_Ok in Hst. destruct Hst as (s & Hsl & Hst).
  injection Hst as <- <-.
  destruct (readWhile_ascii _
              (eqb_rune_plain "*" ltac:(vm_compute; split; reflexivity)
                              ltac:(vm_compute; discriminate))
              _ _ _ _ _ Hwf Hrw)
    as (s1 & Hcon & Hwf1 & _ & Hstar & HQ & Hl & He & _).
  rewrite (slice_of_consumed _ _ _ _ Hcon Hwf1 Hsl) in *.
  cbv beta iota zeta in H.
  destruct (lexer.ch l1' =? rune " ")%Z eqn:Esp.
  - injection H as <- <-. split.
    + apply lineToken_intro; auto; discriminate.
    + intros _. cbn [Literal]. splits.
      * eapply Forall_impl; [|exact Hstar]. cbv beta. intros b Hb.
        apply Z.eqb_eq in Hb. unfold rune, byte in Hb.
        apply Nat2Z.inj in Hb.
        rewrite <- (ascii_nat_embedding b), Hb. reflexivity.
      * apply Z.eqb_eq. exact Esp.
      * exact He.
  - apply bind_Ok in H. destruct H as ([rest l2] & Hre & H).
    injection H as <- <-. unfold lexer.readToEndOfLine in Hre.
    apply bind_Ok in Hre. destruct Hre as (l2' & Hloop & Hre).
    apply bind_Ok in Hre. destruct Hre as (r & Hsl2 & Hre).
    injection Hre as <- <-.
    destruct (readToEndOfLine_loop_consumed _ _ _ _ Hwf1 Hloop)
      as (s2 & Hcon2 & Hwf2 & HQ2 & Hl2).
    rewrite (slice_of_consumed _ _ _ _ Hcon2 Hwf2 Hsl2).
    split; [|discriminate].
    apply lineToken_intro; auto; try discriminate.
    + exact (consumed_trans _ _ _ _ _ Hcon Hcon2).
    + apply Forall_app. split; assumption.
    + congruence.
Qed.

Lemma lineToken_tokenStep :
  forall l tok l', spec.lineToken l tok l' -> spec.tokenStep l tok l'.
Proof.
  intros l tok l' (Hcon & Hwf & HQ & Hln & Hcol & Hl & Hp & Hn & He).
  unfold spec.tokenStep. splits; auto.
  destruct (Typ tok); try contradiction; split; assumption.
Qed.

Lemma byte_inj : forall a b, byte a = byte b -> a = b.
Proof.
  intros a b H. unfold byte in H. apply Nat2Z.inj in H.
  rewrite <- (ascii_nat_embedding a), <- (ascii_nat_embedding b), H.
  reflexivity.
Qed.

Lemma eof_tokenStep :
  forall l l' line column,
    spec.lexer_wf l -> line = lexer.line l -> column = lexer.column l ->
    lexer.input l' = lexer.input l -> lexer.position l' = lexer.position l ->
    lexer.readPosition l' = lexer.readPosition l -> lexer.ch l' = lexer.ch l ->
    lexer.line l' = lexer.line l ->
    lexer.err l' <> None \/ lexer.ch l = 0%Z ->
    spec.tokenStep l (mkToken EOF [] line column) l'.
Proof.
  intros l l' line column Hwf -> -> Hi Hp Hr Hc Hl Hwhy.
  unfold spec.tokenStep. cbn [Typ Literal Line Column]. splits; auto.
  - unfold spec.lexer_wf. rewrite Hi, Hp, Hr, Hc. exact Hwf.
  - unfold spec.consumed. rewrite Hi, Hp. simpl. splits; auto.
Qed.

Lemma NextToken_tokenStep :
  forall fuel l tok l',
    spec.lexer_wf l -> lexer.NextToken fuel l = Ok (tok, l') ->
    spec.tokenStep l tok l'.
Proof.
  intros fuel l tok l' Hwf H. unfold lexer.NextToken in H. cbv zeta in H.
  destruct (lexer.err l) eqn:Eerr.
  { injection H as <- <-. apply eof_tokenStep; auto.
    left. rewrite Eerr. discriminate. }
  unfold lexer.checkContext in H.
  destruct (context.poll (lexer.ctx l)) as [done c]. destruct done.
  { injection H as <- <-. apply eof_tokenStep; auto. left. discriminate. }
  set (l1 := lexer.set_ctx l c) in H.
  assert (Hwf1 : spec.lexer_wf l1) by exact Hwf.
  assert (Hline : forall t x, spec.lineToken l1 t x -> spec.tokenStep l t x).
  { intros t x Hx. apply lineToken_tokenStep. exact Hx. }
  destruct (lexer.ch l1 =? 0)%Z eqn:E0.
  { injection H as <- <-. apply eof_tokenStep; auto.
    right. apply Z.eqb_eq. exact E0. }
  destruct (lexer.ch l1 =? rune LF)%Z eqn:Elf.
  { injection H as <- <-. apply Z.eqb_eq in Elf.
    set (l2 := lexer.set_line l1 (S (lexer.line l1))).
    assert (Hwf2 : spec.lexer_wf l2) by exact Hwf.
    destruct (readChar_ascii l2 Hwf2) as (b & Hb & Hcon & Hwf3).
    { change (lexer.ch l2) with (lexer.ch l1). rewrite Elf. vm_compute.
      discriminate. }
    { change (lexer.ch l2) with (lexer.ch l1). rewrite Elf. vm_compute.
      reflexivity. }
    change (lexer.ch l2) with (lexer.ch l1) in Hb. rewrite Elf in Hb.
    apply byte_inj in Hb. subst b.
    unfold spec.tokenStep, lexer.newToken. cbn [Typ Literal Line Column].
    splits; auto. rewrite readChar_line. reflexivity. }
  repeat match type of H with
         | (if ?b then _ else _) = Ok _ => destruct b
         end;
    try (apply Hline;
         first [ apply (proj1 (readTextLine_lineToken _ _ _ _ Hwf1 H))
               | apply (proj1 (readOrgDirective_lineToken _ _ _ _ Hwf1 H))
               | apply (proj1 (readComment_lineToken _ _ _ _ Hwf1 H))
               | apply (proj1 (readDrawerOrProperty_lineToken _ _ _ _ Hwf1 H))
               | apply (proj1 (readDashLine_lineToken _ _ _ _ Hwf1 H))
               | apply (proj1 (readListItem_lineToken _ _ _ _ Hwf1 H))
               | apply (proj1 (readTableRow_lineToken _ _ _ _ Hwf1 H))
               | apply (proj1 (stars_lineToken _ _ _ _ Hwf1 H)) ]).
  - apply bind_Ok in H. destruct H as ([tok0 l0] & Htry & H).
    destruct (tryReadIndentedListItem_lineToken _ _ _ _ Hwf1 Htry)
      as (Hlt & _).
    destruct (token.eqb (Typ tok0) ILLEGAL) eqn:Ei.
    + apply token_eqb_true in Ei.
      destruct Hlt as (_ & _ & _ & _ & _ & _ & Hp & _).
      rewrite Ei in Hp. discriminate.
    + injection H as <- <-. apply Hline. exact Hlt.
  - apply bind_Ok in H. destruct H as ([tok0 l0] & Htry & H).
    destruct (tryReadOrderedListItem_lineToken _ _ _ _ Hwf1 Htry)
      as (Hlt & _).
    destruct (token.eqb (Typ tok0) ILLEGAL) eqn:Ei.
    + apply token_eqb_true in Ei.
      destruct Hlt as (_ & _ & _ & _ & _ & _ & Hp & _).
      rewrite Ei in Hp. discriminate.
    + injection H as <- <-. apply Hline. exact Hlt.
Qed.

(** ** The token stream *)

Lemma lexTokens_run :
  forall fuel k l,
    spec.lexer_wf l -> spec.remaining l < fuel ->
    exists toks l',
      spec.lexTokens k fuel l = Ok (toks, l') /\
      spec.tokenRun fuel l toks l' /\ spec.lexer_wf l' /\
      lexer.input l' = lexer.input l /\ length toks = k.
Proof.
  intros fuel k. induction k as [|k IH]; intros l Hwf Hf.
  - exists [], l. simpl. auto.
  - destruct (NextToken_total fuel l Hwf Hf) as (tok & l1 & E & Hstep).
    pose proof (NextToken_tokenStep _ _ _ _ Hwf E) as Hts.
    pose proof Hstep as (Hwf1 & Hi1 & Hle & _).
    destruct (IH l1 Hwf1) as (toks & l' & E' & Hrun & Hwf' & Hi' & Hlen).
    { unfold spec.remaining in *. rewrite Hi1. lia. }
    exists (tok :: toks), l'. cbn [spec.lexTokens]. rewrite E. cbn [bind].
    rewrite E'. cbn [bind]. splits; auto.
    + cbn [spec.tokenRun]. exists l1. auto.
    + congruence.
    + simpl. congruence.
Qed.

Lemma tokenRun_consumed :
  forall fuel toks l l',
    spec.tokenRun fuel l toks l' ->
    spec.consumed l l' (concat (map Literal toks)).
Proof.
  intros fuel toks. induction toks as [|t r IH]; intros l l' H.
  - simpl in H. subst l'. apply consumed_refl.
  - destruct H as (l1 & _ & Hts & _ & Hrun). simpl.
    destruct Hts as (_ & Hcon & _).
    exact (consumed_trans _ _ _ _ _ Hcon (IH _ _ Hrun)).
Qed.

Lemma tokenRun_app :
  forall fuel pre post l l',
    spec.tokenRun fuel l (pre ++ post) l' ->
    exists lm, spec.tokenRun fuel l pre lm /\ spec.tokenRun fuel lm post l'.
Proof.
  intros fuel pre. induction pre as [|t r IH]; intros post l l' H.
  - exists l. split; [reflexivity|exact H].
  - destruct H as (l1 & E & Hts & Hls & Hrun).
    destruct (IH _ _ _ Hrun) as (lm & H1 & H2).
    exists lm. split; [|exact H2]. exists l1. auto.
Qed.

Lemma New_position :
  forall input opts, lexer.position (lexer.New input opts) = 0.
Proof.
  intros input opts. unfold lexer.New. rewrite readChar_position.
  set (l0 := lexer.mkLexer input 0 0 0 0 1 0 context.Background
                           lexer.DefaultMaxInputSize
                           lexer.DefaultMaxLineLength None).
  destruct (lexer_options_keep opts l0) as (_ & _ & Hrp & _).
  destruct (lexer.maxInputSize (fold_left lexer.applyOption opts l0)
            <? Z.of_nat (length input))%Z; simpl; exact Hrp.
Qed.

Lemma lexer_options_line :
  forall opts l,
    lexer.line (fold_left lexer.applyOption opts l) = lexer.line l.
Proof.
  induction opts as [|o opts IH]; intros l; simpl; [reflexivity|].
  rewrite IH. destruct o; reflexivity.
Qed.

Lemma New_line : forall input opts, lexer.line (lexer.New input opts) = 1.
Proof.
  intros input opts. unfold lexer.New. rewrite readChar_line.
  set (l0 := lexer.mkLexer input 0 0 0 0 1 0 context.Background
                           lexer.DefaultMaxInputSize
                           lexer.DefaultMaxLineLength None).
  pose proof (lexer_options_line opts l0) as Hl.
  destruct (lexer.maxInputSize (fold_left lexer.applyOption opts l0)
            <? Z.of_nat (length input))%Z; simpl; exact Hl.
Qed.

(** The token stream of an input: the first [k] tokens of [New input opts]
    exist once the fuel exceeds the length of the input. *)
Lemma New_run :
  forall fuel k input opts,
    length input < fuel ->
    exists toks l',
      spec.lexTokens k fuel (lexer.New input opts) = Ok (toks, l') /\
      spec.tokenRun fuel (lexer.New input opts) toks l' /\
      spec.lexer_wf l' /\ lexer.input l' = input /\ length toks = k.
Proof.
  intros fuel k input opts Hf.
  destruct (lexTokens_run fuel k (lexer.New input opts) (New_wf input opts))
    as (toks & l' & E & Hrun & Hwf & Hi & Hlen).
  { unfold spec.remaining. rewrite New_input. lia. }
  exists toks, l'. rewrite New_input in Hi. auto.
Qed.

Lemma consumed_prefix :
  forall input opts l' s,
    spec.consumed (lexer.New input opts) l' s ->
    s = firstn (lexer.position l') input /\
    input = s ++ skipn (lexer.position l') input.
Proof.
  intros input opts l' s (Hi & Hp & Hs).
  rewrite New_position, New_input in *. simpl in Hs, Hp.
  split; [|exact Hs].
  rewrite Hp. simpl. rewrite Hs at 1.
  rewrite (firstn_app_exact _ s _ (length s) eq_refl). reflexivity.
Qed.

(** X1. The lexer loses and invents nothing: the literal of every token is
    the very bytes [NextToken] moved over, so the literals of the first [k]
    tokens of an input, concatenated, are the prefix of the input that ends
    at the position the lexer has reached. *)
Theorem X1_tokens_tile_input :
  forall fuel k input opts,
    length input < fuel ->
    exists toks l',
      spec.lexTokens k fuel (lexer.New input opts) = Ok (toks, l') /\
      lexer.position l' <= length input /\
      concat (map Literal toks) = firstn (lexer.position l') input /\
      input = concat (map Literal toks) ++ skipn (lexer.position l') input.
Proof.
  intros fuel k input opts Hf.
  destruct (New_run fuel k input opts Hf) as (toks & l' & E & Hrun & Hwf & Hi & _).
  exists toks, l'. split; [exact E|].
  destruct (consumed_prefix _ _ _ _ (tokenRun_consumed _ _ _ _ Hrun))
    as (H1 & H2).
  destruct Hwf as (Hle & _). rewrite Hi in Hle. auto.
Qed.

Lemma X1_tokens_tile_input_witness :
  exists toks l',
    spec.lexTokens 3 20 (lexer.New (unlines ["* A"; "- b"]) []) = Ok (toks, l') /\
    lexer.position l' <= length (unlines ["* A"; "- b"]) /\
    concat (map Literal toks)
    = firstn (lexer.position l') (unlines ["* A"; "- b"]) /\
    unlines ["* A"; "- b"]
    = concat (map Literal toks)
      ++ skipn (lexer.position l') (unlines ["* A"; "- b"]).
Proof.
  apply (X1_tokens_tile_input 20 3 (unlines ["* A"; "- b"]) []).
  vm_compute. lia.
Defined.

Lemma NextToken_stuck :
  forall fuel l tok l',
    spec.stuck l -> lexer.NextToken fuel l = Ok (tok, l') -> Typ tok = EOF.
Proof.
  intros fuel l tok l' Hst H. unfold lexer.NextToken in H. cbv zeta in H.
  destruct (lexer.err l) eqn:Eerr.
  { injection H as <- _. reflexivity. }
  destruct Hst as [Hst|Hst]; [congruence|].
  destruct (lexer.checkContext l) as [cancelled l1] eqn:Ec.
  destruct cancelled.
  { injection H as <- _. reflexivity. }
  destruct (checkContext_same _ _ _ Ec) as (_ & _ & _ & Hch).
  rewrite Hch, Hst in H. change (0 =? 0)%Z with true in H. cbv iota in H.
  injection H as <- _. reflexivity.
Qed.

(** The rune under the cursor is a function of the input and the position. *)
Lemma wf_ch_eq :
  forall l l',
    spec.lexer_wf l -> spec.lexer_wf l' ->
    lexer.input l' = lexer.input l -> lexer.position l' = lexer.position l ->
    lexer.ch l' = lexer.ch l.
Proof.
  intros l l' (_ & H) (_ & H') Hi Hp. rewrite Hi, Hp in H'.
  destruct (skipn (lexer.position l) (lexer.input l)).
  - destruct H as (-> & _). destruct H' as (-> & _). reflexivity.
  - destruct H as (-> & _). destruct H' as (-> & _). reflexivity.
Qed.

Lemma tokenStep_eof_stuck :
  forall l tok l',
    spec.lexer_wf l -> spec.tokenStep l tok l' -> Typ tok = EOF ->
    spec.stuck l' /\ lexer.position l' = lexer.position l.
Proof.
  intros l tok l' Hwf (Hwf' & Hcon & _ & _ & _ & Hm) Ht.
  rewrite Ht in Hm. destruct Hm as (Hlit & _ & Hwhy).
  rewrite Hlit in Hcon. destruct Hcon as (Hi & Hp & _). simpl in Hp.
  split; [|lia]. destruct Hwhy as [Hwhy|Hwhy]; [left; exact Hwhy|].
  right. rewrite <- Hwhy. apply wf_ch_eq; auto. lia.
Qed.

Lemma tokenRun_stuck :
  forall fuel toks l l',
    spec.lexer_wf l -> spec.stuck l -> spec.tokenRun fuel l toks l' ->
    Forall (fun t => Typ t = EOF) toks /\
    lexer.position l' = lexer.position l /\ spec.stuck l'.
Proof.
  intros fuel toks. induction toks as [|t r IH]; intros l l' Hwf Hst H.
  - simpl in H. subst l'. auto.
  - destruct H as (l1 & E & Hts & Hls & Hrun).
    pose proof (NextToken_stuck _ _ _ _ Hst E) as Ht.
    destruct (tokenStep_eof_stuck _ _ _ Hwf Hts Ht) as (Hst1 & Hp1).
    destruct Hls as (Hwf1 & _).
    destruct (IH _ _ Hwf1 Hst1 Hrun) as (A & B & C).
    splits; [constructor; assumption|congruence|exact C].
Qed.

Lemma tokenRun_wf :
  forall fuel toks l l',
    spec.lexer_wf l -> spec.tokenRun fuel l toks l' ->
    spec.lexer_wf l' /\ lexer.input l' = lexer.input l /\
    lexer.position l <= lexer.position l'.
Proof.
  intros fuel toks. induction toks as [|t r IH]; intros l l' Hwf H.
  - simpl in H. subst l'. auto.
  - destruct H as (l1 & _ & _ & (Hwf1 & Hi1 & Hle & _) & Hrun).
    destruct (IH _ _ Hwf1 Hrun) as (A & B & C).
    splits; [exact A|congruence|lia].
Qed.

(** X2. The token stream ends: among the first [length input + 1] tokens
    of an input there is an end-of-input token, and every token after an
    end-of-input token is one too. *)
Theorem X2_token_stream_ends :
  forall fuel k input opts,
    length input < fuel ->
    exists toks l',
      spec.lexTokens k fuel (lexer.New input opts) = Ok (toks, l') /\
      length toks = k /\
      (length input < k -> Exists (fun t => Typ t = EOF) toks) /\
      (forall pre t post,
          toks = pre ++ t :: post -> Typ t = EOF ->
          Forall (fun u => Typ u = EOF) post).
Proof.
  intros fuel k input opts Hf.
  destruct (New_run fuel k input opts Hf)
    as (toks & l' & E & Hrun & Hwf' & Hi & Hlen).
  exists toks, l'. splits; [exact E|exact Hlen| |].
  - intros Hk.
    assert (Hgen : forall toks l l',
               spec.lexer_wf l -> spec.tokenRun fuel l toks l' ->
               spec.remaining l < length toks ->
               Exists (fun t => Typ t = EOF) toks).
    { clear. intros toks. induction toks as [|t r IH]; intros l l' Hwf H Hr.
      - simpl in Hr. lia.
      - destruct H as (l1 & _ & _ & (Hwf1 & Hi1 & _ & Hlt & _) & Hrun).
        destruct (token.TokenType_eq_dec (Typ t) EOF) as [Ht|Ht].
        + left. exact Ht.
        + right. apply (IH l1 l' Hwf1 Hrun). specialize (Hlt Ht).
          destruct Hwf1 as (Hle & _).
          unfold spec.remaining in *. rewrite Hi1 in *. simpl in Hr. lia. }
    apply (Hgen toks _ l' (New_wf input opts) Hrun).
    unfold spec.remaining. rewrite New_input, New_position. lia.
  - intros pre t post -> Ht.
    destruct (tokenRun_app _ _ _ _ _ Hrun) as (lm & Hpre & Hpost).
    destruct (tokenRun_wf _ _ _ _ (New_wf input opts) Hpre) as (Hwfm & _).
    destruct Hpost as (l1 & _ & Hts & (Hwf1 & _) & Hrest).
    destruct (tokenStep_eof_stuck _ _ _ Hwfm Hts Ht) as (Hst & _).
    exact (proj1 (tokenRun_stuck _ _ _ _ Hwf1 Hst Hrest)).
Qed.

Lemma X2_token_stream_ends_witness :
  exists toks l',
    spec.lexTokens 5 20 (lexer.New (lit "a*b") []) = Ok (toks, l') /\
    length toks = 5 /\
    (length (lit "a*b") < 5 -> Exists (fun t => Typ t = EOF) toks) /\
    (forall pre t post,
        toks = pre ++ t :: post -> Typ t = EOF ->
        Forall (fun u => Typ u = EOF) post).
Proof.
  apply (X2_token_stream_ends 20 5 (lit "a*b") []). vm_compute. lia.
Defined.

Lemma tokenRun_err_sticky :
  forall fuel toks l l' e,
    lexer.err l = Some e -> spec.tokenRun fuel l toks l' -> l' = l.
Proof.
  intros fuel toks. induction toks as [|t r IH]; intros l l' e He H.
  - exact H.
  - destruct H as (l1 & E & _ & _ & Hrun).
    rewrite (NextToken_after_error fuel l e He) in E. injection E as _ <-.
    exact (IH _ _ e He Hrun).
Qed.

(** Without a NUL byte in the input, a lexer at a NUL rune is at the end. *)
Lemma wf_end :
  forall l,
    spec.lexer_wf l -> lexer.ch l = 0%Z ->
    Forall (fun b => byte b <> 0%Z) (lexer.input l) ->
    lexer.position l = length (lexer.input l).
Proof.
  intros l (Hle & H) Hch Hnul.
  destruct (skipn (lexer.position l) (lexer.input l)) as [|c s] eqn:Es.
  - apply skipn_nil_length in Es; lia.
  - exfalso. destruct H as (Hc & _). rewrite Hch in Hc.
    destruct (Decode_small c s) as (Hd & _); [rewrite <- Hc; lia|].
    rewrite Hd in Hc. simpl in Hc.
    rewrite Forall_forall in Hnul. apply (Hnul c); [|congruence].
    rewrite <- (firstn_skipn (lexer.position l) (lexer.input l)), Es.
    apply in_or_app. right. left. reflexivity.
Qed.

Lemma tokenRun_complete :
  forall fuel toks l l',
    spec.lexer_wf l -> spec.tokenRun fuel l toks l' ->
    Forall (fun b => byte b <> 0%Z) (lexer.input l) ->
    spec.remaining l < length toks -> lexer.err l' = None ->
    lexer.position l' = length (lexer.input l).
Proof.
  intros fuel toks. induction toks as [|t r IH]; intros l l' Hwf H Hnul Hr He.
  - simpl in Hr. lia.
  - pose proof (tokenRun_wf _ _ _ _ Hwf H) as (Hwf' & Hi' & _).
    destruct H as (l1 & E & Hts & (Hwf1 & Hi1 & Hle & Hlt & _) & Hrun).
    destruct (token.TokenType_eq_dec (Typ t) EOF) as [Ht|Ht].
    + destruct Hts as (_ & _ & _ & _ & _ & Hm). rewrite Ht in Hm.
      destruct Hm as (_ & _ & [Herr|Hch]).
      * exfalso. destruct (lexer.err l1) as [e|] eqn:E1; [|congruence].
        pose proof (tokenRun_err_sticky _ _ _ _ _ E1 Hrun). subst l'.
        congruence.
      * pose proof (wf_end l Hwf Hch Hnul) as Hend.
        pose proof (tokenRun_wf _ _ _ _ Hwf1 Hrun) as (_ & _ & Hle2).
        destruct Hwf' as (Hb & _). rewrite Hi' in Hb. lia.
    + rewrite <- Hi1. apply (IH l1 l' Hwf1 Hrun); [rewrite Hi1; exact Hnul| |exact He].
      specialize (Hlt Ht). destruct Hwf1 as (Hb & _).
      unfold spec.remaining in *. rewrite Hi1 in *. simpl in Hr. lia.
Qed.

(** X3. Lexing is lossless: when the input holds no NUL byte and the lexer
    ends without an error, the literals of its first [length input + 1]
    tokens, concatenated, are the input. *)
Theorem X3_lexing_is_lossless :
  forall fuel input opts,
    length input < fuel ->
    Forall (fun b => byte b <> 0%Z) input ->
    exists toks l',
      spec.lexTokens (S (length input)) fuel (lexer.New input opts)
      = Ok (toks, l') /\
      (lexer.Err l' = None -> concat (map Literal toks) = input).
Proof.
  intros fuel input opts Hf Hnul.
  destruct (New_run fuel (S (length input)) input opts Hf)
    as (toks & l' & E & Hrun & Hwf' & Hi & Hlen).
  exists toks, l'. split; [exact E|]. intros He.
  destruct (consumed_prefix _ _ _ _ (tokenRun_consumed _ _ _ _ Hrun))
    as (H1 & _).
  rewrite H1.
  rewrite (tokenRun_complete _ _ _ _ (New_wf input opts) Hrun).
  - rewrite New_input. apply firstn_all.
  - rewrite New_input. exact Hnul.
  - unfold spec.remaining. rewrite New_input, New_position, Hlen. lia.
  - exact He.
Qed.

Lemma X3_lexing_is_lossless_witness :
  exists toks l',
    spec.lexTokens (S (length (unlines ["* A"; "| b |"]))) 20
                   (lexer.New (unlines ["* A"; "| b |"]) [])
    = Ok (toks, l') /\
    (lexer.Err l' = None ->
     concat (map Literal toks) = unlines ["* A"; "| b |"]).
Proof.
  apply (X3_lexing_is_lossless 20 (unlines ["* A"; "| b |"]) []).
  - vm_compute. lia.
  - vm_compute. repeat constructor; discriminate.
Defined.

Lemma Count_app :
  forall a b c, Count (a ++ b) c = Count a c + Count b c.
Proof.
  intros a b c. unfold Count. rewrite filter_app, length_app. reflexivity.
Qed.

Lemma Count_none :
  forall s c, Forall (fun b => b <> c) s -> Count s c = 0.
Proof.
  intros s c H. unfold Count. induction H as [|b r Hb _ IH]; simpl.
  - reflexivity.
  - destruct (Ascii.eqb c b) eqn:E; [|exact IH].
    apply Ascii.eqb_eq in E. congruence.
Qed.

Lemma isEOLByte_false :
  forall b, spec.isEOLByte b = false -> b <> LF /\ b <> ascii_of_nat 0.
Proof.
  intros b H. unfold spec.isEOLByte in H. apply orb_false_iff in H.
  destruct H as (H1 & H2). apply Z.eqb_neq in H1, H2.
  split; intros ->; [apply H1|apply H2]; reflexivity.
Qed.

Lemma consumed_firstn :
  forall l l' s,
    spec.consumed l l' s ->
    firstn (lexer.position l') (lexer.input l)
    = firstn (lexer.position l) (lexer.input l) ++ s.
Proof.
  intros l l' s (_ & Hp & Hs).
  rewrite <- (firstn_skipn (lexer.position l) (lexer.input l)) at 1.
  rewrite Hs, Hp.
  assert (Hle : lexer.position l <= length (lexer.input l)
                \/ length (lexer.input l) < lexer.position l) by lia.
  destruct Hle as [Hle|Hgt].
  - rewrite firstn_app, length_firstn, Nat.min_l by exact Hle.
    rewrite firstn_all2 by (rewrite length_firstn; lia).
    replace (lexer.position l + length s - lexer.position l)
      with (length s) by lia.
    rewrite (firstn_app_exact _ s _ (length s) eq_refl). reflexivity.
  - assert (Hnil : skipn (lexer.position l) (lexer.input l) = [])
      by (apply skipn_all2; lia).
    rewrite Hnil in Hs. symmetry in Hs. apply app_eq_nil in Hs.
    destruct Hs as (-> & _). simpl. rewrite !app_nil_r, Nat.add_0_r.
    rewrite firstn_skipn. reflexivity.
Qed.

Lemma tokenStep_lineInv :
  forall l tok l',
    spec.tokenStep l tok l' -> spec.lineInv l ->
    spec.lineInv l' /\ Line tok = 1 + Count (firstn (lexer.position l)
                                                    (lexer.input l)) LF.
Proof.
  intros l tok l' (_ & Hcon & _ & Hln & _ & Hm) Hinv.
  unfold spec.lineInv in *. split; [|congruence].
  pose proof Hcon as (Hi & _). rewrite Hi.
  rewrite (consumed_firstn _ _ _ Hcon), Count_app.
  destruct (Typ tok);
    try (destruct Hm as (HQ & Hl); rewrite Hl, Hinv;
         rewrite (Count_none (Literal tok) LF);
         [lia|eapply Forall_impl; [|exact HQ]; cbv beta; intros b Hb;
              exact (proj1 (isEOLByte_false b Hb))]).
  - destruct Hm as (Hlit & Hl & _). rewrite Hlit, Hl, Hinv.
    change (Count [] LF) with 0. lia.
  - destruct Hm as (Hlit & Hl). rewrite Hlit, Hl, Hinv.
    change (Count [LF] LF) with 1. lia.
Qed.

Lemma tokenRun_lineInv :
  forall fuel toks l l',
    spec.tokenRun fuel l toks l' -> spec.lineInv l -> spec.lineInv l'.
Proof.
  intros fuel toks. induction toks as [|t r IH]; intros l l' H Hinv.
  - simpl in H. subst l'. exact Hinv.
  - destruct H as (l1 & _ & Hts & _ & Hrun).
    exact (IH _ _ Hrun (proj1 (tokenStep_lineInv _ _ _ Hts Hinv))).
Qed.

(** X4. The line of a token is its line in the input: one more than the
    number of newline bytes in the literals of the tokens before it, which
    are the input up to the token. *)
Theorem X4_token_line_numbers :
  forall fuel k input opts,
    length input < fuel ->
    exists toks l',
      spec.lexTokens k fuel (lexer.New input opts) = Ok (toks, l') /\
      forall pre t post,
        toks = pre ++ t :: post ->
        Line t = 1 + Count (concat (map Literal pre)) LF /\
        exists rest, input = concat (map Literal pre) ++ rest.
Proof.
  intros fuel k input opts Hf.
  destruct (New_run fuel k input opts Hf)
    as (toks & l' & E & Hrun & Hwf' & Hi & Hlen).
  exists toks, l'. split; [exact E|]. intros pre t post ->.
  destruct (tokenRun_app _ _ _ _ _ Hrun) as (lm & Hpre & Hpost).
  assert (Hinv0 : spec.lineInv (lexer.New input opts)).
  { unfold spec.lineInv. rewrite New_line, New_position. reflexivity. }
  pose proof (tokenRun_lineInv _ _ _ _ Hpre Hinv0) as Hinvm.
  destruct (consumed_prefix _ _ _ _ (tokenRun_consumed _ _ _ _ Hpre))
    as (H1 & H2).
  destruct Hpost as (l1 & _ & Hts & _).
  destruct (tokenStep_lineInv _ _ _ Hts Hinvm) as (_ & Hline).
  destruct (tokenRun_wf _ _ _ _ (New_wf input opts) Hpre) as (_ & Him & _).
  rewrite Him, New_input, <- H1 in Hline.
  split; [exact Hline|]. eexists. exact H2.
Qed.

Lemma X4_token_line_numbers_witness :
  exists toks l',
    spec.lexTokens 4 20 (lexer.New (unlines ["a"; "b"]) []) = Ok (toks, l') /\
    forall pre t post,
      toks = pre ++ t :: post ->
      Line t = 1 + Count (concat (map Literal pre)) LF /\
      exists rest, unlines ["a"; "b"] = concat (map Literal pre) ++ rest.
Proof.
  apply (X4_token_line_numbers 20 4 (unlines ["a"; "b"]) []).
  vm_compute. lia.
Defined.

Lemma tokenStep_shape :
  forall l tok l',
    spec.tokenStep l tok l' -> spec.lex_step l tok l' -> spec.tokenShape tok.
Proof.
  intros l tok l' (_ & Hcon & Hp & _ & _ & Hm) (_ & _ & _ & Hlt & _).
  unfold spec.tokenShape. split; [exact Hp|].
  assert (Hne : Typ tok <> EOF -> Literal tok <> []).
  { intros Ht E. specialize (Hlt Ht). destruct Hcon as (_ & Hpos & _).
    rewrite E in Hpos. simpl in Hpos. lia. }
  assert (HQ : Forall (fun b => spec.isEOLByte b = false) (Literal tok) ->
               Forall (fun b => b <> LF /\ b <> ascii_of_nat 0) (Literal tok)).
  { intros H. eapply Forall_impl; [|exact H]. exact isEOLByte_false. }
  destruct (Typ tok); try (split; [apply Hne; discriminate|apply HQ; apply Hm]);
    apply Hm.
Qed.

(** X5. What the tokens of an input are: [NextToken] never returns an
    ILLEGAL, TODO, DONE, PRIORITY, TIMESTAMP or LINK token; an end-of-input
    token has the empty literal, a NEWLINE token the literal ["\n"], and
    every other token a non-empty literal without a newline or NUL byte. *)
Theorem X5_token_shapes :
  forall fuel k input opts,
    length input < fuel ->
    exists toks l',
      spec.lexTokens k fuel (lexer.New input opts) = Ok (toks, l') /\
      Forall spec.tokenShape toks.
Proof.
  intros fuel k input opts Hf.
  destruct (New_run fuel k input opts Hf)
    as (toks & l' & E & Hrun & _).
  exists toks, l'. split; [exact E|].
  revert Hrun. generalize (lexer.New input opts). clear.
  induction toks as [|t r IH]; intros l H; [constructor|].
  destruct H as (l1 & _ & Hts & Hls & Hrun). constructor.
  - exact (tokenStep_shape _ _ _ Hts Hls).
  - exact (IH _ Hrun).
Qed.

Lemma X5_token_shapes_witness :
  exists toks l',
    spec.lexTokens 6 30 (lexer.New (unlines ["#+TITLE: t"; "1. x"]) [])
    = Ok (toks, l') /\
    Forall spec.tokenShape toks.
Proof.
  apply (X5_token_shapes 30 6 (unlines ["#+TITLE: t"; "1. x"]) []).
  vm_compute. lia.
Defined.

Lemma tokenStep_before_nul :
  forall l tok l' pre rest,
    spec.tokenStep l tok l' ->
    lexer.input l = pre ++ ascii_of_nat 0 :: rest ->
    lexer.position l <= length pre -> lexer.position l' <= length pre.
Proof.
  intros l tok l' pre rest (_ & Hcon & _ & _ & _ & Hm) Hin Hle.
  destruct Hcon as (_ & Hp & Hs).
  destruct (Nat.le_gt_cases (lexer.position l') (length pre)) as [H|Hgt];
    [exact H|exfalso].
  assert (Hnth : nth_error (Literal tok) (length pre - lexer.position l)
                 = Some (ascii_of_nat 0)).
  { rewrite <- (nth_error_app1 _ (skipn (lexer.position l') (lexer.input l)))
      by lia.
    rewrite <- Hs, nth_error_skipn, Hin.
    replace (lexer.position l + (length pre - lexer.position l))
      with (length pre) by lia.
    rewrite nth_error_app2 by lia. rewrite Nat.sub_diag. reflexivity. }
  apply nth_error_In in Hnth.
  destruct (Typ tok);
    try (destruct Hm as (HQ & _); rewrite Forall_forall in HQ;
         specialize (HQ _ Hnth); vm_compute in HQ; discriminate).
  - destruct Hm as (Hlit & _). rewrite Hlit in Hnth. contradiction.
  - destruct Hm as (Hlit & _). rewrite Hlit in Hnth.
    destruct Hnth as [Hn|[]]. vm_compute in Hn. discriminate.
Qed.

(** X6. A NUL byte ends the token stream: the lexer never moves past the
    first NUL of the input, so the literals of all its tokens lie before it
    and what follows the NUL is never tokenized. *)
Theorem X6_nul_byte_ends_input :
  forall fuel k pre rest opts,
    length (pre ++ ascii_of_nat 0 :: rest) < fuel ->
    exists toks l',
      spec.lexTokens k fuel (lexer.New (pre ++ ascii_of_nat 0 :: rest) opts)
      = Ok (toks, l') /\
      lexer.position l' <= length pre /\
      exists suffix, pre = concat (map Literal toks) ++ suffix.
Proof.
  intros fuel k pre rest opts Hf.
  set (input := pre ++ ascii_of_nat 0 :: rest) in *.
  destruct (New_run fuel k input opts Hf)
    as (toks & l' & E & Hrun & Hwf' & Hi & Hlen).
  exists toks, l'. split; [exact E|].
  assert (Hpos : lexer.position l' <= length pre).
  { assert (Hgen : forall toks l,
               spec.lexer_wf l -> spec.tokenRun fuel l toks l' ->
               lexer.input l = input -> lexer.position l <= length pre ->
               lexer.position l' <= length pre).
    { clear. intros toks. induction toks as [|t r IH]; intros l Hwf H Hin Hle.
      - simpl in H. subst l'. exact Hle.
      - destruct H as (l1 & _ & Hts & (Hwf1 & Hi1 & _) & Hrun).
        apply (IH l1 Hwf1 Hrun); [congruence|].
        exact (tokenStep_before_nul _ _ _ _ _ Hts Hin Hle). }
    apply (Hgen toks _ (New_wf input opts) Hrun (New_input input opts)).
    rewrite New_position. lia. }
  split; [exact Hpos|].
  destruct (consumed_prefix _ _ _ _ (tokenRun_consumed _ _ _ _ Hrun))
    as (H1 & _).
  exists (skipn (lexer.position l') pre). rewrite H1. unfold input.
  rewrite firstn_app.
  replace (lexer.position l' - length pre) with 0 by lia.
  simpl. rewrite app_nil_r. symmetry. apply firstn_skipn.
Qed.

Lemma X6_nul_byte_ends_input_witness :
  exists toks l',
    spec.lexTokens 4 20
      (lexer.New (lit "ab" ++ ascii_of_nat 0 :: unlines ["c"; "* d"]) [])
    = Ok (toks, l') /\
    lexer.position l' <= length (lit "ab") /\
    exists suffix, lit "ab" = concat (map Literal toks) ++ suffix.
Proof.
  apply (X6_nul_byte_ends_input 20 4 (lit "ab") (unlines ["c"; "* d"]) []).
  vm_compute. lia.
Defined.

Lemma lexer_options_column :
  forall opts l,
    lexer.column (fold_left lexer.applyOption opts l) = lexer.column l /\
    lexer.ch (fold_left lexer.applyOption opts l) = lexer.ch l.
Proof.
  induction opts as [|o opts IH]; intros l; simpl; [auto|].
  destruct (IH (lexer.applyOption l o)) as (A & B). rewrite A, B.
  destruct o; auto.
Qed.

Lemma New_column : forall input opts, lexer.column (lexer.New input opts) = 1.
Proof.
  intros input opts. unfold lexer.New.
  set (l0 := lexer.mkLexer input 0 0 0 0 1 0 context.Background
                           lexer.DefaultMaxInputSize
                           lexer.DefaultMaxLineLength None).
  destruct (lexer_options_column opts l0) as (Hc & Hch).
  set (l1 := fold_left lexer.applyOption opts l0) in *.
  assert (H : forall l2, lexer.column l2 = 0 -> lexer.ch l2 = 0%Z ->
                         lexer.column (lexer.readChar l2) = 1).
  { intros l2 H1 H2. unfold lexer.readChar. rewrite H1, H2.
    destruct (length (lexer.input l2) <=? lexer.readPosition l2);
      [reflexivity|].
    destruct (DecodeRuneInString _). reflexivity. }
  destruct (lexer.maxInputSize l1 <? Z.of_nat (length input))%Z;
    apply H; assumption.
Qed.

(** A lexer whose next call returns an end-of-input token for a reason
    that persists: its error is set, or its context is done. *)
Lemma lexTokens_halted :
  forall fuel k l,
    lexer.err l <> None \/ fst (context.poll (lexer.ctx l)) = true ->
    exists l',
      spec.lexTokens k fuel l
      = Ok (repeat (mkToken EOF [] (lexer.line l) (lexer.column l)) k, l') /\
      lexer.position l' = lexer.position l /\
      (0 < k -> lexer.err l' <> None).
Proof.
  intros fuel k. induction k as [|k IH]; intros l H.
  - exists l. simpl. splits; auto. lia.
  - assert (Hstep : exists l1,
               lexer.NextToken fuel l
               = Ok (mkToken EOF [] (lexer.line l) (lexer.column l), l1) /\
               lexer.err l1 <> None /\
               lexer.position l1 = lexer.position l /\
               lexer.line l1 = lexer.line l /\
               lexer.column l1 = lexer.column l).
    { unfold lexer.NextToken. cbv zeta.
      destruct (lexer.err l) as [e|] eqn:Ee.
      - exists l. splits; auto. congruence.
      - destruct H as [H|H]; [congruence|].
        unfold lexer.checkContext.
        destruct (context.poll (lexer.ctx l)) as [done c]. simpl in H.
        subst done. eexists. splits; try reflexivity. discriminate. }
    destruct Hstep as (l1 & E & He & Hp & Hl & Hc).
    destruct (IH l1 (or_introl He)) as (l' & E' & Hp' & He').
    exists l'. cbn [spec.lexTokens]. rewrite E. cbn [bind]. rewrite E'.
    cbn [bind]. rewrite Hl, Hc. splits; [reflexivity|congruence|].
    intros _. destruct k.
    + simpl in E'. injection E' as <-. exact He.
    + apply He'. lia.
Qed.

(** X7. Cancellation stops the lexer: when its context is already done,
    every call of [NextToken] returns an end-of-input token at line 1,
    column 1, whatever the input, no byte is read, and [Err] reports an
    error after the first call. *)
Theorem X7_cancelled_lexer_yields_nothing :
  forall fuel k input opts,
    fst (context.poll (lexer.ctx (lexer.New input opts))) = true ->
    exists l',
      spec.lexTokens k fuel (lexer.New input opts)
      = Ok (repeat (mkToken EOF [] 1 1) k, l') /\
      lexer.position l' = 0 /\
      (0 < k -> lexer.Err l' <> None).
Proof.
  intros fuel k input opts H.
  destruct (lexTokens_halted fuel k (lexer.New input opts) (or_intror H))
    as (l' & E & Hp & He).
  rewrite New_line, New_column in E. rewrite New_position in Hp.
  exists l'. auto.
Qed.

Lemma X7_cancelled_lexer_yields_nothing_witness :
  exists l',
    spec.lexTokens 3 5
      (lexer.New (unlines ["* Headline 1"; "* Headline 2"])
                 [lexer.WithContext (Some 0)])
    = Ok (repeat (mkToken EOF [] 1 1) 3, l') /\
    lexer.position l' = 0 /\
    (0 < 3 -> lexer.Err l' <> None).
Proof.
  apply (X7_cancelled_lexer_yields_nothing 5 3
           (unlines ["* Headline 1"; "* Headline 2"])
           [lexer.WithContext (Some 0)]).
  vm_compute. reflexivity.
Defined.

(** ** [peekString] *)



(** * Further properties of the parser *)

Lemma nextToken_keeps :
  forall fuel p p',
    parser.nextToken fuel p = Ok p' ->
    parser.ctx p' = parser.ctx p /\ parser.errors p' = parser.errors p /\
    parser.curToken p' = parser.peekToken p.
Proof.
  intros fuel p p' H. unfold parser.nextToken in H.
  apply bind_Ok in H. destruct H as ([tok l'] & _ & H).
  injection H as <-. auto.
Qed.

Lemma parser_New_ctx :
  forall fuel l popts c p,
    parser.New fuel l (popts ++ [parser.WithContext c]) = Ok p ->
    parser.ctx p = c.
Proof.
  intros fuel l popts c p H. unfold parser.New in H.
  rewrite fold_left_app in H. cbn [fold_left parser.applyOption] in H.
  apply bind_Ok in H. destruct H as (p1 & H1 & H2).
  apply nextToken_keeps in H1. apply nextToken_keeps in H2.
  destruct H1 as (H1 & _). destruct H2 as (H2 & _). rewrite H2, H1.
  destruct (lexer.Err l); reflexivity.
Qed.

(** X9. A parser whose context is already done parses nothing: for every
    input, [ParseDocument] returns the empty document, and it reports
    ["parsing cancelled"], at the line of the first token, unless the input
    has no token at all. *)
Theorem X9_cancelled_parser_parses_nothing :
  forall fuel input lopts popts c,
    length input + 2 < fuel ->
    fst (context.poll c) = true ->
    exists p,
      parser.New fuel (lexer.New input lopts)
                 (popts ++ [parser.WithContext c]) = Ok p /\
      parser.Parse fuel input lopts (popts ++ [parser.WithContext c])
      = Ok (ast.mkDocument [],
            if parser.curTokenIs p EOF then parser.errors p
            else parser.errors p
                 ++ [parser.DiagLine (Line (parser.curToken p))
                                     parser.MsgCancelled]).
Proof.
  intros fuel input lopts popts c Hf Hc.
  destruct (parser_New_total fuel (lexer.New input lopts)
              (popts ++ [parser.WithContext c]) (New_wf input lopts))
    as (p & E & _).
  { rewrite New_input. lia. }
  exists p. split; [exact E|]. unfold parser.Parse. rewrite E. cbn [bind].
  unfold parser.ParseDocument, parser.ParseDocument_store.
  destruct fuel as [|f]; [lia|]. cbn [parser.ParseDocument_loop].
  destruct (parser.curTokenIs p EOF); [reflexivity|].
  unfold parser.checkContext. rewrite (parser_New_ctx _ _ _ _ _ E).
  destruct (context.poll c) as [done c']. simpl in Hc. subst done.
  reflexivity.
Qed.

Lemma X9_cancelled_parser_parses_nothing_witness :
  exists p,
    parser.New 40 (lexer.New (unlines ["* Headline 1"; "* Headline 2"]) [])
               ([] ++ [parser.WithContext (Some 0)]) = Ok p /\
    parser.Parse 40 (unlines ["* Headline 1"; "* Headline 2"]) []
                 ([] ++ [parser.WithContext (Some 0)])
    = Ok (ast.mkDocument [],
          if parser.curTokenIs p EOF then parser.errors p
          else parser.errors p
               ++ [parser.DiagLine (Line (parser.curToken p))
                                   parser.MsgCancelled]).
Proof.
  apply (X9_cancelled_parser_parses_nothing 40
           (unlines ["* Headline 1"; "* Headline 2"]) [] [] (Some 0)).
  - vm_compute. lia.
  - reflexivity.
Defined.

(** ** Trimming *)

Lemma dropWhile_idem :
  forall f s, dropWhile f (dropWhile f s) = dropWhile f s.
Proof.
  intros f s. induction s as [|c r IH]; simpl; [reflexivity|].
  destruct (f c) eqn:E; [exact IH|]. simpl. rewrite E. reflexivity.
Qed.

Lemma dropWhile_snoc :
  forall f xs y,
    f y = false -> dropWhile f (xs ++ [y]) = dropWhile f xs ++ [y].
Proof.
  intros f xs y Hy. induction xs as [|x r IH]; simpl.
  - rewrite Hy. reflexivity.
  - destruct (f x); [exact IH|reflexivity].
Qed.

(** [TrimSpace] leaves nothing to trim. *)
Lemma TrimSpace_idem : forall s, TrimSpace (TrimSpace s) = TrimSpace s.
Proof.
  intros s. unfold TrimSpace, TrimRightFunc, TrimLeftFunc.
  destruct (dropWhile_head isSpace s) as [-> | (y & r & -> & Hy)].
  - reflexivity.
  - cbn [rev]. rewrite (dropWhile_snoc isSpace (rev r) y Hy).
    rewrite rev_app_distr. cbn [rev app].
    cbn [dropWhile]. rewrite Hy. cbn [rev].
    rewrite rev_involutive.
    rewrite (dropWhile_snoc isSpace _ y Hy), dropWhile_idem.
    rewrite rev_app_distr. reflexivity.
Qed.

Lemma TrimSpace_nil : TrimSpace [] = [].
Proof. reflexivity. Qed.

Lemma Split_pieces :
  forall s sep piece,
    In piece (Split s sep) ->
    Forall (fun c => In c s /\ c <> sep) piece.
Proof.
  induction s as [|c r IH]; intros sep piece H; simpl in H.
  - destruct H as [<- | []]. constructor.
  - destruct (Ascii.eqb c sep) eqn:E.
    + destruct H as [<- | H]; [constructor|].
      eapply Forall_impl; [|exact (IH sep piece H)].
      cbv beta. intros a (Ha & Hn). split; [right; exact Ha|exact Hn].
    + apply Ascii.eqb_neq in E. specialize (IH sep).
      destruct (Split r sep) as [|p ps].
      * destruct H as [<- | []]. constructor; [|constructor].
        split; [left; reflexivity|exact E].
      * destruct H as [<- | H].
        -- constructor; [split; [left; reflexivity|exact E]|].
           eapply Forall_impl; [|exact (IH p (or_introl eq_refl))].
           cbv beta. intros a (Ha & Hn). split; [right; exact Ha|exact Hn].
        -- eapply Forall_impl; [|exact (IH piece (or_intror H))].
           cbv beta. intros a (Ha & Hn). split; [right; exact Ha|exact Hn].
Qed.

Lemma tagsRegex_chars :
  forall s m tagStr,
    parser.tagsRegex s = Some (m, tagStr) ->
    forallb parser.isTagChar tagStr = true /\ tagStr <> [] /\ m <= length s.
Proof.
  induction s as [|c r IH]; intros m tagStr H.
  - simpl in H. discriminate.
  - cbn [parser.tagsRegex] in H.
    destruct (parser.tagsRegex_at (c :: r)) as [tags|] eqn:Eat.
    + injection H as <- <-. unfold parser.tagsRegex_at in Eat.
      repeat match type of Eat with
             | match ?x with _ => _ end = _ => destruct x eqn:?; try discriminate
             | (if ?x then _ else _) = _ => destruct x eqn:?; try discriminate
             end.
      injection Eat as <-.
      match goal with
      | H : _ && _ = true |- _ => apply andb_true_iff in H; destruct H as (H1 & H2)
      end.
      splits; [exact H2| |simpl; lia].
      apply Nat.ltb_lt in H1. intros E. rewrite E in H1. simpl in H1. lia.
    + destruct (IH m tagStr H) as (A & B & C). splits; auto. simpl. lia.
Qed.

(** ** Headlines *)

Lemma priorityRegex_group :
  forall s m g,
    parser.priorityRegex s = Some (m, g) ->
    exists c, isUpper c = true /\ g = [c].
Proof.
  intros s m g H. unfold parser.priorityRegex in H.
  repeat match type of H with
         | (if isUpper ?x then _ else _) = _ =>
             destruct (isUpper x) eqn:?; try discriminate
         | match ?x with _ => _ end = _ => destruct x; try discriminate
         end.
  injection H as _ <-. eexists. split; [eassumption|reflexivity].
Qed.

(** X10. What [parseHeadline] puts in a headline whose text is ASCII: the
    level is the number of bytes of the STARS token, the keyword is empty,
    ["TODO"] or ["DONE"], the priority is empty or one upper-case letter,
    the title has no white space at either end, no tag holds a colon or a
    byte outside the tag characters, and the headline starts without
    children. *)
Theorem X10_headline_fields :
  forall fuel p hl p',
    spec.isASCII (Literal (parser.peekToken p)) = true ->
    parser.parseHeadline fuel p = Ok (hl, p') ->
    parser.hToken hl = parser.curToken p /\
    parser.hLevel hl = length (Literal (parser.curToken p)) /\
    (parser.hKeyword hl = [] \/ parser.hKeyword hl = lit "TODO"
     \/ parser.hKeyword hl = lit "DONE") /\
    (parser.hPriority hl = []
     \/ exists c, isUpper c = true /\ parser.hPriority hl = [c]) /\
    TrimSpace (parser.hTitle hl) = parser.hTitle hl /\
    Forall (fun tag =>
              Forall (fun c => parser.isTagChar c = true /\ c <> ":"%char) tag)
           (parser.hTags hl) /\
    parser.hChildren hl = [].
Proof.
  intros fuel p hl p' _ H. unfold parser.parseHeadline in H. cbv zeta in H.
  destruct (parser.peekTokenIs p TEXT).
  2:{ injection H as <- _. simpl. splits; auto. }
  apply bind_Ok in H. destruct H as (p1 & _ & H).
  set (text0 := TrimSpace (Literal (parser.curToken p1))) in H.
  apply bind_Ok in H. destruct H as ([tags text1] & Htags & H).
  apply bind_Ok in H. destruct H as ([keyword text2] & Hkw & H).
  apply bind_Ok in H. destruct H as ([priority text3] & Hpri & H).
  injection H as <- _. cbn [parser.hToken parser.hLevel parser.hKeyword
                          parser.hPriority parser.hTitle parser.hTags
                          parser.hChildren].
  assert (H1 : (exists x, text1 = TrimSpace x) /\
               Forall (fun tag =>
                         Forall (fun c => parser.isTagChar c = true
                                          /\ c <> ":"%char) tag) tags).
  { destruct (parser.tagsRegex text0) as [[matchLen tagStr]|] eqn:Et.
    - apply bind_Ok in Htags. destruct Htags as (t & _ & Htags).
      injection Htags as <- <-. split; [eauto|].
      apply tagsRegex_chars in Et. destruct Et as (Hch & _).
      rewrite forallb_forall in Hch.
      apply Forall_forall. intros tag Htag.
      eapply Forall_impl; [|exact (Split_pieces _ _ _ Htag)].
      cbv beta. intros c0 (Hin & Hne). split; [apply Hch; exact Hin|exact Hne].
    - injection Htags as <- <-. split; [exists (Literal (parser.curToken p1));
                                        reflexivity|constructor]. }
  destruct H1 as ((x1 & Hx1) & Htagsok).
  assert (H2 : (exists x, text2 = TrimSpace x) /\
               (keyword = [] \/ keyword = lit "TODO" \/ keyword = lit "DONE")).
  { repeat match type of Hkw with
           | (if ?b then _ else _) = Ok _ => destruct b
           end;
      try (apply bind_Ok in Hkw; destruct Hkw as (t & _ & Hkw));
      injection Hkw as <- <-; split; eauto.
    - exists []. reflexivity.
    - exists []. reflexivity. }
  destruct H2 as ((x2 & Hx2) & Hkwok).
  assert (H3 : (exists x, text3 = TrimSpace x) /\
               (priority = [] \/ exists c, isUpper c = true /\ priority = [c])).
  { destruct (parser.priorityRegex text2) as [[matchLen g]|] eqn:Ep.
    - apply bind_Ok in Hpri. destruct Hpri as (t & _ & Hpri).
      injection Hpri as <- <-. split; [eauto|].
      right. exact (priorityRegex_group _ _ _ Ep).
    - injection Hpri as <- <-. split; eauto. }
  destruct H3 as ((x3 & Hx3) & Hpriok).
  splits; auto.
  rewrite Hx3. apply TrimSpace_idem.
Qed.

Lemma X10_headline_fields_witness :
  exists hl p',
    parser.parseHeadline 40
      (spec.parserOn 40 (lit "** TODO [#A] Fix it  :a:b:")) = Ok (hl, p') /\
    parser.hLevel hl = 2 /\ parser.hKeyword hl = lit "TODO" /\
    parser.hPriority hl = lit "A" /\ parser.hTitle hl = lit "Fix it" /\
    parser.hTags hl = [lit "a"; lit "b"] /\
    TrimSpace (parser.hTitle hl) = parser.hTitle hl.
Proof.
  set (p := spec.parserOn 40 (lit "** TODO [#A] Fix it  :a:b:")).
  destruct (parser.parseHeadline 40 p) as [[hl p']| |] eqn:E;
    [|vm_compute in E; discriminate|vm_compute in E; discriminate].
  assert (Ha : spec.isASCII (Literal (parser.peekToken p)) = true)
    by (vm_compute; reflexivity).
  pose proof (X10_headline_fields 40 p hl p' Ha E) as H.
  exists hl, p'. split; [reflexivity|].
  destruct H as (_ & _ & _ & _ & H & _).
  vm_compute in E. injection E as <- _.
  do 5 (split; [reflexivity|]). exact H.
Defined.

(** ** Keyword lines *)

Lemma SplitN2_found :
  forall a b sep,
    ~ In sep a -> SplitN2 (a ++ sep :: b) sep = [a; b].
Proof.
  induction a as [|c r IH]; intros b sep Hn; simpl.
  - rewrite Ascii.eqb_refl. reflexivity.
  - destruct (Ascii.eqb c sep) eqn:E.
    + apply Ascii.eqb_eq in E. exfalso. apply Hn. left. exact E.
    + rewrite IH; [reflexivity|]. intros H. apply Hn. right. exact H.
Qed.

Lemma SplitN2_none :
  forall a sep, ~ In sep a -> SplitN2 a sep = [a].
Proof.
  induction a as [|c r IH]; intros sep Hn; simpl; [reflexivity|].
  destruct (Ascii.eqb c sep) eqn:E.
  - apply Ascii.eqb_eq in E. exfalso. apply Hn. left. exact E.
  - rewrite IH; [reflexivity|]. intros H. apply Hn. right. exact H.
Qed.

Lemma str_eqb_neq : forall a b, a <> b -> str_eqb a b = false.
Proof.
  intros a b H. unfold str_eqb.
  destruct (list_eq_dec ascii_dec a b); [contradiction|reflexivity].
Qed.

Lemma HasPrefix_sharp_plus :
  forall x, HasPrefix (lit "#+" ++ x) (lit "#+") = true.
Proof. intros x. simpl. destruct x; reflexivity. Qed.

Lemma TrimPrefix_sharp_plus :
  forall x, TrimPrefix (lit "#+" ++ x) (lit "#+") = x.
Proof.
  intros x. unfold TrimPrefix. rewrite HasPrefix_sharp_plus. reflexivity.
Qed.

(** X11. A keyword line [#+KEY:VALUE] with a non-empty key that holds no
    colon parses to a Keyword with that key and the value trimmed of its
    white space (stated for a trimmed value that starts and ends with an
    ASCII byte), and a
    line [#+KEY] without a colon to one with the empty value; neither adds
    a diagnostic. A line whose key is empty, [#+:...], yields the nil
    keyword and one ["empty keyword key"] diagnostic. In every case the
    parser stays on the same token. *)
Theorem X11_keyword_lines :
  (forall p key value,
      Literal (parser.curToken p) = lit "#+" ++ key ++ ":"%char :: value ->
      key <> [] -> ~ In ":"%char key ->
      spec.asciiEnds (TrimSpace value) = true ->
      parser.parseKeyword p
      = Ok (ast.Keyword (parser.curToken p) key (TrimSpace value), p)) /\
  (forall p key,
      Literal (parser.curToken p) = lit "#+" ++ key ->
      key <> [] -> ~ In ":"%char key ->
      parser.parseKeyword p = Ok (ast.Keyword (parser.curToken p) key [], p)) /\
  (forall p rest,
      Literal (parser.curToken p) = lit "#+:" ++ rest ->
      parser.parseKeyword p
      = Ok (ast.NilKeyword,
            parser.addError p
              (parser.MsgEmptyKey (Literal (parser.curToken p))))) /\
  (forall p n p',
      parser.parseKeyword p = Ok (n, p') ->
      parser.l p' = parser.l p /\ parser.curToken p' = parser.curToken p /\
      parser.peekToken p' = parser.peekToken p /\
      ((n = ast.NilKeyword /\ length (parser.errors p') = S (length (parser.errors p)))
       \/ (exists key value,
              n = ast.Keyword (parser.curToken p) key value /\ key <> [] /\
              ~ In ":"%char key /\ p' = p))).
Proof.
  splits.
  - intros p key value Hl Hk Hc _. unfold parser.parseKeyword. rewrite Hl.
    rewrite (HasPrefix_sharp_plus (key ++ ":"%char :: value)).
    cbn [negb]. cbv zeta.
    change (lit "#+" ++ key ++ ":"%char :: value)
      with ((lit "#+" ++ key) ++ ":"%char :: value).
    rewrite SplitN2_found.
    2:{ intros [H|[H|H]]; [discriminate|discriminate|exact (Hc H)]. }
    cbn [parser.index nth_error bind length Nat.ltb Nat.leb].
    rewrite TrimPrefix_sharp_plus, (str_eqb_neq key [] Hk). reflexivity.
  - intros p key Hl Hk Hc. unfold parser.parseKeyword. rewrite Hl.
    rewrite (HasPrefix_sharp_plus key). cbn [negb]. cbv zeta.
    rewrite SplitN2_none.
    2:{ intros [H|[H|H]]; [discriminate|discriminate|exact (Hc H)]. }
    cbn [parser.index nth_error bind length Nat.ltb Nat.leb].
    rewrite TrimPrefix_sharp_plus, (str_eqb_neq key [] Hk). reflexivity.
  - intros p rest Hl. unfold parser.parseKeyword. rewrite Hl.
    change (lit "#+:" ++ rest) with (lit "#+" ++ ":"%char :: rest).
    rewrite (HasPrefix_sharp_plus (":"%char :: rest)). reflexivity.
  - intros p n p' H. unfold parser.parseKeyword in H.
    destruct (negb (HasPrefix (Literal (parser.curToken p)) (lit "#+"))).
    { injection H as <- <-. simpl. splits; auto. left.
      rewrite length_app. simpl. split; [reflexivity|lia]. }
    cbv zeta in H. apply bind_Ok in H. destruct H as (part0 & Hp0 & H).
    destruct (str_eqb (TrimPrefix part0 (lit "#+")) []) eqn:Ek.
    { injection H as <- <-. simpl. splits; auto. left.
      rewrite length_app. simpl. split; [reflexivity|lia]. }
    apply bind_Ok in H. destruct H as (val & _ & H). injection H as <- <-.
    splits; auto. right. do 2 eexists. splits; [reflexivity| |  |reflexivity].
    + intros E. change ["#"%char; "+"%char] with (lit "#+") in E.
      rewrite E in Ek. discriminate.
    + intros Hin. change ["#"%char; "+"%char] with (lit "#+") in Hin.
      assert (Hp : In ":"%char part0).
      { unfold TrimPrefix in Hin. destruct (HasPrefix part0 (lit "#+"));
          [|exact Hin].
        rewrite <- (firstn_skipn (length (lit "#+")) part0).
        apply in_or_app. right. exact Hin. }
      clear - Hp Hp0. unfold parser.index in Hp0.
      revert part0 Hp Hp0.
      induction (Literal (parser.curToken p)) as [|c r IH]; intros part0 Hp Hp0.
      * simpl in Hp0. injection Hp0 as <-. contradiction.
      * simpl in Hp0. destruct (Ascii.eqb c ":") eqn:E.
        -- simpl in Hp0. injection Hp0 as <-. contradiction.
        -- destruct (SplitN2 r ":") as [|q qs] eqn:Es.
           ++ simpl in Hp0. injection Hp0 as <-.
              destruct Hp as [Hp|[]]. subst c. discriminate.
           ++ simpl in Hp0. injection Hp0 as <-.
              destruct Hp as [Hp|Hp]; [subst c; discriminate|].
              exact (IH q Hp eq_refl).
Qed.

Lemma X11_keyword_lines_witness :
  parser.parseKeyword (spec.parserOn 40 (lit "#+TITLE: My Document"))
  = Ok (ast.Keyword
          (parser.curToken (spec.parserOn 40 (lit "#+TITLE: My Document")))
          (lit "TITLE") (lit "My Document"),
        spec.parserOn 40 (lit "#+TITLE: My Document")).
Proof.
  apply (proj1 X11_keyword_lines
           (spec.parserOn 40 (lit "#+TITLE: My Document"))
           (lit "TITLE") (lit " My Document")).
  - vm_compute. reflexivity.
  - discriminate.
  - vm_compute. intuition discriminate.
  - reflexivity.
Defined.

(** ** Inline elements *)

Lemma findClosingMarker_first :
  forall text closer i e,
    parser.findClosingMarker_from text closer i = e ->
    e <> (-1)%Z -> (0 <= i)%Z ->
    exists inner rest,
      text = inner ++ closer :: rest /\ ~ In closer inner /\
      e = (i + Z.of_nat (length inner))%Z.
Proof.
  intros text closer. induction text as [|c r IH]; intros i e H Hne Hi.
  - simpl in H. congruence.
  - simpl in H. destruct (Ascii.eqb c closer) eqn:E.
    + apply ascii_eqb_eq in E. subst c. exists [], r. simpl.
      splits; [reflexivity|tauto|lia].
    + destruct (IH _ _ H Hne ltac:(lia)) as (inner & rest & -> & Hn & ->).
      exists (c :: inner), rest. splits; [reflexivity| |simpl length; lia].
      intros [Hc|Hc]; [|exact (Hn Hc)].
      subst c. rewrite Ascii.eqb_refl in E. discriminate.
Qed.

Lemma app_same_length :
  forall (A : Type) (a b x y : list A),
    a ++ x = b ++ y -> length a = length b -> a = b /\ x = y.
Proof.
  intros A a. induction a as [|c r IH]; intros [|d b] x y H Hl;
    simpl in *; try discriminate.
  - auto.
  - injection H as -> H. destruct (IH b x y H ltac:(lia)) as (-> & ->). auto.
Qed.

(** The inner text [tryMarker] finds holds no closing marker. *)
Lemma tryMarker_inner :
  forall remaining typ nestable e,
    parser.tryMarker remaining = Ok (Some (typ, nestable, e)) ->
    exists c inner rest,
      remaining = c :: inner ++ c :: rest /\
      parser.inlineMarkers c = Some (typ, c, nestable) /\
      inner <> [] /\ ~ In c inner /\ e = Z.of_nat (length inner).
Proof.
  intros remaining typ nestable e H.
  destruct (tryMarker_spec _ _ _ _ H) as (c & inner & rest & -> & Hm & Hne & ->).
  exists c, inner, rest. splits; auto.
  unfold parser.tryMarker in H. unfold at_ in H. cbn [nth_error bind] in H.
  rewrite Hm in H.
  destruct (2 <? length (c :: inner ++ c :: rest)); [|discriminate].
  apply bind_Ok in H. destruct H as (r1 & Hr1 & H).
  apply sliceFrom_Ok in Hr1. destruct Hr1 as (_ & ->). cbn [skipn] in H.
  destruct (negb (parser.findClosingMarker (inner ++ c :: rest) c =? -1)%Z
            && (0 <? parser.findClosingMarker (inner ++ c :: rest) c)%Z) eqn:E;
    [|discriminate].
  injection H as H. apply andb_true_iff in E. destruct E as (E1 & _).
  apply negb_true_iff, Z.eqb_neq in E1.
  destruct (findClosingMarker_first _ _ 0 _ eq_refl E1 ltac:(lia))
    as (inner' & rest' & Heq & Hn & He).
  unfold parser.findClosingMarker in H. rewrite He in H.
  assert (Hlen : length inner' = length inner) by lia.
  destruct (app_same_length _ _ _ _ _ Heq (eq_sym Hlen)) as (-> & _).
  exact Hn.
Qed.

Lemma Contains_false :
  forall s c, ~ In c s -> Contains s c = false.
Proof.
  intros s c H. unfold Contains.
  destruct (existsb (Ascii.eqb c) s) eqn:E; [|reflexivity].
  apply existsb_exists in E. destruct E as (x & Hx & Ex).
  apply Ascii.eqb_eq in Ex. subst x. contradiction.
Qed.

Lemma isNil_false :
  forall (A : Type) (l : list A), l <> [] -> spec.isNil l = false.
Proof. intros A [|x r] H; [congruence|reflexivity]. Qed.

Lemma inline_shape :
  forall fuel,
    (forall text depth r,
        parser.parseInlineElementsRecursive fuel text depth = Ok r ->
        text <> [] \/ depth <= parser.maxDepth ->
        forallb spec.inlineShape r = true) /\
    (forall remaining depth elements r,
        parser.inlineLoop fuel remaining depth elements = Ok r ->
        forallb spec.inlineShape elements = true ->
        forallb spec.inlineShape r = true).
Proof.
  induction fuel as [|f [IHrec IHloop]].
  - split; intros; discriminate.
  - split.
    + intros text depth r H Hc. rewrite parseInlineElementsRecursive_eq in H.
      destruct (parser.maxDepth <? depth) eqn:Ed.
      * injection H as <-. apply Nat.ltb_lt in Ed.
        destruct Hc as [Hc|Hc]; [|lia].
        simpl. rewrite (isNil_false _ _ Hc). reflexivity.
      * apply IHloop in H; [exact H|reflexivity].
    + intros remaining depth elements r H Hel. rewrite inlineLoop_eq in H.
      destruct (length remaining =? 0) eqn:E0.
      { injection H as <-. exact Hel. }
      apply Nat.eqb_neq in E0.
      assert (Hrem : remaining <> []) by (intros ->; apply E0; reflexivity).
      assert (Hsnoc : forall e, spec.inlineShape e = true ->
                                forallb spec.inlineShape (elements ++ [e]) = true).
      { intros e He. rewrite forallb_app, Hel. simpl. rewrite He. reflexivity. }
      apply bind_Ok in H. destruct H as (link & Hlink & H).
      apply tryLink_spec in Hlink.
      destruct link as [[[url desc] matchEnd]|].
      * destruct Hlink as [Hl|Hl]; [discriminate|]. symmetry in Hl.
        apply linkRegex_spec in Hl. destruct Hl as (Hurl & Hl).
        apply bind_Ok in H. destruct H as (children & Hch & H).
        apply bind_Ok in H. destruct H as (rest & _ & H).
        apply IHloop in H; [exact H|]. apply Hsnoc.
        cbn [spec.inlineShape spec.isNil]. rewrite (isNil_false _ _ Hurl).
        cbn [negb andb].
        destruct desc as [[|d0 d']|].
        -- injection Hch as <-. reflexivity.
        -- apply IHrec in Hch; [exact Hch|left; discriminate].
        -- injection Hch as <-. reflexivity.
      * clear Hlink.
        apply bind_Ok in H. destruct H as (marker & Hm & H).
        destruct marker as [[[typ nestable] end_]|].
        -- apply tryMarker_inner in Hm.
           destruct Hm as (c & inner & rest0 & -> & Hmk & Hinner & Hnoc & ->).
           apply inlineMarkers_spec in Hmk. destruct Hmk as (_ & Hmarker & Hty).
           apply bind_Ok in H. destruct H as (innerContent & Hic & H).
           apply slice_Ok in Hic. destruct Hic as (_ & _ & ->).
           replace (Z.to_nat (Z.of_nat (length inner) + 1) - 1)
             with (length inner) in H by lia.
           cbn [skipn] in H.
           rewrite (firstn_app_exact _ inner (c :: rest0) (length inner) eq_refl)
             in H.
           apply bind_Ok in H. destruct H as (elem & Helem & H).
           apply bind_Ok in H. destruct H as (rest & _ & H).
           apply IHloop in H; [exact H|]. apply Hsnoc.
           destruct nestable.
           ++ apply bind_Ok in Helem. destruct Helem as (children & Hch & He).
              injection He as <-.
              pose proof (proj1 (inline_markup f) _ _ _ Hch) as Hmu.
              assert (Hne : children <> []).
              { apply markupAll_nil_inv. rewrite Hmu. exact Hinner. }
              apply IHrec in Hch; [|left; exact Hinner].
              destruct Hty as [-> | [-> | [-> | ->]]];
                cbn [spec.inlineShape spec.isNil andb];
                rewrite (isNil_false _ _ Hne); exact Hch.
           ++ injection Helem as <-.
              destruct Hty as [-> | ->];
                cbn [spec.inlineShape spec.isNil andb];
                rewrite Hmarker, (isNil_false _ _ Hinner),
                        (Contains_false _ _ Hnoc); reflexivity.
        -- clear Hm. cbv zeta in H.
           destruct (parser.findNextMarker remaining =? -1)%Z eqn:E1.
           { injection H as <-. apply Hsnoc. simpl.
             rewrite (isNil_false _ _ Hrem). reflexivity. }
           apply Z.eqb_neq in E1.
           destruct (0 <? parser.findNextMarker remaining)%Z eqn:E2.
           ++ apply Z.ltb_lt in E2.
              apply bind_Ok in H. destruct H as (before & Hb & H).
              apply bind_Ok in H. destruct H as (rest & _ & H).
              unfold sliceTo in Hb. apply slice_Ok in Hb.
              destruct Hb as (_ & Hhi & ->).
              apply IHloop in H; [exact H|]. apply Hsnoc. simpl.
              rewrite isNil_false; [reflexivity|].
              intros E. apply (f_equal (@length ascii)) in E.
              rewrite length_firstn in E. simpl in E. lia.
           ++ apply bind_Ok in H. destruct H as (r0 & Hr0 & H).
              apply bind_Ok in H. destruct H as (rest & _ & H).
              apply IHloop in H; [exact H|]. apply Hsnoc. simpl.
              rewrite isNil_false; [reflexivity|].
              unfold stringOfByte. destruct (nat_of_ascii r0 <? 128);
                discriminate.
Qed.

(** X12. Every inline element of a paragraph, at any depth, is filled the
    same way: a text element holds a non-empty content and nothing else; a
    code or verbatim element holds its raw, unparsed content, non-empty
    and free of its own marker, and nothing else; a bold, italic,
    strikethrough or underline element holds only children, at least one;
    a link holds a non-empty URL and only children. *)
Theorem X12_inline_element_shapes :
  forall fuel p tok content inline,
    parser.parseParagraph fuel p = Ok (ast.Paragraph tok content inline) ->
    forallb spec.inlineShape inline = true.
Proof.
  intros fuel p tok content inline H. unfold parser.parseParagraph in H.
  apply bind_Ok in H. destruct H as (inl & Hinl & H).
  injection H as _ _ <-. unfold parser.parseInlineElements in Hinl.
  apply (proj1 (inline_shape fuel) _ _ _ Hinl). right.
  unfold parser.maxDepth. lia.
Qed.

Lemma X12_inline_element_shapes_witness :
  exists tok content inline,
    parser.parseParagraph 40 (spec.parserOn 40 (lit "a *b ~c~* [[u][d]]"))
    = Ok (ast.Paragraph tok content inline) /\
    inline
    = [parser.text (lit "a ");
       ast.mkInline ast.InlineBold [] []
         [parser.text (lit "b ");
          ast.mkInline ast.InlineCode (lit "c") [] []];
       parser.text (lit " ");
       ast.mkInline ast.InlineLink [] (lit "u") [parser.text (lit "d")]] /\
    forallb spec.inlineShape inline = true.
Proof.
  set (p := spec.parserOn 40 (lit "a *b ~c~* [[u][d]]")).
  destruct (parser.parseParagraph 40 p) as [n| |] eqn:E;
    [|vm_compute in E; discriminate|vm_compute in E; discriminate].
  destruct n as [| tok content inline | | | | | | | | | | ];
    try (vm_compute in E; discriminate).
  pose proof (X12_inline_element_shapes 40 p tok content inline E) as H.
  exists tok, content, inline. split; [reflexivity|].
  split; [|exact H]. vm_compute in E. injection E as _ _ <-. reflexivity.
Defined.

Lemma findNextMarker_none :
  forall text i,
    Forall (fun c => parser.oneOf "*/~=+_[" c = false) text ->
    parser.findNextMarker_from text i = (-1)%Z.
Proof.
  intros text. induction text as [|c r IH]; intros i H; simpl.
  - reflexivity.
  - inversion H as [|? ? Hc Hr]; subst.
    assert (H1 : parser.oneOf "*/~=+_" c = false /\ Ascii.eqb c "[" = false).
    { unfold parser.oneOf in *. simpl in *.
      repeat match type of Hc with
             | (_ || _) = false => apply orb_false_iff in Hc;
                                   destruct Hc as (? & Hc)
             end.
      split.
      - repeat (apply orb_false_iff; split); assumption.
      - assumption. }
    destruct H1 as (-> & ->). simpl. apply IH. exact Hr.
Qed.

(** Text without a marker byte is one Text element. *)
Lemma inline_plain_text :
  forall fuel text,
    2 <= fuel -> text <> [] ->
    Forall (fun c => parser.oneOf "*/~=+_[" c = false) text ->
    parser.parseInlineElements fuel text = Ok [parser.text text].
Proof.
  intros fuel text Hf Hne Hplain.
  destruct fuel as [|[|f]]; try lia.
  unfold parser.parseInlineElements.
  rewrite parseInlineElementsRecursive_eq. change (parser.maxDepth <? 0)
    with false. cbv iota. rewrite inlineLoop_eq.
  destruct text as [|c r]; [congruence|]. cbn [length Nat.eqb].
  inversion Hplain as [|? ? Hc Hr]; subst.
  assert (Hc' : parser.oneOf "*/~=+_" c = false /\ Ascii.eqb c "[" = false).
  { unfold parser.oneOf in *. simpl in *.
    repeat match type of Hc with
           | (_ || _) = false => apply orb_false_iff in Hc;
                                 destruct Hc as (? & Hc)
           end.
    split.
    - repeat (apply orb_false_iff; split); assumption.
    - assumption. }
  destruct Hc' as (Hmk & Hbr).
  assert (Hlink : parser.tryLink (c :: r) = Ok None).
  { unfold parser.tryLink.
    destruct (2 <? length (c :: r)) eqn:E2; [|reflexivity].
    unfold at_. cbn [nth_error].
    destruct r as [|c1 r']; [simpl in E2; discriminate|].
    cbn [nth_error bind]. rewrite Hbr. reflexivity. }
  rewrite Hlink. cbn [bind].
  assert (Hmarker : parser.tryMarker (c :: r) = Ok None).
  { unfold parser.tryMarker, at_. cbn [nth_error bind].
    unfold parser.inlineMarkers. unfold parser.oneOf in Hmk. simpl in Hmk.
    repeat match type of Hmk with
           | (_ || _) = false => apply orb_false_iff in Hmk;
                                 destruct Hmk as (? & Hmk)
           end.
    repeat match goal with
           | H : Ascii.eqb c _ = false |- _ => rewrite H; clear H
           end.
    reflexivity. }
  rewrite Hmarker. cbn [bind]. cbv zeta.
  unfold parser.findNextMarker.
  rewrite (findNextMarker_none (c :: r) 0 Hplain). reflexivity.
Qed.

(** X13. Text without a marker byte passes through the inline parser
    unchanged: when no byte of a non-empty text is one of [* / ~ = + _] or a
    left bracket, its inline elements are the one Text element that holds
    the text. The empty text has no elements. *)
Theorem X13_plain_text_is_one_element :
  (forall fuel text,
      2 <= fuel -> text <> [] ->
      Forall (fun c => parser.oneOf "*/~=+_[" c = false) text ->
      parser.parseInlineElements fuel text = Ok [parser.text text]) /\
  (forall fuel, 2 <= fuel -> parser.parseInlineElements fuel [] = Ok []).
Proof.
  split.
  - exact inline_plain_text.
  - intros fuel Hf. destruct fuel as [|[|f]]; try lia. reflexivity.
Qed.

Lemma X13_plain_text_is_one_element_witness :
  parser.parseInlineElements 2 (lit "Just plain text.")
  = Ok [parser.text (lit "Just plain text.")].
Proof.
  apply (proj1 X13_plain_text_is_one_element 2 (lit "Just plain text.")).
  - lia.
  - discriminate.
  - vm_compute. repeat constructor.
Defined.

(** * Properties of the tree *)

Lemma String_headline :
  forall order tok level keyword priority title tags children,
    ast.String order
      (ast.Headline tok level keyword priority title tags children)
    = cs <- ast.StringAll order children ;;
      Ok (repeat "*"%char level ++ lit " "
          ++ (if ast.nonEmpty keyword then keyword ++ lit " " else [])
          ++ (if ast.nonEmpty priority then lit "[#" ++ priority ++ lit "] "
              else [])
          ++ title
          ++ (if 0 <? length tags
              then lit " :" ++ Join tags (lit ":") ++ lit ":" else [])
          ++ [LF] ++ cs).
Proof.
  intros. cbn [ast.String]. f_equal.
  induction children as [|c r IH]; [reflexivity|].
  cbn [ast.StringAll]. rewrite <- IH. reflexivity.
Qed.

Lemma String_list :
  forall order tok ordered items,
    ast.String order (ast.List tok ordered items)
    = ast.ListString order ordered 0 items.
Proof.
  intros. cbn [ast.String].
  match goal with
  | |- ?f 0 items = _ =>
      assert (H : forall l i, f i l = ast.ListString order ordered i l)
  end.
  { induction l as [|it r IH]; intros i; [reflexivity|].
    cbn [ast.ListString]. rewrite <- IH.
    destruct it as [tok' indent checkbox content children].
    cbn [ast.ListItemString].
    match goal with
    | |- context [bind (?g children) _] =>
        assert (Hc : forall l, g l = ast.StringEach order l)
    end.
    { induction l as [|c cs IHc]; [reflexivity|].
      cbn [ast.StringEach]. rewrite <- IHc. reflexivity. }
    rewrite <- Hc. reflexivity. }
  apply H.
Qed.

Lemma DocumentString_eq :
  forall order d,
    ast.DocumentString order d = ast.StringAll order (ast.docChildren d).
Proof.
  intros order d. unfold ast.DocumentString.
  induction (ast.docChildren d) as [|c r IH]; [reflexivity|].
  cbn [ast.StringAll]. rewrite <- IH. reflexivity.
Qed.

Lemma Node_ind_nested :
  forall P : ast.Node -> Prop,
    (forall tok level keyword priority title tags children,
        Forall P children ->
        P (ast.Headline tok level keyword priority title tags children)) ->
    (forall tok ordered items,
        Forall (fun it => match it with
                          | ast.mkListItem _ _ _ _ children => Forall P children
                          end) items ->
        P (ast.List tok ordered items)) ->
    (forall n,
        match n with
        | ast.Headline _ _ _ _ _ _ _ | ast.List _ _ _ => False
        | _ => True
        end -> P n) ->
    forall n, P n.
Proof.
  intros P Hh Hl Ho. fix IH 1. intros n.
  destruct n; try (apply Ho; exact I).
  - apply Hh. induction children as [|c r IHr]; constructor;
      [apply IH|exact IHr].
  - apply Hl. induction items as [|[t i c s ch] r IHr]; constructor;
      [|exact IHr].
    induction ch as [|x xs IHx]; constructor; [apply IH|exact IHx].
Qed.

Lemma StringAll_nil :
  forall order children,
    Forall (fun n =>
              (spec.hasNilKeyword n = true -> ast.String order n = Panic) /\
              (spec.hasNilKeyword n = false ->
               exists s, ast.String order n = Ok s)) children ->
    (existsb spec.hasNilKeyword children = true ->
     ast.StringAll order children = Panic /\
     ast.StringEach order children = Panic) /\
    (existsb spec.hasNilKeyword children = false ->
     (exists s, ast.StringAll order children = Ok s) /\
     (exists s, ast.StringEach order children = Ok s)).
Proof.
  intros order children H.
  induction H as [|c r (Hc1 & Hc2) _ (IH1 & IH2)]; simpl.
  - split; [discriminate|]. intros _. split; eexists; reflexivity.
  - split; intros E.
    + destruct (spec.hasNilKeyword c) eqn:Ec.
      * rewrite (Hc1 eq_refl). auto.
      * destruct (Hc2 eq_refl) as (s & ->). simpl in E.
        destruct (IH1 E) as (-> & ->). auto.
    + apply orb_false_iff in E. destruct E as (Ec & Er).
      destruct (Hc2 Ec) as (s & ->).
      destruct (IH2 Er) as ((t & ->) & (u & ->)). cbn [bind].
      split; eexists; reflexivity.
Qed.

Lemma String_nil :
  forall order n,
    (spec.hasNilKeyword n = true -> ast.String order n = Panic) /\
    (spec.hasNilKeyword n = false -> exists s, ast.String order n = Ok s).
Proof.
  intros order n. induction n using Node_ind_nested.
  - rewrite String_headline. cbn [spec.hasNilKeyword].
    destruct (StringAll_nil order children H) as (H1 & H2). split; intros E.
    + rewrite (proj1 (H1 E)). reflexivity.
    + destruct (proj1 (H2 E)) as (s & ->). cbn [bind]. eexists. reflexivity.
  - rewrite String_list. cbn [spec.hasNilKeyword]. generalize 0 at 1 2.
    induction H as [|[t i c s ch] r Hch _ IH]; intros k; simpl.
    + split; [discriminate|]. intros _. eexists. reflexivity.
    + destruct (StringAll_nil order ch Hch) as (H1 & H2).
      destruct (IH (S k)) as (IH1 & IH2). split; intros E.
      * destruct (existsb spec.hasNilKeyword ch) eqn:Ec.
        -- rewrite (proj2 (H1 eq_refl)). reflexivity.
        -- destruct (proj2 (H2 eq_refl)) as (u & ->). cbn [bind].
           simpl in E. rewrite (IH1 E). reflexivity.
      * apply orb_false_iff in E. destruct E as (Ec & Er).
        destruct (proj2 (H2 Ec)) as (u & ->). cbn [bind].
        destruct (IH2 Er) as (v & ->). cbn [bind]. eexists. reflexivity.
  - destruct n; try contradiction; simpl; split;
      try discriminate; intros _; try reflexivity; eexists; reflexivity.
Qed.

(** X14. [String()] of a document panics exactly when the nil keyword is
    somewhere in the tree, whatever the order in which the properties of a
    drawer are visited; on every other document it returns a text. The same
    nil keyword makes [TokenLiteral()] of the document panic when it is the
    first child. *)
Theorem X14_String_panics_on_nil_keyword :
  forall order d,
    (existsb spec.hasNilKeyword (ast.docChildren d) = true ->
     ast.DocumentString order d = Panic) /\
    (existsb spec.hasNilKeyword (ast.docChildren d) = false ->
     exists s, ast.DocumentString order d = Ok s) /\
    (forall rest, ast.docChildren d = ast.NilKeyword :: rest ->
                  ast.DocumentTokenLiteral d = Panic).
Proof.
  intros order d. rewrite DocumentString_eq.
  destruct (StringAll_nil order (ast.docChildren d)) as (H1 & H2).
  { apply Forall_forall. intros n _. apply String_nil. }
  splits.
  - intros E. exact (proj1 (H1 E)).
  - intros E. exact (proj1 (H2 E)).
  - intros rest E. unfold ast.DocumentTokenLiteral. rewrite E. reflexivity.
Qed.

Lemma X14_String_panics_on_nil_keyword_witness :
  exists d errs,
    parser.Parse 40 (unlines ["* A"; "#+: no key"]) [] [] = Ok (d, errs) /\
    existsb spec.hasNilKeyword (ast.docChildren d) = true /\
    ast.DocumentString (fun m => m) d = Panic.
Proof.
  destruct (parser.Parse 40 (unlines ["* A"; "#+: no key"]) [] [])
    as [[d errs]| |] eqn:E;
    [|vm_compute in E; discriminate|vm_compute in E; discriminate].
  assert (Hn : existsb spec.hasNilKeyword (ast.docChildren d) = true).
  { vm_compute in E. injection E as <- _. reflexivity. }
  exists d, errs. split; [reflexivity|]. split; [exact Hn|].
  exact (proj1 (X14_String_panics_on_nil_keyword (fun m => m) d) Hn).
Defined.

(** ** A line with an empty keyword key *)

Lemma New_plain :
  forall input,
    (Z.of_nat (length input) <= lexer.DefaultMaxInputSize)%Z ->
    lexer.err (lexer.New input []) = None /\
    lexer.ctx (lexer.New input []) = None.
Proof.
  intros input H. unfold lexer.New. rewrite readChar_err, readChar_ctx.
  cbn [fold_left lexer.maxInputSize].
  replace (lexer.DefaultMaxInputSize <? Z.of_nat (length input))%Z with false
    by (symmetry; apply Z.ltb_ge; exact H).
  split; reflexivity.
Qed.

(** A lexer at the end of a line that no line-end byte follows is at the
    end of the input. *)
Lemma wf_eol_end :
  forall l,
    spec.lexer_wf l -> lexer.isEOL (lexer.ch l) = true ->
    Forall (fun b => spec.isEOLByte b = false) (lexer.input l) ->
    skipn (lexer.position l) (lexer.input l) = [] /\ lexer.ch l = 0%Z.
Proof.
  intros l (Hle & Hsync) He Hplain.
  destruct (skipn (lexer.position l) (lexer.input l)) as [|c s] eqn:Es.
  - destruct Hsync as (H0 & _). auto.
  - exfalso. destruct Hsync as (Hc & _).
    assert (Hsmall : (fst (DecodeRuneInString (c :: s)) < 128)%Z).
    { rewrite <- Hc. unfold lexer.isEOL in He. apply orb_true_iff in He.
      destruct He as [He|He]; apply Z.eqb_eq in He; rewrite He;
        vm_compute; reflexivity. }
    destruct (Decode_small c s Hsmall) as (Hd & _).
    rewrite Hd in Hc. cbn [fst] in Hc.
    rewrite Forall_forall in Hplain.
    assert (Hin : In c (lexer.input l)).
    { rewrite <- (firstn_skipn (lexer.position l) (lexer.input l)), Es.
      apply in_or_app. right. left. reflexivity. }
    specialize (Hplain c Hin). unfold spec.isEOLByte in Hplain.
    unfold lexer.isEOL in He. rewrite Hc in He. congruence.
Qed.

(** At the end of the input, with no error and a background context,
    [NextToken] returns an end-of-input token and stays. *)
Lemma NextToken_at_end :
  forall fuel l,
    lexer.err l = None -> lexer.ctx l = None -> lexer.ch l = 0%Z ->
    lexer.NextToken fuel l
    = Ok (mkToken EOF [] (lexer.line l) (lexer.column l), l).
Proof.
  intros fuel l He Hc H0. unfold lexer.NextToken, lexer.checkContext.
  rewrite He, Hc. cbn [context.poll]. cbv zeta.
  change (lexer.ch (lexer.set_ctx l None)) with (lexer.ch l). rewrite H0.
  change (0 =? 0)%Z with true. cbv iota.
  destruct l. unfold lexer.set_ctx. simpl in *. subst. reflexivity.
Qed.

(** A lexer at the end of a line has read the whole input or stands on a
    line-end byte. *)
Lemma wf_eol_inv :
  forall l,
    spec.lexer_wf l -> lexer.isEOL (lexer.ch l) = true ->
    skipn (lexer.position l) (lexer.input l) = [] \/
    exists c r, skipn (lexer.position l) (lexer.input l) = c :: r /\
                spec.isEOLByte c = true.
Proof.
  intros l (Hle & Hsync) He.
  destruct (skipn (lexer.position l) (lexer.input l)) as [|c s] eqn:Es.
  - left. reflexivity.
  - right. exists c, s. split; [reflexivity|]. destruct Hsync as (Hc & _).
    assert (Hsmall : (fst (DecodeRuneInString (c :: s)) < 128)%Z).
    { rewrite <- Hc. unfold lexer.isEOL in He. apply orb_true_iff in He.
      destruct He as [He|He]; apply Z.eqb_eq in He; rewrite He;
        vm_compute; reflexivity. }
    destruct (Decode_small c s Hsmall) as (Hd & _).
    rewrite Hd in Hc. cbn [fst] in Hc.
    unfold spec.isEOLByte. unfold lexer.isEOL in He. rewrite Hc in He.
    exact He.
Qed.

(** Two ways of cutting a text at its first line end agree. *)
Lemma line_split :
  forall a b x y : str,
    a ++ x = b ++ y ->
    Forall (fun c => spec.isEOLByte c = false) a ->
    Forall (fun c => spec.isEOLByte c = false) b ->
    (x = [] \/ exists c r, x = c :: r /\ spec.isEOLByte c = true) ->
    (y = [] \/ exists c r, y = c :: r /\ spec.isEOLByte c = true) ->
    a = b /\ x = y.
Proof.
  intros a. induction a as [|c a IH]; intros b x y H Ha Hb Hx Hy.
  - destruct b as [|d b]; [auto|]. exfalso. simpl in H.
    inversion Hb as [|? ? Hd _]; subst.
    destruct Hx as [Hx|(c & r & Hx & Hc)]; [discriminate|].
    injection Hx as -> _. congruence.
  - inversion Ha as [|? ? Hc Ha']; subst.
    destruct b as [|d b].
    + exfalso. simpl in H.
      destruct Hy as [Hy|(e & r & Hy & He)]; rewrite Hy in H;
        [discriminate|].
      injection H as -> _. congruence.
    + simpl in H. injection H as -> H.
      inversion Hb as [|? ? _ Hb']; subst.
      destruct (IH b x y H Ha' Hb' Hx Hy) as (-> & ->). auto.
Qed.

(** The first token of an input that is one line starting with ["#+"],
    with or without the newline that ends the line. *)
Lemma directive_line_token :
  forall fuel rest tail,
    Forall (fun b => spec.isEOLByte b = false) rest ->
    tail = [] \/ tail = [LF] ->
    length (lit "#+" ++ rest ++ tail) < fuel ->
    (Z.of_nat (length (lit "#+" ++ rest ++ tail))
     <= lexer.DefaultMaxInputSize)%Z ->
    exists typ l1,
      lexer.NextToken fuel (lexer.New (lit "#+" ++ rest ++ tail) [])
      = Ok (mkToken typ (lit "#+" ++ rest) 1 1, l1) /\
      typ = (if HasPrefix (ToUpper (lit "#+" ++ rest)) (lit "#+BEGIN_")
             then BLOCK_BEGIN
             else if HasPrefix (ToUpper (lit "#+" ++ rest)) (lit "#+END_")
                  then BLOCK_END else KEYWORD) /\
      lexer.err l1 = None /\ lexer.ctx l1 = None /\ spec.lexer_wf l1 /\
      skipn (lexer.position l1) (lexer.input l1) = tail.
Proof.
  intros fuel rest tail Hplain Htail Hf Hsize.
  set (line := lit "#+" ++ rest).
  set (input := lit "#+" ++ rest ++ tail) in *.
  set (l0 := lexer.New input []).
  destruct (New_plain input Hsize) as (He0 & Hc0). fold l0 in He0, Hc0.
  pose proof (New_wf input []) as Hwf0. fold l0 in Hwf0.
  assert (Hin0 : lexer.input l0 = input) by apply New_input.
  assert (Hp0 : lexer.position l0 = 0) by apply New_position.
  destruct (wf_ch l0 "#"%char ("+"%char :: rest ++ tail) Hwf0) as (Hch & Hrp).
  { rewrite Hin0, Hp0. reflexivity. }
  { vm_compute. reflexivity. }
  assert (Hpeek : lexer.peekChar l0 = rune "+").
  { unfold lexer.peekChar. rewrite Hrp, Hp0, Hin0. simpl.
    destruct (rest ++ tail); reflexivity. }
  assert (E : lexer.NextToken fuel l0
              = lexer.readOrgDirective fuel (lexer.set_ctx l0 None)).
  { unfold lexer.NextToken, lexer.checkContext. rewrite He0, Hc0.
    cbn [context.poll]. cbv zeta. set (l1 := lexer.set_ctx l0 None).
    change (lexer.ch l1) with (lexer.ch l0).
    change (lexer.position l1) with (lexer.position l0).
    change (lexer.peekChar l1) with (lexer.peekChar l0).
    rewrite Hch, Hp0, Hpeek. reflexivity. }
  set (l0' := lexer.set_ctx l0 None) in E.
  assert (Hwf0' : spec.lexer_wf l0') by exact Hwf0.
  destruct (readOrgDirective_total fuel l0' Hwf0') as (tok & l1 & Er & _).
  { unfold spec.remaining. change (lexer.input l0') with (lexer.input l0).
    change (lexer.position l0') with (lexer.position l0).
    rewrite Hin0, Hp0. lia. }
  { change (lexer.ch l0') with (lexer.ch l0). rewrite Hch. reflexivity. }
  destruct (readOrgDirective_lineToken _ _ _ _ Hwf0' Er)
    as ((Hcon & Hwf1 & Hnoeol & Hln & Hcol & _) & Heol & Herr).
  assert (Hi1 : lexer.input l1 = input).
  { destruct Hcon as (Hi & _). rewrite Hi. exact Hin0. }
  assert (Hcut : Literal tok = line /\
                 skipn (lexer.position l1) (lexer.input l1) = tail).
  { destruct Hcon as (_ & _ & Hs).
    change (lexer.position l0') with (lexer.position l0) in Hs.
    change (lexer.input l0') with (lexer.input l0) in Hs.
    rewrite Hp0, Hin0 in Hs. cbn [skipn] in Hs. rewrite Hi1.
    apply line_split.
    - symmetry. exact Hs.
    - exact Hnoeol.
    - unfold line. constructor; [reflexivity|].
      constructor; [reflexivity|exact Hplain].
    - rewrite <- Hi1. apply wf_eol_inv; assumption.
    - destruct Htail as [->| ->]; [left; reflexivity|].
      right. exists LF, []. split; reflexivity. }
  destruct Hcut as (Hlit & Hskip).
  assert (Hctx : lexer.ctx l1 = None).
  { unfold lexer.readOrgDirective in Er.
    apply bind_Ok in Er. destruct Er as ([lt l1'] & Hre & Er).
    assert (l1' = l1).
    { cbv beta iota zeta in Er.
      repeat match type of Er with
             | (if ?b then _ else _) = Ok _ => destruct b
             end; injection Er as _ <-; reflexivity. }
    subst l1'. unfold lexer.restOfLine in Hre.
    apply bind_Ok in Hre. destruct Hre as ([n2 l2] & Hrw & Hre).
    apply bind_Ok in Hre. destruct Hre as (x & _ & Hre).
    injection Hre as _ <-. apply readWhile_ctx in Hrw. exact Hrw. }
  exists (Typ tok), l1. rewrite E, Er.
  assert (Hl1 : lexer.line l0 = 1) by apply New_line.
  assert (Hc1 : lexer.column l0 = 1) by apply New_column.
  change (lexer.line l0') with (lexer.line l0) in Hln.
  change (lexer.column l0') with (lexer.column l0) in Hcol.
  splits.
  - destruct tok as [ty li ln co]. simpl in *. congruence.
  - unfold lexer.readOrgDirective in Er.
    apply bind_Ok in Er. destruct Er as ([lt l1'] & Hre & Er).
    cbv beta iota zeta in Er.
    assert (Hlt : lt = line).
    { repeat match type of Er with
             | (if ?b then _ else _) = Ok _ => destruct b
             end; injection Er as <- _; exact Hlit. }
    subst lt.
    destruct (HasPrefix (ToUpper line) (lit "#+BEGIN_"));
      [injection Er as <- _; reflexivity|].
    destruct (HasPrefix (ToUpper line) (lit "#+END_"));
      injection Er as <- _; reflexivity.
  - rewrite Herr. exact He0.
  - exact Hctx.
  - exact Hwf1.
  - exact Hskip.
Qed.

(** On the newline that ends the input, [NextToken] returns a NEWLINE token
    and reaches the end of the input. *)
Lemma NextToken_last_newline :
  forall fuel l,
    spec.lexer_wf l -> lexer.err l = None -> lexer.ctx l = None ->
    skipn (lexer.position l) (lexer.input l) = [LF] ->
    exists l2,
      lexer.NextToken fuel l
      = Ok (mkToken NEWLINE [LF] (lexer.line l) (lexer.column l), l2) /\
      lexer.err l2 = None /\ lexer.ctx l2 = None /\ lexer.ch l2 = 0%Z.
Proof.
  intros fuel l Hwf He Hc Hs.
  destruct (wf_ch l LF [] Hwf Hs) as (Hch & Hrp); [vm_compute; reflexivity|].
  assert (Hlen : length (lexer.input l) = lexer.position l + 1).
  { assert (H : length (skipn (lexer.position l) (lexer.input l)) = 1)
      by (rewrite Hs; reflexivity).
    rewrite length_skipn in H. lia. }
  eexists. split.
  - unfold lexer.NextToken, lexer.checkContext. rewrite He, Hc.
    cbn [context.poll]. cbv zeta.
    change (lexer.ch (lexer.set_ctx l None)) with (lexer.ch l). rewrite Hch.
    change (byte LF =? 0)%Z with false.
    change (byte LF =? rune LF)%Z with true. cbv iota.
    unfold lexer.newToken.
    change (lexer.line (lexer.set_ctx l None)) with (lexer.line l).
    change (lexer.column (lexer.set_ctx l None)) with (lexer.column l).
    reflexivity.
  - rewrite readChar_err, readChar_ctx. splits; [exact He|reflexivity|].
    unfold lexer.readChar. set (l' := lexer.set_line _ _).
    change (lexer.input l') with (lexer.input l).
    change (lexer.readPosition l') with (lexer.readPosition l).
    replace (length (lexer.input l) <=? lexer.readPosition l) with true
      by (symmetry; apply Nat.leb_le; lia).
    reflexivity.
Qed.

Lemma parseKeyword_keeps :
  forall p n p',
    parser.parseKeyword p = Ok (n, p') ->
    parser.l p' = parser.l p /\ parser.peekToken p' = parser.peekToken p /\
    parser.ctx p' = parser.ctx p.
Proof.
  intros p n p' H. unfold parser.parseKeyword in H. cbv zeta in H.
  destruct (negb (HasPrefix (Literal (parser.curToken p)) (lit "#+"))).
  { injection H as _ <-. auto. }
  apply bind_Ok in H. destruct H as (part0 & _ & H).
  destruct (str_eqb (TrimPrefix part0 (lit "#+")) []).
  { injection H as _ <-. auto. }
  apply bind_Ok in H. destruct H as (val & _ & H). injection H as _ <-. auto.
Qed.

Lemma nextToken_eq :
  forall fuel p tok l',
    lexer.NextToken fuel (parser.l p) = Ok (tok, l') ->
    parser.nextToken fuel p
    = Ok (parser.mkParser l' (parser.peekToken p) tok (parser.errors p)
                          (parser.ctx p)).
Proof.
  intros fuel p tok l' H. unfold parser.nextToken. rewrite H. reflexivity.
Qed.

(** One round of the loop of [ParseDocument] on a token that is not the end
    of the input, with a background context and no lexer error. *)
Lemma ParseDocument_loop_step :
  forall fuel n p st node p1 p2,
    parser.curTokenIs p EOF = false ->
    parser.ctx p = None -> lexer.err (parser.l p) = None ->
    parser.parseNode fuel p = Ok (node, p1) ->
    parser.nextToken fuel p1 = Ok p2 ->
    parser.ParseDocument_loop fuel (S n) p st
    = parser.ParseDocument_loop fuel n p2 (parser.attach st node).
Proof.
  intros fuel n p st node p1 p2 Hcur Hctx Herr Hnode Hnext.
  cbn [parser.ParseDocument_loop]. rewrite Hcur.
  unfold parser.checkContext. rewrite Hctx. cbn [context.poll].
  cbv beta iota.
  replace (parser.mkParser (parser.l p) (parser.curToken p)
             (parser.peekToken p) (parser.errors p) None)
    with p by (destruct p; simpl in Hctx; subst; reflexivity).
  unfold lexer.Err. rewrite Herr, Hnode. cbn [bind]. cbv beta iota.
  rewrite Hnext. reflexivity.
Qed.

(** Parsing an input that is one keyword line, with or without its
    newline: the document holds what [parseKeyword] makes of the line. *)
Lemma Parse_keyword_line :
  forall fuel rest tail,
    Forall (fun b => spec.isEOLByte b = false) rest ->
    tail = [] \/ tail = [LF] ->
    length (lit "#+" ++ rest ++ tail) + 2 < fuel ->
    (Z.of_nat (length (lit "#+" ++ rest ++ tail))
     <= lexer.DefaultMaxInputSize)%Z ->
    HasPrefix (ToUpper (lit "#+" ++ rest)) (lit "#+BEGIN_") = false ->
    HasPrefix (ToUpper (lit "#+" ++ rest)) (lit "#+END_") = false ->
    exists p,
      parser.curToken p = mkToken KEYWORD (lit "#+" ++ rest) 1 1 /\
      parser.errors p = [] /\
      forall n p',
        parser.parseKeyword p = Ok (n, p') ->
        parser.Parse fuel (lit "#+" ++ rest ++ tail) [] []
        = Ok (ast.mkDocument [n], parser.errors p').
Proof.
  intros fuel rest tail Hplain Htail Hf Hsize Hb He.
  destruct (directive_line_token fuel rest tail Hplain Htail ltac:(lia) Hsize)
    as (typ & l1 & E1 & Htyp & Herr1 & Hctx1 & Hwf1 & Hskip).
  rewrite Hb, He in Htyp. subst typ.
  set (line := lit "#+" ++ rest) in *.
  set (input := lit "#+" ++ rest ++ tail) in *.
  set (tok1 := mkToken KEYWORD line 1 1) in *.
  destruct (New_plain input Hsize) as (He0 & _).
  assert (Hloop : forall p st,
             parser.curTokenIs p EOF = true ->
             forall n, parser.ParseDocument_loop fuel (S n) p st = Ok (st, p)).
  { intros p st Hp n. cbn [parser.ParseDocument_loop]. rewrite Hp.
    reflexivity. }
  assert (Hfuel : exists f, fuel = S (S (S f))).
  { destruct fuel as [|[|[|f]]]; try (simpl in Hf; lia). exists f.
    reflexivity. }
  destruct Hfuel as (f & Hfuel).
  destruct Htail as [-> | ->].
  - (* the line ends the input *)
    assert (Hch1 : lexer.ch l1 = 0%Z).
    { destruct Hwf1 as (_ & Hsync). rewrite Hskip in Hsync. tauto. }
    set (tok2 := mkToken EOF [] (lexer.line l1) (lexer.column l1)).
    pose proof (NextToken_at_end fuel l1 Herr1 Hctx1 Hch1) as E2.
    fold tok2 in E2.
    exists (parser.mkParser l1 tok1 tok2 [] context.Background).
    splits; [reflexivity|reflexivity|]. intros n p' Hk.
    destruct (parseKeyword_keeps _ _ _ Hk) as (Hl' & Hpk' & Hc').
    cbn [parser.l parser.peekToken parser.ctx] in Hl', Hpk', Hc'.
    unfold parser.Parse, parser.New. cbn [fold_left].
    unfold lexer.Err at 1. rewrite He0.
    rewrite (nextToken_eq fuel
               (parser.mkParser (lexer.New input []) parser.zeroToken
                                parser.zeroToken [] context.Background)
               tok1 l1 E1).
    cbn [bind parser.peekToken parser.errors parser.ctx].
    rewrite (nextToken_eq fuel
               (parser.mkParser l1 parser.zeroToken tok1 [] context.Background)
               tok2 l1 E2).
    cbn [bind parser.peekToken parser.errors parser.ctx].
    unfold parser.ParseDocument, parser.ParseDocument_store.
    rewrite Hfuel at 2.
    rewrite (ParseDocument_loop_step fuel _
               (parser.mkParser l1 tok1 tok2 [] context.Background) _
               (parser.NewNode n) p'
               (parser.mkParser l1 tok2 tok2 (parser.errors p')
                                context.Background)).
    + rewrite Hloop by reflexivity. reflexivity.
    + reflexivity.
    + reflexivity.
    + exact Herr1.
    + unfold parser.parseNode. cbn [parser.curToken tok1 Typ].
      rewrite Hk. reflexivity.
    + rewrite (nextToken_eq fuel p' tok2 l1) by (rewrite Hl'; exact E2).
      rewrite Hpk', Hc'. reflexivity.
  - (* a newline ends the line and the input *)
    destruct (NextToken_last_newline fuel l1 Hwf1 Herr1 Hctx1 Hskip)
      as (l2 & E2 & Herr2 & Hctx2 & Hch2).
    set (tok2 := mkToken NEWLINE [LF] (lexer.line l1) (lexer.column l1)) in *.
    set (tok3 := mkToken EOF [] (lexer.line l2) (lexer.column l2)).
    pose proof (NextToken_at_end fuel l2 Herr2 Hctx2 Hch2) as E3.
    fold tok3 in E3.
    exists (parser.mkParser l2 tok1 tok2 [] context.Background).
    splits; [reflexivity|reflexivity|]. intros n p' Hk.
    destruct (parseKeyword_keeps _ _ _ Hk) as (Hl' & Hpk' & Hc').
    cbn [parser.l parser.peekToken parser.ctx] in Hl', Hpk', Hc'.
    unfold parser.Parse, parser.New. cbn [fold_left].
    unfold lexer.Err at 1. rewrite He0.
    rewrite (nextToken_eq fuel
               (parser.mkParser (lexer.New input []) parser.zeroToken
                                parser.zeroToken [] context.Background)
               tok1 l1 E1).
    cbn [bind parser.peekToken parser.errors parser.ctx].
    rewrite (nextToken_eq fuel
               (parser.mkParser l1 parser.zeroToken tok1 [] context.Background)
               tok2 l2 E2).
    cbn [bind parser.peekToken parser.errors parser.ctx].
    unfold parser.ParseDocument, parser.ParseDocument_store.
    rewrite Hfuel at 2.
    rewrite (ParseDocument_loop_step fuel _
               (parser.mkParser l2 tok1 tok2 [] context.Background) _
               (parser.NewNode n) p'
               (parser.mkParser l2 tok2 tok3 (parser.errors p')
                                context.Background)).
    + rewrite (ParseDocument_loop_step fuel _
                 (parser.mkParser l2 tok2 tok3 (parser.errors p')
                                  context.Background) _
                 parser.NoNode
                 (parser.mkParser l2 tok2 tok3 (parser.errors p')
                                  context.Background)
                 (parser.mkParser l2 tok3 tok3 (parser.errors p')
                                  context.Background)).
      * rewrite Hloop by reflexivity. reflexivity.
      * reflexivity.
      * reflexivity.
      * exact Herr2.
      * reflexivity.
      * rewrite (nextToken_eq fuel _ tok3 l2) by exact E3. reflexivity.
    + reflexivity.
    + reflexivity.
    + exact Herr2.
    + unfold parser.parseNode. cbn [parser.curToken tok1 Typ].
      rewrite Hk. reflexivity.
    + rewrite (nextToken_eq fuel p' tok3 l2) by (rewrite Hl'; exact E3).
      rewrite Hpk', Hc'. reflexivity.
Qed.

Lemma HasPrefix_before_colon :
  forall key more pre,
    ~ In ":"%char pre ->
    HasPrefix (ToUpper key) pre = false ->
    HasPrefix (ToUpper (key ++ ":"%char :: more)) pre = false.
Proof.
  induction key as [|c k IH]; intros more pre Hn H.
  - destruct pre as [|d pre]; [discriminate|]. simpl.
    change (toUpper ":"%char) with ":"%char.
    destruct (Ascii.eqb d ":"%char) eqn:E; [|reflexivity].
    apply Ascii.eqb_eq in E. exfalso. apply Hn. left. exact E.
  - destruct pre as [|d pre]; [discriminate|]. simpl in *.
    destruct (Ascii.eqb d (toUpper c)); [|reflexivity]. simpl in *.
    apply IH; [|exact H]. intros Hc. apply Hn. right. exact Hc.
Qed.

(** X15. An input that is the single line [#+] or [#+:...], with or
    without its newline, parses to a document whose only child is the nil
    keyword [parseKeyword] returns for an empty key, with the one diagnostic
    ["empty keyword key"] at line 1. [String()] and [TokenLiteral()] of
    that document panic. *)
Theorem X15_empty_key_document_panics :
  forall fuel rest tail order,
    rest = [] \/ (exists r, rest = ":"%char :: r) ->
    Forall (fun b => spec.isEOLByte b = false) rest ->
    tail = [] \/ tail = [LF] ->
    length (lit "#+" ++ rest ++ tail) + 2 < fuel ->
    (Z.of_nat (length (lit "#+" ++ rest ++ tail))
     <= lexer.DefaultMaxInputSize)%Z ->
    exists d,
      parser.Parse fuel (lit "#+" ++ rest ++ tail) [] []
      = Ok (d, [parser.DiagLine 1 (parser.MsgEmptyKey (lit "#+" ++ rest))]) /\
      ast.docChildren d = [ast.NilKeyword] /\
      ast.DocumentString order d = Panic /\
      ast.DocumentTokenLiteral d = Panic.
Proof.
  intros fuel rest tail order Hrest Hplain Htail Hf Hsize.
  destruct (Parse_keyword_line fuel rest tail Hplain Htail Hf Hsize)
    as (p & Hcur & Herrs & Hparse).
  { destruct Hrest as [-> | (r & ->)]; reflexivity. }
  { destruct Hrest as [-> | (r & ->)]; reflexivity. }
  assert (Hk : parser.parseKeyword p
               = Ok (ast.NilKeyword,
                     parser.addError p
                       (parser.MsgEmptyKey (lit "#+" ++ rest)))).
  { unfold parser.parseKeyword. rewrite Hcur. cbn [Literal].
    rewrite (HasPrefix_sharp_plus rest). cbn [negb]. cbv zeta.
    destruct Hrest as [-> | (r & ->)]; reflexivity. }
  exists (ast.mkDocument [ast.NilKeyword]).
  rewrite (Hparse _ _ Hk). unfold parser.addError.
  cbn [parser.errors]. rewrite Herrs, Hcur. cbn [Line app].
  splits; reflexivity.
Qed.

Lemma X15_empty_key_document_panics_witness :
  exists d,
    parser.Parse 20 (lit "#+" ++ lit ": no key" ++ [LF]) [] []
    = Ok (d, [parser.DiagLine 1 (parser.MsgEmptyKey (lit "#+: no key"))]) /\
    ast.docChildren d = [ast.NilKeyword] /\
    ast.DocumentString (fun m => m) d = Panic /\
    ast.DocumentTokenLiteral d = Panic.
Proof.
  apply (X15_empty_key_document_panics 20 (lit ": no key") [LF] (fun m => m)).
  - right. eexists. reflexivity.
  - repeat constructor.
  - right. reflexivity.
  - simpl. lia.
  - vm_compute. discriminate.
Defined.

(** X16. Printing and parsing a keyword are inverse to each other on one
    line: for a non-empty ASCII key without colon or line end that does not
    start with [BEGIN_] or [END_] in any case, and a value without line end
    that starts and ends with an ASCII byte other than white space (or is
    empty), the text [String()] gives for the
    keyword, ["#+" key ": " value "\n"], parses without diagnostics to a
    document that holds exactly one Keyword with that key and that value,
    on the token of the line; [String()] of the parsed document is the
    text again. *)
Theorem X16_keyword_round_trip :
  forall fuel key value order tok0,
    key <> [] -> ~ In ":"%char key ->
    spec.isASCII key = true ->
    Forall (fun b => spec.isEOLByte b = false) key ->
    Forall (fun b => spec.isEOLByte b = false) value ->
    TrimSpace value = value -> spec.asciiEnds value = true ->
    HasPrefix (ToUpper key) (lit "BEGIN_") = false ->
    HasPrefix (ToUpper key) (lit "END_") = false ->
    length key + length value + 7 < fuel ->
    (Z.of_nat (length key + length value + 5)
     <= lexer.DefaultMaxInputSize)%Z ->
    exists text d,
      ast.String order (ast.Keyword tok0 key value) = Ok text /\
      parser.Parse fuel text [] [] = Ok (d, []) /\
      ast.docChildren d
      = [ast.Keyword (mkToken KEYWORD (lit "#+" ++ key ++ lit ": " ++ value)
                              1 1) key value] /\
      ast.DocumentString order d = Ok text.
Proof.
  intros fuel key value order tok0 Hkey Hcolon _ Hk Hv Htrim _ Hb He Hf Hsize.
  set (rest := key ++ lit ": " ++ value).
  assert (Hlen : length (lit "#+" ++ rest ++ [LF])
                 = length key + length value + 5).
  { unfold rest. rewrite !length_app. simpl. lia. }
  destruct (Parse_keyword_line fuel rest [LF]) as (p & Hcur & Herrs & Hparse).
  - unfold rest. apply Forall_app. split; [exact Hk|].
    constructor; [reflexivity|]. constructor; [reflexivity|exact Hv].
  - right. reflexivity.
  - rewrite Hlen. lia.
  - rewrite Hlen. exact Hsize.
  - unfold rest.
    change (HasPrefix (ToUpper (key ++ ":"%char :: " "%char :: value))
                      (lit "BEGIN_") = false).
    apply HasPrefix_before_colon; [|exact Hb].
    vm_compute. intuition discriminate.
  - unfold rest.
    change (HasPrefix (ToUpper (key ++ ":"%char :: " "%char :: value))
                      (lit "END_") = false).
    apply HasPrefix_before_colon; [|exact He].
    vm_compute. intuition discriminate.
  - assert (Hpk : parser.parseKeyword p
                  = Ok (ast.Keyword (parser.curToken p) key value, p)).
    { unfold parser.parseKeyword. rewrite Hcur. cbn [Literal]. unfold rest.
      rewrite (HasPrefix_sharp_plus (key ++ lit ": " ++ value)).
      cbn [negb]. cbv zeta.
      change (lit "#+" ++ key ++ lit ": " ++ value)
        with ((lit "#+" ++ key) ++ ":"%char :: " "%char :: value).
      rewrite SplitN2_found.
      2:{ intros [H|[H|H]]; [discriminate|discriminate|exact (Hcolon H)]. }
      cbn [parser.index nth_error bind length Nat.ltb Nat.leb].
      rewrite TrimPrefix_sharp_plus, (str_eqb_neq key [] Hkey).
      change (TrimSpace (" "%char :: value)) with (TrimSpace value).
      rewrite Htrim. reflexivity. }
    exists (lit "#+" ++ rest ++ [LF]),
           (ast.mkDocument [ast.Keyword (parser.curToken p) key value]).
    assert (Htext : lit "#+" ++ key ++ lit ": " ++ value ++ [LF]
                    = lit "#+" ++ rest ++ [LF]).
    { unfold rest. rewrite <- !app_assoc. reflexivity. }
    rewrite (Hparse _ _ Hpk), Herrs, Hcur.
    splits.
    + cbn [ast.String]. rewrite Htext. reflexivity.
    + reflexivity.
    + reflexivity.
    + unfold ast.DocumentString.
      cbn [ast.docChildren fold_left bind ast.String app].
      rewrite Htext, ?app_nil_r. reflexivity.
Qed.

Lemma X16_keyword_round_trip_witness :
  exists text d,
    ast.String (fun m => m)
      (ast.Keyword (mkToken KEYWORD [] 0 0) (lit "TITLE") (lit "My Document"))
    = Ok text /\
    parser.Parse 40 text [] [] = Ok (d, []) /\
    ast.docChildren d
    = [ast.Keyword
         (mkToken KEYWORD
                  (lit "#+" ++ lit "TITLE" ++ lit ": " ++ lit "My Document")
                  1 1)
         (lit "TITLE") (lit "My Document")] /\
    ast.DocumentString (fun m => m) d = Ok text.
Proof.
  apply (X16_keyword_round_trip 40 (lit "TITLE") (lit "My Document")
           (fun m => m) (mkToken KEYWORD [] 0 0)).
  - discriminate.
  - vm_compute. intuition discriminate.
  - reflexivity.
  - repeat constructor.
  - repeat constructor.
  - reflexivity.
  - reflexivity.
  - reflexivity.
  - reflexivity.
  - simpl. lia.
  - vm_compute. discriminate.
Defined.

(** ** Documents of one line *)

(** From the start of a line to its end: the literal is the line. *)
Lemma restOfLine_line :
  forall fuel l line tail,
    spec.lexer_wf l -> spec.remaining l < fuel ->
    skipn (lexer.position l) (lexer.input l) = line ++ tail ->
    Forall (fun b => spec.isEOLByte b = false) line ->
    (tail = [] \/ exists c r, tail = c :: r /\ spec.isEOLByte c = true) ->
    exists l1,
      lexer.restOfLine fuel (lexer.position l) l = Ok (line, l1) /\
      spec.lexer_wf l1 /\ lexer.input l1 = lexer.input l /\
      lexer.err l1 = lexer.err l /\ lexer.ctx l1 = lexer.ctx l /\
      skipn (lexer.position l1) (lexer.input l1) = tail.
Proof.
  intros fuel l line tail Hwf Hfuel Hs Hline Htail.
  destruct (restOfLine_total fuel (lexer.position l) l Hwf Hfuel (le_n _))
    as (literal & l1 & H & _).
  destruct (restOfLine_consumed fuel l l [] literal l1 Hwf (consumed_refl l)
              (Forall_nil _) H)
    as ((Hi & _ & Hc) & Hwf1 & Heol & Hlit & _ & Herr).
  assert (Hcut : literal = line /\
                 skipn (lexer.position l1) (lexer.input l1) = tail).
  { rewrite Hi. apply line_split; try assumption.
    - rewrite <- Hc. exact Hs.
    - rewrite <- Hi. apply wf_eol_inv; assumption. }
  destruct Hcut as (-> & Hskip).
  exists l1. splits; try assumption.
  unfold lexer.restOfLine in H.
  apply bind_Ok in H. destruct H as ([n2 l2] & Hrw & H).
  apply bind_Ok in H. destruct H as (x & _ & H).
  injection H as _ <-. apply readWhile_ctx in Hrw. exact Hrw.
Qed.

(** The first token of an input that is one line, read by a line reader
    that [NextToken] selects from the first bytes. *)
Lemma first_line_token :
  forall fuel line tail
         (reader : nat -> lexer.Lexer -> result (Token * lexer.Lexer))
         (typ : str -> TokenType),
    Forall (fun b => spec.isEOLByte b = false) line ->
    tail = [] \/ tail = [LF] ->
    length (line ++ tail) < fuel ->
    (Z.of_nat (length (line ++ tail)) <= lexer.DefaultMaxInputSize)%Z ->
    (forall l,
        reader fuel l
        = ('(literal, l1) <- lexer.restOfLine fuel (lexer.position l) l ;;
           Ok (mkToken (typ literal) literal (lexer.line l) (lexer.column l),
               l1))) ->
    lexer.NextToken fuel (lexer.New (line ++ tail) [])
    = reader fuel (lexer.set_ctx (lexer.New (line ++ tail) []) None) ->
    exists l1,
      lexer.NextToken fuel (lexer.New (line ++ tail) [])
      = Ok (mkToken (typ line) line 1 1, l1) /\
      lexer.err l1 = None /\ lexer.ctx l1 = None /\ spec.lexer_wf l1 /\
      skipn (lexer.position l1) (lexer.input l1) = tail.
Proof.
  intros fuel line tail reader typ Hline Htail Hf Hsize Hreader E.
  set (input := line ++ tail) in *.
  set (l0 := lexer.New input []) in *.
  destruct (New_plain input Hsize) as (He0 & Hc0). fold l0 in He0, Hc0.
  pose proof (New_wf input []) as Hwf0. fold l0 in Hwf0.
  assert (Hin0 : lexer.input l0 = input) by apply New_input.
  assert (Hp0 : lexer.position l0 = 0) by apply New_position.
  assert (Hl1 : lexer.line l0 = 1) by apply New_line.
  assert (Hc1 : lexer.column l0 = 1) by apply New_column.
  set (l0' := lexer.set_ctx l0 None) in *.
  destruct (restOfLine_line fuel l0' line tail) as (l1 & Hr & Hwf1 & _ & He1 & Hx1 & Hs1).
  - exact Hwf0.
  - unfold spec.remaining. change (lexer.input l0') with (lexer.input l0).
    change (lexer.position l0') with (lexer.position l0).
    rewrite Hin0, Hp0. lia.
  - change (lexer.input l0') with (lexer.input l0).
    change (lexer.position l0') with (lexer.position l0).
    rewrite Hin0, Hp0. reflexivity.
  - exact Hline.
  - destruct Htail as [-> | ->]; [left; reflexivity|].
    right. exists LF, []. split; reflexivity.
  - exists l1. rewrite E, Hreader, Hr. cbn [bind].
    change (lexer.line l0') with (lexer.line l0).
    change (lexer.column l0') with (lexer.column l0).
    rewrite Hl1, Hc1. splits; try assumption; try reflexivity.
    rewrite He1. exact He0.
Qed.

(** [NextToken] on a fresh lexer with the default options reads the first
    rune at a line start. *)
Lemma NextToken_first :
  forall input,
    (Z.of_nat (length input) <= lexer.DefaultMaxInputSize)%Z ->
    lexer.err (lexer.New input []) = None /\
    lexer.checkContext (lexer.New input [])
    = (false, lexer.set_ctx (lexer.New input []) None) /\
    lexer.position (lexer.New input []) = 0.
Proof.
  intros input Hsize. destruct (New_plain input Hsize) as (He & Hc).
  splits; [exact He| |apply New_position].
  unfold lexer.checkContext. rewrite Hc. reflexivity.
Qed.

(** The parser over an input of one line: the lexer has reached the end of
    the input when [New] returns, and the document holds the node
    [parseNode] makes of the line. *)
Lemma Parse_first_line :
  forall fuel line tail tok1 l1,
    tail = [] \/ tail = [LF] ->
    2 < fuel ->
    (Z.of_nat (length (line ++ tail)) <= lexer.DefaultMaxInputSize)%Z ->
    lexer.NextToken fuel (lexer.New (line ++ tail) []) = Ok (tok1, l1) ->
    Typ tok1 <> EOF ->
    lexer.err l1 = None -> lexer.ctx l1 = None -> spec.lexer_wf l1 ->
    skipn (lexer.position l1) (lexer.input l1) = tail ->
    exists p tokE,
      parser.curToken p = tok1 /\ parser.errors p = [] /\
      parser.ctx p = None /\ Typ tokE = EOF /\
      lexer.NextToken fuel (parser.l p) = Ok (tokE, parser.l p) /\
      ((tail = [] /\ parser.peekToken p = tokE) \/
       (tail = [LF] /\ Typ (parser.peekToken p) = NEWLINE)) /\
      forall n p',
        parser.parseNode fuel p = Ok (parser.NewNode n, p') ->
        parser.l p' = parser.l p -> parser.ctx p' = None ->
        parser.peekToken p' = parser.peekToken p \/
        parser.peekToken p' = tokE ->
        parser.Parse fuel (line ++ tail) [] []
        = Ok (ast.mkDocument [n], parser.errors p').
Proof.
  intros fuel line tail tok1 l1 Htail Hf Hsize E1 Htyp Herr1 Hctx1 Hwf1 Hskip.
  set (input := line ++ tail) in *.
  destruct (New_plain input Hsize) as (He0 & _).
  assert (Hloop : forall p st,
             parser.curTokenIs p EOF = true ->
             forall n, parser.ParseDocument_loop fuel (S n) p st = Ok (st, p)).
  { intros p st Hp n. cbn [parser.ParseDocument_loop]. rewrite Hp.
    reflexivity. }
  assert (Hne : token.eqb (Typ tok1) EOF = false).
  { destruct (Typ tok1); try reflexivity. contradiction. }
  assert (Hfuel : exists f, fuel = S (S (S f))).
  { destruct fuel as [|[|[|f]]]; try lia. exists f. reflexivity. }
  destruct Hfuel as (f & Hfuel).
  assert (Hend : exists lE tok2 tokE,
             lexer.NextToken fuel l1 = Ok (tok2, lE) /\
             lexer.NextToken fuel lE = Ok (tokE, lE) /\
             lexer.err lE = None /\ Typ tokE = EOF /\
             ((tail = [] /\ tok2 = tokE) \/
              (tail = [LF] /\ Typ tok2 = NEWLINE))).
  { destruct Htail as [Ht | Ht].
    - assert (Hch1 : lexer.ch l1 = 0%Z).
      { destruct Hwf1 as (_ & Hsync). rewrite Hskip, Ht in Hsync. tauto. }
      pose proof (NextToken_at_end fuel l1 Herr1 Hctx1 Hch1) as E2.
      eexists l1, _, _. splits; try exact E2; try assumption; try reflexivity.
      left. split; [exact Ht|reflexivity].
    - rewrite Ht in Hskip.
      destruct (NextToken_last_newline fuel l1 Hwf1 Herr1 Hctx1 Hskip)
        as (l2 & E2 & Herr2 & Hctx2 & Hch2).
      pose proof (NextToken_at_end fuel l2 Herr2 Hctx2 Hch2) as E3.
      eexists l2, _, _. splits; try exact E2; try exact E3; try assumption;
        try reflexivity.
      right. split; [exact Ht|reflexivity]. }
  destruct Hend as (lE & tok2 & tokE & E2 & E3 & HerrE & HtypE & Hpeek).
  exists (parser.mkParser lE tok1 tok2 [] context.Background), tokE.
  splits; try reflexivity; try assumption.
  intros n p' Hnode Hl' Hc' Hpk'.
  cbn [parser.l parser.peekToken parser.ctx] in Hl', Hc', Hpk'.
  unfold parser.Parse, parser.New. cbn [fold_left].
  unfold lexer.Err at 1. rewrite He0.
  rewrite (nextToken_eq fuel
             (parser.mkParser (lexer.New input []) parser.zeroToken
                              parser.zeroToken [] context.Background)
             tok1 l1 E1).
  cbn [bind parser.peekToken parser.errors parser.ctx].
  rewrite (nextToken_eq fuel
             (parser.mkParser l1 parser.zeroToken tok1 [] context.Background)
             tok2 lE E2).
  cbn [bind parser.peekToken parser.errors parser.ctx].
  unfold parser.ParseDocument, parser.ParseDocument_store.
  rewrite Hfuel at 2.
  rewrite (ParseDocument_loop_step fuel _
             (parser.mkParser lE tok1 tok2 [] context.Background) _
             (parser.NewNode n) p'
             (parser.mkParser lE (parser.peekToken p') tokE (parser.errors p')
                              context.Background));
    [ | exact Hne | reflexivity | exact HerrE | exact Hnode
      | rewrite (nextToken_eq fuel p' tokE lE) by (rewrite Hl'; exact E3);
        rewrite Hc'; reflexivity ].
  assert (Hcases : Typ (parser.peekToken p') = EOF \/
                   (Typ (parser.peekToken p') = NEWLINE)).
  { destruct Hpk' as [-> | ->]; [|left; exact HtypE].
    destruct Hpeek as [(_ & ->) | (_ & H)]; [left; exact HtypE|right; exact H]. }
  destruct Hcases as [Hc | Hc].
  - rewrite Hloop; [reflexivity|].
    unfold parser.curTokenIs. cbn [parser.curToken]. rewrite Hc. reflexivity.
  - rewrite (ParseDocument_loop_step fuel _
               (parser.mkParser lE (parser.peekToken p') tokE
                                (parser.errors p') context.Background) _
               parser.NoNode
               (parser.mkParser lE (parser.peekToken p') tokE
                                (parser.errors p') context.Background)
               (parser.mkParser lE tokE tokE (parser.errors p')
                                context.Background)).
    + rewrite Hloop; [reflexivity|].
      unfold parser.curTokenIs. cbn [parser.curToken]. rewrite HtypE.
      reflexivity.
    + unfold parser.curTokenIs. cbn [parser.curToken]. rewrite Hc.
      reflexivity.
    + reflexivity.
    + exact HerrE.
    + unfold parser.parseNode. cbn [parser.curToken]. rewrite Hc.
      reflexivity.
    + rewrite (nextToken_eq fuel _ tokE lE) by exact E3. reflexivity.
Qed.

(** The rune under the cursor of a fresh lexer and the one after it, for an
    input that starts with an ASCII byte. *)
Lemma New_first_bytes :
  forall c rest,
    (byte c < 128)%Z ->
    lexer.ch (lexer.New (c :: rest) []) = byte c /\
    lexer.peekChar (lexer.New (c :: rest) [])
    = match rest with
      | [] => 0%Z
      | _ => fst (DecodeRuneInString rest)
      end.
Proof.
  intros c rest Hc.
  pose proof (New_wf (c :: rest) []) as Hwf.
  destruct (wf_ch _ c rest Hwf) as (Hch & Hrp).
  { rewrite New_input, New_position. reflexivity. }
  { exact Hc. }
  split; [exact Hch|].
  unfold lexer.peekChar. rewrite Hrp, New_position, New_input.
  destruct rest; reflexivity.
Qed.

(** X17. Printing and parsing a comment are inverse to each other: the
    text [String()] gives for a comment whose content holds no line end,
    ["# " content "\n"], lexes as one COMMENT token and parses without
    diagnostics to a document that holds exactly one Comment with that
    content; [String()] of the parsed document is the text again. *)
Theorem X17_comment_round_trip :
  forall fuel content order tok0,
    Forall (fun b => spec.isEOLByte b = false) content ->
    length content + 3 < fuel ->
    (Z.of_nat (length content + 3) <= lexer.DefaultMaxInputSize)%Z ->
    exists text d,
      ast.String order (ast.Comment tok0 content) = Ok text /\
      parser.Parse fuel text [] [] = Ok (d, []) /\
      ast.docChildren d
      = [ast.Comment (mkToken COMMENT (lit "# " ++ content) 1 1) content] /\
      ast.DocumentString order d = Ok text.
Proof.
  intros fuel content order tok0 Hplain Hf Hsize.
  set (line := lit "# " ++ content).
  assert (Hlen : length (line ++ [LF]) = length content + 3).
  { unfold line. rewrite !length_app. simpl. lia. }
  destruct (first_line_token fuel line [LF] lexer.readComment
              (fun _ => COMMENT)) as (l1 & E1 & Herr1 & Hctx1 & Hwf1 & Hskip).
  - unfold line. constructor; [reflexivity|].
    constructor; [reflexivity|exact Hplain].
  - right. reflexivity.
  - rewrite Hlen. lia.
  - rewrite Hlen. exact Hsize.
  - intros l. reflexivity.
  - destruct (NextToken_first (line ++ [LF])) as (He0 & Hcc & Hp0).
    { rewrite Hlen. exact Hsize. }
    destruct (New_first_bytes "#"%char (" "%char :: content ++ [LF]))
      as (Hch & Hpeek); [vm_compute; reflexivity|].
    change ("#"%char :: " "%char :: content ++ [LF]) with (line ++ [LF])
      in Hch, Hpeek.
    unfold lexer.NextToken. rewrite He0, Hcc. cbv zeta.
    set (l0 := lexer.New (line ++ [LF]) []) in *.
    change (lexer.ch (lexer.set_ctx l0 None)) with (lexer.ch l0).
    change (lexer.position (lexer.set_ctx l0 None)) with (lexer.position l0).
    change (lexer.peekChar (lexer.set_ctx l0 None)) with (lexer.peekChar l0).
    rewrite Hch, Hp0, Hpeek.
    rewrite (Decode_ascii " "%char (content ++ [LF]))
      by (vm_compute; reflexivity).
    reflexivity.
  - destruct (Parse_first_line fuel line [LF] _ l1 (or_intror eq_refl)
                ltac:(lia) ltac:(rewrite Hlen; exact Hsize) E1
                ltac:(discriminate) Herr1 Hctx1 Hwf1 Hskip)
      as (p & tokE & Hcur & Herrs & Hctx & HtypE & HE & Hpeek & Hparse).
    assert (Hnode : parser.parseNode fuel p
                    = Ok (parser.NewNode (ast.Comment (parser.curToken p)
                                                      content), p)).
    { unfold parser.parseNode, parser.parseComment. rewrite Hcur.
      cbn [Typ Literal]. unfold line.
      replace (HasPrefix (lit "# " ++ content) (lit "# ")) with true
        by (destruct content; reflexivity).
      cbv iota. unfold sliceFrom, slice.
      replace ((2 <=? length (lit "# " ++ content))
               && (length (lit "# " ++ content)
                   <=? length (lit "# " ++ content))) with true.
      2:{ symmetry. apply andb_true_iff. split; apply Nat.leb_le;
          simpl; lia. }
      cbn [bind]. simpl length. simpl skipn.
      replace (S (S (length content)) - 2) with (length content) by lia.
      rewrite firstn_all. reflexivity. }
    exists (line ++ [LF]), (ast.mkDocument [ast.Comment (parser.curToken p)
                                                     content]).
    rewrite (Hparse _ _ Hnode eq_refl Hctx (or_introl eq_refl)), Herrs, Hcur.
    splits.
    + cbn [ast.String]. unfold line. rewrite <- !app_assoc. reflexivity.
    + reflexivity.
    + reflexivity.
    + unfold ast.DocumentString.
      cbn [ast.docChildren fold_left bind ast.String app].
      unfold line. rewrite <- !app_assoc, ?app_nil_r. reflexivity.
Qed.

Lemma X17_comment_round_trip_witness :
  exists text d,
    ast.String (fun m => m)
      (ast.Comment (mkToken COMMENT [] 0 0) (lit "note to self")) = Ok text /\
    parser.Parse 20 text [] [] = Ok (d, []) /\
    ast.docChildren d
    = [ast.Comment (mkToken COMMENT (lit "# " ++ lit "note to self") 1 1)
                   (lit "note to self")] /\
    ast.DocumentString (fun m => m) d = Ok text.
Proof.
  apply (X17_comment_round_trip 20 (lit "note to self") (fun m => m)
           (mkToken COMMENT [] 0 0)).
  - repeat constructor.
  - simpl. lia.
  - vm_compute. discriminate.
Defined.

(** The rune a plain first byte starts is none of those [NextToken]
    dispatches on. *)
Lemma plainStart_rune :
  forall c rest,
    spec.plainStart c = true ->
    let r := fst (DecodeRuneInString (c :: rest)) in
    Forall (fun k => r <> k)
           [0; rune LF; rune "*"; rune "#"; rune ":"; rune "-"; rune "+";
            rune "|"; rune " "; 9]%Z /\
    lexer.isDigitRune r = false.
Proof.
  intros c rest Hplain r.
  destruct (Z.lt_ge_cases r 128) as [Hlt | Hge].
  - destruct (Decode_small c rest Hlt) as (Hd & _).
    assert (Hr : r = byte c) by (unfold r; rewrite Hd; reflexivity).
    rewrite Hr. clear - Hplain.
    destruct c as [[] [] [] [] [] [] [] []]; try discriminate Hplain;
      (split; [repeat constructor; vm_compute; discriminate|reflexivity]).
  - split.
    + repeat constructor; intros E; rewrite E in Hge; vm_compute in Hge;
        apply Hge; reflexivity.
    + unfold lexer.isDigitRune. apply andb_false_iff. right.
      apply Z.leb_gt. vm_compute (rune "9"). lia.
Qed.

(** A line that starts with a plain byte is read by [readTextLine]. *)
Lemma NextToken_plain :
  forall fuel c rest,
    spec.plainStart c = true ->
    (Z.of_nat (length (c :: rest)) <= lexer.DefaultMaxInputSize)%Z ->
    lexer.NextToken fuel (lexer.New (c :: rest) [])
    = lexer.readTextLine fuel (lexer.set_ctx (lexer.New (c :: rest) []) None).
Proof.
  intros fuel c rest Hplain Hsize.
  destruct (NextToken_first (c :: rest) Hsize) as (He0 & Hcc & Hp0).
  pose proof (New_wf (c :: rest) []) as (_ & Hsync).
  rewrite New_position, New_input in Hsync. cbn [skipn] in Hsync.
  destruct Hsync as (Hch & _).
  destruct (plainStart_rune c rest Hplain) as (Hne & Hdig).
  rewrite <- Hch in Hne, Hdig.
  unfold lexer.NextToken. rewrite He0, Hcc. cbv zeta.
  set (l0 := lexer.New (c :: rest) []) in *.
  change (lexer.ch (lexer.set_ctx l0 None)) with (lexer.ch l0).
  rewrite Hdig.
  repeat match type of Hne with
         | Forall _ (?k :: _) =>
             let H := fresh "H" in
             let Hne' := fresh "Hne" in
             inversion Hne as [|? ? H Hne']; subst; clear Hne;
             rename Hne' into Hne;
             apply Z.eqb_neq in H; rewrite ?H
         end.
  rewrite ?andb_false_r. cbn [orb]. reflexivity.
Qed.

(** X18. An input that is one line of plain text (its first byte is none
    of those the lexer dispatches on at a line start), with or without its
    newline, lexes as one TEXT token and parses without diagnostics to a
    document that holds exactly one Paragraph whose content is the line and
    whose inline elements are those of the line; [String()] of the document
    is the line followed by a newline. *)
Theorem X18_paragraph_line :
  forall fuel c rest tail order,
    spec.plainStart c = true ->
    Forall (fun b => spec.isEOLByte b = false) rest ->
    tail = [] \/ tail = [LF] ->
    length (c :: rest) + 3 < fuel ->
    (Z.of_nat (length (c :: rest) + 1) <= lexer.DefaultMaxInputSize)%Z ->
    exists d inline,
      parser.Parse fuel ((c :: rest) ++ tail) [] [] = Ok (d, []) /\
      parser.parseInlineElements fuel (c :: rest) = Ok inline /\
      ast.docChildren d
      = [ast.Paragraph (mkToken TEXT (c :: rest) 1 1) (c :: rest) inline] /\
      ast.DocumentString order d = Ok ((c :: rest) ++ [LF]).
Proof.
  intros fuel c rest tail order Hplain Hrest Htail Hf Hsize.
  set (line := c :: rest) in *.
  assert (Hlen : length (line ++ tail) <= length line + 1).
  { rewrite length_app. destruct Htail as [-> | ->]; simpl; lia. }
  assert (Hsize' : (Z.of_nat (length (line ++ tail))
                    <= lexer.DefaultMaxInputSize)%Z) by lia.
  assert (Hc : spec.isEOLByte c = false).
  { pose proof Hplain as Hp. unfold spec.plainStart in Hp.
    apply negb_true_iff in Hp.
    do 3 (apply orb_false_iff in Hp; destruct Hp as (Hp & _)).
    exact Hp. }
  destruct (first_line_token fuel line tail lexer.readTextLine
              (fun _ => TEXT)) as (l1 & E1 & Herr1 & Hctx1 & Hwf1 & Hskip).
  - constructor; assumption.
  - exact Htail.
  - lia.
  - exact Hsize'.
  - intros l. reflexivity.
  - apply (NextToken_plain fuel c (rest ++ tail) Hplain Hsize').
  - destruct (Parse_first_line fuel line tail _ l1 Htail
                ltac:(lia) Hsize' E1
                ltac:(discriminate) Herr1 Hctx1 Hwf1 Hskip)
      as (p & tokE & Hcur & Herrs & Hctx & HtypE & HE & Hpeek & Hparse).
    destruct (proj1 (inline_total fuel) line 0) as (inline & Hin); [lia|].
    assert (Hnode : parser.parseNode fuel p
                    = Ok (parser.NewNode
                            (ast.Paragraph (parser.curToken p) line inline),
                          p)).
    { unfold parser.parseNode, parser.parseParagraph,
        parser.parseInlineElements.
      rewrite Hcur. cbn [Typ Literal]. rewrite Hin. reflexivity. }
    exists (ast.mkDocument [ast.Paragraph (parser.curToken p) line inline]),
           inline.
    rewrite (Hparse _ _ Hnode eq_refl Hctx (or_introl eq_refl)), Herrs, Hcur.
    splits; try reflexivity.
    + exact Hin.
    + unfold ast.DocumentString.
      cbn [ast.docChildren fold_left bind ast.String app].
      rewrite ?app_nil_r. reflexivity.
Qed.

Lemma X18_paragraph_line_witness :
  exists d inline,
    parser.Parse 30 (lit "some *bold* text" ++ [LF]) [] [] = Ok (d, []) /\
    parser.parseInlineElements 30 (lit "some *bold* text") = Ok inline /\
    ast.docChildren d
    = [ast.Paragraph (mkToken TEXT (lit "some *bold* text") 1 1)
                     (lit "some *bold* text") inline] /\
    ast.DocumentString (fun m => m) d = Ok (lit "some *bold* text" ++ [LF]).
Proof.
  apply (X18_paragraph_line 30 "s"%char (lit "ome *bold* text") [LF]
           (fun m => m)).
  - reflexivity.
  - repeat constructor.
  - right. reflexivity.
  - simpl. lia.
  - vm_compute. discriminate.
Defined.

(** * C10: lines of dashes *)






